(** * ldesign-mindmap: node tree, command history, event bus and viewport

    A shallow embedding of the stateful cores of the mind-map widget and
    of the helpers they rest on:

    - [MindNode] (the node model): a store of node objects linked by
      [parent] references and [children] arrays, with the constructor,
      [addChild], [removeChild], [moveTo], [isDescendantOf], the tag
      operations, [toJSON], [fromJSON] and [clone]; the getters that
      walk up and down the tree, the traversals, the style calls and
      [expandAll]/[collapseAll];
    - the helpers on plain data trees ([traverseTree], [findNode],
      [findParentNode], [getNodePath], [countNodes], [getTreeDepth]) and
      on rectangles and bounds;
    - [CommandHistory] (the command-pattern base): two stacks and a
      re-entrancy flag, run against commands whose bodies may call back
      into the history;
    - [EventBus]: a map from event names to sets of handlers, run
      against handlers that may call back into the bus;
    - [Viewport] (the viewport manager): a translate-and-scale transform
      with clamped zoom, anchored zooming, dragging and timed animation.

    JavaScript numbers are modelled by rationals ([Q]): sums, products
    and quotients are exact where the program rounds to the nearest
    double, and every number is finite. [NaN] and the infinities have no
    counterpart among the rationals, so a division by zero is reported
    as an undefined result ([None]); [fitBounds], whose quotients are
    passed to [clamp], carries the infinities as far as [clamp] and is
    undefined only where the program computes [NaN]. The arithmetic of
    the calls that set the scale is repeated on binary64 floats
    ([Doubles]), where a call can be replayed with the rounding of the
    program. Definitions come first, the results about them follow. *)

From Stdlib Require Import ZArith QArith Lqa Lia.
From Stdlib Require PrimFloat FloatOps FloatAxioms SpecFloat.
From stdpp Require Import base option list gmap strings.

Set Default Proof Using "Type".

(** ** Plain JavaScript values *)

Module JS.

Set Warnings "-register-all".

(** The values a style field or the free-form payload of a node may
    hold: primitives, arrays and plain objects. *)
Inductive JSValue :=
| JUndefined
| JNull
| JBool (b : bool)
| JNum (q : Q)
| JStr (s : string)
| JArr (items : list JSValue)
| JObj (fields : list (string * JSValue)).

(** [deepClone] of helpers.ts: primitives are returned as they are,
    arrays are mapped, and every own property of an object is cloned. *)
Fixpoint deepClone (v : JSValue) : JSValue :=
  match v with
  | JArr items => JArr (map deepClone items)
  | JObj fields => JObj (map (fun kv => (fst kv, deepClone (snd kv))) fields)
  | _ => v
  end.

(** An object used as a record of named fields. *)
Abbreviation JSObject := (gmap string JSValue).

Definition deepClone_object (o : JSObject) : JSObject := deepClone <$> o.

(** Truthiness of a string: only the empty string is falsy. *)
Definition truthy (s : string) : bool := negb (String.eqb s "").

(** [s || d] for an optional string. *)
Definition string_or (o : option string) (d : string) : string :=
  match o with
  | Some s => if truthy s then s else d
  | None => d
  end.

(** [n || d] for an optional number: [undefined] and [0] are falsy. *)
Definition number_or (o : option Q) (d : Q) : Q :=
  match o with
  | Some v => if Qeq_bool v 0 then d else v
  | None => d
  end.

End JS.

(** ** The node model: [MindNode] *)

Module MindNode.
Import JS.

Set Warnings "-register-all".

(** [RichTextContent] of the type definitions. *)
Record RichTextContent := mkRich {
  rt_text : string;
  rt_bold : option bool;
  rt_italic : option bool;
  rt_underline : option bool;
  rt_strikethrough : option bool;
  rt_color : option string;
  rt_backgroundColor : option string;
  rt_fontSize : option Q;
  rt_link : option string
}.

(** [string | RichTextContent[]]. *)
Inductive Text :=
| Plain (s : string)
| Rich (runs : list RichTextContent).

(** [deepClone] at the type of a text: a string is a primitive, an
    array of runs is rebuilt run by run and property by property. *)
Definition deepClone_run (r : RichTextContent) : RichTextContent :=
  mkRich (rt_text r) (rt_bold r) (rt_italic r) (rt_underline r)
         (rt_strikethrough r) (rt_color r) (rt_backgroundColor r)
         (rt_fontSize r) (rt_link r).

Definition deepClone_text (t : Text) : Text :=
  match t with
  | Plain s => Plain s
  | Rich runs => Rich (map deepClone_run runs)
  end.

(** [data.text || '新节点']: an empty string is falsy, an array never. *)
Definition defaultText : Text := Plain "新节点".

Definition text_or_default (o : option Text) : Text :=
  match o with
  | Some (Plain s) => if truthy s then Plain s else defaultText
  | Some (Rich runs) => Rich runs
  | None => defaultText
  end.

(** [NodeStyle]: a record of optional fields, kept as a finite map from
    field names to values. *)
Abbreviation NodeStyle := (gmap string JSValue).

(** The double-quote character. *)
Definition quote : string := String (Ascii.ascii_of_nat 34) EmptyString.

(** [DEFAULT_NODE_STYLE] of the constants file. *)
Definition DEFAULT_NODE_STYLE : NodeStyle :=
  list_to_map
    [ ("backgroundColor", JStr "#ffffff");
      ("borderColor", JStr "#3b82f6");
      ("textColor", JStr "#1f2937");
      ("borderWidth", JNum 2);
      ("borderStyle", JStr "solid");
      ("borderRadius", JNum 4);
      ("shape", JStr "rounded");
      ("width", JStr "auto");
      ("height", JStr "auto");
      ("padding", JArr [JNum 12; JNum 20; JNum 12; JNum 20]);
      ("fontSize", JNum 14);
      ("fontFamily",
       JStr ("-apple-system, BlinkMacSystemFont, " +:+ quote +:+ "Segoe UI"
             +:+ quote +:+ ", Roboto, sans-serif"));
      ("fontWeight", JStr "400");
      ("fontStyle", JStr "normal");
      ("textAlign", JStr "center");
      ("textDecoration", JStr "none");
      ("opacity", JNum 1) ].

(** [Object.assign(result, style)]: the fields of [style] win. *)
Definition Object_assign (result style : NodeStyle) : NodeStyle := style ∪ result.

(** [mergeStyle(...styles)]: starts from a copy of the default style and
    assigns every style that is given. *)
Definition mergeStyle (styles : list (option NodeStyle)) : NodeStyle :=
  foldl (fun result style =>
           match style with
           | Some st => Object_assign result st
           | None => result
           end)
        DEFAULT_NODE_STYLE styles.

(** [NodeData]: the plain record a node is built from and serialised
    to; an absent key is [None]. *)
Inductive NodeData := mkNodeData {
  d_id : option string;
  d_text : option Text;
  d_children : option (list NodeData);
  d_style : option NodeStyle;
  d_expanded : option bool;
  d_selected : option bool;
  d_hidden : option bool;
  d_tags : option (list string);
  d_type : option string;
  d_data : option JSObject;
  d_x : option Q;
  d_y : option Q;
  d_width : option Q;
  d_height : option Q
}.

Definition emptyData : NodeData :=
  mkNodeData None None None None None None None None None None None None None None.

(** Node objects live in a store and are referred to by their address. *)
Abbreviation addr := nat.

(** The fields of a [MindNode] (the rectangle and centre caches play no
    part in what follows and are left out). *)
Record Node := mkNode {
  node_id : string;
  text : Text;
  children : list addr;
  parent : option addr;
  style : NodeStyle;
  data : JSObject;
  expanded : bool;
  selected : bool;
  hidden : bool;
  tags : list string;
  node_type : option string;
  x : Q;
  y : Q;
  width : Q;
  height : Q
}.

Definition set_children (cs : list addr) (n : Node) : Node :=
  mkNode (node_id n) (text n) cs (parent n) (style n) (data n) (expanded n)
         (selected n) (hidden n) (tags n) (node_type n) (x n) (y n) (width n) (height n).

Definition set_parent (p : option addr) (n : Node) : Node :=
  mkNode (node_id n) (text n) (children n) p (style n) (data n) (expanded n)
         (selected n) (hidden n) (tags n) (node_type n) (x n) (y n) (width n) (height n).

Definition set_tags (ts : list string) (n : Node) : Node :=
  mkNode (node_id n) (text n) (children n) (parent n) (style n) (data n) (expanded n)
         (selected n) (hidden n) ts (node_type n) (x n) (y n) (width n) (height n).

Definition set_text (t : Text) (n : Node) : Node :=
  mkNode (node_id n) t (children n) (parent n) (style n) (data n) (expanded n)
         (selected n) (hidden n) (tags n) (node_type n) (x n) (y n) (width n) (height n).

(** The store: the node objects allocated so far, by address, and the
    number of identifiers generated so far. *)
Record World := mkWorld {
  nodes : list Node;
  generated : nat
}.

Definition emptyWorld : World := mkWorld [] 0.

Definition with_nodes (w : World) (l : list Node) : World :=
  mkWorld l (generated w).

Definition update (a : addr) (f : Node -> Node) (w : World) : World :=
  with_nodes w (alter f a (nodes w)).

#[global] Arguments update : simpl never.

Definition children_of (w : World) (a : addr) : list addr :=
  match nodes w !! a with Some n => children n | None => [] end.

Definition parent_of (w : World) (a : addr) : option addr :=
  match nodes w !! a with Some n => parent n | None => None end.

Definition tags_of (w : World) (a : addr) : list string :=
  match nodes w !! a with Some n => tags n | None => [] end.

Section WithEntropy.

(** What [Date.now()] and [Math.random().toString(36).substr(2, 9)]
    give at the i-th call of [generateId]. *)
Variable entropy : nat -> string * string.

(** The identifier made at the i-th call of [generateId(prefix)]:
    [`${prefix}_${Date.now()}_${random}`]. *)
Definition fresh_id (prefix : string) (i : nat) : string :=
  let '(now, random) := entropy i in
  prefix +:+ "_" +:+ now +:+ "_" +:+ random.

Definition generateId (prefix : string) (w : World) : string * World :=
  (fresh_id prefix (generated w), mkWorld (nodes w) (S (generated w))).

(** [data.children.map(childData => ...)] in the constructor: each
    child is built by [ctor] and then pointed back to [this]. *)
Definition build_children (ctor : NodeData -> World -> addr * World)
    (this : addr) : list NodeData -> World -> list addr * World :=
  fix build (l : list NodeData) (w : World) : list addr * World :=
    match l with
    | [] => ([], w)
    | childData :: rest =>
        let '(child, w) := ctor childData w in
        let w := update child (set_parent (Some this)) w in
        let '(cs, w) := build rest w in
        (child :: cs, w)
    end.

(** The node as the constructor first fills it in, before any child is
    built. *)
Definition initial_node (i : string) (d : NodeData) : Node :=
  {| node_id := i;
     text := text_or_default (d_text d);
     children := [];
     parent := None;
     style := mergeStyle [Some DEFAULT_NODE_STYLE; d_style d];
     data := default ∅ (d_data d);
     expanded := negb (bool_decide (d_expanded d = Some false));
     selected := default false (d_selected d);
     hidden := default false (d_hidden d);
     tags := default [] (d_tags d);
     node_type := d_type d;
     x := number_or (d_x d) 0;
     y := number_or (d_y d) 0;
     width := number_or (d_width d) 0;
     height := number_or (d_height d) 0 |}.

(** [data.id || generateId('node')]. *)
Definition id_or_generate (o : option string) (w : World) : string * World :=
  match o with
  | Some s => if truthy s then (s, w) else generateId "node" w
  | None => generateId "node" w
  end.

(** [new MindNode(data)]: allocates the node, then builds its children
    from left to right and points each of them back to it. *)
Fixpoint constructor (d : NodeData) (w : World) {struct d} : addr * World :=
  let this := length (nodes w) in
  let '(i, w) := id_or_generate (d_id d) w in
  let w := with_nodes w (nodes w ++ [initial_node i d]) in
  match d with
  | mkNodeData _ _ (Some l) _ _ _ _ _ _ _ _ _ _ _ =>
      let '(cs, w) := build_children constructor this l w in
      (this, update this (set_children cs) w)
  | _ => (this, w)
  end.

(** [Array.prototype.splice(index, 0, item)] for an index within the
    array. *)
Definition splice_in (index : nat) (item : addr) (l : list addr) : list addr :=
  take index l ++ item :: drop index l.

(** Where [addChild] puts the child: at [index] when it is a number
    with [0 <= index <= length], at the end otherwise. *)
Definition place (child : addr) (index : option Z) (cs : list addr) : list addr :=
  match index with
  | Some i =>
      if ((0 <=? i) && (i <=? Z.of_nat (length cs)))%Z
      then splice_in (Z.to_nat i) child cs
      else cs ++ [child]
  | None => cs ++ [child]
  end.

(** [addChild(child, index)] for a child that is already a [MindNode]. *)
Definition addChild_node (this child : addr) (index : option Z) (w : World)
    : addr * World :=
  let w := update child (set_parent (Some this)) w in
  let w := update this (set_children (place child index (children_of w this))) w in
  (child, w).

(** [addChild(data, index)]: a data record is first made into a node. *)
Definition addChild (this : addr) (arg : NodeData + addr) (index : option Z)
    (w : World) : addr * World :=
  match arg with
  | inl d => let '(child, w) := constructor d w in addChild_node this child index w
  | inr child => addChild_node this child index w
  end.

(** The index [removeChild] looks for: by identifier ([findIndex]) or by
    reference ([indexOf]). *)
Definition child_index (w : World) (this : addr) (child : addr + string)
    : option nat :=
  match child with
  | inl c => fst <$> list_find (fun k => k = c) (children_of w this)
  | inr i =>
      fst <$> list_find (fun k => node_id <$> nodes w !! k = Some i)
                (children_of w this)
  end.

Definition removeChild (this : addr) (child : addr + string) (w : World)
    : bool * World :=
  match child_index w this child with
  | Some index =>
      match children_of w this !! index with
      | Some removedChild =>
          let w := update removedChild (set_parent None) w in
          (true, update this (set_children (delete index (children_of w this))) w)
      | None => (false, w)
      end
  | None => (false, w)
  end.

Definition removeAllChildren (this : addr) (w : World) : World :=
  let w := foldl (fun w c => update c (set_parent None) w) w (children_of w this) in
  update this (set_children []) w.

Definition remove (this : addr) (w : World) : bool * World :=
  match parent_of w this with
  | Some p => removeChild p (inl this) w
  | None => (false, w)
  end.

(** The loop of [isDescendantOf]: [current] walks up the parent
    references until it meets [node] or runs off the root. *)
Fixpoint walk_up (fuel : nat) (w : World) (current : option addr) (node : addr)
    : option bool :=
  match current with
  | None => Some false
  | Some c =>
      if bool_decide (c = node) then Some true
      else
        match fuel with
        | O => None
        | S fuel' => walk_up fuel' w (parent_of w c) node
        end
  end.

Definition isDescendantOf (fuel : nat) (w : World) (this node : addr)
    : option bool :=
  walk_up fuel w (parent_of w this) node.

Definition isAncestorOf (fuel : nat) (w : World) (this node : addr)
    : option bool :=
  isDescendantOf fuel w node this.

(** [moveTo(newParent, index)]; [None] when the ancestor walk does not
    end within [fuel] steps. *)
Definition moveTo (fuel : nat) (this newParent : addr) (index : option Z)
    (w : World) : option (bool * World) :=
  if bool_decide (newParent = this) then Some (false, w)
  else
    descends ← isDescendantOf fuel w newParent this;
    if descends : bool then Some (false, w)
    else
      let w :=
        match parent_of w this with
        | Some p => snd (removeChild p (inl this) w)
        | None => w
        end in
      Some (true, snd (addChild_node newParent this index w)).

(** Tags. *)
Definition hasTag (this : addr) (tag : string) (w : World) : bool :=
  bool_decide (tag ∈ tags_of w this).

Definition addTag (this : addr) (tag : string) (w : World) : World :=
  if hasTag this tag w then w
  else update this (fun n => set_tags (tags n ++ [tag]) n) w.

Definition removeTag (this : addr) (tag : string) (w : World) : World :=
  match list_find (fun t => t = tag) (tags_of w this) with
  | Some (index, _) => update this (fun n => set_tags (delete index (tags n)) n) w
  | None => w
  end.

Definition setText (this : addr) (t : Text) (w : World) : World :=
  update this (set_text t) w.

(** [toJSON()]: [children] is left out when there are none and [type]
    when it is falsy. [None] when the recursion through the children
    does not end within [fuel] levels. *)
Fixpoint toJSON (fuel : nat) (w : World) (this : addr) : option NodeData :=
  match fuel with
  | O => None
  | S fuel' =>
      n ← nodes w !! this;
      cs ← mapM (toJSON fuel' w) (children n);
      Some {| d_id := Some (node_id n);
              d_text := Some (deepClone_text (text n));
              d_children := if bool_decide (0 < length cs) then Some cs else None;
              d_style := Some (deepClone_object (style n));
              d_expanded := Some (expanded n);
              d_selected := Some (selected n);
              d_hidden := Some (hidden n);
              d_tags := Some (tags n);
              d_type := match node_type n with
                        | Some t => if truthy t then Some t else None
                        | None => None
                        end;
              d_data := Some (deepClone_object (data n));
              d_x := None; d_y := None; d_width := None; d_height := None |}
  end.

Definition fromJSON (d : NodeData) (w : World) : addr * World := constructor d w.

Definition with_id (i : string) (d : NodeData) : NodeData :=
  mkNodeData (Some i) (d_text d) (d_children d) (d_style d) (d_expanded d)
             (d_selected d) (d_hidden d) (d_tags d) (d_type d) (d_data d)
             (d_x d) (d_y d) (d_width d) (d_height d).

Definition without_children (d : NodeData) : NodeData :=
  mkNodeData (d_id d) (d_text d) None (d_style d) (d_expanded d)
             (d_selected d) (d_hidden d) (d_tags d) (d_type d) (d_data d)
             (d_x d) (d_y d) (d_width d) (d_height d).

(** [clone(includeChildren)]. *)
Definition clone (fuel : nat) (includeChildren : bool) (this : addr) (w : World)
    : option (addr * World) :=
  clonedData ← toJSON fuel w this;
  let clonedData := if includeChildren then clonedData else without_children clonedData in
  let '(i, w) := generateId "node" w in
  Some (constructor (with_id i clonedData) w).

End WithEntropy.

(** *** The content of a subtree *)

(** What a subtree holds, apart from geometry and the parent link. *)
Inductive Tree := TNode {
  t_id : string;
  t_text : Text;
  t_style : NodeStyle;
  t_data : JSObject;
  t_expanded : bool;
  t_selected : bool;
  t_hidden : bool;
  t_tags : list string;
  t_type : option string;
  t_children : list Tree
}.

(** Reads the subtree below [this] off the store; [None] when the
    children do not bottom out within [fuel] levels. *)
Fixpoint snapshot (fuel : nat) (w : World) (this : addr) : option Tree :=
  match fuel with
  | O => None
  | S fuel' =>
      n ← nodes w !! this;
      ts ← mapM (snapshot fuel' w) (children n);
      Some (TNode (node_id n) (text n) (style n) (data n) (expanded n)
                  (selected n) (hidden n) (tags n) (node_type n) ts)
  end.

Fixpoint tree_height (t : Tree) : nat :=
  S (foldr (fun c m => Nat.max (tree_height c) m) 0 (t_children t)).

(** A tree in which every empty [type] string has become absent. *)
Fixpoint without_empty_type (t : Tree) : Tree :=
  TNode (t_id t) (t_text t) (t_style t) (t_data t) (t_expanded t)
        (t_selected t) (t_hidden t) (t_tags t)
        (match t_type t with
         | Some s => if truthy s then Some s else None
         | None => None
         end)
        (map without_empty_type (t_children t)).

(** All identifiers of a tree, in pre-order. *)
Fixpoint ids (t : Tree) : list string :=
  t_id t :: concat (map ids (t_children t)).

(** The store holds the tree [t] at address [a]: the node at [a] has the
    fields of the root of [t], and its children, which all lie at
    higher addresses, hold the subtrees of [t] in order. *)
Fixpoint holds (l : list Node) (a : addr) (t : Tree) {struct t} : Prop :=
  exists n : Node,
    l !! a = Some n /\
    node_id n = t_id t /\ text n = t_text t /\ style n = t_style t /\
    data n = t_data t /\ expanded n = t_expanded t /\
    selected n = t_selected t /\ hidden n = t_hidden t /\
    tags n = t_tags t /\ node_type n = t_type t /\
    (fix all (cs : list addr) (ts : list Tree) {struct ts} : Prop :=
       match cs, ts with
       | [], [] => True
       | c :: cs', t' :: ts' => a < c /\ holds l c t' /\ all cs' ts'
       | _, _ => False
       end) (children n) (t_children t).

Section Built.

Variable entropy : nat -> string * string.

(** [data.id || generateId('node')] on the count of generated
    identifiers alone. *)
Definition id_or_fresh (o : option string) (g : nat) : string * nat :=
  match o with
  | Some s => if truthy s then (s, g) else (fresh_id entropy "node" g, S g)
  | None => (fresh_id entropy "node" g, S g)
  end.

Definition built_children (f : NodeData -> nat -> Tree * nat)
    : list NodeData -> nat -> list Tree * nat :=
  fix go (l : list NodeData) (g : nat) : list Tree * nat :=
    match l with
    | [] => ([], g)
    | d :: rest =>
        let '(t, g) := f d g in
        let '(ts, g) := go rest g in
        (t :: ts, g)
    end.

(** The tree the constructor builds from a data record when [g]
    identifiers have been generated before, and the count afterwards. *)
Fixpoint built (d : NodeData) (g : nat) {struct d} : Tree * nat :=
  let '(i, g) := id_or_fresh (d_id d) g in
  let '(ts, g) :=
    match d with
    | mkNodeData _ _ (Some l) _ _ _ _ _ _ _ _ _ _ _ => built_children built l g
    | _ => ([], g)
    end in
  (TNode i (text_or_default (d_text d))
         (mergeStyle [Some DEFAULT_NODE_STYLE; d_style d])
         (default ∅ (d_data d))
         (negb (bool_decide (d_expanded d = Some false)))
         (default false (d_selected d)) (default false (d_hidden d))
         (default [] (d_tags d)) (d_type d) ts,
   g).

End Built.

(** What [toJSON] writes for a subtree. *)
Fixpoint serialised (t : Tree) : NodeData :=
  {| d_id := Some (t_id t);
     d_text := Some (deepClone_text (t_text t));
     d_children := match t_children t with
                   | [] => None
                   | ts => Some (map serialised ts)
                   end;
     d_style := Some (deepClone_object (t_style t));
     d_expanded := Some (t_expanded t);
     d_selected := Some (t_selected t);
     d_hidden := Some (t_hidden t);
     d_tags := Some (t_tags t);
     d_type := match t_type t with
               | Some s => if truthy s then Some s else None
               | None => None
               end;
     d_data := Some (deepClone_object (t_data t));
     d_x := None; d_y := None; d_width := None; d_height := None |}.

(** *** Ancestors and descendants *)

(** The parent references from [current] upwards run off the root
    within [fuel] steps. *)
Fixpoint reaches_root (fuel : nat) (w : World) (current : option addr) : bool :=
  match current with
  | None => true
  | Some c =>
      match fuel with
      | O => false
      | S fuel' => reaches_root fuel' w (parent_of w c)
      end
  end.

(** [n] is met when walking up the parent references from [c]. *)
Inductive ancestor (w : World) (n : addr) : addr -> Prop :=
| ancestor_parent (c : addr) :
    parent_of w c = Some n -> ancestor w n c
| ancestor_step (c q : addr) :
    parent_of w c = Some q -> ancestor w n q -> ancestor w n c.

(** [d] is met when walking down the children arrays from [n]: it is
    one of [n.descendants]. *)
Inductive below (w : World) : addr -> addr -> Prop :=
| below_child (n c : addr) :
    c ∈ children_of w n -> below w n c
| below_step (n c d : addr) :
    c ∈ children_of w n -> below w c d -> below w n d.

(** Every parent reference points to a lower address, as in the stores
    the constructor builds: a sufficient condition for invariant I1. *)
Definition parents_below (w : World) : Prop :=
  forall a q : addr, parent_of w a = Some q -> q < a.

(** Invariant I2: the children arrays and the parent references say
    the same. *)
Definition consistent (w : World) : Prop :=
  forall c q : addr, c ∈ children_of w q <-> parent_of w c = Some q.

(** [l'] is [l] without the first occurrence of [n], if there is one. *)
Definition detached (n : addr) (l l' : list addr) : Prop :=
  ((n ∉ l) /\ l' = l) \/
  (exists l1 l2, l = l1 ++ n :: l2 /\ (n ∉ l1) /\ l' = l1 ++ l2).

(** *** The insertion index as the specification words it *)

(** [clamp(index, 0, k)]. *)
Definition clamp_index (index : Z) (k : nat) : nat :=
  Z.to_nat (Z.max 0 (Z.min index (Z.of_nat k))).

(** [addChild] inserts at the clamped index. *)
Definition addChild_clamps (w : World) (this child : addr) (index : Z) : Prop :=
  children_of (snd (addChild_node this child (Some index) w)) this
  = splice_in (clamp_index index (length (children_of w this))) child
              (children_of w this).

(** *** Notions used to state what the constructor does *)

(** Induction on a data record together with the records of its
    children. *)
Fixpoint NodeData_nested_ind (P : NodeData -> Prop)
    (step : forall d : NodeData,
        (forall l, d_children d = Some l -> Forall P l) -> P d)
    (d : NodeData) {struct d} : P d.
Proof.
  apply step. destruct d as [? ? ochildren ? ? ? ? ? ? ? ? ? ? ?]; simpl.
  destruct ochildren as [l0|]; intros l H; [| discriminate].
  injection H as <-.
  exact ((fix all (l : list NodeData) : Forall P l :=
            match l with
            | [] => Forall_nil_2 P
            | c :: r => Forall_cons_2 P c r (NodeData_nested_ind P step c) (all r)
            end) l0).
Defined.

(** Induction on a tree together with its subtrees. *)
Fixpoint Tree_nested_ind (P : Tree -> Prop)
    (step : forall t : Tree, Forall P (t_children t) -> P t)
    (t : Tree) {struct t} : P t.
Proof.
  apply step. destruct t as [? ? ? ? ? ? ? ? ? ts]; simpl.
  exact ((fix all (l : list Tree) : Forall P l :=
            match l with
            | [] => Forall_nil_2 P
            | c :: r => Forall_cons_2 P c r (Tree_nested_ind P step c) (all r)
            end) ts).
Defined.

(** All fields but the parent link. *)
Definition content (n : Node) : Node := set_parent None n.

(** What holds between the store before and after a construction: the
    store has grown and what was there is as it was. *)
Definition extends (w w' : World) : Prop :=
  length (nodes w) <= length (nodes w') /\
  generated w <= generated w' /\
  forall b, b < length (nodes w) -> nodes w' !! b = nodes w !! b.

Section Properties.

Variable entropy : nat -> string * string.

(** The property of one data record that the induction carries. *)
Definition constructs (d : NodeData) : Prop :=
  forall w : World,
    generated (snd (constructor entropy d w)) = snd (built entropy d (generated w)) /\
    holds (nodes (snd (constructor entropy d w))) (fst (constructor entropy d w))
          (fst (built entropy d (generated w))).

(** The property of one data record carried by the induction: building
    from the serialised form of what it built gives the same tree, up
    to empty types, and generates no identifier. *)
Definition rebuilds (d : NodeData) : Prop :=
  forall g g' : nat,
    built entropy (serialised (fst (built entropy d g))) g'
    = (without_empty_type (fst (built entropy d g)), g').

End Properties.

(** *** Sequences of tag operations *)

Inductive TagOp :=
| AddTag (tag : string)
| RemoveTag (tag : string).

Definition apply_tag_op (this : addr) (w : World) (o : TagOp) : World :=
  match o with
  | AddTag tag => addTag this tag w
  | RemoveTag tag => removeTag this tag w
  end.

Definition run_tag_ops (this : addr) (ops : list TagOp) (w : World) : World :=
  foldl (apply_tag_op this) w ops.

(** A tree under another root identifier. *)
Definition with_root_id (i : string) (t : Tree) : Tree :=
  TNode i (t_text t) (t_style t) (t_data t) (t_expanded t) (t_selected t)
        (t_hidden t) (t_tags t) (t_type t) (t_children t).

(** *** The round trip as the specification words it *)


(** *** Sample data *)

Definition sample_entropy (i : nat) : string * string :=
  ("17000000" +:+ String (Ascii.ascii_of_nat (48 + i mod 10)) EmptyString,
   "k3x9q2m1z").

Definition leaf (i : string) : NodeData :=
  mkNodeData (Some i) None None None None None None None None None None None None None.

Definition branch (i : string) (l : list NodeData) : NodeData :=
  mkNodeData (Some i) None (Some l) None None None None None None None None None None None.

(** A root [r] with children [a] and [b], and [c] below [b]; the nodes
    get the addresses 0, 1, 2 and 3. *)
Definition sample_world : World :=
  snd (constructor sample_entropy
         (branch "r" [leaf "a"; branch "b" [leaf "c"]]) emptyWorld).

(** A record whose tags repeat an entry. *)
Definition repeated_tags : NodeData :=
  mkNodeData (Some "n") None None None None None None (Some ["a"; "a"]) None
             None None None None None.

Definition tagged (l : list string) : NodeData :=
  mkNodeData (Some "n") None None None None None None (Some l) None
             None None None None None.

Definition sample_tag_ops : list TagOp :=
  [AddTag "x"; AddTag "a"; RemoveTag "b"; AddTag "x"; RemoveTag "z"; AddTag "b"].

(** A root [r] (address 0) with one child [a] (address 1), and a node
    [c] (address 2) of its own. *)
Definition two_trees : World :=
  snd (constructor sample_entropy (leaf "c")
         (snd (constructor sample_entropy (branch "r" [leaf "a"]) emptyWorld))).

(** [a.addChild(r)] on these trees: [addChild] does not look at the
    ancestors of the node it is called on, so [r] and [a] are now the
    parent of each other. *)
Definition looped_world : World :=
  snd (addChild sample_entropy 1 (inr 0) None two_trees).

(** [c.addChild(a)] on the same trees: [addChild] does not detach, so
    [a] has the parent [c] and is still listed in [r.children]. *)
Definition crossed_world : World :=
  snd (addChild sample_entropy 2 (inr 1) None two_trees).

End MindNode.

(** ** The helpers on data trees: traversal, search, paths and sizes *)

Module TreeHelpers.
Import JS MindNode.

(** [node.children] when it is present, for [if (node.children)]. *)
Definition children_or_none (node : NodeData) : list NodeData :=
  default [] (d_children node).

Section Traverse.

(** What the callback reads and writes outside of its arguments. *)
Context {St : Type}.

(** The callback: its result says whether the traversal goes on below
    the node ([false] for a returned [false], [true] for anything
    else), next to what it did to its variables. *)
Variable callback : NodeData -> nat -> option NodeData -> St -> bool * St.

(** [traverseTree(node, callback, depth, parent)]. *)
Fixpoint traverseTree (node : NodeData) (depth : nat) (parent : option NodeData)
    (s : St) {struct node} : St :=
  let '(shouldContinue, s) := callback node depth parent s in
  if shouldContinue then
    match node with
    | mkNodeData _ _ (Some l) _ _ _ _ _ _ _ _ _ _ _ =>
        (fix each (l : list NodeData) (s : St) : St :=
           match l with
           | [] => s
           | child :: rest =>
               each rest (traverseTree child (S depth) (Some node) s)
           end) l s
    | _ => s
    end
  else s.

(** The loop of [traverseTree] over the children of [node]. *)
Definition traverse_each (node : NodeData) (depth : nat)
    : list NodeData -> St -> St :=
  fix each (l : list NodeData) (s : St) : St :=
    match l with
    | [] => s
    | child :: rest => each rest (traverseTree child (S depth) (Some node) s)
    end.

End Traverse.

(** [findNode(root, predicate)]. *)
Definition findNode (root : NodeData) (predicate : NodeData -> bool)
    : option NodeData :=
  traverseTree
    (fun node _ _ result =>
       if predicate node then (false, Some node) else (true, result))
    root 0 None None.

(** The test in the callback of [findParentNode]: some child of [node]
    has the identifier [targetId]. *)
Definition has_child (targetId : string) (node : NodeData) : bool :=
  existsb (fun child => bool_decide (d_id child = Some targetId))
          (children_or_none node).

(** [findParentNode(root, targetId)]. *)
Definition findParentNode (root : NodeData) (targetId : string)
    : option NodeData :=
  traverseTree
    (fun node _ _ parent =>
       if has_child targetId node then (false, Some node) else (true, parent))
    root 0 None None.

(** [findPath] inside [getNodePath]: [path] is the array the closure
    pushes to and pops from. *)
Fixpoint findPath (targetId : string) (node : NodeData) (path : list NodeData)
    {struct node} : bool * list NodeData :=
  let path := path ++ [node] in
  if bool_decide (d_id node = Some targetId) then (true, path)
  else
    let '(found, path) :=
      match node with
      | mkNodeData _ _ (Some l) _ _ _ _ _ _ _ _ _ _ _ =>
          (fix each (l : list NodeData) (path : list NodeData)
               : bool * list NodeData :=
             match l with
             | [] => (false, path)
             | child :: rest =>
                 let '(found, path) := findPath targetId child path in
                 if found then (true, path) else each rest path
             end) l path
      | _ => (false, path)
      end in
    if found then (true, path) else (false, removelast path).

Definition findPath_each (targetId : string)
    : list NodeData -> list NodeData -> bool * list NodeData :=
  fix each (l : list NodeData) (path : list NodeData) : bool * list NodeData :=
    match l with
    | [] => (false, path)
    | child :: rest =>
        let '(found, path) := findPath targetId child path in
        if found then (true, path) else each rest path
    end.

(** [getNodePath(root, targetId)]. *)
Definition getNodePath (root : NodeData) (targetId : string) : list NodeData :=
  snd (findPath targetId root []).

(** [countNodes(node)]. *)
Fixpoint countNodes (node : NodeData) : nat :=
  match node with
  | mkNodeData _ _ (Some l) _ _ _ _ _ _ _ _ _ _ _ =>
      (fix each (l : list NodeData) (count : nat) : nat :=
         match l with
         | [] => count
         | child :: rest => each rest (count + countNodes child)
         end) l 1
  | _ => 1
  end.

(** [getTreeDepth(node)]. *)
Fixpoint getTreeDepth (node : NodeData) : nat :=
  match node with
  | mkNodeData _ _ (Some l) _ _ _ _ _ _ _ _ _ _ _ =>
      if Nat.eqb (length l) 0 then 1
      else
        (fix each (l : list NodeData) (maxDepth : nat) : nat :=
           match l with
           | [] => maxDepth
           | child :: rest => each rest (Nat.max maxDepth (getTreeDepth child))
           end) l 0 + 1
  | _ => 1
  end.

(** A callback that notes every call and never stops the traversal. *)
Definition note_visit (node : NodeData) (depth : nat) (parent : option NodeData)
    (seen : list (NodeData * nat * option NodeData))
    : bool * list (NodeData * nat * option NodeData) :=
  (true, seen ++ [(node, depth, parent)]).

(** The calls [traverseTree] makes from [root] when nothing stops it. *)
Definition visits (root : NodeData) : list (NodeData * nat * option NodeData) :=
  traverseTree note_visit root 0 None [].

(** The calls made from [node] at a given depth under a given parent. *)
Definition visits_from (node : NodeData) (depth : nat) (parent : option NodeData)
    : list (NodeData * nat * option NodeData) :=
  traverseTree note_visit node depth parent [].

(** The records an unstopped traversal is called with, in order. *)
Definition visited (root : NodeData) : list NodeData :=
  map (fun v => v.1.1) (visits root).

(** Each record of the list is a child of the one before it. *)
Fixpoint chain (path : list NodeData) : Prop :=
  match path with
  | [] => True
  | node :: rest =>
      match rest with
      | [] => True
      | child :: _ => child ∈ children_or_none node /\ chain rest
      end
  end.

(** A data tree for the examples: [r] with children [a] and [b], and
    [c] below [b]. *)
Definition sample_data : NodeData :=
  branch "r" [leaf "a"; branch "b" [leaf "c"]].

End TreeHelpers.
(** ** The node model: queries, traversal and flags *)

Module NodeQueries.
Import JS MindNode.

Definition set_expanded (b : bool) (n : Node) : Node :=
  mkNode (node_id n) (text n) (children n) (parent n) (style n) (data n) b
         (selected n) (hidden n) (tags n) (node_type n) (x n) (y n) (width n) (height n).

Definition set_style (st : NodeStyle) (n : Node) : Node :=
  mkNode (node_id n) (text n) (children n) (parent n) st (data n) (expanded n)
         (selected n) (hidden n) (tags n) (node_type n) (x n) (y n) (width n) (height n).

Definition style_of (w : World) (a : addr) : NodeStyle :=
  match nodes w !! a with Some n => style n | None => ∅ end.

(** The getter [isRoot]. *)
Definition isRoot (w : World) (this : addr) : bool :=
  bool_decide (parent_of w this = None).

(** The loop of the getter [depth]: [None] when it does not end within
    [fuel] steps. *)
Fixpoint depth_loop (fuel : nat) (w : World) (node : addr) (depth : nat)
    {struct fuel} : option nat :=
  match parent_of w node with
  | None => Some depth
  | Some p =>
      match fuel with
      | O => None
      | S fuel' => depth_loop fuel' w p (S depth)
      end
  end.

Definition depth (fuel : nat) (w : World) (this : addr) : option nat :=
  depth_loop fuel w this 0.

Definition level (fuel : nat) (w : World) (this : addr) : option nat :=
  d ← depth fuel w this; Some (d + 1).

(** The getter [root]. *)
Fixpoint root (fuel : nat) (w : World) (node : addr) {struct fuel} : option addr :=
  match parent_of w node with
  | None => Some node
  | Some p =>
      match fuel with
      | O => None
      | S fuel' => root fuel' w p
      end
  end.

(** The loop of the getter [ancestors]. *)
Fixpoint ancestors_loop (fuel : nat) (w : World) (node : option addr)
    (result : list addr) {struct fuel} : option (list addr) :=
  match node with
  | None => Some result
  | Some n =>
      match fuel with
      | O => None
      | S fuel' => ancestors_loop fuel' w (parent_of w n) (result ++ [n])
      end
  end.

Definition ancestors (fuel : nat) (w : World) (this : addr) : option (list addr) :=
  ancestors_loop fuel w (parent_of w this) [].

(** The getter [siblings]. *)
Definition siblings (w : World) (this : addr) : list addr :=
  match parent_of w this with
  | Some p => filter (fun child => child <> this) (children_of w p)
  | None => []
  end.

(** [Array.prototype.indexOf]: -1 when the item is not there. *)
Definition indexOf (item : addr) (l : list addr) : Z :=
  match list_find (fun k => k = item) l with
  | Some (i, _) => Z.of_nat i
  | None => (-1)%Z
  end.

(** The getters [previousSibling] and [nextSibling]. *)
Definition previousSibling (w : World) (this : addr) : option addr :=
  match parent_of w this with
  | Some p =>
      let index := indexOf this (children_of w p) in
      if (0 <? index)%Z then children_of w p !! Z.to_nat (index - 1) else None
  | None => None
  end.

Definition nextSibling (w : World) (this : addr) : option addr :=
  match parent_of w this with
  | Some p =>
      let index := indexOf this (children_of w p) in
      if (index <? Z.of_nat (length (children_of w p)) - 1)%Z
      then children_of w p !! Z.to_nat (index + 1)
      else None
  | None => None
  end.

(** [for (const child of children) ...] with a body that may not
    return. *)
Definition for_each {St : Type} (body : addr -> St -> option St)
    : list addr -> St -> option St :=
  fix each (l : list addr) (s : St) : option St :=
    match l with
    | [] => Some s
    | child :: rest =>
        match body child s with
        | Some s' => each rest s'
        | None => None
        end
    end.

(** The getter [descendants]: [traverse] pushes each child and then
    what is below it. *)
Fixpoint descendants_loop (fuel : nat) (w : World) (node : addr)
    (result : list addr) {struct fuel} : option (list addr) :=
  match fuel with
  | O => None
  | S fuel' =>
      for_each (fun child result => descendants_loop fuel' w child (result ++ [child]))
               (children_of w node) result
  end.

Definition descendants (fuel : nat) (w : World) (this : addr)
    : option (list addr) :=
  descendants_loop fuel w this [].

Section Traverse.

Context {St : Type}.

(** The callback of [traverse]: whether to go on below the node, and
    what it did to its variables. *)
Variable callback : addr -> nat -> St -> bool * St.

(** [traverse(callback, depth)]. *)
Fixpoint traverse (fuel : nat) (w : World) (this : addr) (depth : nat) (s : St)
    {struct fuel} : option St :=
  match fuel with
  | O => None
  | S fuel' =>
      let '(shouldContinue, s) := callback this depth s in
      if shouldContinue
      then for_each (fun child s => traverse fuel' w child (S depth) s)
                    (children_of w this) s
      else Some s
  end.

End Traverse.

(** The loop of [find] over the children, given what [find] gives on
    each child. *)
Definition find_each (find_child : addr -> option (option addr))
    : list addr -> option (option addr) :=
  fix each (l : list addr) : option (option addr) :=
    match l with
    | [] => Some None
    | child :: rest =>
        match find_child child with
        | Some (Some found) => Some (Some found)
        | Some None => each rest
        | None => None
        end
    end.

(** [find(predicate)]: the outer option is for the fuel, the inner one
    for [null]. *)
Fixpoint find (fuel : nat) (w : World) (predicate : addr -> bool) (this : addr)
    {struct fuel} : option (option addr) :=
  match fuel with
  | O => None
  | S fuel' =>
      if predicate this then Some (Some this)
      else
        (fix each (l : list addr) : option (option addr) :=
           match l with
           | [] => Some None
           | child :: rest =>
               match find fuel' w predicate child with
               | Some (Some found) => Some (Some found)
               | Some None => each rest
               | None => None
               end
           end) (children_of w this)
  end.

(** [findAll(predicate)]: the callback returns nothing, so the
    traversal is never stopped. *)
Definition findAll (fuel : nat) (w : World) (predicate : addr -> bool)
    (this : addr) : option (list addr) :=
  traverse (fun node _ results =>
              (true, if predicate node then results ++ [node] else results))
           fuel w this 0 [].

(** [count()]. *)
Fixpoint count (fuel : nat) (w : World) (this : addr) {struct fuel} : option nat :=
  match fuel with
  | O => None
  | S fuel' =>
      for_each (fun child total => k ← count fuel' w child; Some (total + k))
               (children_of w this) 1
  end.

(** [getMaxDepth()]. *)
Fixpoint getMaxDepth (fuel : nat) (w : World) (this : addr) {struct fuel}
    : option nat :=
  match fuel with
  | O => None
  | S fuel' =>
      if Nat.eqb (length (children_of w this)) 0 then Some 1
      else
        maxDepth ← for_each (fun child maxDepth =>
                               k ← getMaxDepth fuel' w child;
                               Some (Nat.max maxDepth k))
                            (children_of w this) 0;
        Some (maxDepth + 1)
  end.

(** [expandAll] and [collapseAll] set the flag of the node and then
    recurse into each child. *)
Fixpoint set_expanded_all (b : bool) (fuel : nat) (this : addr) (w : World)
    {struct fuel} : option World :=
  match fuel with
  | O => None
  | S fuel' =>
      let w := update this (set_expanded b) w in
      for_each (fun child w => set_expanded_all b fuel' child w)
               (children_of w this) w
  end.

Definition expandAll : nat -> addr -> World -> option World :=
  set_expanded_all true.

Definition collapseAll : nat -> addr -> World -> option World :=
  set_expanded_all false.

(** [a] is [this] or one of its descendants. *)
Definition in_subtree (w : World) (this a : addr) : Prop :=
  a = this \/ below w this a.

(** What [expandAll] and [collapseAll] leave at address [a]: the node
    with its flag set when [a] is in the subtree, and the node as it
    was otherwise. *)
Definition marked (b : bool) (w w' : World) (this a : addr) : Prop :=
  (in_subtree w this a /\ nodes w' !! a = set_expanded b <$> nodes w !! a) \/
  (~ in_subtree w this a /\ nodes w' !! a = nodes w !! a).

(** [DEFAULT_ROOT_NODE_STYLE]: the default style with six fields
    replaced. *)
Definition DEFAULT_ROOT_NODE_STYLE : NodeStyle :=
  Object_assign DEFAULT_NODE_STYLE
    (list_to_map
       [ ("backgroundColor", JStr "#3b82f6");
         ("textColor", JStr "#ffffff");
         ("borderColor", JStr "#2563eb");
         ("fontSize", JNum 18);
         ("fontWeight", JStr "600");
         ("padding", JArr [JNum 16; JNum 32; JNum 16; JNum 32]) ]).

(** [updateStyle(style)] and [resetStyle()]. *)
Definition updateStyle (this : addr) (st : NodeStyle) (w : World) : World :=
  update this (fun n => set_style (mergeStyle [Some (style n); Some st]) n) w.

Definition resetStyle (this : addr) (w : World) : World :=
  update this
    (set_style (if isRoot w this then DEFAULT_ROOT_NODE_STYLE
                else DEFAULT_NODE_STYLE)) w.

(** Sequences of style calls. *)
Inductive StyleOp :=
| UpdateStyle (st : NodeStyle)
| ResetStyle.

Definition apply_style_op (this : addr) (w : World) (o : StyleOp) : World :=
  match o with
  | UpdateStyle st => updateStyle this st w
  | ResetStyle => resetStyle this w
  end.

Definition run_style_ops (this : addr) (ops : list StyleOp) (w : World) : World :=
  foldl (apply_style_op this) w ops.

(** The number of nodes of a subtree. *)
Fixpoint tree_size (t : Tree) : nat :=
  S (foldr (fun c m => tree_size c + m) 0 (t_children t)).

(** A callback that lists every node and never stops the traversal. *)
Definition list_node (node : addr) (depth : nat) (results : list addr)
    : bool * list addr :=
  (true, results ++ [node]).

(** The size queries on [a] return, and give the measures of [t]: its
    size, its height, and a list of descendants that is one shorter
    than its size and is what a full traversal lists after [a]. *)
Definition measures (fuel : nat) (w : World) (a : addr) (t : Tree) : Prop :=
  count fuel w a = Some (tree_size t) /\
  getMaxDepth fuel w a = Some (tree_height t) /\
  exists l : list addr,
    S (length l) = tree_size t /\
    (forall result, descendants_loop fuel w a result = Some (result ++ l)) /\
    (forall depth seen,
       traverse list_node fuel w a depth seen = Some (seen ++ a :: l)).

(** A small store for the examples: node 0 with the children 1 and 2,
    and node 3 on its own. *)
Definition bare_node (i : string) (cs : list addr) (p : option addr) : Node :=
  mkNode i (Plain i) cs p ∅ ∅ true false false [] None 0 0 0 0.

Definition small_world : World :=
  mkWorld [bare_node "r" [1; 2] None; bare_node "a" [] (Some 0);
           bare_node "b" [] (Some 0); bare_node "z" [] None] 0.

End NodeQueries.
(** ** The node model: the links between parents and children *)

Module NodeLinks.
Import JS MindNode.

(** Invariant I2 with its companion: the children arrays and the
    parent references say the same, and no array lists a node twice. *)
Definition well_linked (w : World) : Prop :=
  consistent w /\ forall a : addr, NoDup (children_of w a).

(** The parent references of the store are those of the family [ch],
    which lists no node twice. While the constructor runs, [ch] is
    what the children arrays are going to be. *)
Definition linked_by (w : World) (ch : addr -> list addr) : Prop :=
  (forall c q : addr, c ∈ ch q <-> parent_of w c = Some q) /\
  forall q : addr, NoDup (ch q).

(** The calls that change the shape of the tree. *)
Inductive Mutation :=
| AddChildData (this : addr) (d : NodeData) (index : option Z)
| AddChildNode (this child : addr) (index : option Z)
| RemoveChild (this : addr) (child : addr + string)
| RemoveAllChildren (this : addr)
| Remove (this : addr)
| MoveTo (this newParent : addr) (index : option Z).

Section Mutations.

Variable entropy : nat -> string * string.

(** What the constructor does to a store whose parent references are
    those of a family [ch]: they become those of a family that agrees
    with [ch] on the old nodes and with the children arrays on the new
    ones, and the new node has no parent. *)
Definition links (d : NodeData) : Prop :=
  forall (w : World) (ch : addr -> list addr),
    linked_by w ch ->
    (forall q, length (nodes w) <= q -> ch q = []) ->
    exists ch' : addr -> list addr,
      linked_by (snd (constructor entropy d w)) ch' /\
      (forall q, q < length (nodes w) -> ch' q = ch q) /\
      (forall q, length (nodes w) <= q ->
                 ch' q = children_of (snd (constructor entropy d w)) q) /\
      parent_of (snd (constructor entropy d w)) (fst (constructor entropy d w)) = None.

(** The store after a call; [None] when [moveTo] does not return
    within [fuel] steps. *)
Definition mutate (fuel : nat) (w : World) (m : Mutation) : option World :=
  match m with
  | AddChildData this d index => Some (snd (addChild entropy this (inl d) index w))
  | AddChildNode this child index =>
      Some (snd (addChild entropy this (inr child) index w))
  | RemoveChild this child => Some (snd (removeChild this child w))
  | RemoveAllChildren this => Some (removeAllChildren this w)
  | Remove this => Some (snd (remove this w))
  | MoveTo this newParent index => snd <$> moveTo fuel this newParent index w
  end.

(** The calls considered: on nodes of the store, and [addChild] of an
    existing node only when that node has no parent. *)
Definition allowed (w : World) (m : Mutation) : Prop :=
  match m with
  | AddChildData this _ _ => this < length (nodes w)
  | AddChildNode this child _ =>
      this < length (nodes w) /\ child < length (nodes w) /\
      parent_of w child = None
  | RemoveChild _ _ | RemoveAllChildren _ | Remove _ => True
  | MoveTo this newParent _ =>
      this < length (nodes w) /\ newParent < length (nodes w)
  end.

(** A sequence of calls, each allowed in the store it is made in and
    each returning. *)
Fixpoint allowed_all (fuel : nat) (w : World) (ms : list Mutation) : Prop :=
  match ms with
  | [] => True
  | m :: rest =>
      allowed w m /\
      match mutate fuel w m with
      | Some w' => allowed_all fuel w' rest
      | None => False
      end
  end.

Fixpoint mutate_all (fuel : nat) (w : World) (ms : list Mutation) : option World :=
  match ms with
  | [] => Some w
  | m :: rest => w' ← mutate fuel w m; mutate_all fuel w' rest
  end.

End Mutations.

End NodeLinks.
(** ** The command pattern: [BaseCommand] and [CommandHistory] *)

Module History.

Section Commands.

(** Command objects are referred to by handles of type [Cmd]; whatever
    the commands act on, their own fields included, is the world [W];
    [Exn] is what a command may throw. *)
Context {Cmd W Exn : Type}.

(** The body of a command method: it acts on the world and may call the
    public methods of the history that runs it. *)
Inductive Prog (A : Type) : Type :=
| Ret (a : A)
| Throw (e : Exn)
| Upd (f : W -> W) (k : Prog A)
| Obs (k : W -> Prog A)
| HExecute (c : Cmd) (k : Prog A)
| HUndo (k : bool -> Prog A)
| HRedo (k : bool -> Prog A)
| HClear (k : Prog A)
| HCanUndo (k : bool -> Prog A)
| HCanRedo (k : bool -> Prog A).

Arguments Ret {A} a.
Arguments Throw {A} e.
Arguments Upd {A} f k.
Arguments Obs {A} k.
Arguments HExecute {A} c k.
Arguments HUndo {A} k.
Arguments HRedo {A} k.
Arguments HClear {A} k.
Arguments HCanUndo {A} k.
Arguments HCanRedo {A} k.

(** The [Command] interface. *)
Record Command := mkCommand {
  name : string;
  cmd_execute : Prog unit;
  cmd_undo : Prog unit;
  cmd_redo : Prog unit;
  canMerge : Cmd -> Prog bool;
  merge : Cmd -> Prog unit
}.

(** [BaseCommand]: [redo] runs [execute] again, [canMerge] answers
    false and [merge] does nothing. *)
Definition BaseCommand (n : string) (exec undo : Prog unit) : Command :=
  {| name := n; cmd_execute := exec; cmd_undo := undo; cmd_redo := exec;
     canMerge := fun _ => Ret false; merge := fun _ => Ret tt |}.

(** The methods behind each command handle. *)
Variable body : Cmd -> Command.

(** The fields of [CommandHistory], oldest entry first in both stacks,
    and the world next to them. *)
Record State := mkState {
  undoStack : list Cmd;
  redoStack : list Cmd;
  maxStackSize : Z;
  isExecuting : bool;
  world : W
}.

Definition constructor (maxStackSize : option Z) (w : W) : State :=
  mkState [] [] (default 100%Z maxStackSize) false w.

Definition set_isExecuting (b : bool) (s : State) : State :=
  mkState (undoStack s) (redoStack s) (maxStackSize s) b (world s).

Definition set_undoStack (l : list Cmd) (s : State) : State :=
  mkState l (redoStack s) (maxStackSize s) (isExecuting s) (world s).

Definition set_redoStack (l : list Cmd) (s : State) : State :=
  mkState (undoStack s) l (maxStackSize s) (isExecuting s) (world s).

Definition set_world (w : W) (s : State) : State :=
  mkState (undoStack s) (redoStack s) (maxStackSize s) (isExecuting s) w.

(** How a call ends: it returns, it throws, or the fuel of the
    interpreter ran out. *)
Inductive Outcome (A : Type) : Type :=
| Normal (a : A) (s : State)
| Thrown (e : Exn) (s : State)
| Diverged.

Arguments Normal {A} a s.
Arguments Thrown {A} e s.
Arguments Diverged {A}.

Definition bind {A B : Type} (o : Outcome A) (k : A -> State -> Outcome B)
    : Outcome B :=
  match o with
  | Normal a s => k a s
  | Thrown e s => Thrown e s
  | Diverged => Diverged
  end.

(** [try { ... } finally { this.isExecuting = false }]. *)
Definition finally_release {A : Type} (o : Outcome A) : Outcome A :=
  match o with
  | Normal a s => Normal a (set_isExecuting false s)
  | Thrown e s => Thrown e (set_isExecuting false s)
  | Diverged => Diverged
  end.

Definition clear (s : State) : State := set_redoStack [] (set_undoStack [] s).

Definition canUndo (s : State) : bool :=
  negb (Nat.eqb (length (undoStack s)) 0) && negb (isExecuting s).

Definition canRedo (s : State) : bool :=
  negb (Nat.eqb (length (redoStack s)) 0) && negb (isExecuting s).

Definition undoStackSize (s : State) : nat := length (undoStack s).
Definition redoStackSize (s : State) : nat := length (redoStack s).

(** The size limit: [shift] drops the oldest entry when the length
    exceeds [maxStackSize]. *)
Definition limited (maxSize : Z) (stack : list Cmd) : list Cmd :=
  if (maxSize <? Z.of_nat (length stack))%Z then tail stack else stack.

(** [this.undoStack.push(command)] followed by the size limit. *)
Definition push_limited (c : Cmd) (s : State) : State :=
  set_undoStack (limited (maxStackSize s) (undoStack s ++ [c])) s.

(** Running a method body, given what the three guarded entry points
    of the history do. *)
Section Run.

Variable hexecute : Cmd -> State -> Outcome unit.
Variable hundo hredo : State -> Outcome bool.

Fixpoint run_prog {A : Type} (p : Prog A) (s : State) : Outcome A :=
  match p with
  | Ret a => Normal a s
  | Throw e => Thrown e s
  | Upd f k => run_prog k (set_world (f (world s)) s)
  | Obs k => run_prog (k (world s)) s
  | HExecute c k => bind (hexecute c s) (fun _ s' => run_prog k s')
  | HUndo k => bind (hundo s) (fun b s' => run_prog (k b) s')
  | HRedo k => bind (hredo s) (fun b s' => run_prog (k b) s')
  | HClear k => run_prog k (clear s)
  | HCanUndo k => run_prog (k (canUndo s)) s
  | HCanRedo k => run_prog (k (canRedo s)) s
  end.

(** The body of [execute] once the guard has been taken. *)
Definition execute_body (command : Cmd) (s : State) : Outcome unit :=
  bind (run_prog (cmd_execute (body command)) s) (fun _ s1 =>
  match last (undoStack s1) with
  | Some lastCommand =>
      bind (run_prog (canMerge (body lastCommand) command) s1) (fun mergeable s2 =>
      if mergeable
      then bind (run_prog (merge (body lastCommand) command) s2)
             (fun _ s3 => Normal tt (set_redoStack [] s3))
      else Normal tt (set_redoStack [] (push_limited command s2)))
  | None => Normal tt (set_redoStack [] (push_limited command s1))
  end).

(** The body of [undo]: pop, run the command's [undo], push on the redo
    stack. *)
Definition undo_body (s : State) : Outcome bool :=
  match last (undoStack s) with
  | Some command =>
      bind (run_prog (cmd_undo (body command))
              (set_undoStack (removelast (undoStack s)) s))
        (fun _ s1 => Normal true (set_redoStack (redoStack s1 ++ [command]) s1))
  | None => Normal false s
  end.

Definition redo_body (s : State) : Outcome bool :=
  match last (redoStack s) with
  | Some command =>
      bind (run_prog (cmd_redo (body command))
              (set_redoStack (removelast (redoStack s)) s))
        (fun _ s1 => Normal true (set_undoStack (undoStack s1 ++ [command]) s1))
  | None => Normal false s
  end.

End Run.

(** The three entry points. [fuel] bounds how deep commands may call
    back into the history. *)
Fixpoint execute (fuel : nat) (command : Cmd) (s : State) {struct fuel}
    : Outcome unit :=
  if isExecuting s then Normal tt s
  else
    match fuel with
    | O => Diverged
    | S fuel' =>
        finally_release
          (execute_body (execute fuel') (undo fuel') (redo fuel') command
             (set_isExecuting true s))
    end
with undo (fuel : nat) (s : State) {struct fuel} : Outcome bool :=
  if Nat.eqb (length (undoStack s)) 0 || isExecuting s then Normal false s
  else
    match fuel with
    | O => Diverged
    | S fuel' =>
        finally_release
          (undo_body (execute fuel') (undo fuel') (redo fuel')
             (set_isExecuting true s))
    end
with redo (fuel : nat) (s : State) {struct fuel} : Outcome bool :=
  if Nat.eqb (length (redoStack s)) 0 || isExecuting s then Normal false s
  else
    match fuel with
    | O => Diverged
    | S fuel' =>
        finally_release
          (redo_body (execute fuel') (undo fuel') (redo fuel')
             (set_isExecuting true s))
    end.

(** A method body as the history runs it. *)
Definition run {A : Type} (fuel : nat) (p : Prog A) (s : State) : Outcome A :=
  run_prog (execute fuel) (undo fuel) (redo fuel) p s.

(** The state in which a call ended, if it ended. *)
Definition final {A : Type} (o : Outcome A) : option State :=
  match o with
  | Normal _ s | Thrown _ s => Some s
  | Diverged => None
  end.

(** Bodies that never call [clear]. *)
Fixpoint no_clear {A : Type} (p : Prog A) : Prop :=
  match p with
  | Ret _ | Throw _ => True
  | Upd _ k | HExecute _ k => no_clear k
  | Obs k => forall w, no_clear (k w)
  | HUndo k | HRedo k | HCanUndo k | HCanRedo k => forall b, no_clear (k b)
  | HClear _ => False
  end.

End Commands.

Arguments Prog : clear implicits.
Arguments Command : clear implicits.
Arguments State : clear implicits.
Arguments Outcome : clear implicits.
Arguments Ret {Cmd W Exn A} a.
Arguments Throw {Cmd W Exn A} e.
Arguments Upd {Cmd W Exn A} f k.
Arguments Obs {Cmd W Exn A} k.
Arguments HExecute {Cmd W Exn A} c k.
Arguments HUndo {Cmd W Exn A} k.
Arguments HRedo {Cmd W Exn A} k.
Arguments HClear {Cmd W Exn A} k.
Arguments HCanUndo {Cmd W Exn A} k.
Arguments HCanRedo {Cmd W Exn A} k.
Arguments Normal {Cmd W Exn A} a s.
Arguments Thrown {Cmd W Exn A} e s.
Arguments Diverged {Cmd W Exn A}.

(** Three commands over an integer world, used to exercise the history:
    command 0 adds one; command 1 calls back into the history from its
    own [execute] and merges with another command 1; any other command
    throws. *)
Definition sample_body (c : nat) : Command nat Z string :=
  match c with
  | O => BaseCommand "add" (Upd (Z.add 1) (Ret tt)) (Upd (fun w => w - 1)%Z (Ret tt))
  | S O =>
      {| name := "type";
         cmd_execute := HExecute 0 (HUndo (fun _ => Upd (Z.add 10) (Ret tt)));
         cmd_undo := Upd (fun _ => 0%Z) (Ret tt);
         cmd_redo := Upd (Z.add 10) (Ret tt);
         canMerge := fun other => Ret (Nat.eqb other 1);
         merge := fun _ => Upd (Z.mul 2) (Ret tt) |}
  | _ => BaseCommand "fail" (Upd (Z.add 5) (Throw "boom")) (Ret tt)
  end.

Definition sample_state : State nat Z := mkState [0; 1] [0] 100%Z false 0%Z.

(** Three more commands over an integer world: command 0 answers true
    to every [canMerge], and its [merge] doubles the world but throws
    when it is given command 2; command 1 empties the history from its
    own [execute]; any other command adds five. *)
Definition awkward_body (c : nat) : Command nat Z string :=
  match c with
  | O =>
      {| name := "type";
         cmd_execute := Upd (Z.add 1) (Ret tt);
         cmd_undo := Upd (fun w => w - 1)%Z (Ret tt);
         cmd_redo := Upd (Z.add 1) (Ret tt);
         canMerge := fun _ => Ret true;
         merge := fun other =>
                    if Nat.eqb other 2 then Throw "no merge"
                    else Upd (Z.mul 2) (Ret tt) |}
  | S O => BaseCommand "reset" (HClear (Ret tt)) (Ret tt)
  | _ => BaseCommand "add five" (Upd (Z.add 5) (Ret tt))
                     (Upd (fun w => w - 5)%Z (Ret tt))
  end.

End History.

(** ** The command history: the remaining methods, and sessions *)

Module HistoryCalls.
Import History.

Section Calls.

Context {Cmd W Exn : Type}.
Variable body : Cmd -> Command Cmd W Exn.

(** [getHistory()]: the names on the undo stack, then those on the redo
    stack, each with its kind ([true] for undo). *)
Definition getHistory (s : State Cmd W) : list (string * bool) :=
  map (fun c => (name (body c), true)) (undoStack s) ++
  map (fun c => (name (body c), false)) (redoStack s).

(** A call a client makes on the history. *)
Inductive Call :=
| CExecute (c : Cmd)
| CUndo
| CRedo
| CClear.

(** The state a call leaves behind, whether it returned or threw. *)
Definition perform (fuel : nat) (s : State Cmd W) (call : Call)
    : option (State Cmd W) :=
  match call with
  | CExecute c => final (execute body fuel c s)
  | CUndo => final (undo body fuel s)
  | CRedo => final (redo body fuel s)
  | CClear => Some (clear s)
  end.

Fixpoint perform_all (fuel : nat) (s : State Cmd W) (calls : list Call)
    : option (State Cmd W) :=
  match calls with
  | [] => Some s
  | call :: rest => s' ← perform fuel s call; perform_all fuel s' rest
  end.

(** The number of commands the history holds. *)
Definition held (s : State Cmd W) : nat :=
  length (undoStack s) + length (redoStack s).

(** The history holds no more commands than its size limit. *)
Definition within_capacity (s : State Cmd W) : Prop :=
  (Z.of_nat (held s) <= maxStackSize s)%Z.

(** What a method body can leave behind while the guard is held: the
    guard and the size limit as they were, and the two stacks either
    as they were or both empty. *)
Definition kept (s s' : State Cmd W) : Prop :=
  isExecuting s' = true /\ maxStackSize s' = maxStackSize s /\
  ((undoStack s' = undoStack s /\ redoStack s' = redoStack s) \/
   (undoStack s' = [] /\ redoStack s' = [])).

End Calls.

(** Commands over an integer world whose [undo] throws after a partial
    effect. *)
Definition faulty_body (c : nat) : Command nat Z string :=
  BaseCommand "faulty" (Upd (Z.add 1) (Ret tt))
              (Upd (fun w => w - 1)%Z (Throw "undo failed")).

End HistoryCalls.

(** ** The event bus: [EventBus] *)

Module EventBus.

Section Bus.

(** Event names are [E], payloads [D]; [F] are the functions clients
    subscribe, compared by identity; what the functions act on is the
    world [W], and [Exn] is what they may throw. *)
Context {E D W Exn F : Type} {E_eq : EqDecision E} {F_eq : EqDecision F}.

(** A subscribed handler: a function of a client, or the closure that
    the k-th call of [once] made around one. *)
Inductive Handler :=
| Fn (f : F)
| Wrapper (k : nat) (event : E) (f : F).

#[global] Instance Handler_eq_dec : EqDecision Handler.
Proof using E_eq F_eq. solve_decision. Defined.

(** The code of a client function: it acts on the world and may call
    the public methods of the bus. *)
Inductive Prog (A : Type) : Type :=
| Ret (a : A)
| Throw (e : Exn)
| Upd (f : W -> W) (k : Prog A)
| Obs (k : W -> Prog A)
| On (event : E) (handler : F) (k : Prog A)
| Once (event : E) (handler : F) (k : Prog A)
| Off (event : E) (handler : option F) (k : Prog A)
| Emit (event : E) (data : D) (k : Prog A)
| Clear (k : Prog A)
| ListenerCount (event : option E) (k : nat -> Prog A)
| EventNames (k : list E -> Prog A).

Arguments Ret {A} a.
Arguments Throw {A} e.
Arguments Upd {A} f k.
Arguments Obs {A} k.
Arguments On {A} event handler k.
Arguments Once {A} event handler k.
Arguments Off {A} event handler k.
Arguments Emit {A} event data k.
Arguments Clear {A} k.
Arguments ListenerCount {A} event k.
Arguments EventNames {A} k.

(** What each client function does when it is called with a payload. *)
Variable body : F -> D -> Prog unit.

(** A [Set] of handlers: its entries in insertion order; a deleted
    entry leaves an empty slot, so that an iteration under way keeps
    its place. *)
Abbreviation HandlerSet := (list (option Handler)).

Definition set_has (h : Handler) (s : HandlerSet) : bool :=
  bool_decide (Some h ∈ s).

Definition set_add (h : Handler) (s : HandlerSet) : HandlerSet :=
  if set_has h s then s else s ++ [Some h].

Definition set_delete (h : Handler) (s : HandlerSet) : HandlerSet :=
  (fun x => if decide (x = Some h) then None else x) <$> s.

Definition set_values (s : HandlerSet) : list Handler := omap id s.

Definition set_size (s : HandlerSet) : nat := length (set_values s).

(** The fields of the bus: the [Map] from event names to sets, as its
    entries in insertion order, each with the address of its set; the
    set objects by address; and, next to them, the number of closures
    [once] has made, the world, and what [console.error] was given. *)
Record Bus := mkBus {
  events : list (E * nat);
  sets : list HandlerSet;
  wrappers : nat;
  world : W;
  errors : list Exn
}.

Definition constructor (w : W) : Bus := mkBus [] [] 0 w [].

Definition with_events (m : list (E * nat)) (bus : Bus) : Bus :=
  mkBus m (sets bus) (wrappers bus) (world bus) (errors bus).

Definition with_sets (s : list HandlerSet) (bus : Bus) : Bus :=
  mkBus (events bus) s (wrappers bus) (world bus) (errors bus).

Definition with_wrappers (k : nat) (bus : Bus) : Bus :=
  mkBus (events bus) (sets bus) k (world bus) (errors bus).

Definition with_world (w : W) (bus : Bus) : Bus :=
  mkBus (events bus) (sets bus) (wrappers bus) w (errors bus).

Definition log_error (e : Exn) (bus : Bus) : Bus :=
  mkBus (events bus) (sets bus) (wrappers bus) (world bus) (errors bus ++ [e]).

(** [Map.prototype.get] and [Map.prototype.delete]. *)
Fixpoint get (event : E) (m : list (E * nat)) : option nat :=
  match m with
  | [] => None
  | (e, a) :: rest => if decide (e = event) then Some a else get event rest
  end.

Definition map_delete (event : E) (m : list (E * nat)) : list (E * nat) :=
  filter (fun kv => kv.1 <> event) m.

(** The set at an address. *)
Definition set_at (bus : Bus) (a : nat) : HandlerSet := default [] (sets bus !! a).

(** [on(event, handler)]. The function it returns calls
    [off(event, handler)]: a client that calls it makes that call. *)
Definition on (event : E) (handler : Handler) (bus : Bus) : Bus :=
  let bus :=
    match get event (events bus) with
    | Some _ => bus
    | None =>
        with_events (events bus ++ [(event, length (sets bus))])
                    (with_sets (sets bus ++ [[]]) bus)
    end in
  match get event (events bus) with
  | Some a => with_sets (alter (set_add handler) a (sets bus)) bus
  | None => bus
  end.

(** [once(event, handler)]: subscribes a new closure. *)
Definition once (event : E) (handler : F) (bus : Bus) : Bus :=
  on event (Wrapper (wrappers bus) event handler)
     (with_wrappers (S (wrappers bus)) bus).

(** [off(event, handler?)]. *)
Definition off (event : E) (handler : option Handler) (bus : Bus) : Bus :=
  match handler with
  | None => with_events (map_delete event (events bus)) bus
  | Some h =>
      match get event (events bus) with
      | Some a =>
          let bus := with_sets (alter (set_delete h) a (sets bus)) bus in
          if Nat.eqb (set_size (set_at bus a)) 0
          then with_events (map_delete event (events bus)) bus
          else bus
      | None => bus
      end
  end.

(** [clear()]. *)
Definition clear (bus : Bus) : Bus := with_events [] bus.

(** [listenerCount(event?)]. *)
Definition listenerCount (event : option E) (bus : Bus) : nat :=
  match event with
  | Some e =>
      match get e (events bus) with
      | Some a => set_size (set_at bus a)
      | None => 0
      end
  | None => foldl (fun count kv => count + set_size (set_at bus kv.2)) 0 (events bus)
  end.

(** [eventNames()]. *)
Definition eventNames (bus : Bus) : list E := map fst (events bus).

(** How a call ends: it returns, it throws, or the fuel of the
    interpreter ran out. *)
Inductive Outcome (A : Type) : Type :=
| Normal (a : A) (bus : Bus)
| Thrown (e : Exn) (bus : Bus)
| Diverged.

Arguments Normal {A} a bus.
Arguments Thrown {A} e bus.
Arguments Diverged {A}.

Definition bind {A B : Type} (o : Outcome A) (k : A -> Bus -> Outcome B)
    : Outcome B :=
  match o with
  | Normal a bus => k a bus
  | Thrown e bus => Thrown e bus
  | Diverged => Diverged
  end.

Section Run.

(** What [emit] does, for the calls made from inside a handler. *)
Variable hemit : E -> D -> Bus -> Outcome unit.

Fixpoint run_prog {A : Type} (p : Prog A) (bus : Bus) : Outcome A :=
  match p with
  | Ret a => Normal a bus
  | Throw e => Thrown e bus
  | Upd f k => run_prog k (with_world (f (world bus)) bus)
  | Obs k => run_prog (k (world bus)) bus
  | On event handler k => run_prog k (on event (Fn handler) bus)
  | Once event handler k => run_prog k (once event handler bus)
  | Off event handler k => run_prog k (off event (Fn <$> handler) bus)
  | Emit event data k => bind (hemit event data bus) (fun _ bus' => run_prog k bus')
  | Clear k => run_prog k (clear bus)
  | ListenerCount event k => run_prog (k (listenerCount event bus)) bus
  | EventNames k => run_prog (k (eventNames bus)) bus
  end.

(** Calling a handler: a client function runs its code; a closure of
    [once] runs the function it wraps and then unsubscribes itself,
    which it does not get to when the function throws. *)
Definition call (h : Handler) (data : D) (bus : Bus) : Outcome unit :=
  match h with
  | Fn f => run_prog (body f data) bus
  | Wrapper k event f =>
      bind (run_prog (body f data) bus)
           (fun _ bus' => Normal tt (off event (Some (Wrapper k event f)) bus'))
  end.

(** [try { handler(data) } catch (error) { console.error(...) }]. *)
Definition guarded (h : Handler) (data : D) (bus : Bus) : option Bus :=
  match call h data bus with
  | Normal _ bus' => Some bus'
  | Thrown e bus' => Some (log_error e bus')
  | Diverged => None
  end.

(** [handlers.forEach(...)] on the set at address [a]: the entries are
    visited by position, those added meanwhile included and the empty
    slots skipped. *)
Fixpoint forEach (steps : nat) (a : nat) (data : D) (index : nat) (bus : Bus)
    {struct steps} : Outcome unit :=
  match steps with
  | O => Diverged
  | S steps' =>
      match set_at bus a !! index with
      | None => Normal tt bus
      | Some None => forEach steps' a data (S index) bus
      | Some (Some h) =>
          match guarded h data bus with
          | Some bus' => forEach steps' a data (S index) bus'
          | None => Diverged
          end
      end
  end.

End Run.

(** [emit(event, data)]; [fuel] bounds the steps of the iteration and
    how deep handlers may emit in turn. *)
Fixpoint emit (fuel : nat) (event : E) (data : D) (bus : Bus) {struct fuel}
    : Outcome unit :=
  match fuel with
  | O => Diverged
  | S fuel' =>
      match get event (events bus) with
      | Some a => forEach (emit fuel') fuel' a data 0 bus
      | None => Normal tt bus
      end
  end.

(** The calls a client makes from outside. *)
Inductive Call :=
| COn (event : E) (handler : F)
| COnce (event : E) (handler : F)
| COff (event : E) (handler : option F)
| CEmit (event : E) (data : D)
| CClear.

Definition final {A : Type} (o : Outcome A) : option Bus :=
  match o with
  | Normal _ bus | Thrown _ bus => Some bus
  | Diverged => None
  end.

Definition perform (fuel : nat) (bus : Bus) (c : Call) : option Bus :=
  match c with
  | COn event handler => Some (on event (Fn handler) bus)
  | COnce event handler => Some (once event handler bus)
  | COff event handler => Some (off event (Fn <$> handler) bus)
  | CEmit event data => final (emit fuel event data bus)
  | CClear => Some (clear bus)
  end.

Fixpoint perform_all (fuel : nat) (bus : Bus) (calls : list Call) : option Bus :=
  match calls with
  | [] => Some bus
  | c :: rest => bus' ← perform fuel bus c; perform_all fuel bus' rest
  end.

(** Code that leaves the bus alone. *)
Fixpoint quiet {A : Type} (p : Prog A) : Prop :=
  match p with
  | Ret _ | Throw _ => True
  | Upd _ k => quiet k
  | Obs k => forall w, quiet (k w)
  | _ => False
  end.

(** What [emit] is given for a handler that makes no call of its own. *)
Definition no_emit (event : E) (data : D) (bus : Bus) : Outcome unit :=
  Normal tt bus.

(** Calling the handlers of a list one after the other, each under its
    own [try]/[catch]. *)
Fixpoint deliver (hs : list Handler) (data : D) (bus : Bus) : option Bus :=
  match hs with
  | [] => Some bus
  | h :: rest =>
      bus' ← guarded no_emit h data bus; deliver rest data bus'
  end.

(** Every set the map refers to exists and has a handler in it, and
    the map has one entry per event name and per set. *)
Definition tidy (bus : Bus) : Prop :=
  (forall e a, (e, a) ∈ events bus ->
     a < length (sets bus) /\ 0 < set_size (set_at bus a)) /\
  NoDup (map fst (events bus)) /\
  NoDup (map snd (events bus)).

(** A call that ended left the bus tidy. *)
Definition ends_tidy {A : Type} (o : Outcome A) : Prop :=
  match o with
  | Normal _ bus | Thrown _ bus => tidy bus
  | Diverged => True
  end.

End Bus.

Arguments Handler : clear implicits.
Arguments Prog : clear implicits.
Arguments Bus : clear implicits.
Arguments Outcome : clear implicits.
Arguments Call : clear implicits.
Arguments Ret {E D W Exn F A} a.
Arguments Throw {E D W Exn F A} e.
Arguments Upd {E D W Exn F A} f k.
Arguments Obs {E D W Exn F A} k.
Arguments On {E D W Exn F A} event handler k.
Arguments Once {E D W Exn F A} event handler k.
Arguments Off {E D W Exn F A} event handler k.
Arguments Emit {E D W Exn F A} event data k.
Arguments Clear {E D W Exn F A} k.
Arguments ListenerCount {E D W Exn F A} event k.
Arguments EventNames {E D W Exn F A} k.
Arguments Normal {E W Exn F A} a bus.
Arguments Thrown {E W Exn F A} e bus.
Arguments Diverged {E W Exn F A}.

(** Client functions over an integer world, for the examples: function
    0 adds one, function 1 adds ten and throws, and any other function
    subscribes function 0 to the event [again]. *)
Definition sample_handlers (f : nat) (data : Z) : Prog string Z Z string nat unit :=
  match f with
  | O => Upd (Z.add 1) (Ret tt)
  | S O => Upd (Z.add 10) (Throw "failed")
  | _ => On "again" 0 (Ret tt)
  end.

End EventBus.
(** ** helpers.ts: the numeric helpers used by the viewport *)

Module Helpers.
Local Open Scope Q_scope.

(** [Math.max] and [Math.min] on finite numbers. *)
Definition Math_max (a b : Q) : Q := if Qle_bool a b then b else a.
Definition Math_min (a b : Q) : Q := if Qle_bool a b then a else b.

(** [clamp(value, min, max) = Math.min(Math.max(value, min), max)]. *)
Definition clamp (value min max : Q) : Q := Math_min (Math_max value min) max.

(** [lerp(start, end, t) = start + (end - start) * t], computed exactly:
    on doubles each of the three operations rounds, see
    [Doubles.lerp]. *)
Definition lerp (start end_ t : Q) : Q := start + (end_ - start) * t.

(** [easeInOutCubic]: [t < 0.5 ? 4*t*t*t : 1 - Math.pow(-2*t + 2, 3) / 2],
    with the exact cube for [Math.pow(b, 3)]. *)
Definition easeInOutCubic (t : Q) : Q :=
  if Qle_bool (1#2) t
  then 1 - ((-2 * t + 2) * (-2 * t + 2) * (-2 * t + 2)) / 2
  else 4 * t * t * t.

(** Division of finite numbers; a zero divisor leaves the rationals. *)
Definition div (a b : Q) : option Q :=
  if Qeq_bool b 0 then None else Some (a / b).

(** What a division of finite numbers gives in the program: a number,
    an infinity when a non-zero number is divided by zero, [NaN] for
    zero by zero. The zero divisor is taken as [+0], which is what the
    difference of two equal numbers is (the rationals have one zero;
    with the divisor [-0], which only [-0 - 0] gives, the two
    infinities change places). *)
Inductive Quotient :=
| Finite (q : Q)
| PlusInfinity
| MinusInfinity
| NotANumber.

Definition divide (a b : Q) : Quotient :=
  if Qeq_bool b 0 then
    if Qeq_bool a 0 then NotANumber
    else if Qle_bool 0 a then PlusInfinity else MinusInfinity
  else Finite (a / b).

(** [Math.min] on quotients: [NaN] when an argument is [NaN]. *)
Definition Math_min_quotient (a b : Quotient) : Quotient :=
  match a, b with
  | NotANumber, _ | _, NotANumber => NotANumber
  | MinusInfinity, _ | _, MinusInfinity => MinusInfinity
  | PlusInfinity, c | c, PlusInfinity => c
  | Finite p, Finite q => Finite (Math_min p q)
  end.

(** [clamp(value, min, max)] for a quotient and finite bounds:
    [Math.max(Infinity, min)] is [Infinity] and [Math.min(Infinity, max)]
    is [max]; [Math.max(-Infinity, min)] is [min]; [NaN] stays [NaN],
    which is no rational ([None]). *)
Definition clamp_quotient (value : Quotient) (min max : Q) : option Q :=
  match value with
  | Finite q => Some (clamp q min max)
  | PlusInfinity => Some max
  | MinusInfinity => Some (Math_min min max)
  | NotANumber => None
  end.

End Helpers.

(** ** The arithmetic of the scale on binary64 floats

    The numbers of the program are IEEE 754 doubles. The helpers that
    decide the scale are repeated here on the binary64 floats of the
    kernel, with the rounding, the infinities and the [NaN] of the
    program. *)

Set Warnings "-inexact-float".

Module Doubles.
Import PrimFloat.
Local Open Scope float_scope.

(** [Math.max]: [NaN] when an argument is [NaN]; [+0] is larger than
    [-0]. *)
Definition Math_max (a b : float) : float :=
  if is_nan a || is_nan b then nan
  else if a <? b then b
  else if b <? a then a
  else if get_sign a then b else a.

(** [Math.min]: [NaN] when an argument is [NaN]; [-0] is smaller than
    [+0]. *)
Definition Math_min (a b : float) : float :=
  if is_nan a || is_nan b then nan
  else if a <? b then a
  else if b <? a then b
  else if get_sign a then a else b.

Definition clamp (value min max : float) : float :=
  Math_min (Math_max value min) max.

Definition lerp (start end_ t : float) : float := start + (end_ - start) * t.

(** [minScale <= scale && scale <= maxScale]. *)
Definition within (minScale maxScale scale : float) : bool :=
  (minScale <=? scale) && (scale <=? maxScale).

(** The scale of the target of [setTransform({scale: s}, animate)]. *)
Definition setTransform_scale (minScale maxScale s : float) : float :=
  clamp s minScale maxScale.

(** The scale that the last frame of [animate] applies. There
    [progress] is [Math.min(elapsed / duration, 1) = 1], so
    [t = easeInOutCubic(1) = 1 - Math.pow(-2 * 1 + 2, 3) / 2], where
    [Math.pow(0, 3)] is [0], and the scale is
    [lerp(start.scale, target.scale, t)]. *)
Definition last_frame_scale (start target : float) : float :=
  let t := 1 - 0 / 2 in
  lerp start target t.

(** The scale [fitBounds(bounds, padding, false)] leaves in a container
    of the given width and height: the scale it computes, clamped once
    more by [setTransform]. *)
Definition fitBounds_scale (minScale maxScale width height : float)
    (minX minY maxX maxY padding : float) : float :=
  let boundsWidth := maxX - minX in
  let boundsHeight := maxY - minY in
  let scaleX := (width - padding * 2) / boundsWidth in
  let scaleY := (height - padding * 2) / boundsHeight in
  let scale := clamp (Math_min scaleX scaleY) minScale maxScale in
  setTransform_scale minScale maxScale scale.

(** The viewport built without options: [minScale] 0.1, [maxScale] 5
    and scale 1. *)
Definition default_minScale : float := 0.1.
Definition default_maxScale : float := 5.
Definition default_scale : float := 1.

(** [setTransform({scale: 0.05}, true)] on that viewport, once the
    animation has run its last frame. *)
Definition scale_after_animated_zoom_out : float :=
  last_frame_scale default_scale
    (setTransform_scale default_minScale default_maxScale 0.05).

(** [fitBounds({minX: 5, minY: 0, maxX: 5, maxY: 400}, 50, false)] on
    that viewport, in a container 100 wide and 600 high: the padded
    width and the width of the bounds are both zero. *)
Definition scale_after_fitting_nothing : float :=
  fitBounds_scale default_minScale default_maxScale 100 600 5 0 5 400 50.

(** [fitBounds({minX: 5, minY: 0, maxX: 5, maxY: 1000}, 50, false)] on
    that viewport, in a container 800 wide and 600 high: the bounds
    have no width, the quotient for the width is [Infinity], and the
    scale is the quotient for the height, 0.5. *)
Definition scale_after_fitting_a_line : float :=
  fitBounds_scale default_minScale default_maxScale 800 600 5 0 5 1000 50.

(** [setTransform({scale: NaN})] on that viewport. *)
Definition scale_after_setting_nan : float :=
  setTransform_scale default_minScale default_maxScale nan.

(** [fitBounds({minX: -1e308, minY: 0, maxX: 1e308, maxY: 400}, 1e308,
    false)] on that viewport, in a container 800 wide and 600 high:
    the width of the bounds and twice the padding overflow, and the
    quotient is [-Infinity / Infinity]. *)
Definition scale_after_overflow : float :=
  fitBounds_scale default_minScale default_maxScale 800 600
    (-1e308) 0 1e308 400 1e308.

(** [Number.isFinite]. *)
Definition finite (a : float) : bool := (neg_infinity <? a) && (a <? infinity).

(** The fields of a viewport that decide its scale, and of a pending
    animation the two scales that its closure holds: the scale at the
    start and the scale of the target. *)
Record Scales := mkScales {
  scale : float;
  minScale : float;
  maxScale : float;
  zoomSpeed : float;
  animation : option (float * float)
}.

Definition with_scale (v : Scales) (s : float) : Scales :=
  mkScales s (minScale v) (maxScale v) (zoomSpeed v) (animation v).

Definition with_animation (v : Scales) (a : option (float * float)) : Scales :=
  mkScales (scale v) (minScale v) (maxScale v) (zoomSpeed v) a.

(** The calls as far as the scale goes (the translation and the drag
    state neither decide the scale nor are decided by anything else
    than the calls): the calls made without animation, the animated
    calls that are given no scale, and the frames of their animations.
    A frame is given by the value [t] of [easeInOutCubic(progress)] and
    by whether [progress < 1], that is, whether another frame is
    scheduled. *)
Inductive Call :=
| CSetTransform (s : option float)
| CZoom (delta : float)
| CFitBounds (width height minX minY maxX maxY padding : float)
| CResetZoom
| CPan
| CDrag
| CCenterTo
| CAnimated (t : float) (more : bool)
| CFrame (t : float) (more : bool).

(** One run of the [animate] closure. *)
Definition frame (v : Scales) (t : float) (more : bool) : Scales :=
  match animation v with
  | None => v
  | Some (start, target) =>
      mkScales (lerp start target t) (minScale v) (maxScale v) (zoomSpeed v)
               (if more then Some (start, target) else None)
  end.

(** [newScale === this.transform.scale] is the equality of numbers:
    [+0] equals [-0], and [NaN] equals nothing. [CAnimated] is
    [centerTo(point, true)] or [setTransform({x, y}, true)]: the target
    has the scale of the start, and the first frame runs at once. *)
Definition perform (v : Scales) (call : Call) : Scales :=
  match call with
  | CSetTransform (Some s) =>
      with_scale v (setTransform_scale (minScale v) (maxScale v) s)
  | CSetTransform None => v
  | CZoom delta =>
      let factor := 1 + delta * zoomSpeed v in
      let newScale := clamp (scale v * factor) (minScale v) (maxScale v) in
      if newScale =? scale v then v else with_scale v newScale
  | CFitBounds width height minX minY maxX maxY padding =>
      with_scale v (fitBounds_scale (minScale v) (maxScale v) width height
                      minX minY maxX maxY padding)
  | CResetZoom => with_scale v (setTransform_scale (minScale v) (maxScale v) 1)
  | CPan | CDrag | CCenterTo => v
  | CAnimated t more => frame (with_animation v (Some (scale v, scale v))) t more
  | CFrame t more => frame v t more
  end.

(** The value that a call hands to [clamp], when it hands one. *)
Definition clamped (v : Scales) (call : Call) : option float :=
  match call with
  | CSetTransform (Some s) => Some s
  | CZoom delta => Some (scale v * (1 + delta * zoomSpeed v))
  | CFitBounds width height minX minY maxX maxY padding =>
      Some (Math_min ((width - padding * 2) / (maxX - minX))
                     ((height - padding * 2) / (maxY - minY)))
  | CResetZoom => Some 1
  | _ => None
  end.

(** Every value handed to [clamp] in the course of the calls is a
    number, and every frame runs at a finite [t]. *)
Definition call_ok (v : Scales) (call : Call) : bool :=
  match call with
  | CAnimated t _ | CFrame t _ => finite t
  | _ => match clamped v call with Some e => negb (is_nan e) | None => true end
  end.

Fixpoint numbers (v : Scales) (calls : list Call) : bool :=
  match calls with
  | [] => true
  | call :: rest => call_ok v call && numbers (perform v call) rest
  end.

(** A pending animation aims at the scale it started from, which lies
    within the bounds. *)
Definition steady (v : Scales) : Prop :=
  match animation v with
  | None => True
  | Some (start, target) =>
      target = start /\ within (minScale v) (maxScale v) start = true
  end.

(** The scales of the viewport built without options, and a sample
    session on it. *)
Definition default_scales : Scales :=
  mkScales default_scale default_minScale default_maxScale 0.1 None.

Definition sample_calls : list Call :=
  [ CSetTransform (Some 100); CZoom (-3); CAnimated 0.5 true; CPan;
    CResetZoom; CFrame 1 false; CDrag; CAnimated 0 true;
    CFitBounds 800 600 5 0 5 500 50; CFrame 0.104 true; CCenterTo;
    CFitBounds 800 600 0 0 1000 500 50 ].

(** The horizontal halves of the calls that place and read the
    transform, and of the helpers on bounds, for replays of their
    rounding (the vertical halves are alike). *)

(** [worldToScreen(point).x]. *)
Definition worldToScreen_x (scale x point_x : float) : float :=
  point_x * scale + x.

(** The [x] that [centerTo(point, false)] sets. *)
Definition centerTo_x (width scale point_x : float) : float :=
  width / 2 - point_x * scale.

(** The [x] that [fitBounds(bounds, padding, false)] sets, given the
    scale it sets. *)
Definition fitBounds_x (width scale minX maxX : float) : float :=
  width / 2 - (minX + maxX) / 2 * scale.

(** [getVisibleBounds().maxX]. *)
Definition getVisibleBounds_maxX (width scale x : float) : float :=
  (width - x) / scale.

(** [expandBounds(bounds, padding).maxX]. *)
Definition expandBounds_maxX (maxX padding : float) : float := maxX + padding.

(** [getBoundsCenter(getRectBounds(rect)).x] and [getRectCenter(rect).x]. *)
Definition getBoundsCenter_x (rect_x rect_width : float) : float :=
  (rect_x + (rect_x + rect_width)) / 2.

Definition getRectCenter_x (rect_x rect_width : float) : float :=
  rect_x + rect_width / 2.

End Doubles.

(** ** renderer/Viewport.ts *)

Module Viewport.
Import JS Helpers.
Local Open Scope Q_scope.

Record Point := mkPoint { px : Q; py : Q }.

Record Bounds := mkBounds { minX : Q; minY : Q; maxX : Q; maxY : Q }.

(** The part of [container.getBoundingClientRect()] the viewport reads. *)
Record ClientRect := mkRect { rect_width : Q; rect_height : Q }.

Record ViewportTransform := mkTransform { x : Q; y : Q; scale : Q }.

(** The [options] argument of the constructor; an absent key is [None]. *)
Record Options := mkOptions {
  opt_minScale : option Q;
  opt_maxScale : option Q;
  opt_zoomSpeed : option Q;
  opt_initialScale : option Q;
  opt_initialPosition : option Point
}.

Definition no_options : Options := mkOptions None None None None None.

(** A scheduled animation: the closure of [animate] keeps the transform
    at the start and the target; [animationId] is non-null while it is
    pending. *)
Record Animation := mkAnimation {
  anim_start : ViewportTransform;
  anim_target : ViewportTransform
}.

Record Viewport := mkViewport {
  transform : ViewportTransform;
  minScale : Q;
  maxScale : Q;
  zoomSpeed : Q;
  isDragging : bool;
  dragStart : Point;
  dragOffset : Point;
  animation : option Animation
}.

Definition with_transform (v : Viewport) (t : ViewportTransform) : Viewport :=
  mkViewport t (minScale v) (maxScale v) (zoomSpeed v)
             (isDragging v) (dragStart v) (dragOffset v) (animation v).

Definition with_animation (v : Viewport) (a : option Animation) : Viewport :=
  mkViewport (transform v) (minScale v) (maxScale v) (zoomSpeed v)
             (isDragging v) (dragStart v) (dragOffset v) a.

(** [ANIMATION.zoomDuration] of the constants file. *)
Definition zoomDuration : Q := 150.

Definition constructor (options : Options) : Viewport :=
  {| transform :=
       {| x := number_or (px <$> opt_initialPosition options) 0;
          y := number_or (py <$> opt_initialPosition options) 0;
          scale := number_or (opt_initialScale options) 1 |};
     minScale := number_or (opt_minScale options) (1#10);
     maxScale := number_or (opt_maxScale options) 5;
     zoomSpeed := number_or (opt_zoomSpeed options) (1#10);
     isDragging := false;
     dragStart := mkPoint 0 0;
     dragOffset := mkPoint 0 0;
     animation := None |}.

Definition getTransform (v : Viewport) : ViewportTransform := transform v.

(** [applyTransform]: replaces the transform (the two notifications go
    to the event bus and do not come back into the viewport). *)
Definition applyTransform (v : Viewport) (t : ViewportTransform) : Viewport :=
  with_transform v t.

(** One run of the [animate] closure, [elapsed] milliseconds after the
    animation started. Nothing happens when no animation is pending. *)
Definition frame (v : Viewport) (elapsed : Q) : Viewport :=
  match animation v with
  | None => v
  | Some a =>
      let progress := Math_min (elapsed / zoomDuration) 1 in
      let t := easeInOutCubic progress in
      let v' := applyTransform v
                  {| x := lerp (x (anim_start a)) (x (anim_target a)) t;
                     y := lerp (y (anim_start a)) (y (anim_target a)) t;
                     scale := lerp (scale (anim_start a)) (scale (anim_target a)) t |} in
      if Qle_bool 1 progress then with_animation v' None else v'
  end.

(** [animateTransform]: cancels a pending animation, records the start
    and the target, and runs the first frame at once; [elapsed] is the
    time that frame observes. *)
Definition animateTransform (v : Viewport) (target : ViewportTransform)
    (elapsed : Q) : Viewport :=
  frame (with_animation v (Some (mkAnimation (transform v) target))) elapsed.

(** How a transition is applied: at once, or animated with the elapsed
    time seen by its first frame. *)
Inductive Animate := Instant | Animated (elapsed : Q).

(** [setTransform(transform, animate)] with a partial transform. *)
Definition setTransform (v : Viewport) (tx ty ts : option Q) (animate : Animate)
    : Viewport :=
  let newTransform :=
    {| x := match tx with Some a => a | None => x (transform v) end;
       y := match ty with Some a => a | None => y (transform v) end;
       scale := match ts with
                | Some s => clamp s (minScale v) (maxScale v)
                | None => scale (transform v)
                end |} in
  match animate with
  | Animated e => animateTransform v newTransform e
  | Instant => applyTransform v newTransform
  end.

(** [zoom(delta, center)]. The ratio [newScale / scale] is undefined at
    scale zero. *)
Definition zoom (v : Viewport) (delta : Q) (center : option Point)
    : option Viewport :=
  let factor := 1 + delta * zoomSpeed v in
  let newScale := clamp (scale (transform v) * factor) (minScale v) (maxScale v) in
  if Qeq_bool newScale (scale (transform v)) then Some v
  else
    match center with
    | Some c =>
        ratio ← div newScale (scale (transform v));
        Some (with_transform v
                {| x := px c - (px c - x (transform v)) * ratio;
                   y := py c - (py c - y (transform v)) * ratio;
                   scale := newScale |})
    | None =>
        Some (with_transform v
                {| x := x (transform v); y := y (transform v); scale := newScale |})
    end.

Definition zoomIn (v : Viewport) (center : option Point) := zoom v 1 center.
Definition zoomOut (v : Viewport) (center : option Point) := zoom v (-1) center.

Definition resetZoom (v : Viewport) (animate : Animate) : Viewport :=
  setTransform v None None (Some 1) animate.

Definition pan (v : Viewport) (dx dy : Q) : Viewport :=
  with_transform v
    {| x := x (transform v) + dx; y := y (transform v) + dy;
       scale := scale (transform v) |}.

(** [centerTo(point, animate)]: no scale is passed on, so the scale
    stays; the products and differences are exact here and rounded in
    the program. *)
Definition centerTo (v : Viewport) (rect : ClientRect) (point : Point)
    (animate : Animate) : Viewport :=
  let centerX := rect_width rect / 2 in
  let centerY := rect_height rect / 2 in
  setTransform v
    (Some (centerX - px point * scale (transform v)))
    (Some (centerY - py point * scale (transform v)))
    None animate.

(** [fitBounds(bounds, padding, animate)]. Bounds without width or
    height make a quotient infinite, and [clamp] brings it back to a
    bound; the result is undefined only when a quotient is zero by
    zero, where the program goes on with the scale [NaN]. *)
Definition fitBounds (v : Viewport) (rect : ClientRect) (bounds : Bounds)
    (padding : Q) (animate : Animate) : option Viewport :=
  let boundsWidth := maxX bounds - minX bounds in
  let boundsHeight := maxY bounds - minY bounds in
  let scaleX := divide (rect_width rect - padding * 2) boundsWidth in
  let scaleY := divide (rect_height rect - padding * 2) boundsHeight in
  s ← clamp_quotient (Math_min_quotient scaleX scaleY) (minScale v) (maxScale v);
  let centerX := (minX bounds + maxX bounds) / 2 in
  let centerY := (minY bounds + maxY bounds) / 2 in
  Some (setTransform v
          (Some (rect_width rect / 2 - centerX * s))
          (Some (rect_height rect / 2 - centerY * s))
          (Some s) animate).

Definition screenToWorld (v : Viewport) (point : Point) : option Point :=
  wx ← div (px point - x (transform v)) (scale (transform v));
  wy ← div (py point - y (transform v)) (scale (transform v));
  Some (mkPoint wx wy).

Definition worldToScreen (v : Viewport) (point : Point) : Point :=
  mkPoint (px point * scale (transform v) + x (transform v))
          (py point * scale (transform v) + y (transform v)).

Definition startDrag (v : Viewport) (point : Point) : Viewport :=
  mkViewport (transform v) (minScale v) (maxScale v) (zoomSpeed v) true point
             (mkPoint (x (transform v)) (y (transform v))) (animation v).

Definition drag (v : Viewport) (point : Point) : Viewport :=
  if isDragging v then
    with_transform v
      {| x := px (dragOffset v) + (px point - px (dragStart v));
         y := py (dragOffset v) + (py point - py (dragStart v));
         scale := scale (transform v) |}
  else v.

Definition endDrag (v : Viewport) : Viewport :=
  mkViewport (transform v) (minScale v) (maxScale v) (zoomSpeed v) false
             (dragStart v) (dragOffset v) (animation v).

Definition destroy (v : Viewport) : Viewport := with_animation v None.

(** The calls a client can make, together with the firing of a scheduled
    animation frame. *)
Inductive Op :=
| OSetTransform (tx ty ts : option Q) (animate : Animate)
| OZoom (delta : Q) (center : option Point)
| OPan (dx dy : Q)
| OStartDrag (point : Point)
| ODrag (point : Point)
| OEndDrag
| OCenterTo (rect : ClientRect) (point : Point) (animate : Animate)
| OFitBounds (rect : ClientRect) (bounds : Bounds) (padding : Q) (animate : Animate)
| OResetZoom (animate : Animate)
| OFrame (elapsed : Q).

Definition step (v : Viewport) (o : Op) : option Viewport :=
  match o with
  | OSetTransform tx ty ts a => Some (setTransform v tx ty ts a)
  | OZoom d c => zoom v d c
  | OPan dx dy => Some (pan v dx dy)
  | OStartDrag p => Some (startDrag v p)
  | ODrag p => Some (drag v p)
  | OEndDrag => Some (endDrag v)
  | OCenterTo r p a => Some (centerTo v r p a)
  | OFitBounds r b p a => fitBounds v r b p a
  | OResetZoom a => Some (resetZoom v a)
  | OFrame e => Some (frame v e)
  end.

Fixpoint run (v : Viewport) (ops : list Op) : option Viewport :=
  match ops with
  | [] => Some v
  | o :: rest => v' ← step v o; run v' rest
  end.

(** A transition made at once. *)
Definition instant (a : Animate) : bool :=
  match a with Instant => true | Animated _ => false end.

(** A quotient of zero by zero. *)
Definition zero_by_zero (a b : Q) : bool := Qeq_bool a 0 && Qeq_bool b 0.

(** The calls under which the scale is followed: a call that sets a
    scale ([setTransform] with a scale, [fitBounds], [resetZoom]) is
    made without animation, and [fitBounds] does not divide zero by
    zero. Animated calls that keep the scale ([centerTo], [setTransform]
    without a scale) and the frames of their animations are all
    there. *)
Definition op_ok (o : Op) : bool :=
  match o with
  | OSetTransform _ _ ts a =>
      instant a || match ts with None => true | Some _ => false end
  | OResetZoom a => instant a
  | OFitBounds r b p a =>
      instant a
      && negb (zero_by_zero (rect_width r - p * 2) (maxX b - minX b))
      && negb (zero_by_zero (rect_height r - p * 2) (maxY b - minY b))
  | _ => true
  end.

Definition in_range (v : Viewport) : Prop :=
  minScale v <= scale (transform v) /\ scale (transform v) <= maxScale v.

Definition point_eq (p q : Point) : Prop := px p == px q /\ py p == py q.

Definition opt_point_eq (p q : option Point) : Prop :=
  match p, q with
  | Some a, Some b => point_eq a b
  | None, None => True
  | _, _ => False
  end.

(** The invariant kept by those calls: the scale lies within the
    bounds, and a pending animation starts from a scale within the
    bounds and aims at the same scale. *)
Definition scale_ok (v : Viewport) (t : ViewportTransform) : Prop :=
  minScale v <= scale t /\ scale t <= maxScale v.

Definition Inv (v : Viewport) : Prop :=
  scale_ok v (transform v) /\
  match animation v with
  | Some a =>
      scale_ok v (anim_start a) /\ scale (anim_target a) = scale (anim_start a)
  | None => True
  end.

(** The zoom-anchoring property at one viewport, zoom step and anchor:
    when the scale is positive and the zoom changes it, the document
    point under the anchor is the same before and after. *)
Definition zoom_anchored (v : Viewport) (delta : Q) (A : Point) : Prop :=
  0 < scale (transform v) ->
  exists v', zoom v delta (Some A) = Some v' /\
    (~ scale (transform v') == scale (transform v) ->
     opt_point_eq (screenToWorld v' A) (screenToWorld v A)).

(** A sample session. *)
Definition sample_ops : list Op :=
  [ OSetTransform None (Some 7) (Some 100) Instant;
    OZoom (-3) (Some (mkPoint 3 4));
    OCenterTo (mkRect 800 600) (mkPoint 1 2) (Animated 75);
    OPan 2 (-2);
    OResetZoom Instant;
    OFrame 200;
    OStartDrag (mkPoint 1 1); ODrag (mkPoint 5 9); OEndDrag;
    OSetTransform (Some 3) None None (Animated 0);
    OFitBounds (mkRect 800 600) (mkBounds 5 0 5 500) 50 Instant;
    OFrame 40;
    OFitBounds (mkRect 800 600) (mkBounds 0 0 1000 500) 50 Instant ].

End Viewport.

(** ** Viewport.ts: the remaining queries *)

Module ViewportQueries.
Import JS Helpers Viewport.
Local Open Scope Q_scope.

(** [getVisibleBounds()]: the surface rectangle mapped back into
    document space, with exact quotients. It is undefined at scale
    zero, where the program gives infinities or [NaN]. *)
Definition getVisibleBounds (v : Viewport) (rect : ClientRect) : option Bounds :=
  let t := transform v in
  bminX ← div (- x t) (scale t);
  bminY ← div (- y t) (scale t);
  bmaxX ← div (rect_width rect - x t) (scale t);
  bmaxY ← div (rect_height rect - y t) (scale t);
  Some (mkBounds bminX bminY bmaxX bmaxY).

(** A point lies within bounds, borders included. *)
Definition within (p : Point) (b : Bounds) : Prop :=
  minX b <= px p /\ px p <= maxX b /\ minY b <= py p /\ py p <= maxY b.

(** A surface point lies on the surface. *)
Definition on_surface (p : Point) (rect : ClientRect) : Prop :=
  0 <= px p /\ px p <= rect_width rect /\ 0 <= py p /\ py p <= rect_height rect.

Definition transform_eq (a b : ViewportTransform) : Prop :=
  x a == x b /\ y a == y b /\ scale a == scale b.

(** A drag session: [startDrag(start)] followed by [drag] at each of
    the points. *)
Definition drag_session (v : Viewport) (start : Point) (points : list Point)
    : Viewport :=
  foldl drag (startDrag v start) points.

End ViewportQueries.

(** ** helpers.ts: the geometry kernel *)

Module Geometry.
Import Helpers Viewport.
Local Open Scope Q_scope.

(** [Rect extends Point, Size]. *)
Record Rect := mkGRect { rx : Q; ry : Q; rwidth : Q; rheight : Q }.


(** [a < b] on numbers. *)
Definition Qlt_bool (a b : Q) : bool := negb (Qle_bool b a).






Definition getRectCenter (rect : Rect) : Point :=
  mkPoint (rx rect + rwidth rect / 2) (ry rect + rheight rect / 2).


End Geometry.

(** ** The node model: position, size and the cached rectangle *)

Module NodeGeometry.
Import Helpers Viewport Geometry.
Local Open Scope Q_scope.

(** The geometry fields of a [MindNode]: [x], [y], [width], [height]
    and the two private caches [_rect] and [_centerPoint]. *)
Record Box := mkBox {
  gx : Q;
  gy : Q;
  gwidth : Q;
  gheight : Q;
  rect_cache : option Rect;
  centerPoint_cache : option Point
}.

(** What the constructor leaves: the four numbers and no cache. *)
Definition constructor (x y width height : Q) : Box :=
  mkBox x y width height None None.

(** The getter [rect]: the cached rectangle is given again unless its
    [x] or [y] differs from the node's. *)
Definition rect (b : Box) : Rect * Box :=
  let fresh :=
    let r := mkGRect (gx b) (gy b) (gwidth b) (gheight b) in
    (r, mkBox (gx b) (gy b) (gwidth b) (gheight b) (Some r) (centerPoint_cache b)) in
  match rect_cache b with
  | Some r =>
      if negb (Qeq_bool (rx r) (gx b)) || negb (Qeq_bool (ry r) (gy b))
      then fresh
      else (r, b)
  | None => fresh
  end.

(** The getter [centerPoint]: computed once and then given again. *)
Definition centerPoint (b : Box) : Point * Box :=
  match centerPoint_cache b with
  | Some p => (p, b)
  | None =>
      let p := mkPoint (gx b + gwidth b / 2) (gy b + gheight b / 2) in
      (p, mkBox (gx b) (gy b) (gwidth b) (gheight b) (rect_cache b) (Some p))
  end.

(** [setPosition], [setSize] and [setRect] drop both caches. *)
Definition setPosition (x y : Q) (b : Box) : Box :=
  mkBox x y (gwidth b) (gheight b) None None.

Definition setSize (width height : Q) (b : Box) : Box :=
  mkBox (gx b) (gy b) width height None None.

Definition setRect (r : Rect) (b : Box) : Box :=
  mkBox (rx r) (ry r) (rwidth r) (rheight r) None None.

(** An assignment to the public field [width], as a layout may do. *)
Definition assign_width (width : Q) (b : Box) : Box :=
  mkBox (gx b) (gy b) width (gheight b) (rect_cache b) (centerPoint_cache b).

(** The calls on the geometry of a node. *)
Inductive GeometryCall :=
| GetRect
| GetCenterPoint
| SetPosition (x y : Q)
| SetSize (width height : Q)
| SetRect (r : Rect).

Definition perform (b : Box) (c : GeometryCall) : Box :=
  match c with
  | GetRect => snd (rect b)
  | GetCenterPoint => snd (centerPoint b)
  | SetPosition x y => setPosition x y b
  | SetSize width height => setSize width height b
  | SetRect r => setRect r b
  end.

(** A cache is empty or holds what would be computed now. *)
Definition coherent (b : Box) : Prop :=
  (rect_cache b = None \/
   rect_cache b = Some (mkGRect (gx b) (gy b) (gwidth b) (gheight b))) /\
  (centerPoint_cache b = None \/
   centerPoint_cache b
   = Some (mkPoint (gx b + gwidth b / 2) (gy b + gheight b / 2))).

End NodeGeometry.
(** * Results: the node model *)

Module MindNodeFacts.
Import JS MindNode.

(** *** The store *)

Lemma lookup_update (w : World) (a b : addr) (f : Node -> Node) :
  nodes (update a f w) !! b
  = if decide (a = b) then f <$> nodes w !! b else nodes w !! b.
Proof.
  unfold update; simpl. rewrite list_lookup_alter.
  destruct (decide (a = b)) as [->|]; simpl; repeat case_decide; done.
Qed.

Lemma length_update (w : World) (a : addr) (f : Node -> Node) :
  length (nodes (update a f w)) = length (nodes w).
Proof. unfold update; simpl. apply length_alter. Qed.

Lemma generated_update (w : World) (a : addr) (f : Node -> Node) :
  generated (update a f w) = generated w.
Proof. reflexivity. Qed.

Lemma children_of_update (w : World) (a b : addr) (f : Node -> Node) :
  (forall n, children (f n) = children n) ->
  children_of (update a f w) b = children_of w b.
Proof.
  intros Hf. unfold children_of. rewrite lookup_update.
  destruct (decide (a = b)) as [->|]; [| reflexivity].
  destruct (nodes w !! b); simpl; [apply Hf | reflexivity].
Qed.

Lemma parent_of_update (w : World) (a b : addr) (f : Node -> Node) :
  (forall n, parent (f n) = parent n) ->
  parent_of (update a f w) b = parent_of w b.
Proof.
  intros Hf. unfold parent_of. rewrite lookup_update.
  destruct (decide (a = b)) as [->|]; [| reflexivity].
  destruct (nodes w !! b); simpl; [apply Hf | reflexivity].
Qed.

Lemma children_of_set_children (w : World) (a b : addr) (cs : list addr) :
  a < length (nodes w) ->
  children_of (update a (set_children cs) w) b
  = if decide (a = b) then cs else children_of w b.
Proof.
  intros Ha. unfold children_of. rewrite lookup_update.
  destruct (decide (a = b)) as [<-|]; [| reflexivity].
  destruct (lookup_lt_is_Some_2 _ _ Ha) as [n Hn]. by rewrite Hn.
Qed.

Lemma parent_of_set_parent (w : World) (a b : addr) (p : option addr) :
  a < length (nodes w) ->
  parent_of (update a (set_parent p) w) b
  = if decide (a = b) then p else parent_of w b.
Proof.
  intros Ha. unfold parent_of. rewrite lookup_update.
  destruct (decide (a = b)) as [<-|]; [| reflexivity].
  destruct (lookup_lt_is_Some_2 _ _ Ha) as [n Hn]. by rewrite Hn.
Qed.

(** *** Attaching and detaching *)

Lemma addChild_node_children (w : World) (this c a : addr) (index : option Z) :
  this < length (nodes w) ->
  children_of (snd (addChild_node this c index w)) a
  = if decide (this = a) then place c index (children_of w this)
    else children_of w a.
Proof.
  intros Hthis. unfold addChild_node. cbn [snd].
  rewrite children_of_set_children by (by rewrite length_update).
  by rewrite !children_of_update.
Qed.

Lemma addChild_node_parent (w : World) (this c a : addr) (index : option Z) :
  c < length (nodes w) ->
  parent_of (snd (addChild_node this c index w)) a
  = if decide (c = a) then Some this else parent_of w a.
Proof.
  intros Hc. unfold addChild_node. cbn [snd].
  rewrite parent_of_update by done.
  by apply parent_of_set_parent.
Qed.

Lemma addChild_node_length (w : World) (this c : addr) (index : option Z) :
  length (nodes (snd (addChild_node this c index w))) = length (nodes w).
Proof. unfold addChild_node. cbn [snd]. by rewrite !length_update. Qed.

Lemma detached_find (n : addr) (l : list addr) :
  match list_find (fun k => k = n) l with
  | Some (i, _) => l !! i = Some n /\ detached n l (delete i l) /\ n ∈ l
  | None => n ∉ l
  end.
Proof.
  destruct (list_find (fun k => k = n) l) as [[i x]|] eqn:E.
  - apply list_find_Some in E as (Hi & -> & Hmin).
    split; [exact Hi |]. split; [| by eapply list_elem_of_lookup_2].
    right. exists (take i l), (drop (S i) l).
    split; [symmetry; by apply take_drop_middle |].
    split; [| apply delete_take_drop].
    intros Hin. apply list_elem_of_lookup in Hin as [j Hj].
    pose proof (lookup_lt_Some _ _ _ Hj) as Hlt. rewrite length_take in Hlt.
    rewrite lookup_take_lt in Hj by lia.
    by apply (Hmin j n Hj); [lia |].
  - apply list_find_None in E. intros Hin.
    rewrite Forall_forall in E. by apply (E n Hin).
Qed.

(** [removeChild(child)] by reference: the first occurrence of the
    child leaves the array and the child loses its parent; nothing
    happens when the child is not in the array. *)
Lemma removeChild_ref (w : World) (this n : addr) :
  this < length (nodes w) -> n < length (nodes w) ->
  let w' := snd (removeChild this (inl n) w) in
  length (nodes w') = length (nodes w) /\
  detached n (children_of w this) (children_of w' this) /\
  (forall a, a <> this -> children_of w' a = children_of w a) /\
  (forall a, a <> n -> parent_of w' a = parent_of w a) /\
  (n ∈ children_of w this -> fst (removeChild this (inl n) w) = true /\ parent_of w' n = None) /\
  (n ∉ children_of w this -> removeChild this (inl n) w = (false, w)).
Proof.
  intros Hthis Hn. unfold removeChild, child_index.
  pose proof (detached_find n (children_of w this)) as Hfind.
  destruct (list_find (fun k => k = n) (children_of w this)) as [[i x]|]; cbn [fmap option_fmap option_map fst].
  - destruct Hfind as (Hi & Hdet & Hin). rewrite Hi. cbn [fst snd].
    rewrite !length_update. split; [reflexivity |].
    rewrite !children_of_set_children by (by rewrite length_update).
    rewrite !children_of_update by done.
    split; [by rewrite decide_True |].
    split; [intros a Ha; rewrite children_of_set_children by (by rewrite length_update);
            rewrite decide_False by done; by rewrite children_of_update |].
    split; [intros a Ha; rewrite parent_of_update by done;
            rewrite parent_of_set_parent by done; by rewrite decide_False |].
    split; [| done].
    intros _. split; [reflexivity |].
    rewrite parent_of_update by done. rewrite parent_of_set_parent by done.
    by rewrite decide_True.
  - cbn [fst snd]. split; [reflexivity |]. split; [by left |].
    repeat split; try done.
Qed.

(** *** Walking up the parent references *)

Lemma walk_up_total (w : World) (n : addr) (fuel : nat) : forall current,
  reaches_root fuel w current = true ->
  exists b, walk_up fuel w current n = Some b.
Proof.
  induction fuel as [|fuel IH]; intros [c|] H; simpl in H |- *.
  - discriminate.
  - by exists false.
  - destruct (bool_decide (c = n)); [by exists true | by apply IH].
  - by exists false.
Qed.

Lemma walk_up_true (w : World) (n : addr) (fuel : nat) : forall current,
  walk_up fuel w current n = Some true ->
  exists c, current = Some c /\ (c = n \/ ancestor w n c).
Proof.
  induction fuel as [|fuel IH]; intros [c|] H; simpl in H; try discriminate.
  - destruct (decide (c = n)) as [Heq | Hne].
    + exists c. auto.
    + rewrite bool_decide_eq_false_2 in H by done. discriminate.
  - destruct (decide (c = n)) as [Heq | Hne]; [exists c; auto |].
    rewrite bool_decide_eq_false_2 in H by done.
    destruct (IH _ H) as (q & Hq & [Heq | Hanc]); exists c; split; auto; right.
    + subst q. by apply ancestor_parent.
    + by eapply ancestor_step.
Qed.

Lemma walk_up_false (w : World) (n : addr) (fuel : nat) : forall current,
  walk_up fuel w current n = Some false ->
  forall c, current = Some c -> c <> n /\ ~ ancestor w n c.
Proof.
  induction fuel as [|fuel IH]; intros [c|] H c' [= <-]; simpl in H.
  - destruct (bool_decide (c = n)); discriminate.
  - destruct (decide (c = n)) as [Heq | Hne];
      [rewrite bool_decide_eq_true_2 in H by done; discriminate |].
    rewrite bool_decide_eq_false_2 in H by done.
    split; [exact Hne |]. intros Hanc.
    inversion Hanc as [c0 Hp | c0 q Hp Hq]; subst.
    + destruct (IH _ H n Hp) as [Hnn _]. by apply Hnn.
    + destruct (IH _ H q Hp) as [_ Hnq]. by apply Hnq.
Qed.

Lemma isDescendantOf_true (w : World) (fuel : nat) (this n : addr) :
  isDescendantOf fuel w this n = Some true -> ancestor w n this.
Proof.
  intros H. apply walk_up_true in H as (c & Hc & [-> | Hanc]).
  - by apply ancestor_parent.
  - by eapply ancestor_step.
Qed.

Lemma isDescendantOf_false (w : World) (fuel : nat) (this n : addr) :
  isDescendantOf fuel w this n = Some false -> ~ ancestor w n this.
Proof.
  intros H Hanc. unfold isDescendantOf in H.
  inversion Hanc as [c0 Hp | c0 q Hp Hq]; subst.
  - destruct (walk_up_false _ _ _ _ H n Hp) as [Hnn _]. by apply Hnn.
  - destruct (walk_up_false _ _ _ _ H q Hp) as [_ Hnq]. by apply Hnq.
Qed.

(** When parents lie at lower addresses the walk up from a node ends
    within as many steps as its address. *)
Lemma parents_below_reaches_root (w : World) :
  parents_below w ->
  forall (fuel : nat) (current : option addr),
    (forall c, current = Some c -> c < fuel) ->
    reaches_root fuel w current = true.
Proof.
  intros Hpb. induction fuel as [|fuel IH]; intros [c|] Hc; simpl; try reflexivity.
  - specialize (Hc c eq_refl). lia.
  - apply IH. intros q Hq. apply Hpb in Hq. specialize (Hc c eq_refl). lia.
Qed.

(** Under invariant I2 the ancestors found through the parent
    references are those found through the children arrays. *)
Lemma ancestor_below (w : World) (n p : addr) :
  consistent w -> (ancestor w n p <-> below w n p).
Proof.
  intros Hc. split.
  - induction 1 as [c Hp | c q Hp _ IH].
    + apply below_child. by apply Hc.
    + apply Hc in Hp. clear -Hp IH.
      induction IH as [n q Hq | n q' q Hq' _ IH].
      * eapply below_step; [exact Hq |]. by apply below_child.
      * eapply below_step; [exact Hq' |]. by apply IH.
  - induction 1 as [n c Hin | n c d Hin _ IH].
    + apply ancestor_parent. by apply Hc.
    + apply Hc in Hin. clear -Hin IH.
      induction IH as [d Hp | d q Hp _ IH].
      * eapply ancestor_step; [exact Hp |]. by apply ancestor_parent.
      * eapply ancestor_step; [exact Hp | exact IH].
Qed.

(** *** [moveTo] *)

Lemma detached_NoDup (n : addr) (l l' : list addr) :
  detached n l l' -> NoDup l -> n ∉ l'.
Proof.
  intros [[Hout ->] | (l1 & l2 & -> & Hout & ->)] Hnd; [exact Hout |].
  apply NoDup_app in Hnd as (_ & _ & Hnd). apply NoDup_cons in Hnd as [Hn2 _].
  intros Hin. apply elem_of_app in Hin as [Hin | Hin]; tauto.
Qed.

Lemma moveTo_accepts (fuel : nat) (n p : addr) (index : option Z) (w : World) :
  p <> n -> isDescendantOf fuel w p n = Some false ->
  moveTo fuel n p index w
  = Some (true, snd (addChild_node p n index
                       match parent_of w n with
                       | Some q => snd (removeChild q (inl n) w)
                       | None => w
                       end)).
Proof.
  intros Hne Hb. unfold moveTo.
  rewrite bool_decide_eq_false_2 by done. by rewrite Hb.
Qed.

(** What a [moveTo] that is not rejected does to the store. *)
Lemma moveTo_moves
    (fuel : nat) (n p : addr) (index : option Z) (w : World) :
  n < length (nodes w) -> p < length (nodes w) ->
  reaches_root fuel w (parent_of w p) = true ->
  (p = n \/ ancestor w n p -> moveTo fuel n p index w = Some (false, w)) /\
  (~ (p = n \/ ancestor w n p) ->
   exists w' : World,
     moveTo fuel n p index w = Some (true, w') /\
     length (nodes w') = length (nodes w) /\
     (forall a, parent_of w' a = if decide (a = n) then Some p else parent_of w a) /\
     (forall a, exists la,
        (parent_of w n = Some a ->
           detached n (children_of w a) la /\ (NoDup (children_of w a) -> n ∉ la)) /\
        (parent_of w n <> Some a -> la = children_of w a) /\
        children_of w' a = if decide (a = p) then place n index la else la)) /\
  (consistent w -> (ancestor w n p <-> below w n p)).
Proof.
  intros Hn Hp Hroot.
  destruct (walk_up_total w n fuel _ Hroot) as [b Hb].
  change (isDescendantOf fuel w p n = Some b) in Hb.
  split; [| split; [| by apply ancestor_below]].
  - intros Hcyc. unfold moveTo.
    destruct (decide (p = n)) as [Heq | Hne];
      [by rewrite bool_decide_eq_true_2 | rewrite bool_decide_eq_false_2 by done].
    rewrite Hb. simpl. destruct b; [reflexivity |].
    apply isDescendantOf_false in Hb. tauto.
  - intros Hfree.
    destruct b; [apply isDescendantOf_true in Hb; tauto |].
    rewrite moveTo_accepts by tauto.
    eexists. split; [reflexivity |].
    destruct (parent_of w n) as [q|] eqn:Eq.
    + destruct (decide (q < length (nodes w))) as [Hq | Hq].
      * destruct (removeChild_ref w q n Hq Hn) as (Hlen & Hdet & Hch & Hpa & _).
        revert Hlen Hdet Hch Hpa. generalize (snd (removeChild q (inl n) w)).
        intros w1 Hlen Hdet Hch Hpa.
        split; [by rewrite addChild_node_length |]. split.
        { intros a. rewrite addChild_node_parent by lia.
          destruct (decide (n = a)) as [-> |];
            [by rewrite decide_True | rewrite decide_False by done; by apply Hpa]. }
        intros a. rewrite addChild_node_children by lia.
        destruct (decide (a = q)) as [-> | Haq].
        -- exists (children_of w1 q).
           split; [intros _; split; [done | by eapply detached_NoDup] |].
           split; [done |].
           destruct (decide (p = q)) as [-> |];
             [by rewrite decide_True | by rewrite decide_False].
        -- exists (children_of w a). split; [by intros [= ->] |]. split; [done |].
           destruct (decide (p = a)) as [-> |].
           ++ rewrite decide_True by done. by rewrite Hch.
           ++ rewrite decide_False by done. by apply Hch.
      * assert (Hnone : removeChild q (inl n) w = (false, w)).
        { unfold removeChild, child_index, children_of.
          rewrite lookup_ge_None_2 by lia. reflexivity. }
        rewrite Hnone. cbn [snd].
        split; [by rewrite addChild_node_length |]. split.
        { intros a. rewrite addChild_node_parent by lia.
          destruct (decide (n = a)) as [-> |];
            [by rewrite decide_True | by rewrite decide_False]. }
        intros a. rewrite addChild_node_children by lia.
        exists (children_of w a). split.
        { intros [= ->]. unfold children_of.
          rewrite lookup_ge_None_2 by lia.
          split; [left; split; [apply not_elem_of_nil | done] |].
          intros _. apply not_elem_of_nil. }
        split; [done |].
        destruct (decide (p = a)) as [-> |];
          [by rewrite decide_True | by rewrite decide_False].
    + split; [by rewrite addChild_node_length |]. split.
      { intros a. rewrite addChild_node_parent by lia.
        destruct (decide (n = a)) as [-> |];
          [by rewrite decide_True | by rewrite decide_False]. }
      intros a. rewrite addChild_node_children by lia.
      exists (children_of w a). split; [done |]. split; [done |].
      destruct (decide (p = a)) as [-> |];
        [by rewrite decide_True | by rewrite decide_False].
Qed.

(** Where [place] puts the child, spelled out. *)
Lemma place_at_index (child : addr) (i : Z) (cs : list addr) :
  (0 <= i <= Z.of_nat (length cs))%Z ->
  place child (Some i) cs = take (Z.to_nat i) cs ++ child :: drop (Z.to_nat i) cs.
Proof.
  intros Hi. unfold place, splice_in.
  replace ((0 <=? i)%Z) with true by (symmetry; apply Z.leb_le; lia).
  replace ((i <=? Z.of_nat (length cs))%Z) with true
    by (symmetry; apply Z.leb_le; lia).
  reflexivity.
Qed.

Lemma place_at_end (child : addr) (index : option Z) (cs : list addr) :
  index = None \/
  (exists i : Z, index = Some i /\ (i < 0 \/ Z.of_nat (length cs) < i)%Z) ->
  place child index cs = cs ++ [child].
Proof.
  intros [-> | (i & -> & Hi)]; [reflexivity |]. unfold place.
  destruct Hi as [Hi | Hi].
  - replace ((0 <=? i)%Z) with false by (symmetry; apply Z.leb_gt; lia).
    reflexivity.
  - replace ((i <=? Z.of_nat (length cs))%Z) with false
      by (symmetry; apply Z.leb_gt; lia).
    by rewrite andb_false_r.
Qed.

(** C1 (amended): for every node n and every node p from which the
    parent references run off a root within [fuel] steps, if p is n
    itself or n is met walking up the parent references from p (which
    is what [p.isDescendantOf(n)] tests) then [n.moveTo(p, index)]
    returns false and changes nothing. Otherwise it returns true, and
    afterwards the parent of n is p and every other parent reference is
    as before; the children of the former parent have lost the first
    occurrence of n (so n is gone from them when they had no
    duplicates); and the children of p are their former value [la]
    (after that removal, if p was already the parent) with n inserted:
    [take i la ++ n :: drop i la] when the index i has
    [0 <= i <= length la], and [la ++ [n]] when there is no index or it
    is out of that range. Every other children array is as before.
    Under invariant I2, n is met walking up from p exactly when p is
    among the descendants of n through the children arrays. *)
Theorem moveTo_rejects_cycles
    (fuel : nat) (n p : addr) (index : option Z) (w : World) :
  n < length (nodes w) -> p < length (nodes w) ->
  reaches_root fuel w (parent_of w p) = true ->
  (p = n \/ ancestor w n p -> moveTo fuel n p index w = Some (false, w)) /\
  (~ (p = n \/ ancestor w n p) ->
   exists w' : World,
     moveTo fuel n p index w = Some (true, w') /\
     length (nodes w') = length (nodes w) /\
     (forall a, parent_of w' a = if decide (a = n) then Some p else parent_of w a) /\
     (forall a, exists la,
        (parent_of w n = Some a ->
           detached n (children_of w a) la /\ (NoDup (children_of w a) -> n ∉ la)) /\
        (parent_of w n <> Some a -> la = children_of w a) /\
        children_of w' a = (if decide (a = p) then place n index la else la) /\
        (a = p -> forall i : Z,
           index = Some i -> (0 <= i <= Z.of_nat (length la))%Z ->
           children_of w' a = take (Z.to_nat i) la ++ n :: drop (Z.to_nat i) la) /\
        (a = p ->
           index = None \/
           (exists i : Z, index = Some i /\ (i < 0 \/ Z.of_nat (length la) < i)%Z) ->
           children_of w' a = la ++ [n]) /\
        (a <> p -> children_of w' a = la))) /\
  (consistent w -> (ancestor w n p <-> below w n p)).
Proof.
  intros Hn Hp Hroot.
  destruct (moveTo_moves fuel n p index w Hn Hp Hroot) as (Hrej & Hacc & Hcons).
  split; [exact Hrej |]. split; [| exact Hcons].
  intros Hfree. destruct (Hacc Hfree) as (w' & Hmove & Hlen & Hpar & Hch).
  exists w'. split; [exact Hmove |]. split; [exact Hlen |]. split; [exact Hpar |].
  intros a. destruct (Hch a) as (la & Hold & Hother & Hnew).
  exists la. split; [exact Hold |]. split; [exact Hother |]. split; [exact Hnew |].
  split; [| split].
  - intros -> i -> Hi. rewrite decide_True in Hnew by done.
    rewrite Hnew. by apply place_at_index.
  - intros -> Hout. rewrite decide_True in Hnew by done.
    rewrite Hnew. by apply place_at_end.
  - intros Hne. by rewrite decide_False in Hnew.
Qed.

(** *** Tags *)

Lemma tags_of_update (w : World) (a : addr) (f : Node -> Node) (n : Node) :
  nodes w !! a = Some n -> tags_of (update a f w) a = tags (f n).
Proof.
  intros Hn. unfold tags_of. rewrite lookup_update, decide_True by done.
  by rewrite Hn.
Qed.

Lemma addTag_NoDup (w : World) (a : addr) (tag : string) :
  NoDup (tags_of w a) -> NoDup (tags_of (addTag a tag w) a).
Proof.
  intros Hnd. unfold addTag, hasTag.
  destruct (bool_decide_reflect (tag ∈ tags_of w a)) as [Hin | Hout]; [exact Hnd |].
  unfold tags_of in *. destruct (nodes w !! a) as [n|] eqn:Hn.
  - rewrite lookup_update, decide_True, Hn by done. simpl.
    apply NoDup_app. split; [exact Hnd |]. split; [| apply NoDup_singleton].
    intros x Hx Hx'. apply list_elem_of_singleton in Hx'. by subst.
  - rewrite lookup_update, decide_True, Hn by done. exact Hnd.
Qed.

Lemma removeTag_NoDup (w : World) (a : addr) (tag : string) :
  NoDup (tags_of w a) -> NoDup (tags_of (removeTag a tag w) a).
Proof.
  intros Hnd. unfold removeTag.
  destruct (list_find (fun t => t = tag) (tags_of w a)) as [[i x]|]; [| exact Hnd].
  unfold tags_of in *. destruct (nodes w !! a) as [n|] eqn:Hn.
  - rewrite lookup_update, decide_True, Hn by done. simpl.
    eapply sublist_NoDup; [exact Hnd | apply sublist_delete].
  - rewrite lookup_update, decide_True, Hn by done. exact Hnd.
Qed.

Lemma run_tag_ops_NoDup (a : addr) (ops : list TagOp) : forall w : World,
  NoDup (tags_of w a) -> NoDup (tags_of (run_tag_ops a ops w) a).
Proof.
  induction ops as [|o ops IH]; intros w Hnd; [exact Hnd |].
  simpl. apply IH. destruct o; [by apply addTag_NoDup | by apply removeTag_NoDup].
Qed.

(** *** Trees held by the store *)

Lemma holds_unfold (l : list Node) (a : addr) (t : Tree) :
  holds l a t <->
  exists n : Node,
    l !! a = Some n /\
    node_id n = t_id t /\ text n = t_text t /\ style n = t_style t /\
    data n = t_data t /\ expanded n = t_expanded t /\
    selected n = t_selected t /\ hidden n = t_hidden t /\
    tags n = t_tags t /\ node_type n = t_type t /\
    Forall2 (fun c t' => a < c /\ holds l c t') (children n) (t_children t).
Proof.
  destruct t as [? ? ? ? ? ? ? ? ? ts]; simpl.
  assert (Hall : forall cs,
    (fix all (cs : list addr) (ts : list Tree) {struct ts} : Prop :=
       match cs, ts with
       | [], [] => True
       | c :: cs', t' :: ts' => a < c /\ holds l c t' /\ all cs' ts'
       | _, _ => False
       end) cs ts <-> Forall2 (fun c t' => a < c /\ holds l c t') cs ts).
  { induction ts as [|t' ts IH]; intros [|c cs]; split; intros H.
    - constructor.
    - exact I.
    - destruct H.
    - inversion H.
    - destruct H.
    - inversion H.
    - destruct H as (H1 & H2 & H3). constructor; [by split | by apply IH].
    - apply Forall2_cons in H as [[H1 H2] H3].
      split; [exact H1 |]. split; [exact H2 | by apply IH]. }
  split; intros (n & Hn & H); exists n; (split; [exact Hn |]);
    repeat (destruct H as [? H]; split; [assumption |]); by apply Hall.
Qed.

(** A tree held at [a] is still held when every node from [a] upwards
    keeps its content. *)
Lemma holds_agree (l l' : list Node) (t : Tree) : forall a : addr,
  holds l a t ->
  (forall b n, a <= b -> l !! b = Some n ->
     exists n', l' !! b = Some n' /\ content n' = content n) ->
  holds l' a t.
Proof.
  induction t as [t IH] using Tree_nested_ind. intros a Hh Hagree.
  apply holds_unfold in Hh as (n & Hn & Hid & Htx & Hst & Hda & Hex & Hse & Hhi & Htg & Hty & Hcs).
  destruct (Hagree a n (le_n a) Hn) as (n' & Hn' & Hc).
  apply holds_unfold. exists n'. split; [exact Hn' |].
  unfold content, set_parent in Hc.
  injection Hc as E1 E2 E3 E4 E5 E6 E7 E8 E9 E10 E11 E12 E13 E14.
  repeat (split; [congruence |]).
  rewrite E3. revert Hcs. generalize (children n). intros cs Hcs.
  induction Hcs as [|c t' cs ts [Hlt Hc] _ IHcs]; [constructor |].
  apply Forall_cons in IH as [IHt IHts].
  constructor; [| by apply IHcs].
  split; [exact Hlt |]. apply IHt; [exact Hc |].
  intros b m Hb. apply Hagree. lia.
Qed.

(** *** Reading a held tree back *)

Lemma tree_height_children (t c : Tree) :
  c ∈ t_children t -> tree_height c < tree_height t.
Proof.
  destruct t as [? ? ? ? ? ? ? ? ? ts]; simpl. intros Hin.
  induction ts as [|t' ts IH]; [by apply elem_of_nil in Hin |].
  apply elem_of_cons in Hin as [-> | Hin]; simpl; [lia |].
  specialize (IH Hin). lia.
Qed.

Lemma holds_snapshot (w : World) (t : Tree) : forall (a : addr) (fuel : nat),
  holds (nodes w) a t -> tree_height t <= fuel -> snapshot fuel w a = Some t.
Proof.
  induction t as [t IH] using Tree_nested_ind. intros a fuel Hh Hfuel.
  apply holds_unfold in Hh
    as (n & Hn & Hid & Htx & Hst & Hda & Hex & Hse & Hhi & Htg & Hty & Hcs).
  destruct fuel as [|fuel]; [destruct t; simpl in Hfuel; lia |].
  simpl. rewrite Hn. simpl.
  assert (Hkids : mapM (snapshot fuel w) (children n) = Some (t_children t)).
  { apply mapM_Some. 
    assert (Hh' : forall c, c ∈ t_children t -> tree_height c <= fuel)
      by (intros c Hc; apply tree_height_children in Hc; lia).
    clear Hfuel. induction Hcs as [|c t' cs ts [_ Hc] _ IHcs]; [constructor |].
    apply Forall_cons in IH as [IHt IHts].
    constructor.
    - apply IHt; [exact Hc | apply Hh'; left].
    - apply IHcs; [exact IHts |]. intros c' Hc'. apply Hh'. by right. }
  rewrite Hkids. simpl. destruct t; simpl in *. congruence.
Qed.

Lemma deepClone_id (v : JSValue) : deepClone v = v.
Proof.
  revert v. fix IH 1. intros [| | b | q | s | items | fields]; simpl; try reflexivity.
  - f_equal. induction items as [|i items IHl]; simpl; [reflexivity |].
    by rewrite IH, IHl.
  - f_equal. induction fields as [|[k i] fields IHl]; simpl; [reflexivity |].
    by rewrite IH, IHl.
Qed.

Lemma deepClone_object_id (o : JSObject) : deepClone_object o = o.
Proof.
  unfold deepClone_object. rewrite <- (map_fmap_id o) at 2.
  apply map_fmap_ext. intros ? ? _. apply deepClone_id.
Qed.

Lemma deepClone_text_id (t : Text) : deepClone_text t = t.
Proof.
  destruct t as [s | runs]; simpl; [reflexivity |]. f_equal.
  induction runs as [|[] runs IH]; simpl; [reflexivity | by rewrite IH].
Qed.

Lemma holds_toJSON (w : World) (t : Tree) : forall (a : addr) (fuel : nat),
  holds (nodes w) a t -> tree_height t <= fuel ->
  toJSON fuel w a = Some (serialised t).
Proof.
  induction t as [t IH] using Tree_nested_ind. intros a fuel Hh Hfuel.
  apply holds_unfold in Hh
    as (n & Hn & Hid & Htx & Hst & Hda & Hex & Hse & Hhi & Htg & Hty & Hcs).
  destruct fuel as [|fuel]; [destruct t; simpl in Hfuel; lia |].
  simpl. rewrite Hn. simpl.
  assert (Hkids : mapM (toJSON fuel w) (children n) = Some (map serialised (t_children t))).
  { apply mapM_Some. 
    assert (Hh' : forall c, c ∈ t_children t -> tree_height c <= fuel)
      by (intros c Hc; apply tree_height_children in Hc; lia).
    clear Hfuel. induction Hcs as [|c t' cs ts [_ Hc] _ IHcs]; [constructor |].
    apply Forall_cons in IH as [IHt IHts].
    constructor.
    - apply IHt; [exact Hc | apply Hh'; left].
    - apply IHcs; [exact IHts |]. intros c' Hc'. apply Hh'. by right. }
  rewrite Hkids. simpl. rewrite length_map.
  destruct t as [? ? ? ? ? ? ? ? ? ts]; simpl in *. subst.
  destruct ts; reflexivity.
Qed.

Section Facts.

Variable entropy : nat -> string * string.

(** *** The constructor only allocates *)

Lemma extends_refl (w : World) : extends w w.
Proof. repeat split; auto. Qed.

Lemma extends_trans (w1 w2 w3 : World) :
  extends w1 w2 -> extends w2 w3 -> extends w1 w3.
Proof.
  intros (L1 & G1 & H1) (L2 & G2 & H2). repeat split; try lia.
  intros b Hb. rewrite H2 by lia. by apply H1.
Qed.

Lemma extends_update_new (w : World) (a : addr) (f : Node -> Node) (w0 : World) :
  extends w0 w -> length (nodes w0) <= a -> extends w0 (update a f w).
Proof.
  intros (L & G & H) Ha. repeat split.
  - by rewrite length_update.
  - exact G.
  - intros b Hb. rewrite lookup_update.
    destruct (decide (a = b)); [lia | by apply H].
Qed.

Lemma id_or_generate_nodes (o : option string) (w : World) :
  nodes (snd (id_or_generate entropy o w)) = nodes w /\
  generated w <= generated (snd (id_or_generate entropy o w)).
Proof.
  unfold id_or_generate, generateId.
  destruct o as [s|]; [destruct (truthy s) |]; simpl;
    try destruct (entropy (generated w)); simpl; auto.
Qed.

Lemma constructor_unfold (d : NodeData) (w : World) :
  constructor entropy d w =
    let this := length (nodes w) in
    let '(i, w1) := id_or_generate entropy (d_id d) w in
    let w2 := with_nodes w1 (nodes w1 ++ [initial_node i d]) in
    match d_children d with
    | Some l =>
        let '(cs, w3) := build_children (constructor entropy) this l w2 in
        (this, update this (set_children cs) w3)
    | None => (this, w2)
    end.
Proof. destruct d as [? ? [l|] ? ? ? ? ? ? ? ? ? ? ?]; reflexivity. Qed.

Lemma build_children_extends (this : addr) (l : list NodeData) :
  Forall (fun d => forall w, fst (constructor entropy d w) = length (nodes w) /\
                    length (nodes w) < length (nodes (snd (constructor entropy d w))) /\
                    extends w (snd (constructor entropy d w))) l ->
  forall w, extends w (snd (build_children (constructor entropy) this l w)) /\
            Forall (fun c => length (nodes w) <= c) 
                   (fst (build_children (constructor entropy) this l w)).
Proof.
  induction 1 as [|d l Hd _ IH]; intros w; simpl.
  - split; [apply extends_refl | constructor].
  - destruct (Hd w) as (Ha & Hl & He).
    destruct (constructor entropy d w) as [child w1]; simpl in Ha, Hl, He.
    subst child.
    pose proof (length_update w1 (length (nodes w)) (set_parent (Some this))) as Hlen.
    assert (Hw2 : extends w (update (length (nodes w)) (set_parent (Some this)) w1))
      by (apply extends_update_new; [exact He | lia]).
    revert Hlen Hw2.
    generalize (update (length (nodes w)) (set_parent (Some this)) w1).
    intros w2 Hlen Hw2.
    destruct (IH w2) as (He2 & Hcs).
    destruct (build_children (constructor entropy) this l w2) as [cs w3].
    simpl in He2, Hcs |- *.
    split; [eapply extends_trans; eassumption |].
    constructor; [lia |].
    eapply Forall_impl; [exact Hcs |]. simpl. intros c Hc. lia.
Qed.

Lemma constructor_extends (d : NodeData) : forall w : World,
  fst (constructor entropy d w) = length (nodes w) /\
  length (nodes w) < length (nodes (snd (constructor entropy d w))) /\
  extends w (snd (constructor entropy d w)).
Proof.
  induction d as [d IH] using NodeData_nested_ind. intros w.
  rewrite constructor_unfold.
  destruct (id_or_generate_nodes (d_id d) w) as [Hn Hg].
  destruct (id_or_generate entropy (d_id d) w) as [i w1]; simpl in Hn, Hg.
  set (w2 := with_nodes w1 (nodes w1 ++ [initial_node i d])).
  assert (Hlen2 : length (nodes w2) = S (length (nodes w)))
    by (unfold w2; simpl; rewrite length_app, Hn; simpl; lia).
  assert (He2 : extends w w2).
  { repeat split; [lia | exact Hg |]. intros b Hb. unfold w2; simpl.
    rewrite lookup_app_l by (rewrite Hn; exact Hb). by rewrite Hn. }
  clearbody w2. cbv zeta.
  destruct (d_children d) as [l|] eqn:El; [| simpl; split; [done | split; [lia | done]]].
  destruct (build_children_extends (length (nodes w)) l (IH l eq_refl) w2) as [He3 _].
  destruct (build_children (constructor entropy) (length (nodes w)) l w2) as [cs w3].
  cbn [fst snd] in He3 |- *.
  split; [reflexivity |]. destruct He3 as (L3 & G3 & H3).
  split; [rewrite length_update; lia |].
  apply extends_update_new; [| lia].
  eapply extends_trans; [exact He2 | repeat split; done].
Qed.

(** *** The constructor puts parents below their children *)

Lemma parents_below_update_parent (w : World) (c p : addr) :
  parents_below w -> p < c -> parents_below (update c (set_parent (Some p)) w).
Proof.
  intros Hpb Hlt a q. unfold parent_of. rewrite lookup_update.
  destruct (decide (c = a)) as [<- |]; [| apply Hpb].
  destruct (nodes w !! c); simpl; [by intros [= <-] | discriminate].
Qed.

Lemma parents_below_update_children (w : World) (c : addr) (cs : list addr) :
  parents_below w -> parents_below (update c (set_children cs) w).
Proof. intros Hpb a q. rewrite parent_of_update by done. apply Hpb. Qed.

Lemma build_children_parents_below (this : addr) (l : list NodeData) :
  Forall (fun d => forall w, parents_below w ->
                   parents_below (snd (constructor entropy d w))) l ->
  forall w, this < length (nodes w) -> parents_below w ->
            parents_below (snd (build_children (constructor entropy) this l w)).
Proof.
  induction 1 as [|d l Hd _ IH]; intros w Hthis Hpb; simpl; [exact Hpb |].
  specialize (Hd w Hpb).
  destruct (constructor_extends d w) as (Ha & Hlen & _).
  destruct (constructor entropy d w) as [child w1]. cbn [fst snd] in Hd, Ha, Hlen.
  subst child.
  pose proof (parents_below_update_parent w1 _ this Hd Hthis) as Hpb2.
  pose proof (length_update w1 (length (nodes w)) (set_parent (Some this))) as Hlen2.
  revert Hpb2 Hlen2. generalize (update (length (nodes w)) (set_parent (Some this)) w1).
  intros w2 Hpb2 Hlen2.
  specialize (IH w2 ltac:(lia) Hpb2).
  by destruct (build_children (constructor entropy) this l w2).
Qed.

Lemma constructor_parents_below (d : NodeData) : forall w : World,
  parents_below w -> parents_below (snd (constructor entropy d w)).
Proof.
  induction d as [d IH] using NodeData_nested_ind. intros w Hpb.
  rewrite constructor_unfold.
  destruct (id_or_generate_nodes (d_id d) w) as [Hn _].
  destruct (id_or_generate entropy (d_id d) w) as [i w1]; simpl in Hn.
  set (w2 := with_nodes w1 (nodes w1 ++ [initial_node i d])).
  assert (Hlen2 : length (nodes w2) = S (length (nodes w)))
    by (unfold w2; simpl; rewrite length_app, Hn; simpl; lia).
  assert (Hpb2 : parents_below w2).
  { intros a q. unfold parent_of, w2; simpl. rewrite Hn.
    destruct (decide (a < length (nodes w))) as [Hlt | Hge].
    - rewrite lookup_app_l by done. apply Hpb.
    - rewrite lookup_app_r by lia.
      destruct (a - length (nodes w)) as [|k]; simpl; discriminate. }
  clearbody w2. cbv zeta.
  destruct (d_children d) as [l|] eqn:El; [| exact Hpb2].
  pose proof (build_children_parents_below (length (nodes w)) l (IH l eq_refl) w2
                ltac:(lia) Hpb2) as Hpb3.
  destruct (build_children (constructor entropy) (length (nodes w)) l w2) as [cs w3].
  cbn [fst snd] in Hpb3 |- *. by apply parents_below_update_children.
Qed.

(** In a store built by the constructor alone, the walk up from any
    node ends: invariant I1 holds. *)
Lemma constructor_reaches_root (d : NodeData) (a : addr) :
  let w := snd (constructor entropy d emptyWorld) in
  reaches_root (S a) w (parent_of w a) = true.
Proof.
  assert (Hpb : parents_below (snd (constructor entropy d emptyWorld))).
  { apply constructor_parents_below. intros b q. unfold parent_of; simpl.
    discriminate. }
  cbv zeta. apply parents_below_reaches_root; [exact Hpb |].
  intros c Hc. apply Hpb in Hc. lia.
Qed.

(** *** What the constructor builds *)

Lemma holds_extends (w w' : World) (a : addr) (t : Tree) :
  extends w w' -> holds (nodes w) a t -> holds (nodes w') a t.
Proof.
  intros (_ & _ & H) Hh. eapply holds_agree; [exact Hh |].
  intros b n _ Hb. exists n. split; [| reflexivity].
  rewrite H; [exact Hb | by eapply lookup_lt_Some].
Qed.

Lemma holds_update_parent (w : World) (c a : addr) (p : option addr) (t : Tree) :
  holds (nodes w) a t -> holds (nodes (update c (set_parent p) w)) a t.
Proof.
  intros Hh. eapply holds_agree; [exact Hh |].
  intros b n _ Hb. rewrite lookup_update, Hb.
  destruct (decide (c = b)); eexists; split; reflexivity.
Qed.

Lemma holds_update_below (w : World) (c a : addr) (f : Node -> Node) (t : Tree) :
  c < a -> holds (nodes w) a t -> holds (nodes (update c f w)) a t.
Proof.
  intros Hlt Hh. eapply holds_agree; [exact Hh |].
  intros b n Hab Hb. rewrite lookup_update, Hb.
  destruct (decide (c = b)); [lia |]. eexists; split; reflexivity.
Qed.

Lemma id_or_generate_fresh (o : option string) (w : World) :
  id_or_generate entropy o w
  = (fst (id_or_fresh entropy o (generated w)),
     mkWorld (nodes w) (snd (id_or_fresh entropy o (generated w)))).
Proof.
  unfold id_or_generate, id_or_fresh, generateId.
  destruct o as [s|]; [destruct (truthy s) |]; simpl; try reflexivity.
  by destruct w.
Qed.

Lemma built_unfold (d : NodeData) (g : nat) :
  built entropy d g =
    let '(i, g1) := id_or_fresh entropy (d_id d) g in
    let '(ts, g2) :=
      match d_children d with
      | Some l => built_children (built entropy) l g1
      | None => ([], g1)
      end in
    (TNode i (text_or_default (d_text d))
           (mergeStyle [Some DEFAULT_NODE_STYLE; d_style d])
           (default ∅ (d_data d))
           (negb (bool_decide (d_expanded d = Some false)))
           (default false (d_selected d)) (default false (d_hidden d))
           (default [] (d_tags d)) (d_type d) ts,
     g2).
Proof. destruct d as [? ? [l|] ? ? ? ? ? ? ? ? ? ? ?]; reflexivity. Qed.

Lemma build_children_holds (this : addr) (l : list NodeData) :
  Forall (constructs entropy) l ->
  forall w : World,
    generated (snd (build_children (constructor entropy) this l w))
      = snd (built_children (built entropy) l (generated w)) /\
    Forall2 (fun c t => length (nodes w) <= c /\
               holds (nodes (snd (build_children (constructor entropy) this l w))) c t)
      (fst (build_children (constructor entropy) this l w))
      (fst (built_children (built entropy) l (generated w))).
Proof.
  induction 1 as [|d l Hd Hl IH]; intros w; simpl.
  - split; [reflexivity | constructor].
  - destruct (Hd w) as (Hg & Hh).
    destruct (constructor_extends d w) as (Ha & Hlen & He).
    destruct (constructor entropy d w) as [child w1].
    destruct (built entropy d (generated w)) as [t g1].
    cbn [fst snd] in Hg, Hh, Ha, Hlen, He. subst child.
    pose proof (holds_update_parent w1 (length (nodes w)) _ (Some this) _ Hh) as Hh2.
    pose proof (length_update w1 (length (nodes w)) (set_parent (Some this))) as Hlen2.
    assert (Hg2 : generated (update (length (nodes w)) (set_parent (Some this)) w1) = g1)
      by exact Hg.
    revert Hh2 Hlen2 Hg2.
    generalize (update (length (nodes w)) (set_parent (Some this)) w1).
    intros w2 Hh2 Hlen2 Hg2.
    destruct (IH w2) as (Hg3 & Hcs).
    assert (Forall (constructs entropy) l -> extends w2 (snd (build_children (constructor entropy) this l w2))) as He3.
    { intros _. apply build_children_extends.
      apply Forall_forall. intros d' _ w'. apply constructor_extends. }
    specialize (He3 Hl).
    rewrite Hg2 in Hg3, Hcs.
    destruct (build_children (constructor entropy) this l w2) as [cs w3].
    destruct (built_children (built entropy) l g1) as [ts g2].
    cbn [fst snd] in *.
    split; [exact Hg3 |].
    constructor.
    + split; [lia |]. by eapply holds_extends.
    + eapply Forall2_impl; [exact Hcs |]. simpl. intros c t' [Hc Hh']. split; [lia | done].
Qed.

Lemma constructor_holds (d : NodeData) : constructs entropy d.
Proof.
  induction d as [d IH] using NodeData_nested_ind. intros w.
  rewrite constructor_unfold, built_unfold, id_or_generate_fresh.
  destruct (id_or_fresh entropy (d_id d) (generated w)) as [i g1].
  cbn [fst snd]. cbv zeta.
  set (w2 := with_nodes _ _).
  assert (Hlen2 : length (nodes w2) = S (length (nodes w)))
    by (unfold w2; simpl; rewrite length_app; simpl; lia).
  assert (Hroot : nodes w2 !! length (nodes w) = Some (initial_node i d)).
  { unfold w2; simpl. rewrite lookup_app_r by lia.
    by replace (length (nodes w) - length (nodes w)) with 0 by lia. }
  assert (Hg2 : generated w2 = g1) by reflexivity.
  clearbody w2.
  destruct (d_children d) as [l|] eqn:El.
  - destruct (build_children_holds (length (nodes w)) l (IH l eq_refl) w2) as (Hg3 & Hcs).
    assert (He3 : extends w2 (snd (build_children (constructor entropy) (length (nodes w)) l w2))).
    { apply build_children_extends. apply Forall_forall.
      intros d' _ w'. apply constructor_extends. }
    rewrite Hg2 in Hg3, Hcs.
    destruct (build_children (constructor entropy) (length (nodes w)) l w2) as [cs w3].
    destruct (built_children (built entropy) l g1) as [ts g2].
    cbn [fst snd] in *. split; [exact Hg3 |].
    apply holds_unfold.
    destruct He3 as (L3 & _ & H3).
    exists (set_children cs (initial_node i d)). split.
    { rewrite lookup_update. rewrite decide_True by reflexivity.
      rewrite H3 by lia. by rewrite Hroot. }
    simpl. repeat (split; [reflexivity |]).
    eapply Forall2_impl; [exact Hcs |]. simpl. intros c t' [Hc Hh'].
    split; [lia |]. apply holds_update_below; [lia | exact Hh'].
  - cbn [fst snd]. split; [exact Hg2 |].
    apply holds_unfold. exists (initial_node i d).
    split; [exact Hroot |]. simpl. repeat (split; [reflexivity |]). constructor.
Qed.

(** *** Building again from what [toJSON] wrote *)

Lemma mergeStyle_idem (o : option NodeStyle) :
  mergeStyle [Some DEFAULT_NODE_STYLE; Some (mergeStyle [Some DEFAULT_NODE_STYLE; o])]
  = mergeStyle [Some DEFAULT_NODE_STYLE; o].
Proof.
  unfold mergeStyle, Object_assign; simpl.
  generalize DEFAULT_NODE_STYLE. intros D.
  apply map_eq. intros k. destruct o as [st|]; rewrite !lookup_union;
    [destruct (st !! k), (D !! k) | destruct (D !! k)]; reflexivity.
Qed.

Lemma text_or_default_idem (o : option Text) :
  text_or_default (Some (text_or_default o)) = text_or_default o.
Proof.
  destruct o as [[s | runs] |]; simpl; try reflexivity.
  destruct (truthy s) eqn:E; simpl; [by rewrite E | reflexivity].
Qed.

Lemma fresh_id_truthy (g : nat) : truthy (fresh_id entropy "node" g) = true.
Proof. unfold fresh_id. destruct (entropy g). reflexivity. Qed.

Lemma id_or_fresh_truthy (o : option string) (g : nat) :
  truthy (fst (id_or_fresh entropy o g)) = true.
Proof.
  unfold id_or_fresh. destruct o as [s|]; [destruct (truthy s) eqn:E |]; simpl;
    auto using fresh_id_truthy.
Qed.

Lemma built_children_rebuilds (l : list NodeData) :
  Forall (rebuilds entropy) l ->
  forall g g' : nat,
    built_children (built entropy)
      (map serialised (fst (built_children (built entropy) l g))) g'
    = (map without_empty_type (fst (built_children (built entropy) l g)), g').
Proof.
  induction 1 as [|d l Hd _ IH]; intros g g'; simpl; [reflexivity |].
  specialize (Hd g g').
  destruct (built entropy d g) as [t g1]. cbn [fst] in Hd.
  specialize (IH g1 g').
  destruct (built_children (built entropy) l g1) as [ts g2]. cbn [fst] in IH |- *.
  simpl. rewrite Hd, IH. reflexivity.
Qed.

Lemma built_serialised_step (t : Tree) (g' : nat) (ts' : list Tree) :
  truthy (t_id t) = true ->
  built_children (built entropy) (map serialised (t_children t)) g' = (ts', g') ->
  built entropy (serialised t) g'
  = (TNode (t_id t) (text_or_default (Some (t_text t)))
           (mergeStyle [Some DEFAULT_NODE_STYLE; Some (t_style t)])
           (t_data t)
           (negb (bool_decide (Some (t_expanded t) = Some false)))
           (t_selected t) (t_hidden t) (t_tags t)
           (match t_type t with
            | Some s => if truthy s then Some s else None
            | None => None
            end)
           ts', g').
Proof.
  destruct t as [i tx st da ex se hi tg ty ts]. cbn [t_id t_children].
  intros Hid Hk. rewrite built_unfold.
  cbn [serialised d_id d_text d_children d_style d_expanded d_selected d_hidden
       d_tags d_type d_data t_id t_text t_style t_data t_expanded t_selected
       t_hidden t_tags t_type t_children].
  unfold id_or_fresh. rewrite Hid.
  rewrite deepClone_text_id, !deepClone_object_id.
  destruct ts as [|t0 ts].
  - simpl in Hk. injection Hk as <-. reflexivity.
  - rewrite Hk. reflexivity.
Qed.

Lemma built_rebuilds (d : NodeData) : rebuilds entropy d.
Proof.
  induction d as [d IH] using NodeData_nested_ind. intros g g'.
  rewrite (built_unfold d g).
  pose proof (id_or_fresh_truthy (d_id d) g) as Hid.
  destruct (id_or_fresh entropy (d_id d) g) as [i g1]. cbn [fst] in Hid.
  assert (Hkids : forall ts g2,
    match d_children d with
    | Some l => built_children (built entropy) l g1
    | None => ([], g1)
    end = (ts, g2) ->
    built_children (built entropy) (map serialised ts) g' = (map without_empty_type ts, g')).
  { intros ts g2. destruct (d_children d) as [l|] eqn:El.
    - intros E. pose proof (built_children_rebuilds l (IH l eq_refl) g1 g') as H.
      rewrite E in H. exact H.
    - intros [= <- <-]. reflexivity. }
  destruct (match d_children d with Some l => _ | None => _ end) as [ts g2].
  specialize (Hkids ts g2 eq_refl).
  cbn [fst].
  rewrite (built_serialised_step _ g' (map without_empty_type ts)); [| exact Hid | exact Hkids].
  cbn [t_id t_text t_style t_data t_expanded t_selected t_hidden t_tags t_type
       t_children without_empty_type].
  rewrite text_or_default_idem, mergeStyle_idem.
  f_equal. f_equal.
  destruct (bool_decide (d_expanded d = Some false)) eqn:E; reflexivity.
Qed.

(** *** [addChild] *)

(** C4 (amended): for every node p with k children, [addChild] always
    succeeds, sets the child's parent to p and returns the attached
    node; it inserts the child at position [index] when
    [0 <= index <= k] and appends it in every other case, a negative
    index included. *)
Theorem addChild_inserts_or_appends
    (this : addr) (arg : NodeData + addr) (index : option Z) (w : World) :
  this < length (nodes w) ->
  match arg with inr c => c < length (nodes w) | inl _ => True end ->
  let '(child, w') := addChild entropy this arg index w in
  let cs := children_of w this in
  match arg with inr c => child = c | inl _ => child = length (nodes w) end /\
  parent_of w' child = Some this /\
  children_of w' this = place child index cs /\
  (forall i : Z, index = Some i -> (0 <= i <= Z.of_nat (length cs))%Z ->
     children_of w' this = take (Z.to_nat i) cs ++ child :: drop (Z.to_nat i) cs) /\
  (index = None \/
   (exists i : Z, index = Some i /\ (i < 0 \/ Z.of_nat (length cs) < i)%Z) ->
   children_of w' this = cs ++ [child]).
Proof.
  intros Hthis Harg.
  assert (Hnode : forall c w0, this < length (nodes w0) -> c < length (nodes w0) ->
            let w' := snd (addChild_node this c index w0) in
            let cs := children_of w0 this in
            parent_of w' c = Some this /\
            children_of w' this = place c index cs /\
            (forall i : Z, index = Some i -> (0 <= i <= Z.of_nat (length cs))%Z ->
               children_of w' this = take (Z.to_nat i) cs ++ c :: drop (Z.to_nat i) cs) /\
            (index = None \/
             (exists i : Z, index = Some i /\ (i < 0 \/ Z.of_nat (length cs) < i)%Z) ->
             children_of w' this = cs ++ [c])).
  { intros c w0 H1 H2. cbv zeta.
    rewrite addChild_node_parent, addChild_node_children by done.
    rewrite !decide_True by done.
    split; [reflexivity |]. split; [reflexivity |]. split.
    - intros i -> Hi. unfold place, splice_in.
      replace ((0 <=? i)%Z) with true by (symmetry; apply Z.leb_le; lia).
      replace ((i <=? Z.of_nat (length (children_of w0 this)))%Z) with true
        by (symmetry; apply Z.leb_le; lia).
      reflexivity.
    - intros [-> | (i & -> & Hi)]; [reflexivity |]. unfold place.
      destruct Hi as [Hi | Hi].
      + replace ((0 <=? i)%Z) with false by (symmetry; apply Z.leb_gt; lia).
        reflexivity.
      + replace ((i <=? Z.of_nat (length (children_of w0 this)))%Z) with false
          by (symmetry; apply Z.leb_gt; lia).
        by rewrite andb_false_r. }
  destruct arg as [d | c]; unfold addChild.
  - destruct (constructor_extends d w) as (Ha & Hlen & He).
    destruct (constructor entropy d w) as [child w1]. cbn [fst snd] in Ha, Hlen, He.
    subst child.
    assert (Hcs : children_of w1 this = children_of w this).
    { unfold children_of. destruct He as (_ & _ & He). by rewrite He. }
    specialize (Hnode (length (nodes w)) w1 ltac:(lia) Hlen).
    cbv zeta in Hnode. rewrite Hcs in Hnode.
    unfold addChild_node in *. cbn [fst snd] in *. 
    split; [reflexivity | exact Hnode].
  - specialize (Hnode c w Hthis Harg). unfold addChild_node in *. cbn [fst snd] in *.
    split; [reflexivity | exact Hnode].
Qed.

Lemma tree_height_without_empty_type (t : Tree) :
  tree_height (without_empty_type t) = tree_height t.
Proof.
  induction t as [t IH] using Tree_nested_ind.
  destruct t as [? ? ? ? ? ? ? ? ? ts]; simpl in *. f_equal.
  induction IH as [|c ts Hc _ IHts]; simpl; [reflexivity |].
  by rewrite Hc, IHts.
Qed.


(** *** Tags of a constructed node *)

Lemma constructor_tags (d : NodeData) (w : World) :
  tags_of (snd (constructor entropy d w)) (fst (constructor entropy d w))
  = default [] (d_tags d).
Proof.
  destruct (constructor_holds d w) as [_ Hh].
  apply holds_unfold in Hh as (n & Hn & _ & _ & _ & _ & _ & _ & _ & Htg & _).
  unfold tags_of. rewrite Hn, Htg, built_unfold.
  destruct (id_or_fresh entropy (d_id d) (generated w)) as [i g1].
  by destruct (match d_children d with Some l => _ | None => _ end).
Qed.

(** C9 (amended): a node constructed from a data record whose tags are
    absent or free of duplicates has, after every sequence of [addTag]
    and [removeTag] calls, a tags list without duplicates; and [addTag]
    of a tag that is already present changes nothing. (The constructor
    stores the given tags as they are.) *)
Theorem tags_stay_unique (d : NodeData) (w : World) (ops : list TagOp) :
  NoDup (default [] (d_tags d)) ->
  let '(a, w1) := constructor entropy d w in
  tags_of w1 a = default [] (d_tags d) /\
  NoDup (tags_of (run_tag_ops a ops w1) a) /\
  (forall (w' : World) (tag : string), hasTag a tag w' = true -> addTag a tag w' = w').
Proof.
  intros Hnd. pose proof (constructor_tags d w) as Ht.
  destruct (constructor entropy d w) as [a w1]. cbn [fst snd] in Ht.
  split; [exact Ht |]. split.
  - apply run_tag_ops_NoDup. by rewrite Ht.
  - intros w' tag H. unfold addTag. by rewrite H.
Qed.

(** *** [clone] *)

Lemma built_with_id (t : Tree) (i : string) (g' : nat) (ts' : list Tree) :
  truthy i = true ->
  built_children (built entropy) (map serialised (t_children t)) g' = (ts', g') ->
  built entropy (with_id i (serialised t)) g'
  = (TNode i (text_or_default (Some (t_text t)))
           (mergeStyle [Some DEFAULT_NODE_STYLE; Some (t_style t)])
           (t_data t)
           (negb (bool_decide (Some (t_expanded t) = Some false)))
           (t_selected t) (t_hidden t) (t_tags t)
           (match t_type t with
            | Some s => if truthy s then Some s else None
            | None => None
            end)
           ts', g').
Proof.
  destruct t as [i0 tx st da ex se hi tg ty ts]. cbn [t_children].
  intros Hid Hk. rewrite built_unfold.
  cbn [with_id serialised d_id d_text d_children d_style d_expanded d_selected d_hidden
       d_tags d_type d_data t_id t_text t_style t_data t_expanded t_selected
       t_hidden t_tags t_type t_children].
  unfold id_or_fresh. rewrite Hid.
  rewrite deepClone_text_id, !deepClone_object_id.
  destruct ts as [|t0 ts].
  - simpl in Hk. injection Hk as <-. reflexivity.
  - rewrite Hk. reflexivity.
Qed.

(** What [clone(true)] builds from a constructed node: the tree of the
    source under a freshly generated root identifier (empty types
    dropped), every descendant keeping the identifier it has in the
    source. *)
Lemma clone_holds (d : NodeData) (w : World) :
  let '(a, w1) := constructor entropy d w in
  let t := fst (built entropy d (generated w)) in
  exists (a' : addr) (w2 : World),
    forall k : nat,
      clone entropy (tree_height t + k) true a w1 = Some (a', w2) /\
      snapshot (tree_height t + k) w2 a'
      = Some (with_root_id (fresh_id entropy "node" (generated w1))
                           (without_empty_type t)).
Proof.
  destruct (constructor_holds d w) as [Hg Hh].
  destruct (constructor entropy d w) as [a w1]. cbn [fst snd] in Hg, Hh. cbv zeta.
  set (t := fst (built entropy d (generated w))) in *.
  set (i := fresh_id entropy "node" (generated w1)).
  set (w1' := mkWorld (nodes w1) (S (generated w1))).
  exists (fst (constructor entropy (with_id i (serialised t)) w1')),
         (snd (constructor entropy (with_id i (serialised t)) w1')).
  intros k. split.
  - unfold clone. rewrite (holds_toJSON w1 t a (tree_height t + k) Hh ltac:(lia)).
    cbn [mbind option_bind]. unfold generateId. fold i w1'.
    by rewrite <- surjective_pairing.
  - destruct (constructor_holds (with_id i (serialised t)) w1') as [_ Hh2].
    assert (Hb : fst (built entropy (with_id i (serialised t)) (generated w1'))
                 = with_root_id i (without_empty_type t)).
    { pose proof (built_rebuilds d (generated w) (generated w1')) as Hr. fold t in Hr.
      assert (Hk : built_children (built entropy) (map serialised (t_children t))
                     (generated w1')
                   = (map without_empty_type (t_children t), generated w1')).
      { unfold t. rewrite built_unfold.
        destruct (id_or_fresh entropy (d_id d) (generated w)) as [i0 g1].
        destruct (d_children d) as [l|] eqn:El.
        - pose proof (built_children_rebuilds l) as Hl.
          specialize (Hl ltac:(apply Forall_forall; intros; apply built_rebuilds)
                         g1 (generated w1')).
          destruct (built_children (built entropy) l g1) as [ts g2]. exact Hl.
        - reflexivity. }
      pose proof (built_serialised_step t (generated w1') _
                    ltac:(unfold t; rewrite built_unfold;
                          pose proof (id_or_fresh_truthy (d_id d) (generated w)) as Hi;
                          destruct (id_or_fresh entropy (d_id d) (generated w));
                          destruct (match d_children d with Some l => _ | None => _ end);
                          exact Hi) Hk) as Hs.
      rewrite Hs in Hr.
      rewrite (built_with_id t i (generated w1') _ (fresh_id_truthy _) Hk).
      cbn [fst]. injection Hr as Hr. unfold with_root_id.
      rewrite <- Hr. reflexivity. }
    rewrite Hb in Hh2.
    apply holds_snapshot; [exact Hh2 |].
    unfold with_root_id, tree_height; cbn [t_children].
    fold tree_height. 
    pose proof (tree_height_without_empty_type t) as Hht.
    destruct t; simpl in *. lia.
Qed.

End Facts.

(** *** Closed instances *)

(** C4, as stated, fails for a negative index: the root of the sample
    tree has the children 1 and 2, and adding node 3 at index -1 puts
    it last, not first. *)
Lemma addChild_clamp_counterexample :
  exists (w : World) (this child : addr) (index : Z),
    this < length (nodes w) /\ child < length (nodes w) /\
    children_of (snd (addChild_node this child (Some index) w)) this = [1; 2; 3] /\
    ~ addChild_clamps w this child index.
Proof.
  exists sample_world, 0, 3, (-1)%Z.
  split; [vm_compute; lia |]. split; [vm_compute; lia |].
  split; [reflexivity |]. unfold addChild_clamps. vm_compute. discriminate.
Qed.

Lemma addChild_inserts_or_appends_witness :
  0 < length (nodes sample_world) /\
  3 < length (nodes sample_world) /\
  let '(child, w') := addChild sample_entropy 0 (inr 3) (Some 1%Z) sample_world in
  let cs := children_of sample_world 0 in
  child = 3 /\
  parent_of w' child = Some 0 /\
  children_of w' 0 = place child (Some 1%Z) cs /\
  (forall i : Z, Some 1%Z = Some i -> (0 <= i <= Z.of_nat (length cs))%Z ->
     children_of w' 0 = take (Z.to_nat i) cs ++ child :: drop (Z.to_nat i) cs) /\
  (Some 1%Z = None \/
   (exists i : Z, Some 1%Z = Some i /\ (i < 0 \/ Z.of_nat (length cs) < i)%Z) ->
   children_of w' 0 = cs ++ [child]).
Proof.
  assert (H0 : 0 < length (nodes sample_world)) by (vm_compute; lia).
  assert (H3 : 3 < length (nodes sample_world)) by (vm_compute; lia).
  split; [exact H0 |]. split; [exact H3 |].
  exact (addChild_inserts_or_appends sample_entropy 0 (inr 3) (Some 1%Z)
           sample_world H0 H3).
Defined.

(** C1, as stated, fails in stores the calls of the class build.
    After [a.addChild(r)] the nodes [r] and [a] are the parent of each
    other: [a] is neither the node [c] nor a descendant of it, yet
    [c.moveTo(a)] walks up from [a] for ever and never returns. After
    [c.addChild(a)] the node [a] is still listed in [r.children] while
    its parent is [c]: [a] is among the descendants of [r], yet
    [r.moveTo(a)] returns true and leaves [r] and [a] in the children
    of each other. *)
Lemma moveTo_cycle_counterexample :
  ((forall (fuel : nat) (index : option Z),
      moveTo fuel 2 1 index looped_world = None) /\
   1 <> 2 /\ ~ ancestor looped_world 2 1 /\ ~ below looped_world 2 1) /\
  (below crossed_world 0 1 /\
   exists w' : World,
     moveTo 2 0 1 None crossed_world = Some (true, w') /\
     children_of w' 0 = [1] /\ children_of w' 1 = [0]).
Proof.
  assert (P0 : parent_of looped_world 0 = Some 1) by reflexivity.
  assert (P1 : parent_of looped_world 1 = Some 0) by reflexivity.
  split; [split; [| split; [lia | split]] |].
  - assert (Hloop : forall fuel c, c = 0 \/ c = 1 ->
              walk_up fuel looped_world (Some c) 2 = None).
    { induction fuel as [|fuel IH]; intros c Hc; simpl;
        rewrite bool_decide_eq_false_2 by lia; [reflexivity |].
      destruct Hc as [-> | ->]; [rewrite P0 | rewrite P1]; apply IH; auto. }
    intros fuel index. unfold moveTo, isDescendantOf.
    rewrite bool_decide_eq_false_2 by lia.
    rewrite P1, Hloop by auto. reflexivity.
  - assert (Hup : forall c, ancestor looped_world 2 c -> c = 0 \/ c = 1 -> False).
    { induction 1 as [c Hc | c q Hc _ IH]; intros [-> | ->];
        rewrite ?P0, ?P1 in Hc; injection Hc as Hq; try lia; apply IH; auto. }
    intros H. apply (Hup 1 H). auto.
  - assert (Hnone : children_of looped_world 2 = []) by reflexivity.
    intros H. remember 2 as c eqn:Ec.
    destruct H as [n c' Hin | n c' d Hin _]; subst n;
      rewrite Hnone in Hin; by apply not_elem_of_nil in Hin.
  - split; [apply below_child; vm_compute; apply list_elem_of_here |].
    eexists. split; [reflexivity |]. split; reflexivity.
Qed.

(** In the sample tree, node 3 (below node 2) moves to position 1 of
    the children of the root and leaves node 2 without children; the
    root cannot move under node 3, which is below it. *)
Lemma moveTo_rejects_cycles_witness :
  3 < length (nodes sample_world) /\ 0 < length (nodes sample_world) /\
  reaches_root 4 sample_world (parent_of sample_world 0) = true /\
  reaches_root 4 sample_world (parent_of sample_world 3) = true /\
  (exists w' : World,
     moveTo 4 3 0 (Some 1%Z) sample_world = Some (true, w') /\
     parent_of w' 3 = Some 0 /\ children_of w' 0 = [1; 3; 2] /\
     children_of w' 2 = [] /\ children_of w' 1 = []) /\
  moveTo 4 0 3 (Some 1%Z) sample_world = Some (false, sample_world).
Proof.
  assert (H3 : 3 < length (nodes sample_world)) by (vm_compute; lia).
  assert (H0 : 0 < length (nodes sample_world)) by (vm_compute; lia).
  assert (R0 : reaches_root 4 sample_world (parent_of sample_world 0) = true)
    by reflexivity.
  assert (R3 : reaches_root 4 sample_world (parent_of sample_world 3) = true)
    by reflexivity.
  assert (P3 : parent_of sample_world 3 = Some 2) by reflexivity.
  split; [exact H3 |]. split; [exact H0 |]. split; [exact R0 |]. split; [exact R3 |].
  split.
  - destruct (proj1 (proj2 (moveTo_rejects_cycles 4 3 0 (Some 1%Z) sample_world
                              H3 H0 R0)))
      as (w' & Hmove & _ & Hpar & Hch).
    { intros [Heq | Hanc]; [discriminate |].
      inversion Hanc as [c Hc | c q Hc _]; vm_compute in Hc; discriminate. }
    exists w'. split; [exact Hmove |]. split; [exact (Hpar 3) |].
    split; [| split].
    + destruct (Hch 0) as (la & _ & Hla & _ & Hin & _ & _).
      rewrite (Hin eq_refl 1%Z eq_refl); rewrite (Hla ltac:(by rewrite P3));
        [reflexivity | vm_compute; split; discriminate].
    + destruct (Hch 2) as (la & Hold & _ & _ & _ & _ & Hrest).
      rewrite (Hrest ltac:(lia)).
      destruct (Hold P3) as [[[Hout _] | (l1 & l2 & Hl & Hout & ->)] _].
      * exfalso. apply Hout. vm_compute. apply list_elem_of_here.
      * change (children_of sample_world 2) with [3] in Hl.
        destruct l1 as [|k l1]; [by injection Hl as <- |].
        injection Hl as <- Hl. exfalso. apply Hout, list_elem_of_here.
    + destruct (Hch 1) as (la & _ & Hla & _ & _ & _ & Hrest).
      rewrite (Hrest ltac:(lia)). by rewrite (Hla ltac:(by rewrite P3)).
  - apply (moveTo_rejects_cycles 4 0 3 (Some 1%Z) sample_world H0 H3 R3).
    right. eapply ancestor_step; [reflexivity |]. apply ancestor_parent. reflexivity.
Defined.

(** The same calls, computed. *)
Example moveTo_sample :
  (exists w', moveTo 4 3 0 (Some 1%Z) sample_world = Some (true, w') /\
     parent_of w' 3 = Some 0 /\ children_of w' 0 = [1; 3; 2] /\
     children_of w' 2 = []) /\
  moveTo 4 0 3 (Some 1%Z) sample_world = Some (false, sample_world).
Proof.
  split; [| reflexivity].
  eexists. split; [reflexivity |]. vm_compute. auto.
Qed.

(** C9, as stated, fails at construction: the constructor stores the
    tags of the data record as they are, duplicates included. *)
Lemma tags_unique_counterexample :
  exists (d : NodeData) (w : World),
    tags_of (snd (constructor sample_entropy d w)) (fst (constructor sample_entropy d w))
    = ["a"; "a"] /\
    ~ NoDup (tags_of (snd (constructor sample_entropy d w))
                     (fst (constructor sample_entropy d w))).
Proof.
  exists repeated_tags, emptyWorld. split; [reflexivity |].
  vm_compute. intros H. apply NoDup_cons in H as [H _]. apply H. left.
Qed.

Lemma tags_stay_unique_witness :
  NoDup (default [] (d_tags (tagged ["a"; "b"]))) /\
  let '(a, w1) := constructor sample_entropy (tagged ["a"; "b"]) sample_world in
  tags_of w1 a = default [] (d_tags (tagged ["a"; "b"])) /\
  NoDup (tags_of (run_tag_ops a sample_tag_ops w1) a) /\
  (forall (w' : World) (tag : string), hasTag a tag w' = true -> addTag a tag w' = w').
Proof.
  assert (H : NoDup (default [] (d_tags (tagged ["a"; "b"])))).
  { simpl. apply NoDup_cons. split; [| apply NoDup_singleton].
    intros Hin. apply list_elem_of_singleton in Hin. discriminate. }
  split; [exact H |].
  exact (tags_stay_unique sample_entropy (tagged ["a"; "b"]) sample_world
           sample_tag_ops H).
Defined.

(** The tags after the sample operations. *)
Example tags_after_sample_ops :
  let '(a, w1) := constructor sample_entropy (tagged ["a"; "b"]) sample_world in
  tags_of (run_tag_ops a sample_tag_ops w1) a = ["a"; "x"; "b"].
Proof. reflexivity. Qed.

(** C5: [clone(true)] of the root of the sample tree. The clone gets a
    freshly generated identifier, but its descendants carry the
    identifiers a, b and c of the descendants of the source: [toJSON]
    copies every identifier and only the root's is replaced before the
    constructor runs. *)
Theorem clone_keeps_descendant_ids :
  fst <$> clone sample_entropy 3 true 0 sample_world = Some 4 /\
  ids <$> snapshot 3 sample_world 0 = Some ["r"; "a"; "b"; "c"] /\
  (clone sample_entropy 3 true 0 sample_world
     ≫= fun r => ids <$> snapshot 3 (snd r) (fst r))
  = Some ["node_170000000_k3x9q2m1z"; "a"; "b"; "c"].
Proof. repeat split; vm_compute; reflexivity. Qed.


(** On the sample tree, whose nodes have no type, the rebuilt tree has
    the identifiers of the source in the same order. *)
Example round_trip_sample :
  ids <$> snapshot 3 sample_world 0 = Some ["r"; "a"; "b"; "c"] /\
  (toJSON 3 sample_world 0
     ≫= fun j => let r := fromJSON sample_entropy j sample_world in
                 ids <$> snapshot 3 (snd r) (fst r))
  = Some ["r"; "a"; "b"; "c"].
Proof. split; vm_compute; reflexivity. Qed.

End MindNodeFacts.
(** * Results: the helpers on data trees *)

Module TreeHelpersFacts.
Import JS MindNode TreeHelpers.

(** Induction on a data record with its children, present or not. *)
Lemma NodeData_children_ind (P : NodeData -> Prop) :
  (forall d : NodeData, Forall P (children_or_none d) -> P d) ->
  forall d : NodeData, P d.
Proof.
  intros step. apply NodeData_nested_ind. intros d IH. apply step.
  unfold children_or_none. destruct (d_children d) as [l|]; simpl; [| constructor].
  by apply IH.
Qed.

Section Traversal.

Context {St : Type}.
Variable callback : NodeData -> nat -> option NodeData -> St -> bool * St.

Lemma traverse_each_foldl (node : NodeData) (depth : nat) (l : list NodeData) :
  forall s : St,
    traverse_each callback node depth l s
    = foldl (fun s child => traverseTree callback child (S depth) (Some node) s) s l.
Proof. induction l as [|c l IH]; intros s; simpl; [done | apply IH]. Qed.

Lemma traverseTree_unfold (node : NodeData) (depth : nat)
    (parent : option NodeData) (s : St) :
  traverseTree callback node depth parent s
  = (let '(shouldContinue, s') := callback node depth parent s in
     if shouldContinue
     then foldl (fun s child => traverseTree callback child (S depth) (Some node) s)
                s' (children_or_none node)
     else s').
Proof.
  destruct node as [? ? [l|] ? ? ? ? ? ? ? ? ? ? ?]; cbn [traverseTree];
    destruct (callback _ depth parent s) as [[] s']; try reflexivity.
  unfold children_or_none. cbn [d_children default].
  apply (traverse_each_foldl _ depth l s').
Qed.

End Traversal.

Lemma countNodes_unfold (node : NodeData) :
  countNodes node = S (sum_list (map countNodes (children_or_none node))).
Proof.
  assert (H : forall (l : list NodeData) (count : nat),
             (fix each (l : list NodeData) (count : nat) : nat :=
                match l with
                | [] => count
                | child :: rest => each rest (count + countNodes child)
                end) l count = count + sum_list (map countNodes l)).
  { induction l as [|c l IH]; intros count; simpl; [lia |]. rewrite IH. lia. }
  destruct node as [? ? [l|] ? ? ? ? ? ? ? ? ? ? ?]; cbn [countNodes]; [| done].
  unfold children_or_none. cbn [d_children default]. apply (H l 1).
Qed.

Lemma getTreeDepth_unfold (node : NodeData) :
  getTreeDepth node = S (max_list (map getTreeDepth (children_or_none node))).
Proof.
  assert (H : forall (l : list NodeData) (maxDepth : nat),
             (fix each (l : list NodeData) (maxDepth : nat) : nat :=
                match l with
                | [] => maxDepth
                | child :: rest => each rest (Nat.max maxDepth (getTreeDepth child))
                end) l maxDepth
             = Nat.max maxDepth (max_list (map getTreeDepth l))).
  { induction l as [|c l IH]; intros m; simpl; [lia |]. rewrite IH. lia. }
  destruct node as [? ? [l|] ? ? ? ? ? ? ? ? ? ? ?]; cbn [getTreeDepth]; [| done].
  unfold children_or_none. cbn [d_children default].
  destruct l as [|c l]; [done |]. cbn [length Nat.eqb]. rewrite (H (c :: l) 0).
  change (id (c :: l)) with (c :: l).
  generalize (max_list (map getTreeDepth (c :: l))). intros m. lia.
Qed.

(** The notes of an unstopped traversal: what was noted before, the
    node itself, then the notes of each child in turn. *)
Lemma visits_acc (node : NodeData) :
  forall (depth : nat) (parent : option NodeData)
         (seen : list (NodeData * nat * option NodeData)),
    traverseTree note_visit node depth parent seen
    = seen ++ (node, depth, parent)
        :: concat (map (fun child => visits_from child (S depth) (Some node))
                       (children_or_none node)).
Proof.
  induction node as [node IH] using NodeData_children_ind.
  intros depth parent seen. rewrite traverseTree_unfold. cbn [note_visit].
  replace (seen ++ (node, depth, parent) :: concat
             (map (fun child => visits_from child (S depth) (Some node))
                  (children_or_none node)))
    with ((seen ++ [(node, depth, parent)]) ++ concat
             (map (fun child => visits_from child (S depth) (Some node))
                  (children_or_none node)))
    by (by rewrite <- app_assoc).
  generalize (seen ++ [(node, depth, parent)]). induction IH as [|c l Hc _ IHl]; intros acc; simpl.
  - by rewrite app_nil_r.
  - rewrite Hc, IHl.
    change (visits_from c (S depth) (Some node))
      with (traverseTree note_visit c (S depth) (Some node) []).
    rewrite (Hc (S depth) (Some node) []). simpl. by rewrite <- !app_assoc.
Qed.

Lemma visits_from_unfold (node : NodeData) (depth : nat) (parent : option NodeData) :
  visits_from node depth parent
  = (node, depth, parent)
      :: concat (map (fun child => visits_from child (S depth) (Some node))
                     (children_or_none node)).
Proof. unfold visits_from at 1. by rewrite visits_acc. Qed.

(** Which records are visited does not depend on the depth and parent
    the traversal starts with. *)
Lemma visited_from (node : NodeData) :
  forall (depth : nat) (parent : option NodeData),
    map (fun v => v.1.1) (visits_from node depth parent) = visited node.
Proof.
  induction node as [node IH] using NodeData_children_ind.
  intros depth parent. unfold visited, visits. fold (visits_from node 0 None).
  rewrite !visits_from_unfold. cbn [map fst]. f_equal.
  induction IH as [|c l Hc _ IHl]; simpl; [done |].
  rewrite !map_app, IHl. f_equal. rewrite !Hc. done.
Qed.

Lemma visited_unfold (node : NodeData) :
  visited node = node :: concat (map visited (children_or_none node)).
Proof.
  unfold visited at 1, visits. fold (visits_from node 0 None).
  rewrite visits_from_unfold. cbn [map fst]. f_equal.
  induction (children_or_none node) as [|c l IHl]; simpl; [done |].
  rewrite map_app, IHl. f_equal. apply visited_from.
Qed.

Lemma visited_self (node : NodeData) : node ∈ visited node.
Proof. rewrite visited_unfold. apply list_elem_of_here. Qed.

Lemma visited_child (node child n : NodeData) :
  child ∈ children_or_none node -> n ∈ visited child -> n ∈ visited node.
Proof.
  intros Hc Hn. rewrite visited_unfold. apply list_elem_of_further.
  apply list_elem_of_In, in_concat. exists (visited child).
  split; [apply in_map; by apply list_elem_of_In | by apply list_elem_of_In].
Qed.

Lemma visited_inv (node n : NodeData) :
  n ∈ visited node ->
  n = node \/ exists child, child ∈ children_or_none node /\ n ∈ visited child.
Proof.
  rewrite visited_unfold. intros [-> | H]%elem_of_cons; [by left | right].
  apply list_elem_of_In, in_concat in H as (l & Hl & Hn).
  apply in_map_iff in Hl as (child & <- & Hc).
  exists child. split; by apply list_elem_of_In.
Qed.

(** X17: an unstopped [traverseTree] calls its callback once for every
    record that [countNodes] counts, at depths that start at 0 and
    stay below [getTreeDepth], the deepest call being at
    [getTreeDepth - 1]; a tree is never deeper than it has records. *)
Theorem traversal_visits_every_node (root : NodeData) :
  length (visits root) = countNodes root /\
  Forall (fun v => v.1.2 < getTreeDepth root) (visits root) /\
  Exists (fun v => S v.1.2 = getTreeDepth root) (visits root) /\
  1 <= getTreeDepth root <= countNodes root.
Proof.
  assert (Hgen : forall (node : NodeData) (depth : nat) (parent : option NodeData),
             length (visits_from node depth parent) = countNodes node /\
             Forall (fun v => depth <= v.1.2 < depth + getTreeDepth node)
                    (visits_from node depth parent) /\
             Exists (fun v => S v.1.2 = depth + getTreeDepth node)
                    (visits_from node depth parent) /\
             1 <= getTreeDepth node <= countNodes node).
  { induction node as [node IH] using NodeData_children_ind.
    intros depth parent.
    rewrite visits_from_unfold, countNodes_unfold, getTreeDepth_unfold.
    induction IH as [|c l Hc _ IHl].
    - simpl. repeat split; try lia.
      + repeat constructor; simpl; lia.
      + apply Exists_cons_hd. simpl. lia.
    - destruct IHl as (Hlen & Hall & Hex & Hle).
      destruct (Hc (S depth) (Some node)) as (Hclen & Hcall & Hcex & Hcle).
      assert (Hs : sum_list (map countNodes (c :: l))
                   = countNodes c + sum_list (map countNodes l)) by reflexivity.
      assert (Hmx : max_list (map getTreeDepth (c :: l))
                    = Nat.max (getTreeDepth c) (max_list (map getTreeDepth l)))
        by reflexivity.
      rewrite Hs, Hmx. clear Hs Hmx.
      cbn [map concat] in *. cbn [length] in *. rewrite length_app.
      repeat split; try lia.
      + apply Forall_cons in Hall as [H0 Hall]. apply Forall_cons. split.
        { cbn [fst snd] in *. lia. }
        apply Forall_app. split.
        * eapply Forall_impl; [exact Hcall |]. cbn [fst snd]. intros v Hv. lia.
        * eapply Forall_impl; [exact Hall |]. cbn [fst snd]. intros v Hv. lia.
      + destruct (decide (max_list (map getTreeDepth l) <= getTreeDepth c)) as [Hm|Hm].
        * apply Exists_cons_tl, Exists_app. left.
          eapply Exists_impl; [exact Hcex |]. cbn [fst snd]. intros v Hv. lia.
        * apply Exists_cons in Hex as [H0 | Hex].
          { cbn [fst snd] in H0. lia. }
          apply Exists_cons_tl, Exists_app. right.
          eapply Exists_impl; [exact Hex |]. cbn [fst snd]. intros v Hv. lia. }
  destruct (Hgen root 0 None) as (H1 & H2 & H3 & H4).
  repeat split; try done; try lia.
  eapply Forall_impl; [exact H2 |]. cbn [fst snd]. intros v Hv. lia.
Qed.

(** The callback of [findNode] keeps the last record it accepted. The
    traversal from [node] leaves the result of [findNode] on [node] when
    there is one and what was found before otherwise, and [findNode] on
    a record the predicate rejects is the last result among its
    children. *)
Lemma findNode_traverse (predicate : NodeData -> bool) (node : NodeData) :
  (forall (depth : nat) (parent result : option NodeData),
     traverseTree
       (fun node _ _ result =>
          if predicate node then (false, Some node) else (true, result))
       node depth parent result
     = match findNode node predicate with
       | Some n => Some n
       | None => result
       end) /\
  (predicate node = false ->
   findNode node predicate
   = last (omap (fun child => findNode child predicate) (children_or_none node))).
Proof.
  induction node as [node IH] using NodeData_children_ind.
  assert (Hfold : forall (depth : nat) (result : option NodeData),
             foldl (fun s child =>
                      traverseTree
                        (fun node _ _ result =>
                           if predicate node then (false, Some node)
                           else (true, result))
                        child (S depth) (Some node) s)
                   result (children_or_none node)
             = match last (omap (fun child => findNode child predicate)
                                (children_or_none node)) with
               | Some n => Some n
               | None => result
               end).
  { intros depth. induction IH as [|c l [Hc _] _ IHl]; intros result; [done |].
    cbn [foldl]. rewrite IHl, Hc. cbn [omap list_omap].
    destruct (findNode c predicate) as [n|]; [| done].
    destruct (omap _ l) as [|n' l'] eqn:E; [done |].
    rewrite (last_cons n). by destruct (last (n' :: l')). }
  assert (Hroot : predicate node = false ->
            findNode node predicate
            = last (omap (fun child => findNode child predicate)
                         (children_or_none node))).
  { intros Hp. unfold findNode at 1. rewrite traverseTree_unfold, Hp, Hfold.
    by destruct (last _). }
  split; [| exact Hroot].
  intros depth parent result. unfold findNode at 1.
  rewrite !traverseTree_unfold.
  destruct (predicate node) eqn:Hp; [done |].
  rewrite !Hfold. by destruct (last _).
Qed.

Lemma last_omap_Some {A B : Type} (f : A -> option B) (l : list A) (b : B) :
  last (omap f l) = Some b -> exists a, a ∈ l /\ f a = Some b.
Proof.
  intros H. assert (Hin : b ∈ omap f l).
  { destruct (omap f l) as [|x l'] using rev_ind; [done |].
    rewrite last_snoc in H. injection H as ->. set_solver. }
  apply list_elem_of_omap in Hin as (a & Ha & Hf). eauto.
Qed.

Lemma last_omap_None {A B : Type} (f : A -> option B) (l : list A) :
  last (omap f l) = None <-> forall a, a ∈ l -> f a = None.
Proof.
  rewrite last_None. split.
  - intros H a Ha. destruct (f a) as [b|] eqn:E; [| done].
    assert (b ∈ omap f l) by (apply list_elem_of_omap; eauto).
    rewrite H in *. set_solver.
  - intros H. destruct (omap f l) as [|b l'] eqn:E; [done |].
    assert (Hb : b ∈ omap f l) by (rewrite E; set_solver).
    apply list_elem_of_omap in Hb as (a & Ha & Hf). rewrite (H a Ha) in Hf. done.
Qed.

Lemma findNode_sound (predicate : NodeData -> bool) (node : NodeData) :
  forall n, findNode node predicate = Some n ->
    predicate n = true /\ n ∈ visited node.
Proof.
  induction node as [node IH] using NodeData_children_ind. intros n Hn.
  destruct (predicate node) eqn:Hp.
  - unfold findNode in Hn. rewrite traverseTree_unfold, Hp in Hn.
    injection Hn as <-. split; [done | apply visited_self].
  - rewrite (proj2 (findNode_traverse predicate node) Hp) in Hn.
    apply last_omap_Some in Hn as (c & Hc & Hf).
    rewrite Forall_forall in IH. destruct (IH c Hc n Hf) as [? ?].
    split; [done | by eapply visited_child].
Qed.

Lemma findNode_complete (predicate : NodeData -> bool) (node : NodeData) :
  findNode node predicate = None <->
  forall n, n ∈ visited node -> predicate n = false.
Proof.
  induction node as [node IH] using NodeData_children_ind.
  rewrite Forall_forall in IH.
  destruct (predicate node) eqn:Hp.
  - split.
    + unfold findNode. by rewrite traverseTree_unfold, Hp.
    + intros H. rewrite (H node (visited_self node)) in Hp. done.
  - rewrite (proj2 (findNode_traverse predicate node) Hp), last_omap_None. split.
    + intros H n [-> | (c & Hc & Hn)]%visited_inv; [done |].
      exact (proj1 (IH c Hc) (H c Hc) n Hn).
    + intros H c Hc. apply (proj2 (IH c Hc)). intros n Hn. apply H.
      by eapply visited_child.
Qed.

(** X18: what [findNode] returns. It returns a record the traversal
    visits and the predicate accepts, and null exactly when the
    predicate accepts no record of the tree. The root is returned when
    it is accepted; otherwise the result is the last one among the
    results for the children, in order: returning false from the
    callback ends the traversal below the accepted record only, so a
    later sibling that holds an accepted record replaces an earlier
    one. *)
Theorem findNode_returns_last_match
    (root : NodeData) (predicate : NodeData -> bool) :
  (forall n, findNode root predicate = Some n ->
     predicate n = true /\ n ∈ visited root) /\
  (findNode root predicate = None <->
     forall n, n ∈ visited root -> predicate n = false) /\
  (predicate root = true -> findNode root predicate = Some root) /\
  (predicate root = false ->
     findNode root predicate
     = last (omap (fun child => findNode child predicate)
                  (children_or_none root))).
Proof.
  split; [apply findNode_sound |]. split; [apply findNode_complete |].
  split; [| apply findNode_traverse].
  intros Hp. unfold findNode. by rewrite traverseTree_unfold, Hp.
Qed.

(** A second child that matches replaces the first. *)
Example findNode_later_sibling_wins :
  findNode sample_data (fun n => negb (bool_decide (d_id n = Some "r")))
  = Some (branch "b" [leaf "c"]).
Proof. reflexivity. Qed.

(** The parent a record was visited under has it among its children,
    and was visited itself. *)
Lemma visits_parent (node : NodeData) :
  forall (depth : nat) (parent : option NodeData) (n q : NodeData) (k : nat),
    (n, k, Some q) ∈ visits_from node depth parent ->
    (n = node /\ parent = Some q) \/
    (q ∈ visited node /\ n ∈ children_or_none q).
Proof.
  induction node as [node IH] using NodeData_children_ind.
  rewrite Forall_forall in IH.
  intros depth parent n q k. rewrite visits_from_unfold.
  intros [[= -> -> ->] | H]%elem_of_cons; [by left | right].
  apply list_elem_of_In, in_concat in H as (l & Hl & Hn).
  apply in_map_iff in Hl as (child & <- & Hc).
  apply list_elem_of_In in Hc, Hn.
  destruct (IH child Hc _ _ _ _ _ Hn) as [[-> [= ->]] | [Hq Hch]].
  - split; [apply visited_self | done].
  - split; [by eapply visited_child | done].
Qed.

Lemma visits_child (node : NodeData) :
  forall (depth : nat) (parent : option NodeData) (n q : NodeData),
    q ∈ visited node -> n ∈ children_or_none q ->
    exists k, (n, k, Some q) ∈ visits_from node depth parent.
Proof.
  induction node as [node IH] using NodeData_children_ind.
  rewrite Forall_forall in IH.
  intros depth parent n q Hq Hn. rewrite visits_from_unfold.
  apply visited_inv in Hq as [-> | (child & Hc & Hq)].
  - exists (S depth). apply list_elem_of_further, list_elem_of_In, in_concat.
    exists (visits_from n (S depth) (Some node)).
    split; [apply in_map_iff; exists n; split; [done | by apply list_elem_of_In] |].
    rewrite visits_from_unfold. apply in_eq.
  - destruct (IH child Hc (S depth) (Some node) n q Hq Hn) as (k & Hk).
    exists k. apply list_elem_of_further, list_elem_of_In, in_concat.
    exists (visits_from child (S depth) (Some node)).
    split; [apply in_map_iff; exists child; split; [done | by apply list_elem_of_In] |].
    by apply list_elem_of_In.
Qed.

Lemma has_child_spec (targetId : string) (node : NodeData) :
  has_child targetId node = true <->
  exists child, child ∈ children_or_none node /\ d_id child = Some targetId.
Proof.
  unfold has_child. rewrite existsb_exists. split.
  - intros (c & Hc & Hid). exists c. split; [by apply list_elem_of_In |].
    by apply bool_decide_eq_true in Hid.
  - intros (c & Hc & Hid). exists c. split; [by apply list_elem_of_In |].
    by apply bool_decide_eq_true.
Qed.

(** X19: what [findParentNode] returns. A returned record was visited
    and has a child with the target identifier; null is returned
    exactly when no record visited below the root (a record the
    callback of an unstopped traversal receives with a parent) has the
    target identifier. The root's own identifier is not looked at. *)
Theorem findParentNode_finds_a_parent (root : NodeData) (targetId : string) :
  (forall q, findParentNode root targetId = Some q ->
     q ∈ visited root /\
     exists child, child ∈ children_or_none q /\ d_id child = Some targetId) /\
  (findParentNode root targetId = None <->
     forall n k q, (n, k, Some q) ∈ visits root -> d_id n <> Some targetId).
Proof.
  change (findParentNode root targetId) with (findNode root (has_child targetId)).
  split.
  - intros q [Hp Hq]%findNode_sound. split; [done | by apply has_child_spec].
  - rewrite findNode_complete. split.
    + intros H n k q Hv Hid.
      destruct (visits_parent root 0 None n q k Hv) as [[_ [=]] | [Hq Hn]].
      assert (Hc : has_child targetId q = true) by (apply has_child_spec; eauto).
      rewrite (H q Hq) in Hc. done.
    + intros H q Hq. destruct (has_child targetId q) eqn:Hc; [| done].
      apply has_child_spec in Hc as (child & Hch & Hid).
      destruct (visits_child root 0 None child q Hq Hch) as (k & Hk).
      destruct (H child k q Hk Hid).
Qed.

Lemma findPath_unfold (targetId : string) (node : NodeData) (path : list NodeData) :
  findPath targetId node path
  = (if bool_decide (d_id node = Some targetId) then (true, path ++ [node])
     else
       let '(found, path') :=
         findPath_each targetId (children_or_none node) (path ++ [node]) in
       if found then (true, path') else (false, removelast path')).
Proof.
  destruct node as [? ? [l|] ? ? ? ? ? ? ? ? ? ? ?]; cbn [findPath d_id];
    destruct (bool_decide _); reflexivity.
Qed.

(** What [findPath] does to the path array: when it finds the target
    it leaves the path down to it pushed, and otherwise the array is as
    it was and the target is nowhere below. *)
Lemma findPath_spec (targetId : string) (node : NodeData) :
  forall path : list NodeData,
    (exists p,
       findPath targetId node path = (true, path ++ node :: p) /\
       chain (node :: p) /\
       Forall (fun n => n ∈ visited node) (node :: p) /\
       (exists n, last (node :: p) = Some n /\ d_id n = Some targetId)) \/
    (findPath targetId node path = (false, path) /\
     forall n, n ∈ visited node -> d_id n <> Some targetId).
Proof.
  induction node as [node IH] using NodeData_children_ind. intros path.
  rewrite findPath_unfold. destruct (decide (d_id node = Some targetId)) as [Hid|Hid].
  - rewrite (bool_decide_eq_true_2 _ Hid). left. exists []. split; [done |].
    split; [done |]. split; [| by exists node].
    constructor; [apply visited_self | constructor].
  - rewrite (bool_decide_eq_false_2 _ Hid).
    assert (Hloop :
      (exists c p,
         c ∈ children_or_none node /\
         findPath_each targetId (children_or_none node) (path ++ [node])
         = (true, (path ++ [node]) ++ c :: p) /\
         chain (c :: p) /\ Forall (fun n => n ∈ visited c) (c :: p) /\
         (exists n, last (c :: p) = Some n /\ d_id n = Some targetId)) \/
      (findPath_each targetId (children_or_none node) (path ++ [node])
       = (false, path ++ [node]) /\
       forall c n, c ∈ children_or_none node -> n ∈ visited c ->
                   d_id n <> Some targetId)).
    { generalize (path ++ [node]). intros acc.
      induction IH as [|c l Hc _ IHl].
      - right. split; [done |]. intros c n Hc. by apply elem_of_nil in Hc.
      - cbn [findPath_each].
        destruct (Hc acc) as [(p & -> & Hch & Hall & Hlast) | [-> Hnone]].
        + left. exists c, p. split; [apply list_elem_of_here | done].
        + destruct IHl as [(c' & p & Hc' & -> & Hrest) | [-> Hnone']].
          * left. exists c', p. split; [by apply list_elem_of_further | done].
          * right. split; [done |].
            intros c' n [-> | Hc']%elem_of_cons; [apply Hnone | by apply Hnone']. }
    destruct Hloop as [(c & p & Hc & -> & Hch & Hall & Hlast) | [-> Hnone]].
    + left. exists (c :: p). split; [by rewrite <- app_assoc |].
      split; [by split |]. split.
      * constructor; [apply visited_self |].
        eapply Forall_impl; [exact Hall |]. intros n Hn. by eapply visited_child.
      * destruct Hlast as (n & Hl & Hn). exists n. split; [| done].
        by rewrite last_cons, Hl.
    + right. rewrite removelast_last. split; [done |].
      intros n [-> | (c & Hc & Hn)]%visited_inv; [done | by eapply Hnone].
Qed.

(** X20: what [getNodePath] returns. The path is empty exactly when no
    record of the tree has the target identifier. Otherwise it starts
    at the root, ends at a record with the target identifier, each
    record on it is a child of the one before, and all of them are
    records of the tree. *)
Theorem getNodePath_is_a_path (root : NodeData) (targetId : string) :
  (getNodePath root targetId = [] <->
     forall n, n ∈ visited root -> d_id n <> Some targetId) /\
  (getNodePath root targetId <> [] ->
     head (getNodePath root targetId) = Some root /\
     (exists n, last (getNodePath root targetId) = Some n /\
                d_id n = Some targetId) /\
     chain (getNodePath root targetId) /\
     Forall (fun n => n ∈ visited root) (getNodePath root targetId)).
Proof.
  unfold getNodePath.
  destruct (findPath_spec targetId root [])
    as [(p & -> & Hch & Hall & n & Hl & Hn) | [-> Hnone]]; cbn [snd app].
  - split.
    + split; [done |]. intros H. destruct (H n); [| done].
      rewrite Forall_forall in Hall. apply Hall.
      apply last_Some in Hl as (l' & ->). set_solver.
    + intros _. repeat split; try done. by exists n.
  - split; [done |]. by intros [].
Qed.

End TreeHelpersFacts.
(** * Results: queries on the node model *)

Module NodeQueriesFacts.
Import JS MindNode NodeQueries MindNodeFacts.

(** ** Walking up: [ancestors], [depth], [root], [isDescendantOf] *)

Lemma ancestors_loop_acc (w : World) (fuel : nat) :
  forall (node : option addr) (result : list addr),
    ancestors_loop fuel w node result
    = (fun l => result ++ l) <$> ancestors_loop fuel w node [].
Proof.
  induction fuel as [|fuel IH]; intros [n|] result; simpl;
    try by rewrite ?app_nil_r.
  rewrite (IH _ (result ++ [n])), (IH _ [n]).
  destruct (ancestors_loop fuel w (parent_of w n) []) as [l|]; simpl; [| done].
  by rewrite <- app_assoc.
Qed.

Lemma ancestors_loop_step (w : World) (fuel : nat) (n : addr) :
  ancestors_loop (S fuel) w (Some n) []
  = cons n <$> ancestors_loop fuel w (parent_of w n) [].
Proof. simpl. by rewrite ancestors_loop_acc. Qed.

Lemma ancestors_loop_total (w : World) (fuel : nat) :
  forall node : option addr,
    reaches_root fuel w node = true ->
    exists l, ancestors_loop fuel w node [] = Some l.
Proof.
  induction fuel as [|fuel IH]; intros [n|] H; try discriminate; try by exists [].
  rewrite ancestors_loop_step. destruct (IH _ H) as (l & ->). by exists (n :: l).
Qed.

Lemma ancestors_loop_walk_up (w : World) (fuel : nat) (target : addr) :
  forall (node : option addr) (l : list addr),
    ancestors_loop fuel w node [] = Some l ->
    walk_up fuel w node target = Some (bool_decide (target ∈ l)).
Proof.
  induction fuel as [|fuel IH]; intros [n|] l H; try discriminate.
  - injection H as <-. reflexivity.
  - rewrite ancestors_loop_step in H.
    destruct (ancestors_loop fuel w (parent_of w n) []) as [l'|] eqn:E;
      [| discriminate].
    injection H as <-. simpl.
    destruct (decide (n = target)) as [-> | Hne].
    + rewrite bool_decide_eq_true_2 by done. f_equal. symmetry.
      apply bool_decide_eq_true_2. apply list_elem_of_here.
    + rewrite bool_decide_eq_false_2 by done. rewrite (IH _ l' E). f_equal.
      apply bool_decide_ext. rewrite elem_of_cons.
      split; [by right | by intros [-> | ?]].
  - injection H as <-. reflexivity.
Qed.

Lemma ancestors_loop_depth (w : World) (fuel : nat) :
  forall (node : addr) (d : nat) (l : list addr),
    ancestors_loop fuel w (parent_of w node) [] = Some l ->
    depth_loop fuel w node d = Some (d + length l) /\
    root fuel w node = Some (default node (last l)) /\
    parent_of w (default node (last l)) = None.
Proof.
  induction fuel as [|fuel IH]; intros node d l H.
  - simpl. destruct (parent_of w node) as [p|] eqn:Hp; [discriminate |].
    injection H as <-. simpl. rewrite Hp, Nat.add_0_r. by repeat split.
  - cbn [depth_loop root]. destruct (parent_of w node) as [p|] eqn:Hp.
    + rewrite ancestors_loop_step in H.
      destruct (ancestors_loop fuel w (parent_of w p) []) as [l'|] eqn:E;
        [| discriminate].
      injection H as <-. destruct (IH p (S d) l' E) as (Hd & Hr & Hroot).
      rewrite Hd, Hr. rewrite last_cons.
      repeat split; [f_equal; simpl; lia | | ];
        destruct (last l') as [r|]; simpl in *; done.
    + injection H as <-. simpl. rewrite Nat.add_0_r. by rewrite Hp.
Qed.

(** X21: the getters that walk up the parent references agree. For a
    node whose parent chain ends within the fuel: [ancestors] returns
    the chain, nearest first; [depth] is its length and [level] one
    more; [root] is its last entry (the node itself when there is
    none) and has no parent; [isDescendantOf(n)] is true exactly for
    the entries of [ancestors]; and the chain is empty exactly for a
    node with [isRoot]. *)
Theorem ancestors_depth_root_agree (fuel : nat) (w : World) (this : addr) :
  reaches_root fuel w (parent_of w this) = true ->
  exists l : list addr,
    ancestors fuel w this = Some l /\
    depth fuel w this = Some (length l) /\
    level fuel w this = Some (length l + 1) /\
    root fuel w this = Some (default this (last l)) /\
    isRoot w (default this (last l)) = true /\
    (forall n, isDescendantOf fuel w this n = Some (bool_decide (n ∈ l))) /\
    (l = [] <-> isRoot w this = true).
Proof.
  intros H. destruct (ancestors_loop_total w fuel _ H) as (l & Hl).
  destruct (ancestors_loop_depth w fuel this 0 l Hl) as (Hd & Hr & Hroot).
  exists l. unfold ancestors, depth, level, depth, isDescendantOf, isRoot.
  rewrite Hd. simpl. repeat split; try done.
  - by apply bool_decide_eq_true_2.
  - intros n. by apply ancestors_loop_walk_up.
  - intros ->. apply bool_decide_eq_true_2.
    destruct (parent_of w this) as [p|]; [| done].
    destruct fuel; [discriminate |]. rewrite ancestors_loop_step in Hl.
    by destruct (ancestors_loop fuel w (parent_of w p) []).
  - intros Hp%bool_decide_eq_true. rewrite Hp in Hl.
    destruct fuel; simpl in Hl; by injection Hl as <-.
Qed.

(** ** Siblings *)

Lemma indexOf_middle (a : addr) (l1 l : list addr) :
  a ∉ l1 -> indexOf a (l1 ++ a :: l) = Z.of_nat (length l1).
Proof.
  intros Hout. unfold indexOf.
  assert (Hf : list_find (fun k => k = a) (l1 ++ a :: l) = Some (length l1, a)).
  { apply list_find_Some. split; [| split; [done |]].
    - by rewrite lookup_app_r, Nat.sub_diag by lia.
    - intros j y Hj Hlt ->. rewrite lookup_app_l in Hj by done.
      apply Hout. by eapply list_elem_of_lookup_2. }
  by rewrite Hf.
Qed.

Lemma filter_absent (a : addr) (l : list addr) :
  a ∉ l -> filter (fun child => child <> a) l = l.
Proof.
  induction l as [|x l IH]; intros Hout; [done |].
  apply not_elem_of_cons in Hout as [Hne Hout].
  rewrite filter_cons_True by done. by rewrite IH.
Qed.

(** X16: [previousSibling] and [nextSibling] step through the parent's
    children. For two nodes [a] and [b] that follow each other in the
    children of their parent, which lists no node twice:
    [a.nextSibling] is [b] and [b.previousSibling] is [a]; [siblings]
    of either is the children array without that node, in order; the
    first child has no previous sibling and the last child no next
    one. *)
Theorem siblings_are_neighbours
    (w : World) (p a b : addr) (l1 l2 : list addr) :
  children_of w p = l1 ++ a :: b :: l2 ->
  NoDup (children_of w p) ->
  parent_of w a = Some p -> parent_of w b = Some p ->
  nextSibling w a = Some b /\ previousSibling w b = Some a /\
  siblings w a = l1 ++ b :: l2 /\ siblings w b = l1 ++ a :: l2 /\
  (l1 = [] -> previousSibling w a = None) /\
  (l2 = [] -> nextSibling w b = None).
Proof.
  intros Hcs Hnd Hpa Hpb. rewrite Hcs in Hnd.
  apply NoDup_app in Hnd as (Hnd1 & Hdisj & Hnd2).
  apply NoDup_cons in Hnd2 as [Ha2 Hnd2]. apply NoDup_cons in Hnd2 as [Hb2 Hnd2].
  assert (Ha1 : a ∉ l1) by (intros Hin; apply (Hdisj a Hin); by left).
  assert (Hb1 : b ∉ l1) by (intros Hin; apply (Hdisj b Hin); right; by left).
  assert (Hab : a <> b) by (intros ->; apply Ha2; by left).
  assert (Ha3 : a ∉ l2) by (intros Hin; apply Ha2; by right).
  assert (Hia : indexOf a (l1 ++ a :: b :: l2) = Z.of_nat (length l1))
    by (by apply indexOf_middle).
  assert (Hib : indexOf b (l1 ++ a :: b :: l2) = Z.of_nat (length (l1 ++ [a]))).
  { replace (l1 ++ a :: b :: l2) with ((l1 ++ [a]) ++ b :: l2)
      by (by rewrite <- app_assoc).
    apply indexOf_middle. intros [Hin | Hin%list_elem_of_singleton]%elem_of_app; auto. }
  rewrite length_app in Hib. cbn [length] in Hib.
  unfold nextSibling, previousSibling, siblings.
  rewrite Hpa, Hpb, Hcs, Hia, Hib, !length_app. cbn [length].
  repeat split.
  - rewrite (proj2 (Z.ltb_lt _ _)) by lia.
    replace (Z.to_nat (Z.of_nat (length l1) + 1)) with (length l1 + 1) by lia.
    rewrite lookup_app_r by lia.
    by replace (length l1 + 1 - length l1) with 1 by lia.
  - rewrite (proj2 (Z.ltb_lt _ _)) by lia.
    replace (Z.to_nat (Z.of_nat (length l1 + 1) - 1)) with (length l1) by lia.
    by rewrite lookup_app_r, Nat.sub_diag by lia.
  - rewrite filter_app, filter_cons_False by (intros H; by apply H).
    rewrite filter_cons_True by done.
    by rewrite (filter_absent a l1), (filter_absent a l2).
  - rewrite filter_app, filter_cons_True by done.
    rewrite filter_cons_False by (intros H; by apply H).
    by rewrite (filter_absent b l1), (filter_absent b l2).
  - intros ->. cbn [length]. by rewrite (proj2 (Z.ltb_ge _ _)) by lia.
  - intros ->. cbn [length]. by rewrite (proj2 (Z.ltb_ge _ _)) by lia.
Qed.

(** ** Walking down: [find] and [findAll] *)

Lemma find_unfold (fuel : nat) (w : World) (predicate : addr -> bool) (this : addr) :
  find (S fuel) w predicate this
  = if predicate this then Some (Some this)
    else find_each (find fuel w predicate) (children_of w this).
Proof. reflexivity. Qed.

Lemma findAll_find (w : World) (predicate : addr -> bool) (fuel : nat) :
  forall (this : addr) (depth : nat) (seen l : list addr),
    traverse (fun node _ results =>
                (true, if predicate node then results ++ [node] else results))
             fuel w this depth seen = Some l ->
    exists found : list addr,
      l = seen ++ found /\
      find fuel w predicate this = Some (head found) /\
      Forall (fun n => predicate n = true) found.
Proof.
  induction fuel as [|fuel IH]; intros this depth seen l H; [discriminate |].
  rewrite find_unfold. cbn [traverse] in H.
  assert (Hloop : forall (cs : list addr) (seen l : list addr),
            for_each (fun child s =>
                        traverse (fun node _ results =>
                                    (true, if predicate node then results ++ [node]
                                           else results))
                                 fuel w child (S depth) s) cs seen = Some l ->
            exists found,
              l = seen ++ found /\
              find_each (find fuel w predicate) cs = Some (head found) /\
              Forall (fun n => predicate n = true) found).
  { clear -IH. induction cs as [|c cs IHcs]; intros seen l H.
    - injection H as <-. exists []. by rewrite app_nil_r.
    - cbn [for_each] in H.
      destruct (traverse _ fuel w c (S depth) seen) as [l1|] eqn:E; [| discriminate].
      destruct (IH _ _ _ _ E) as (f1 & -> & Hf1 & Hall1).
      destruct (IHcs _ _ H) as (f2 & -> & Hf2 & Hall2).
      exists (f1 ++ f2). split; [by rewrite app_assoc |].
      split; [| by apply Forall_app].
      cbn [find_each]. rewrite Hf1. destruct f1 as [|x f1]; [exact Hf2 | done]. }
  destruct (predicate this) eqn:Hp.
  - destruct (Hloop _ _ _ H) as (f & -> & _ & Hall).
    exists (this :: f). split; [by rewrite <- app_assoc |].
    split; [done | by constructor].
  - destruct (Hloop _ _ _ H) as (f & -> & Hf & Hall). by exists f.
Qed.

(** X22: [find] returns the first node that [findAll] lists. When the
    traversal of [findAll] ends, every node it lists satisfies the
    predicate, and [find] with the same predicate returns the first of
    them, or null when there is none. *)
Theorem find_is_first_of_findAll
    (fuel : nat) (w : World) (predicate : addr -> bool) (this : addr)
    (l : list addr) :
  findAll fuel w predicate this = Some l ->
  find fuel w predicate this = Some (head l) /\
  Forall (fun n => predicate n = true) l.
Proof.
  intros H. destruct (findAll_find w predicate fuel this 0 [] l H)
    as (f & -> & Hf & Hall).
  by split.
Qed.

(** ** Sizes: [count], [getMaxDepth], [descendants] *)

Lemma tree_size_unfold (t : Tree) :
  tree_size t = S (sum_list (map tree_size (t_children t))).
Proof.
  destruct t as [? ? ? ? ? ? ? ? ? ts]; simpl. f_equal.
  induction ts as [|c ts IH]; simpl; [done | by rewrite IH].
Qed.

Lemma tree_height_unfold (t : Tree) :
  tree_height t = S (max_list (map tree_height (t_children t))).
Proof.
  destruct t as [? ? ? ? ? ? ? ? ? ts]; simpl. f_equal.
  induction ts as [|c ts IH]; simpl; [done | by rewrite IH].
Qed.

Lemma sum_list_cons (k : nat) (l : list nat) : sum_list (k :: l) = k + sum_list l.
Proof. reflexivity. Qed.

Lemma max_list_cons (k : nat) (l : list nat) :
  max_list (k :: l) = Nat.max k (max_list l).
Proof. reflexivity. Qed.

(** The loops over children that are each measured. *)
Lemma measures_loops (fuel : nat) (w : World) (cs : list addr) (ts : list Tree) :
  Forall2 (measures fuel w) cs ts ->
  (forall k,
     for_each (fun child total => k ← count fuel w child; Some (total + k)) cs k
     = Some (k + sum_list (map tree_size ts))) /\
  (forall m,
     for_each (fun child maxDepth =>
                 k ← getMaxDepth fuel w child; Some (Nat.max maxDepth k)) cs m
     = Some (Nat.max m (max_list (map tree_height ts)))) /\
  exists l : list addr,
    length l = sum_list (map tree_size ts) /\
    (forall result,
       for_each (fun child result =>
                   descendants_loop fuel w child (result ++ [child])) cs result
       = Some (result ++ l)) /\
    (forall depth seen,
       for_each (fun child s => traverse list_node fuel w child depth s) cs seen
       = Some (seen ++ l)).
Proof.
  induction 1 as [|c t cs ts (Hcount & Hdepth & lc & Hlen & Hdesc & Htrav) _ IH].
  - repeat split; intros; simpl; try (f_equal; lia).
    exists []. repeat split; intros; simpl; by rewrite ?app_nil_r.
  - destruct IH as (IHcount & IHdepth & lr & IHlen & IHdesc & IHtrav).
    cbn [map]. rewrite sum_list_cons, max_list_cons. repeat split.
    + intros k. cbn [for_each]. rewrite Hcount. cbn [mbind option_bind].
      rewrite IHcount. f_equal. lia.
    + intros m. cbn [for_each]. rewrite Hdepth. cbn [mbind option_bind].
      rewrite IHdepth. f_equal. lia.
    + exists ((c :: lc) ++ lr). repeat split.
      * rewrite length_app. cbn [length]. lia.
      * intros result. cbn [for_each]. rewrite Hdesc, IHdesc.
        by rewrite <- !app_assoc.
      * intros depth seen. cbn [for_each]. rewrite Htrav, IHtrav.
        by rewrite <- !app_assoc.
Qed.

(** In a store that holds the tree [t] at [a], with fuel for its
    height, the size queries on [a] return the measures of [t]. *)
Lemma holds_measures (w : World) (t : Tree) :
  forall (a : addr) (fuel : nat),
    holds (nodes w) a t -> tree_height t <= fuel -> measures fuel w a t.
Proof.
  induction t as [t IH] using Tree_nested_ind. intros a fuel Hh Hfuel.
  apply holds_unfold in Hh
    as (n & Hn & Hid & Htx & Hst & Hda & Hex & Hse & Hhi & Htg & Hty & Hcs).
  destruct fuel as [|fuel]; [destruct t; simpl in Hfuel; lia |].
  assert (Hh' : forall c, c ∈ t_children t -> tree_height c <= fuel)
    by (intros c Hc; apply tree_height_children in Hc; lia).
  assert (Hkids : Forall2 (measures fuel w) (children n) (t_children t)).
  { clear Hfuel. induction Hcs as [|c t' cs ts [_ Hc] _ IHcs]; [constructor |].
    apply Forall_cons in IH as [IHt IHts]. constructor.
    - apply IHt; [exact Hc | apply Hh'; left].
    - apply IHcs; [exact IHts |]. intros c' Hc'. apply Hh'. by right. }
  destruct (measures_loops fuel w _ _ Hkids) as (Hcount & Hdepth & l & Hlen & Hdesc & Htrav).
  unfold measures. rewrite tree_size_unfold, tree_height_unfold.
  cbn [count getMaxDepth descendants_loop traverse list_node].
  unfold children_of. rewrite Hn. repeat split.
  - rewrite Hcount. f_equal.
  - destruct (children n) as [|c cs] eqn:Ec.
    + apply Forall2_nil_inv_l in Hkids. by rewrite Hkids.
    + cbn [length Nat.eqb]. rewrite Hdepth. cbn [mbind option_bind]. f_equal. lia.
  - exists l. repeat split.
    + by rewrite Hlen.
    + exact Hdesc.
    + intros depth seen. rewrite Htrav. by rewrite <- app_assoc.
Qed.

Section Constructed.

Variable entropy : nat -> string * string.

(** The tree the constructor builds has the shape of the data. *)
Lemma built_shape (d : NodeData) :
  forall g : nat,
    tree_size (fst (built entropy d g)) = TreeHelpers.countNodes d /\
    tree_height (fst (built entropy d g)) = TreeHelpers.getTreeDepth d.
Proof.
  induction d as [d IH] using TreeHelpersFacts.NodeData_children_ind. intros g.
  rewrite built_unfold, TreeHelpersFacts.countNodes_unfold,
    TreeHelpersFacts.getTreeDepth_unfold.
  destruct (id_or_fresh entropy (d_id d) g) as [i g1].
  assert (Hkids : forall (l : list NodeData) (g : nat),
            Forall (fun d => forall g,
                      tree_size (fst (built entropy d g)) = TreeHelpers.countNodes d /\
                      tree_height (fst (built entropy d g)) = TreeHelpers.getTreeDepth d) l ->
            map tree_size (fst (built_children (built entropy) l g))
            = map TreeHelpers.countNodes l /\
            map tree_height (fst (built_children (built entropy) l g))
            = map TreeHelpers.getTreeDepth l).
  { clear. induction l as [|c l IHl]; intros g Hall; [done |].
    apply Forall_cons in Hall as [Hc Hl]. cbn [built_children].
    destruct (Hc g) as [Hs Hh]. destruct (built entropy c g) as [t g'].
    destruct (IHl g' Hl) as [Hs' Hh'].
    destruct (built_children (built entropy) l g') as [ts g''].
    cbn [fst map] in *. by rewrite Hs, Hh, Hs', Hh'. }
  unfold TreeHelpers.children_or_none in *.
  destruct (d_children d) as [l|]; cbn [default from_option id] in *.
  - destruct (Hkids l g1 IH) as [Hs Hh].
    destruct (built_children (built entropy) l g1) as [ts g2].
    cbn [fst] in *. rewrite tree_size_unfold, tree_height_unfold.
    cbn [t_children]. by rewrite Hs, Hh.
  - done.
Qed.

(** X23: the size queries on a node agree with the helpers on the data
    it was built from. For [n = new MindNode(d)] and fuel for the depth
    of [d]: [n.count()] is [countNodes(d)], [n.getMaxDepth()] is
    [getTreeDepth(d)], [n.descendants] has one entry less than that
    count, and [n.findAll(() => true)] is [n] followed by
    [n.descendants]. *)
Theorem constructed_sizes_agree (d : NodeData) (w : World) (fuel : nat) :
  TreeHelpers.getTreeDepth d <= fuel ->
  exists l : list addr,
    count fuel (snd (constructor entropy d w)) (fst (constructor entropy d w))
      = Some (TreeHelpers.countNodes d) /\
    getMaxDepth fuel (snd (constructor entropy d w)) (fst (constructor entropy d w))
      = Some (TreeHelpers.getTreeDepth d) /\
    descendants fuel (snd (constructor entropy d w)) (fst (constructor entropy d w))
      = Some l /\
    S (length l) = TreeHelpers.countNodes d /\
    findAll fuel (snd (constructor entropy d w)) (fun _ => true)
            (fst (constructor entropy d w))
      = Some (fst (constructor entropy d w) :: l).
Proof.
  intros Hfuel. destruct (constructor_holds entropy d w) as [_ Hh].
  destruct (built_shape d (generated w)) as [Hs Hd].
  apply (holds_measures _ _ _ fuel) in Hh; [| lia].
  destruct Hh as (Hcount & Hdepth & l & Hlen & Hdesc & Htrav).
  exists l. rewrite Hcount, Hdepth, Hs, Hd. repeat split.
  - apply (Hdesc []).
  - lia.
  - apply (Htrav 0 []).
Qed.

End Constructed.

(** ** [expandAll] and [collapseAll] *)

Lemma below_inv (w : World) (this a : addr) :
  below w this a <->
  exists c, c ∈ children_of w this /\ in_subtree w c a.
Proof.
  split.
  - intros H. inversion H as [n c Hc | n c d Hc Hd]; subst.
    + exists a. split; [done | by left].
    + exists c. split; [done | by right].
  - intros (c & Hc & [-> | Hb]); [by apply below_child | by eapply below_step].
Qed.

Lemma below_ext (w w' : World) (this a : addr) :
  (forall q, children_of w' q = children_of w q) ->
  below w this a -> below w' this a.
Proof.
  intros Heq. induction 1 as [n c Hc | n c d Hc _ IH].
  - apply below_child. by rewrite Heq.
  - eapply below_step; [by rewrite Heq | exact IH].
Qed.

Lemma in_subtree_ext (w w' : World) (this a : addr) :
  (forall q, children_of w' q = children_of w q) ->
  in_subtree w' this a <-> in_subtree w this a.
Proof.
  intros Heq. unfold in_subtree. split; intros [-> | H]; try by left.
  - right. eapply below_ext; [| exact H]. intros q. by rewrite Heq.
  - right. by eapply below_ext.
Qed.

Lemma children_of_lookup (w w' : World) :
  (forall a, nodes w' !! a = nodes w !! a \/
             nodes w' !! a = set_expanded true <$> nodes w !! a \/
             nodes w' !! a = set_expanded false <$> nodes w !! a) ->
  forall q, children_of w' q = children_of w q.
Proof.
  intros H q. unfold children_of.
  destruct (H q) as [-> | [-> | ->]]; [done | |]; by destruct (nodes w !! q).
Qed.

Lemma set_expanded_idem (b : bool) (o : option Node) :
  set_expanded b <$> (set_expanded b <$> o) = set_expanded b <$> o.
Proof. by destruct o. Qed.

Lemma set_expanded_all_marks (b : bool) (fuel : nat) :
  forall (this : addr) (w w' : World),
    set_expanded_all b fuel this w = Some w' ->
    forall a, marked b w w' this a.
Proof.
  induction fuel as [|fuel IH]; intros this w w' H; [discriminate |].
  cbn [set_expanded_all] in H.
  assert (Hkeep : forall w0 w1 : World,
            (forall a, nodes w1 !! a = nodes w0 !! a \/
                       nodes w1 !! a = set_expanded b <$> nodes w0 !! a) ->
            forall q, children_of w1 q = children_of w0 q).
  { intros w0 w1 Hl. apply children_of_lookup. intros a.
    destruct (Hl a) as [? | ?]; [by left | right]. destruct b; [by left | by right]. }
  assert (Hch1 : forall q, children_of (update this (set_expanded b) w) q
                           = children_of w q).
  { intros q. by apply children_of_update. }
  rewrite Hch1 in H.
  (* the loop: [seen] are the children already done *)
  assert (Hloop : forall (cs seen : list addr) (wi : World),
            (forall a,
               ((a = this \/ exists c, c ∈ seen /\ in_subtree w c a) /\
                nodes wi !! a = set_expanded b <$> nodes w !! a) \/
               (~ (a = this \/ exists c, c ∈ seen /\ in_subtree w c a) /\
                nodes wi !! a = nodes w !! a)) ->
            for_each (fun child w => set_expanded_all b fuel child w) cs wi = Some w' ->
            forall a,
              ((a = this \/ exists c, c ∈ seen ++ cs /\ in_subtree w c a) /\
               nodes w' !! a = set_expanded b <$> nodes w !! a) \/
              (~ (a = this \/ exists c, c ∈ seen ++ cs /\ in_subtree w c a) /\
               nodes w' !! a = nodes w !! a)).
  { induction cs as [|c cs IHcs]; intros seen wi Hi Hrun.
    - injection Hrun as <-. by rewrite app_nil_r.
    - cbn [for_each] in Hrun.
      destruct (set_expanded_all b fuel c wi) as [wj|] eqn:E; [| discriminate].
      replace (seen ++ c :: cs) with ((seen ++ [c]) ++ cs) by (by rewrite <- app_assoc).
      apply (IHcs (seen ++ [c]) wj); [| exact Hrun].
      assert (Hchi : forall q, children_of wi q = children_of w q).
      { apply Hkeep. intros a. destruct (Hi a) as [[_ ?] | [_ ?]]; [by right | by left]. }
      intros a. pose proof (IH c wi wj E a) as Hc.
      unfold marked in Hc. rewrite (in_subtree_ext w wi c a Hchi) in Hc.
      destruct (Hi a) as [[Hin Hl] | [Hout Hl]], Hc as [[Hinc Hlc] | [Houtc Hlc]].
      + left. split.
        * destruct Hin as [-> | (c0 & Hc0 & Hs)]; [by left | right].
          exists c0. split; [apply elem_of_app; by left | done].
        * by rewrite Hlc, Hl, set_expanded_idem.
      + left. split.
        * destruct Hin as [-> | (c0 & Hc0 & Hs)]; [by left | right].
          exists c0. split; [apply elem_of_app; by left | done].
        * by rewrite Hlc, Hl.
      + left. split.
        * right. exists c. split; [| done].
          apply elem_of_app. right. apply list_elem_of_here.
        * by rewrite Hlc, Hl.
      + right. split; [| by rewrite Hlc, Hl].
        intros [-> | (c0 & Hc0 & Hs)]; [apply Hout; by left |].
        apply elem_of_app in Hc0 as [Hc0 | ->%list_elem_of_singleton];
          [| done].
        apply Hout. right. by exists c0. }
  intros a.
  assert (Hstart : forall a,
            ((a = this \/ exists c, c ∈ @nil addr /\ in_subtree w c a) /\
             nodes (update this (set_expanded b) w) !! a
             = set_expanded b <$> nodes w !! a) \/
            (~ (a = this \/ exists c, c ∈ @nil addr /\ in_subtree w c a) /\
             nodes (update this (set_expanded b) w) !! a = nodes w !! a)).
  { intros a0. rewrite lookup_update. destruct (decide (this = a0)) as [<- | Hne].
    - left. split; [by left | done].
    - right. split; [| done].
      intros [-> | (c & Hc & _)]; [done | by apply elem_of_nil in Hc]. }
  destruct (Hloop _ [] _ Hstart H a) as [[Hin Hl] | [Hout Hl]]; cbn [app] in *.
  - left. split; [| exact Hl]. destruct Hin as [-> | Hin]; [by left | right].
    by apply below_inv.
  - right. split; [| exact Hl]. intros [-> | Hb]; apply Hout; [by left | right].
    by apply below_inv.
Qed.

(** X27: [expandAll] and [collapseAll] set the flag on the subtree and
    touch nothing else. When the call on [this] returns, every node
    that is [this] or one of its descendants has [expanded] set to
    true (to false for [collapseAll]) and is otherwise as it was, and
    every other node of the store is as it was; no node is added. *)
Theorem expandAll_marks_the_subtree
    (b : bool) (fuel : nat) (this : addr) (w w' : World) :
  (if b then expandAll else collapseAll) fuel this w = Some w' ->
  length (nodes w') = length (nodes w) /\
  forall a : addr,
    ((a = this \/ below w this a) /\
     nodes w' !! a = set_expanded b <$> nodes w !! a) \/
    (~ (a = this \/ below w this a) /\ nodes w' !! a = nodes w !! a).
Proof.
  intros H.
  assert (H' : set_expanded_all b fuel this w = Some w') by (by destruct b).
  pose proof (set_expanded_all_marks b fuel this w w' H') as Hm.
  split; [| exact Hm].
  apply Nat.le_antisymm.
  - destruct (decide (length (nodes w') <= length (nodes w))) as [|Hgt]; [done |].
    destruct (Hm (length (nodes w))) as [[_ Hl] | [_ Hl]];
      rewrite (lookup_ge_None_2 (nodes w)) in Hl by lia; simpl in Hl;
      apply lookup_ge_None_1 in Hl; lia.
  - destruct (decide (length (nodes w) <= length (nodes w'))) as [|Hgt]; [done |].
    destruct (Hm (length (nodes w'))) as [[_ Hl] | [_ Hl]];
      rewrite (lookup_ge_None_2 (nodes w')) in Hl by lia; symmetry in Hl;
      [apply fmap_None in Hl |]; apply lookup_ge_None_1 in Hl; lia.
Qed.

(** ** Styles *)

Lemma mergeStyle_keeps_defaults (styles : list (option NodeStyle)) (k : string) :
  is_Some (DEFAULT_NODE_STYLE !! k) -> is_Some (mergeStyle styles !! k).
Proof.
  unfold mergeStyle. generalize DEFAULT_NODE_STYLE.
  induction styles as [|[st|] styles IH]; intros acc Hk; cbn [foldl]; [done | |].
  - apply IH. unfold Object_assign. apply lookup_union_is_Some. by right.
  - by apply IH.
Qed.

Lemma style_of_update (w : World) (a : addr) (f : Node -> Node) (n : Node) :
  nodes w !! a = Some n -> style_of (update a f w) a = style (f n).
Proof. intros Hn. unfold style_of. rewrite lookup_update, decide_True, Hn; done. Qed.

Lemma apply_style_op_defaults (w : World) (a : addr) (o : StyleOp) (k : string) :
  is_Some (nodes w !! a) -> is_Some (DEFAULT_NODE_STYLE !! k) ->
  is_Some (nodes (apply_style_op a w o) !! a) /\
  is_Some (style_of (apply_style_op a w o) a !! k).
Proof.
  intros [n Hn] Hk. destruct o as [st|]; cbn [apply_style_op];
    unfold updateStyle, resetStyle.
  - split; [rewrite lookup_update, decide_True, Hn; done |].
    rewrite (style_of_update _ _ _ n Hn). cbn [style set_style].
    by apply mergeStyle_keeps_defaults.
  - split; [rewrite lookup_update, decide_True, Hn; done |].
    rewrite (style_of_update _ _ _ n Hn). cbn [style set_style].
    destruct (isRoot w a); [| done].
    unfold DEFAULT_ROOT_NODE_STYLE, Object_assign.
    apply lookup_union_is_Some. by right.
Qed.

(** X26: a node's style always has every key of the default style.
    For a node built by the constructor from any data, after every
    sequence of [updateStyle] and [resetStyle] calls the style of the
    node has an entry for each key of [DEFAULT_NODE_STYLE]:
    [mergeStyle] starts from the defaults whatever it is given, and
    both reset styles contain them. *)
Theorem style_keeps_default_keys
    (entropy : nat -> string * string) (d : NodeData) (w : World)
    (ops : list StyleOp) (k : string) :
  is_Some (DEFAULT_NODE_STYLE !! k) ->
  is_Some (style_of (run_style_ops (fst (constructor entropy d w)) ops
                       (snd (constructor entropy d w)))
                    (fst (constructor entropy d w)) !! k).
Proof.
  intros Hk. destruct (constructor_holds entropy d w) as [_ Hh].
  apply holds_unfold in Hh as (n & Hn & _ & _ & Hst & _).
  rewrite built_unfold in Hst.
  destruct (id_or_fresh entropy (d_id d) (generated w)) as [i g1].
  destruct (match d_children d with
            | Some l => built_children (built entropy) l g1
            | None => ([], g1)
            end) as [ts g2].
  cbn [fst t_style] in Hst.
  assert (Hstart : is_Some (nodes (snd (constructor entropy d w))
                              !! fst (constructor entropy d w)) /\
                   is_Some (style_of (snd (constructor entropy d w))
                              (fst (constructor entropy d w)) !! k)).
  { split; [by exists n |]. unfold style_of. rewrite Hn, Hst.
    by apply mergeStyle_keeps_defaults. }
  revert Hstart. clear Hn Hst.
  generalize (snd (constructor entropy d w)) (fst (constructor entropy d w)).
  intros w0 a. unfold run_style_ops. revert w0.
  induction ops as [|o ops IH]; intros w0 [Hn Hs]; cbn [foldl]; [done |].
  apply IH. by apply apply_style_op_defaults.
Qed.

Lemma ancestors_depth_root_agree_witness :
  reaches_root 4 sample_world (parent_of sample_world 3) = true /\
  exists l : list addr,
    ancestors 4 sample_world 3 = Some l /\
    depth 4 sample_world 3 = Some (length l) /\
    level 4 sample_world 3 = Some (length l + 1) /\
    root 4 sample_world 3 = Some (default 3 (last l)) /\
    isRoot sample_world (default 3 (last l)) = true /\
    (forall n, isDescendantOf 4 sample_world 3 n = Some (bool_decide (n ∈ l))) /\
    (l = [] <-> isRoot sample_world 3 = true).
Proof.
  assert (H : reaches_root 4 sample_world (parent_of sample_world 3) = true)
    by reflexivity.
  split; [exact H |].
  exact (ancestors_depth_root_agree 4 sample_world 3 H).
Defined.

Lemma find_is_first_of_findAll_witness :
  findAll 3 sample_world (fun a => Nat.ltb 1 a) 0 = Some [2; 3] /\
  find 3 sample_world (fun a => Nat.ltb 1 a) 0 = Some (head [2; 3]) /\
  Forall (fun n => Nat.ltb 1 n = true) [2; 3].
Proof.
  assert (H : findAll 3 sample_world (fun a => Nat.ltb 1 a) 0 = Some [2; 3])
    by reflexivity.
  split; [exact H |].
  exact (find_is_first_of_findAll 3 sample_world (fun a => Nat.ltb 1 a) 0 [2; 3] H).
Defined.

Lemma constructed_sizes_agree_witness :
  TreeHelpers.getTreeDepth TreeHelpers.sample_data <= 3 /\
  exists l : list addr,
    count 3 (snd (constructor sample_entropy TreeHelpers.sample_data emptyWorld))
          (fst (constructor sample_entropy TreeHelpers.sample_data emptyWorld))
      = Some (TreeHelpers.countNodes TreeHelpers.sample_data) /\
    getMaxDepth 3 (snd (constructor sample_entropy TreeHelpers.sample_data emptyWorld))
          (fst (constructor sample_entropy TreeHelpers.sample_data emptyWorld))
      = Some (TreeHelpers.getTreeDepth TreeHelpers.sample_data) /\
    descendants 3 (snd (constructor sample_entropy TreeHelpers.sample_data emptyWorld))
          (fst (constructor sample_entropy TreeHelpers.sample_data emptyWorld))
      = Some l /\
    S (length l) = TreeHelpers.countNodes TreeHelpers.sample_data /\
    findAll 3 (snd (constructor sample_entropy TreeHelpers.sample_data emptyWorld))
            (fun _ => true)
            (fst (constructor sample_entropy TreeHelpers.sample_data emptyWorld))
      = Some (fst (constructor sample_entropy TreeHelpers.sample_data emptyWorld) :: l).
Proof.
  assert (H : TreeHelpers.getTreeDepth TreeHelpers.sample_data <= 3)
    by (vm_compute; lia).
  split; [exact H |].
  exact (constructed_sizes_agree sample_entropy TreeHelpers.sample_data emptyWorld 3 H).
Defined.

Lemma style_keeps_default_keys_witness :
  is_Some (DEFAULT_NODE_STYLE !! "fontSize") /\
  is_Some (style_of
             (run_style_ops (fst (constructor sample_entropy (leaf "n") emptyWorld))
                [UpdateStyle {["fontSize" := JUndefined]}; ResetStyle;
                 UpdateStyle {["icon" := JStr "star"]}]
                (snd (constructor sample_entropy (leaf "n") emptyWorld)))
             (fst (constructor sample_entropy (leaf "n") emptyWorld)) !! "fontSize").
Proof.
  assert (H : is_Some (DEFAULT_NODE_STYLE !! "fontSize")) by (by eexists).
  split; [exact H |].
  exact (style_keeps_default_keys sample_entropy (leaf "n") emptyWorld
           [UpdateStyle {["fontSize" := JUndefined]}; ResetStyle;
            UpdateStyle {["icon" := JStr "star"]}] "fontSize" H).
Defined.

(** Collapsing node 0 of the small store, which has nodes 1 and 2
    below it. *)
Lemma expandAll_marks_the_subtree_witness :
  let w' := update 2 (set_expanded false)
              (update 1 (set_expanded false)
                 (update 0 (set_expanded false) small_world)) in
  (if false then expandAll else collapseAll) 2 0 small_world = Some w' /\
  length (nodes w') = length (nodes small_world) /\
  forall a : addr,
    ((a = 0 \/ below small_world 0 a) /\
     nodes w' !! a = set_expanded false <$> nodes small_world !! a) \/
    (~ (a = 0 \/ below small_world 0 a) /\
     nodes w' !! a = nodes small_world !! a).
Proof.
  cbv zeta.
  assert (E : (if false then expandAll else collapseAll) 2 0 small_world
              = Some (update 2 (set_expanded false)
                        (update 1 (set_expanded false)
                           (update 0 (set_expanded false) small_world))))
    by reflexivity.
  split; [exact E |].
  exact (expandAll_marks_the_subtree false 2 0 small_world _ E).
Defined.

(** Nodes 1 and 2 of the small store, the two children of node 0. *)
Lemma siblings_are_neighbours_witness :
  children_of small_world 0 = [] ++ 1 :: 2 :: [] /\
  NoDup (children_of small_world 0) /\
  parent_of small_world 1 = Some 0 /\ parent_of small_world 2 = Some 0 /\
  nextSibling small_world 1 = Some 2 /\ previousSibling small_world 2 = Some 1 /\
  siblings small_world 1 = [] ++ 2 :: [] /\ siblings small_world 2 = [] ++ 1 :: [] /\
  (@nil addr = [] -> previousSibling small_world 1 = None) /\
  (@nil addr = [] -> nextSibling small_world 2 = None).
Proof.
  assert (H1 : children_of small_world 0 = [] ++ 1 :: 2 :: []) by reflexivity.
  assert (H2 : NoDup (children_of small_world 0)).
  { apply NoDup_cons. split; [intros Hin%list_elem_of_singleton; discriminate |].
    apply NoDup_singleton. }
  assert (H3 : parent_of small_world 1 = Some 0) by reflexivity.
  assert (H4 : parent_of small_world 2 = Some 0) by reflexivity.
  split; [exact H1 |]. split; [exact H2 |]. split; [exact H3 |]. split; [exact H4 |].
  exact (siblings_are_neighbours small_world 0 1 2 [] [] H1 H2 H3 H4).
Defined.

End NodeQueriesFacts.
(** * Results: the links between parents and children *)

Module NodeLinksFacts.
Import JS MindNode NodeLinks MindNodeFacts.

Lemma parent_valid (w : World) (c q : addr) :
  parent_of w c = Some q -> c < length (nodes w).
Proof.
  unfold parent_of. destruct (nodes w !! c) eqn:E; [| discriminate].
  intros _. by eapply lookup_lt_Some.
Qed.

Lemma children_valid (w : World) (q c : addr) :
  c ∈ children_of w q -> q < length (nodes w).
Proof.
  unfold children_of. destruct (nodes w !! q) eqn:E.
  - intros _. by eapply lookup_lt_Some.
  - by intros ?%elem_of_nil.
Qed.

Lemma elem_of_place (c n : addr) (index : option Z) (l : list addr) :
  c ∈ place n index l <-> c = n \/ c ∈ l.
Proof.
  assert (Happ : c ∈ l ++ [n] <-> c = n \/ c ∈ l).
  { rewrite elem_of_app, list_elem_of_singleton. tauto. }
  unfold place. destruct index as [i|]; [| exact Happ].
  destruct (_ && _)%bool; [| exact Happ].
  unfold splice_in. rewrite elem_of_app, elem_of_cons.
  rewrite <- (take_drop (Z.to_nat i) l) at 3. rewrite elem_of_app. tauto.
Qed.

Lemma NoDup_place (n : addr) (index : option Z) (l : list addr) :
  n ∉ l -> NoDup l -> NoDup (place n index l).
Proof.
  intros Hn Hl.
  assert (Happ : NoDup (l ++ [n])).
  { apply NoDup_app. split; [done |]. split; [| apply NoDup_singleton].
    intros x Hx ->%list_elem_of_singleton. done. }
  unfold place. destruct index as [i|]; [| exact Happ].
  destruct (_ && _)%bool; [| exact Happ].
  unfold splice_in. rewrite <- Permutation_middle, take_drop.
  by apply NoDup_cons.
Qed.

Lemma elem_of_delete_NoDup (l : list addr) (i : nat) (x c : addr) :
  NoDup l -> l !! i = Some x -> (c ∈ delete i l <-> c ∈ l /\ c <> x).
Proof.
  intros Hnd Hi. pose proof (take_drop_middle l i x Hi) as Hsplit.
  rewrite delete_take_drop.
  assert (Hl : c ∈ l <-> c ∈ take i l \/ c = x \/ c ∈ drop (S i) l).
  { rewrite <- Hsplit at 1. by rewrite elem_of_app, elem_of_cons. }
  rewrite <- Hsplit in Hnd.
  apply NoDup_app in Hnd as (_ & Hdisj & [Hx _]%NoDup_cons).
  rewrite Hl, elem_of_app. split.
  - intros [H | H]; (split; [tauto |]); intros ->; [| done].
    by apply (Hdisj x H), list_elem_of_here.
  - tauto.
Qed.

Lemma NoDup_delete (l : list addr) (i : nat) : NoDup l -> NoDup (delete i l).
Proof. intros H. eapply sublist_NoDup; [exact H | apply sublist_delete]. Qed.

(** ** Attaching a node that has no parent *)

Lemma addChild_node_linked (w : World) (this child : addr) (index : option Z) :
  well_linked w -> this < length (nodes w) -> child < length (nodes w) ->
  parent_of w child = None ->
  well_linked (snd (addChild_node this child index w)).
Proof.
  intros [Hc Hnd] Hthis Hchild Hp.
  assert (Hout : child ∉ children_of w this).
  { intros Hin. apply Hc in Hin. congruence. }
  split.
  - intros c q. rewrite addChild_node_children, addChild_node_parent by done.
    destruct (decide (this = q)) as [<- | Hq], (decide (child = c)) as [<- | Hne];
      rewrite ?elem_of_place.
    + split; [done | by left].
    + rewrite <- (Hc c this). split; [intros [-> | ?]; done | by right].
    + rewrite (Hc child q), Hp. split; [done | intros [= ->]; done].
    + apply Hc.
  - intros a. rewrite addChild_node_children by done.
    destruct (decide (this = a)) as [<- |]; [by apply NoDup_place | apply Hnd].
Qed.

(** ** Detaching *)

Lemma removeChild_linked (w : World) (this : addr) (child : addr + string) :
  well_linked w -> well_linked (snd (removeChild this child w)).
Proof.
  intros [Hc Hnd]. unfold removeChild.
  destruct (child_index w this child) as [index|]; [| done].
  destruct (children_of w this !! index) as [rc|] eqn:Hi; [| done].
  cbn [snd].
  assert (Hin : rc ∈ children_of w this) by (by eapply list_elem_of_lookup_2).
  assert (Hthis : this < length (nodes w)) by (by eapply children_valid).
  assert (Hprc : parent_of w rc = Some this) by (by apply Hc).
  assert (Hrc : rc < length (nodes w)) by (by eapply parent_valid).
  assert (Hch : forall q,
            children_of (update this (set_children
                           (delete index (children_of (update rc (set_parent None) w) this)))
                           (update rc (set_parent None) w)) q
            = if decide (this = q) then delete index (children_of w this)
              else children_of w q).
  { intros q. rewrite children_of_set_children by (by rewrite length_update).
    by rewrite !children_of_update. }
  assert (Hpa : forall c,
            parent_of (update this (set_children
                         (delete index (children_of (update rc (set_parent None) w) this)))
                         (update rc (set_parent None) w)) c
            = if decide (rc = c) then None else parent_of w c).
  { intros c. rewrite parent_of_update by done. by apply parent_of_set_parent. }
  split.
  - intros c q. rewrite Hch, Hpa.
    destruct (decide (this = q)) as [<- | Hq], (decide (rc = c)) as [<- | Hne];
      rewrite ?(elem_of_delete_NoDup _ _ rc _ (Hnd this) Hi).
    + split; [tauto | done].
    + rewrite <- (Hc c this). split; [tauto | done].
    + rewrite (Hc rc q), Hprc. split; [intros [= ->]; done | done].
    + apply Hc.
  - intros a. rewrite Hch. destruct (decide (this = a)) as [<- |]; [| apply Hnd].
    apply NoDup_delete, Hnd.
Qed.

Lemma parent_of_clear (w : World) (c a : addr) :
  parent_of (update c (set_parent None) w) a
  = if decide (c = a) then None else parent_of w a.
Proof.
  unfold parent_of. rewrite lookup_update.
  destruct (decide (c = a)) as [<- |]; [| done]. by destruct (nodes w !! c).
Qed.

Lemma removeAllChildren_linked (w : World) (this : addr) :
  well_linked w -> well_linked (removeAllChildren this w).
Proof.
  intros [Hc Hnd]. unfold removeAllChildren.
  assert (Hloop : forall (cs : list addr) (w0 : World),
            let w1 := foldl (fun w c => update c (set_parent None) w) w0 cs in
            length (nodes w1) = length (nodes w0) /\
            (forall a, children_of w1 a = children_of w0 a) /\
            (forall a, parent_of w1 a
                       = if decide (a ∈ cs) then None else parent_of w0 a)).
  { induction cs as [|c cs IH]; intros w0; cbn [foldl].
    - by repeat split.
    - destruct (IH (update c (set_parent None) w0)) as (Hl & Hch & Hpa).
      split; [by rewrite Hl, length_update |].
      split; [intros a; by rewrite Hch, children_of_update |].
      intros a. rewrite Hpa, parent_of_clear.
      destruct (decide (a ∈ cs)) as [Hin | Hout].
      + rewrite decide_True; [done | by right].
      + destruct (decide (c = a)) as [<- | Hne].
        * rewrite decide_True; [done | by left].
        * rewrite decide_False; [done |]. intros [-> | ?]%elem_of_cons; done. }
  destruct (Hloop (children_of w this) w) as (Hl & Hch & Hpa).
  revert Hl Hch Hpa.
  generalize (foldl (fun w c => update c (set_parent None) w) w (children_of w this)).
  intros w1 Hl Hch Hpa.
  destruct (decide (this < length (nodes w))) as [Hthis | Hthis].
  - split.
    + intros c q. rewrite children_of_set_children by lia.
      rewrite parent_of_update by done. rewrite Hpa, Hch.
      destruct (decide (this = q)) as [<- | Hq].
      * destruct (decide (c ∈ children_of w this)) as [Hin | Hout].
        -- split; [by intros ?%elem_of_nil | done].
        -- split; [by intros ?%elem_of_nil |]. intros Hp. by apply Hc in Hp.
      * destruct (decide (c ∈ children_of w this)) as [Hin | Hout]; [| apply Hc].
        apply Hc in Hin. rewrite (Hc c q), Hin.
        split; [intros [= ->]; done | done].
    + intros a. rewrite children_of_set_children by lia.
      destruct (decide (this = a)); [apply NoDup_nil_2 | rewrite Hch; apply Hnd].
  - assert (Hnone : children_of w this = []).
    { unfold children_of. by rewrite lookup_ge_None_2 by lia. }
    assert (Hsame : forall b, nodes (update this (set_children []) w1) !! b
                              = nodes w1 !! b).
    { intros b. rewrite lookup_update. destruct (decide (this = b)) as [<- |]; [| done].
      by rewrite lookup_ge_None_2 by lia. }
    assert (Hch' : forall q, children_of (update this (set_children []) w1) q
                             = children_of w q).
    { intros q. unfold children_of at 1. rewrite Hsame. apply Hch. }
    assert (Hpa' : forall c, parent_of (update this (set_children []) w1) c
                             = parent_of w c).
    { intros c. unfold parent_of at 1. rewrite Hsame.
      fold (parent_of w1 c). rewrite Hpa, Hnone.
      by rewrite decide_False by apply not_elem_of_nil. }
    split.
    + intros c q. rewrite Hch', Hpa'. apply Hc.
    + intros a. rewrite Hch'. apply Hnd.
Qed.

Lemma remove_linked (w : World) (this : addr) :
  well_linked w -> well_linked (snd (remove this w)).
Proof.
  intros H. unfold remove. destruct (parent_of w this); [| done].
  by apply removeChild_linked.
Qed.

Lemma moveTo_linked (fuel : nat) (w w' : World) (n p : addr) (index : option Z)
    (b : bool) :
  well_linked w -> n < length (nodes w) -> p < length (nodes w) ->
  moveTo fuel n p index w = Some (b, w') -> well_linked w'.
Proof.
  intros Hw Hn Hp. unfold moveTo.
  destruct (bool_decide (p = n)); [by intros [= _ <-] |].
  destruct (isDescendantOf fuel w p n) as [[]|]; cbn [mbind option_bind];
    [by intros [= _ <-] | | discriminate].
  intros [= _ <-].
  destruct (parent_of w n) as [q|] eqn:Hq.
  - assert (Hin : n ∈ children_of w q) by (by apply (proj1 Hw)).
    assert (Hqv : q < length (nodes w)) by (by eapply children_valid).
    destruct (removeChild_ref w q n Hqv Hn) as (Hlen & _ & _ & _ & Hrem & _).
    destruct (Hrem Hin) as [_ Hnone].
    apply addChild_node_linked; [by apply removeChild_linked | lia | lia | exact Hnone].
  - by apply addChild_node_linked.
Qed.

(** ** The constructor *)

Lemma extends_children_of (w w' : World) (q : addr) :
  extends w w' -> q < length (nodes w) -> children_of w' q = children_of w q.
Proof. intros (_ & _ & H) Hq. unfold children_of. by rewrite H. Qed.

Lemma extends_parent_of (w w' : World) (c : addr) :
  extends w w' -> c < length (nodes w) -> parent_of w' c = parent_of w c.
Proof. intros (_ & _ & H) Hc. unfold parent_of. by rewrite H. Qed.

Lemma children_of_unallocated (w : World) (q : addr) :
  length (nodes w) <= q -> children_of w q = [].
Proof. intros Hq. unfold children_of. by rewrite lookup_ge_None_2. Qed.

Lemma parent_of_unallocated (w : World) (c : addr) :
  length (nodes w) <= c -> parent_of w c = None.
Proof. intros Hc. unfold parent_of. by rewrite lookup_ge_None_2. Qed.

Section Constructor.

Variable entropy : nat -> string * string.

Lemma build_children_links (this : addr) (l : list NodeData) :
  Forall (links entropy) l ->
  forall (w : World) (ch : addr -> list addr),
    linked_by w ch -> this < length (nodes w) ->
    (forall q, length (nodes w) <= q -> ch q = []) ->
    exists ch' : addr -> list addr,
      linked_by (snd (build_children (constructor entropy) this l w)) ch' /\
      ch' this = ch this ++ fst (build_children (constructor entropy) this l w) /\
      (forall q, q < length (nodes w) -> q <> this -> ch' q = ch q) /\
      (forall q, length (nodes w) <= q ->
         ch' q = children_of (snd (build_children (constructor entropy) this l w)) q) /\
      extends w (snd (build_children (constructor entropy) this l w)).
Proof.
  induction 1 as [|d l Hd _ IH]; intros w ch Hlk Hthis Hfresh; cbn [build_children].
  - exists ch. cbn [fst snd]. rewrite app_nil_r.
    repeat split; try apply Hlk; try done; try apply extends_refl.
    intros q Hq. by rewrite Hfresh, children_of_unallocated.
  - destruct (Hd w ch Hlk Hfresh) as (ch1 & Hlk1 & Hold1 & Hnew1 & Hpar1).
    destruct (constructor_extends entropy d w) as (Ha & Hlen & Hext).
    destruct (constructor entropy d w) as [child w1].
    cbn [fst snd] in Hlk1, Hnew1, Hpar1, Ha, Hlen, Hext. subst child.
    set (child := length (nodes w)) in *.
    set (w2 := update child (set_parent (Some this)) w1).
    set (ch2 := fun q => if decide (q = this) then ch1 this ++ [child] else ch1 q).
    assert (Hlen2 : length (nodes w2) = length (nodes w1))
      by apply length_update.
    assert (Hpa2 : forall c, parent_of w2 c
                             = if decide (child = c) then Some this else parent_of w1 c).
    { intros c. apply parent_of_set_parent. unfold child. lia. }
    assert (Hch2 : forall q, children_of w2 q = children_of w1 q).
    { intros q. by apply children_of_update. }
    assert (Hout : child ∉ ch1 this).
    { intros Hin. apply Hlk1 in Hin. congruence. }
    assert (Hlk2 : linked_by w2 ch2).
    { split.
      - intros c q. rewrite Hpa2. unfold ch2.
        destruct (decide (q = this)) as [-> | Hq], (decide (child = c)) as [<- | Hne].
        + rewrite elem_of_app, list_elem_of_singleton. split; [done | by right].
        + rewrite elem_of_app, list_elem_of_singleton, (proj1 Hlk1 c this).
          split; [intros [? | ->]; done | by left].
        + rewrite (proj1 Hlk1 child q), Hpar1.
          split; [done | intros [= ->]; done].
        + apply Hlk1.
      - intros q. unfold ch2. destruct (decide (q = this)); [| apply Hlk1].
        apply NoDup_app. split; [apply Hlk1 |]. split; [| apply NoDup_singleton].
        intros x Hx ->%list_elem_of_singleton. done. }
    assert (Hfresh2 : forall q, length (nodes w2) <= q -> ch2 q = []).
    { intros q Hq. unfold ch2. rewrite decide_False by (unfold child in *; lia).
      rewrite Hnew1 by (unfold child in *; lia).
      apply children_of_unallocated. lia. }
    destruct (IH w2 ch2 Hlk2 ltac:(lia) Hfresh2)
      as (ch3 & Hlk3 & Hthis3 & Hold3 & Hnew3 & Hext3).
    fold child. fold w2.
    destruct (build_children (constructor entropy) this l w2) as [cs w3].
    cbn [fst snd] in *.
    assert (Hext2 : extends w w2).
    { apply extends_update_new; [exact Hext | unfold child; lia]. }
    exists ch3. split; [exact Hlk3 |]. split; [| split; [| split]].
    + rewrite Hthis3. unfold ch2. rewrite decide_True by done.
      rewrite Hold1 by done. by rewrite <- app_assoc.
    + intros q Hq Hne. rewrite Hold3 by lia. unfold ch2.
      rewrite decide_False by done. by apply Hold1.
    + intros q Hq. destruct (decide (length (nodes w2) <= q)) as [Hge | Hlt].
      * by apply Hnew3.
      * rewrite Hold3 by (unfold child in *; lia). unfold ch2.
        rewrite decide_False by (unfold child in *; lia).
        rewrite Hnew1 by done. rewrite <- Hch2.
        symmetry. apply extends_children_of; [exact Hext3 | lia].
    + eapply extends_trans; eassumption.
Qed.

Lemma constructor_links (d : NodeData) : links entropy d.
Proof.
  induction d as [d IH] using NodeData_nested_ind. intros w ch Hlk Hfresh.
  destruct (constructor_extends entropy d w) as (Ha & _ & _).
  rewrite Ha. clear Ha. rewrite constructor_unfold.
  destruct (id_or_generate_nodes entropy (d_id d) w) as [Hn _].
  destruct (id_or_generate entropy (d_id d) w) as [i w1]; simpl in Hn.
  set (this := length (nodes w)).
  set (w2 := with_nodes w1 (nodes w1 ++ [initial_node i d])).
  assert (Hlen2 : length (nodes w2) = S this)
    by (unfold w2, this; simpl; rewrite length_app, Hn; simpl; lia).
  assert (Hlookup : forall b, nodes w2 !! b
                     = if decide (b = this) then Some (initial_node i d)
                       else nodes w !! b).
  { intros b. unfold w2; simpl. rewrite Hn.
    destruct (decide (b = this)) as [-> | Hne].
    - rewrite lookup_app_r by (unfold this; lia).
      by replace (this - length (nodes w)) with 0 by (unfold this; lia).
    - destruct (decide (b < this)) as [Hlt | Hge].
      + by rewrite lookup_app_l by done.
      + rewrite !lookup_ge_None_2; [done | unfold this in *; lia |].
        rewrite length_app. simpl. unfold this in *. lia. }
  assert (Hpa2 : forall c, parent_of w2 c = parent_of w c).
  { intros c. unfold parent_of. rewrite Hlookup.
    destruct (decide (c = this)) as [-> |]; [| done].
    by rewrite lookup_ge_None_2 by (unfold this; lia). }
  assert (Hch2 : forall q, children_of w2 q = children_of w q).
  { intros q. unfold children_of. rewrite Hlookup.
    destruct (decide (q = this)) as [-> |]; [| done].
    by rewrite lookup_ge_None_2 by (unfold this; lia). }
  assert (Hlk2 : linked_by w2 ch).
  { split; [| apply Hlk]. intros c q. rewrite Hpa2. apply Hlk. }
  clearbody w2. cbv zeta.
  destruct (d_children d) as [l|] eqn:El.
  - assert (Hall : Forall (links entropy) l) by (by apply IH).
    assert (Hfresh2 : forall q, length (nodes w2) <= q -> ch q = [])
      by (intros q Hq; apply Hfresh; unfold this in *; lia).
    destruct (build_children_links this l Hall w2 ch Hlk2 ltac:(lia) Hfresh2)
      as (ch3 & Hlk3 & Hthis3 & Hold3 & Hnew3 & Hext3).
    destruct (build_children (constructor entropy) this l w2) as [cs w3].
    cbn [fst snd] in *.
    assert (Hlen3 : this < length (nodes w3)) by (destruct Hext3; lia).
    exists ch3. split; [| split; [| split]].
    + split; [| apply Hlk3]. intros c q. rewrite parent_of_update by done.
      apply Hlk3.
    + intros q Hq. apply Hold3; unfold this in *; lia.
    + intros q Hq. rewrite children_of_set_children by done.
      destruct (decide (this = q)) as [<- | Hne].
      * rewrite Hthis3, Hfresh; [done | unfold this; lia].
      * destruct (decide (length (nodes w2) <= q)) as [Hge | Hlt]; [by apply Hnew3 |].
        unfold this in *. lia.
    + rewrite parent_of_update by done.
      rewrite (extends_parent_of w2 w3) by (done || lia).
      rewrite Hpa2. apply parent_of_unallocated. unfold this. lia.
  - exists ch. cbn [fst snd]. split; [exact Hlk2 |]. split; [done |]. split.
    + intros q Hq. rewrite Hch2, Hfresh by done.
      symmetry. by apply children_of_unallocated.
    + rewrite Hpa2. apply parent_of_unallocated. unfold this. lia.
Qed.

(** The constructor keeps the links of the store it allocates in, and
    the node it returns has no parent. *)
Lemma constructor_linked (d : NodeData) (w : World) :
  well_linked w ->
  well_linked (snd (constructor entropy d w)) /\
  parent_of (snd (constructor entropy d w)) (fst (constructor entropy d w)) = None.
Proof.
  intros Hw.
  destruct (constructor_links d w (children_of w) Hw (children_of_unallocated w))
    as (ch & Hlk & Hold & Hnew & Hpar).
  destruct (constructor_extends entropy d w) as (_ & _ & Hext).
  assert (Heq : forall q, ch q = children_of (snd (constructor entropy d w)) q).
  { intros q. destruct (decide (q < length (nodes w))) as [Hlt | Hge].
    - rewrite Hold by done. symmetry. by apply extends_children_of.
    - apply Hnew. lia. }
  split; [| exact Hpar]. split.
  - intros c q. rewrite <- Heq. apply Hlk.
  - intros q. rewrite <- Heq. apply Hlk.
Qed.

Lemma emptyWorld_linked : well_linked emptyWorld.
Proof.
  split.
  - intros c q. unfold children_of, parent_of. simpl.
    split; [by intros ?%elem_of_nil | discriminate].
  - intros a. apply NoDup_nil_2.
Qed.

Lemma mutate_linked (fuel : nat) (w w' : World) (m : Mutation) :
  well_linked w -> allowed w m -> mutate entropy fuel w m = Some w' ->
  well_linked w'.
Proof.
  intros Hw Hm. destruct m as [this d index | this child index | this child
                               | this | this | this newParent index];
    cbn [mutate allowed] in *.
  - intros [= <-]. unfold addChild.
    destruct (constructor_linked d w Hw) as [Hw1 Hpar].
    destruct (constructor_extends entropy d w) as (Ha & Hlen & _).
    destruct (constructor entropy d w) as [child w1]. cbn [fst snd] in *.
    apply addChild_node_linked; [done | lia | lia | done].
  - intros [= <-]. destruct Hm as (? & ? & ?). by apply addChild_node_linked.
  - intros [= <-]. by apply removeChild_linked.
  - intros [= <-]. by apply removeAllChildren_linked.
  - intros [= <-]. by apply remove_linked.
  - destruct Hm as [Hthis Hnew].
    destruct (moveTo fuel this newParent index w) as [[b w1]|] eqn:E; [| discriminate].
    simpl. intros [= <-].
    exact (moveTo_linked fuel w w1 this newParent index b Hw Hthis Hnew E).
Qed.

(** X25: invariant I2 holds all along. In the store of a node built by
    the constructor, every node that lists a child is that child's
    parent, every node with a parent is listed by it, and no children
    array lists a node twice; and this is still so after every
    sequence of [addChild], [removeChild], [removeAllChildren],
    [remove] and [moveTo] calls on nodes of the store, as long as
    [addChild] is given data or a node without a parent, and [moveTo]
    returns. *)
Theorem tree_calls_keep_links
    (fuel : nat) (d : NodeData) (ms : list Mutation) :
  allowed_all entropy fuel (snd (constructor entropy d emptyWorld)) ms ->
  exists w' : World,
    mutate_all entropy fuel (snd (constructor entropy d emptyWorld)) ms = Some w' /\
    consistent w' /\ forall a : addr, NoDup (children_of w' a).
Proof.
  destruct (constructor_linked d emptyWorld emptyWorld_linked) as [Hw _].
  revert Hw. generalize (snd (constructor entropy d emptyWorld)).
  induction ms as [|m ms IH]; intros w Hw Hall.
  - by exists w.
  - destruct Hall as [Hm Hrest]. cbn [mutate_all].
    destruct (mutate entropy fuel w m) as [w1|] eqn:E; [| done].
    cbn [mbind option_bind]. apply IH; [| exact Hrest].
    by eapply mutate_linked.
Qed.

End Constructor.

(** X24: [addChild] does not detach. When [addChild] is given a node
    that is listed among the children of another node [q], the node
    gets the new parent and a place in its children array, but it
    stays in the children array of [q]: afterwards two nodes list it,
    and invariant I2 no longer holds. *)
Theorem addChild_keeps_old_link
    (entropy : nat -> string * string) (w : World) (this child q : addr)
    (index : option Z) :
  this < length (nodes w) -> child < length (nodes w) ->
  q <> this -> child ∈ children_of w q ->
  child ∈ children_of (snd (addChild entropy this (inr child) index w)) q /\
  child ∈ children_of (snd (addChild entropy this (inr child) index w)) this /\
  parent_of (snd (addChild entropy this (inr child) index w)) child = Some this /\
  ~ consistent (snd (addChild entropy this (inr child) index w)).
Proof.
  intros Hthis Hchild Hq Hin. cbn [addChild].
  assert (H1 : child ∈ children_of (snd (addChild_node this child index w)) q).
  { rewrite addChild_node_children by done. by rewrite decide_False. }
  assert (H2 : parent_of (snd (addChild_node this child index w)) child = Some this).
  { rewrite addChild_node_parent by done. by rewrite decide_True. }
  split; [exact H1 |]. split; [| split; [exact H2 |]].
  - rewrite addChild_node_children by done. rewrite decide_True by done.
    apply elem_of_place. by left.
  - intros Hc. apply Hc in H1. congruence.
Qed.

(** In the sample tree, node 3 (below node 2) is added to node 1 and
    stays listed by node 2. *)
Lemma addChild_keeps_old_link_witness :
  1 < length (nodes sample_world) /\ 3 < length (nodes sample_world) /\
  2 <> 1 /\ 3 ∈ children_of sample_world 2 /\
  (3 ∈ children_of (snd (addChild sample_entropy 1 (inr 3) None sample_world)) 2 /\
   3 ∈ children_of (snd (addChild sample_entropy 1 (inr 3) None sample_world)) 1 /\
   parent_of (snd (addChild sample_entropy 1 (inr 3) None sample_world)) 3 = Some 1 /\
   ~ consistent (snd (addChild sample_entropy 1 (inr 3) None sample_world))).
Proof.
  assert (H1 : 1 < length (nodes sample_world)) by (vm_compute; lia).
  assert (H3 : 3 < length (nodes sample_world)) by (vm_compute; lia).
  assert (Hne : 2 <> 1) by lia.
  assert (Hin : 3 ∈ children_of sample_world 2) by (vm_compute; apply list_elem_of_here).
  split; [exact H1 |]. split; [exact H3 |]. split; [exact Hne |]. split; [exact Hin |].
  exact (addChild_keeps_old_link sample_entropy sample_world 1 3 2 None H1 H3 Hne Hin).
Defined.

Lemma tree_calls_keep_links_witness :
  allowed_all sample_entropy 4
    (snd (constructor sample_entropy TreeHelpers.sample_data emptyWorld))
    [MoveTo 3 0 None; AddChildData 1 (leaf "x") (Some 0%Z); RemoveChild 0 (inr "b");
     AddChildNode 3 2 None; Remove 1; RemoveAllChildren 3] /\
  exists w' : World,
    mutate_all sample_entropy 4
      (snd (constructor sample_entropy TreeHelpers.sample_data emptyWorld))
      [MoveTo 3 0 None; AddChildData 1 (leaf "x") (Some 0%Z); RemoveChild 0 (inr "b");
       AddChildNode 3 2 None; Remove 1; RemoveAllChildren 3] = Some w' /\
    consistent w' /\ forall a : addr, NoDup (children_of w' a).
Proof.
  assert (H : allowed_all sample_entropy 4
                (snd (constructor sample_entropy TreeHelpers.sample_data emptyWorld))
                [MoveTo 3 0 None; AddChildData 1 (leaf "x") (Some 0%Z);
                 RemoveChild 0 (inr "b"); AddChildNode 3 2 None; Remove 1;
                 RemoveAllChildren 3]).
  { vm_compute. repeat split; lia. }
  split; [exact H |].
  exact (tree_calls_keep_links sample_entropy 4 TreeHelpers.sample_data _ H).
Defined.

End NodeLinksFacts.
(** * Results: position, size and the cached rectangle *)

Module NodeGeometryFacts.
Import Helpers Viewport Geometry NodeGeometry.
Local Open Scope Q_scope.

Lemma coherent_perform (b : Box) (c : GeometryCall) :
  coherent b -> coherent (perform b c).
Proof.
  intros [Hr Hc]. destruct c as [| | x y | width height | r]; cbn [perform].
  - unfold rect. destruct (rect_cache b) as [r|] eqn:Er.
    + destruct Hr as [Hr | Hr]; [discriminate |]. injection Hr as ->.
      cbn [rx ry]. rewrite !Qeq_bool_refl. cbn [negb orb snd].
      split; [right; exact Er | exact Hc].
    + cbn [snd]. split; [by right | exact Hc].
  - unfold centerPoint. destruct (centerPoint_cache b) as [p|] eqn:Ep.
    + cbn [snd]. split; [exact Hr | right; destruct Hc; congruence].
    + cbn [snd]. split; [exact Hr | by right].
  - split; by left.
  - split; by left.
  - split; by left.
Qed.

Lemma coherent_reads (b : Box) :
  coherent b ->
  fst (rect b) = mkGRect (gx b) (gy b) (gwidth b) (gheight b) /\
  fst (centerPoint b) = mkPoint (gx b + gwidth b / 2) (gy b + gheight b / 2).
Proof.
  intros [Hr Hc]. unfold rect, centerPoint. split.
  - destruct (rect_cache b) as [r|] eqn:Er; [| done].
    destruct Hr as [Hr | Hr]; [discriminate |]. injection Hr as ->.
    cbn [rx ry]. by rewrite !Qeq_bool_refl.
  - destruct (centerPoint_cache b) as [p|] eqn:Ep; [| done].
    destruct Hc as [Hc | Hc]; [discriminate | by injection Hc as ->].
Qed.

(** X12: through the setters, the cached rectangle and centre are never
    stale. For a node as the constructor leaves it and after every
    sequence of reads of [rect] and [centerPoint] and of [setPosition],
    [setSize] and [setRect] calls, [rect] is the node's current [x],
    [y], [width] and [height], and [centerPoint] is the centre of that
    rectangle, as [getRectCenter] computes it. *)
Theorem cached_geometry_is_current
    (x y width height : Q) (calls : list GeometryCall) :
  let b := foldl perform (constructor x y width height) calls in
  fst (rect b) = mkGRect (gx b) (gy b) (gwidth b) (gheight b) /\
  fst (centerPoint b) = getRectCenter (fst (rect b)).
Proof.
  cbv zeta.
  assert (Hc : coherent (foldl perform (constructor x y width height) calls)).
  { assert (H0 : coherent (constructor x y width height)) by (split; by left).
    revert H0. generalize (constructor x y width height).
    induction calls as [|c calls IH]; intros b Hb; [exact Hb |].
    cbn [foldl]. apply IH. by apply coherent_perform. }
  destruct (coherent_reads _ Hc) as [Hr Hp]. split; [exact Hr |].
  by rewrite Hp, Hr.
Qed.

(** The setters are needed for this: the check in [rect] compares [x]
    and [y] only, so after an assignment to [width] the rectangle read
    before is given again, with the old width. *)
Example rect_is_stale_after_assignment :
  let b := assign_width 80 (snd (rect (constructor 0 0 40 20))) in
  fst (rect b) = mkGRect 0 0 40 20 /\ gwidth b = 80.
Proof. split; reflexivity. Qed.

End NodeGeometryFacts.
(** * Results: the command history *)

Module HistoryFacts.
Import History.

Section Facts.

Context {Cmd W Exn : Type}.
Variable body : Cmd -> Command Cmd W Exn.

Local Abbreviation St := (State Cmd W).

Lemma execute_guarded (fuel : nat) (c : Cmd) (s : St) :
  isExecuting s = true -> execute body fuel c s = Normal tt s.
Proof. intros H. destruct fuel; simpl; by rewrite H. Qed.

Lemma undo_guarded (fuel : nat) (s : St) :
  isExecuting s = true -> undo body fuel s = Normal false s.
Proof. intros H. destruct fuel; simpl; by rewrite H, orb_true_r. Qed.

Lemma redo_guarded (fuel : nat) (s : St) :
  isExecuting s = true -> redo body fuel s = Normal false s.
Proof. intros H. destruct fuel; simpl; by rewrite H, orb_true_r. Qed.

(** What a method body can do to the history while the guard is held:
    it ends (returning or throwing), the guard is still held, the size
    limit is the same, and unless it called [clear] so are both stacks. *)
Lemma run_guarded {A : Type} (p : Prog Cmd W Exn A) :
  forall (fuel : nat) (s : St),
    isExecuting s = true ->
    exists s', final (run body fuel p s) = Some s' /\
      isExecuting s' = true /\ maxStackSize s' = maxStackSize s /\
      (no_clear p -> undoStack s' = undoStack s /\ redoStack s' = redoStack s).
Proof.
  unfold run.
  induction p as [a | e | f k IH | k IH | c k IH | k IH | k IH | k IH | k IH | k IH];
    intros fuel s Hg; simpl.
  - eauto 6.
  - eauto 6.
  - destruct (IH fuel (set_world (f (world s)) s) Hg) as (s' & ? & ? & ? & Hc).
    exists s'. eauto.
  - destruct (IH (world s) fuel s Hg) as (s' & ? & ? & ? & Hc). exists s'. eauto 6.
  - rewrite (execute_guarded fuel c s Hg). simpl. apply IH, Hg.
  - rewrite (undo_guarded fuel s Hg). simpl.
    destruct (IH false fuel s Hg) as (s' & ? & ? & ? & Hc). exists s'. eauto 6.
  - rewrite (redo_guarded fuel s Hg). simpl.
    destruct (IH false fuel s Hg) as (s' & ? & ? & ? & Hc). exists s'. eauto 6.
  - destruct (IH fuel (clear s) Hg) as (s' & ? & ? & ? & Hc).
    exists s'. repeat split; try done.
  - destruct (IH (canUndo s) fuel s Hg) as (s' & ? & ? & ? & Hc). exists s'. eauto 6.
  - destruct (IH (canRedo s) fuel s Hg) as (s' & ? & ? & ? & Hc). exists s'. eauto 6.
Qed.

Lemma run_guarded_cases {A : Type} (p : Prog Cmd W Exn A) (fuel : nat) (s : St) :
  isExecuting s = true ->
  (exists a s',
     run_prog (execute body fuel) (undo body fuel) (redo body fuel) p s
       = Normal a s' /\ isExecuting s' = true) \/
  (exists e s',
     run_prog (execute body fuel) (undo body fuel) (redo body fuel) p s
       = Thrown e s' /\ isExecuting s' = true).
Proof.
  intros Hg. destruct (run_guarded p fuel s Hg) as (s' & Hf & Hg' & _).
  unfold run in Hf.
  destruct (run_prog _ _ _ p s) as [a s1 | e s1 |]; simpl in Hf; [| | discriminate];
    injection Hf as ->; [left | right]; eauto.
Qed.

(** Once the guard is held, each of the three bodies ends, and ends
    with the guard still held. *)
Lemma execute_body_ends (fuel : nat) (c : Cmd) (s : St) :
  isExecuting s = true ->
  exists s', final (execute_body body (execute body fuel) (undo body fuel)
                      (redo body fuel) c s) = Some s' /\ isExecuting s' = true.
Proof.
  intros Hg. unfold execute_body.
  destruct (run_guarded_cases (cmd_execute (body c)) fuel s Hg)
    as [(a & s1 & -> & Hg1) | (e & s1 & -> & Hg1)]; simpl; [| eauto].
  destruct (last (undoStack s1)) as [top|]; [| eauto].
  destruct (run_guarded_cases (canMerge (body top) c) fuel s1 Hg1)
    as [(b & s2 & -> & Hg2) | (e & s2 & -> & Hg2)]; simpl; [| eauto].
  destruct b; [| eauto].
  destruct (run_guarded_cases (merge (body top) c) fuel s2 Hg2)
    as [(u & s3 & -> & Hg3) | (e & s3 & -> & Hg3)]; simpl; eauto.
Qed.

Lemma undo_body_ends (fuel : nat) (s : St) :
  isExecuting s = true ->
  exists s', final (undo_body body (execute body fuel) (undo body fuel)
                      (redo body fuel) s) = Some s' /\ isExecuting s' = true.
Proof.
  intros Hg. unfold undo_body.
  destruct (last (undoStack s)) as [c|]; [| eauto].
  destruct (run_guarded_cases (cmd_undo (body c)) fuel
              (set_undoStack (removelast (undoStack s)) s) Hg)
    as [(a & s1 & -> & Hg1) | (e & s1 & -> & Hg1)]; simpl; eauto.
Qed.

Lemma redo_body_ends (fuel : nat) (s : St) :
  isExecuting s = true ->
  exists s', final (redo_body body (execute body fuel) (undo body fuel)
                      (redo body fuel) s) = Some s' /\ isExecuting s' = true.
Proof.
  intros Hg. unfold redo_body.
  destruct (last (redoStack s)) as [c|]; [| eauto].
  destruct (run_guarded_cases (cmd_redo (body c)) fuel
              (set_redoStack (removelast (redoStack s)) s) Hg)
    as [(a & s1 & -> & Hg1) | (e & s1 & -> & Hg1)]; simpl; eauto.
Qed.

Lemma finally_release_final {A : Type} (o : Outcome Cmd W Exn A) (s' : St) :
  final o = Some s' ->
  final (finally_release o) = Some (set_isExecuting false s').
Proof. destruct o; simpl; intros H; by inversion H. Qed.

(** C8: while the re-entrancy guard is set, a nested [execute(C)] does
    nothing ([C.execute()] is not run and the state, both stacks
    included, is as before), and nested [undo()] and [redo()] return
    false without popping. Called with the guard clear, each of the
    three ends, by returning or by throwing, in a state where the guard
    is clear again. *)
Theorem reentrancy_guard (fuel : nat) (c : Cmd) (s : St) :
  let held := set_isExecuting true s in
  let free := set_isExecuting false s in
  execute body fuel c held = Normal tt held /\
  undo body fuel held = Normal false held /\
  redo body fuel held = Normal false held /\
  (exists s', final (execute body (S fuel) c free) = Some s' /\ isExecuting s' = false) /\
  (exists s', final (undo body (S fuel) free) = Some s' /\ isExecuting s' = false) /\
  (exists s', final (redo body (S fuel) free) = Some s' /\ isExecuting s' = false).
Proof.
  intros held free.
  split; [by apply execute_guarded |].
  split; [by apply undo_guarded |].
  split; [by apply redo_guarded |].
  split; [| split].
  - simpl.
    destruct (execute_body_ends fuel c (set_isExecuting true free) eq_refl)
      as (s' & Hf & _).
    eexists. split; [apply finally_release_final, Hf | reflexivity].
  - simpl. destruct (length (undoStack s) =? 0)%nat; simpl; [eauto |].
    destruct (undo_body_ends fuel (set_isExecuting true free) eq_refl)
      as (s' & Hf & _).
    eexists. split; [apply finally_release_final, Hf | reflexivity].
  - simpl. destruct (length (redoStack s) =? 0)%nat; simpl; [eauto |].
    destruct (redo_body_ends fuel (set_isExecuting true free) eq_refl)
      as (s' & Hf & _).
    eexists. split; [apply finally_release_final, Hf | reflexivity].
Qed.

(** The size limit after a push, spelled out: the oldest entry leaves
    when the push made the stack longer than the limit. *)
Lemma limited_push (m : Z) (l : list Cmd) (c : Cmd) :
  limited m (l ++ [c])
  = if (m <? Z.of_nat (length l) + 1)%Z then drop 1 (l ++ [c]) else l ++ [c].
Proof.
  unfold limited. rewrite length_app. simpl length.
  replace (Z.of_nat (length l + 1)) with (Z.of_nat (length l) + 1)%Z by lia.
  destruct (m <? Z.of_nat (length l) + 1)%Z; [| reflexivity].
  by destruct (l ++ [c]).
Qed.

(** C3 (amended): for a history that is not executing and a command C
    whose [execute()] returns, [execute(C)] runs [C.execute()] and then
    looks at the undo stack as that call left it, which is the stack
    [execute] was called with unless the body called [clear]. When that
    stack is non-empty and its top's [canMerge(C)] returns true, it
    runs the top's [merge(C)] and pushes nothing: the undo stack is the
    one [merge] left, unchanged unless a body called [clear]. When the
    stack is empty or [canMerge(C)] returns false, it pushes C, and the
    oldest entry is dropped exactly when the push made the stack longer
    than [maxStackSize]. In both cases [execute(C)] returns with the
    redo stack empty and the guard clear. *)
Theorem execute_merges_or_pushes (fuel : nat) (C : Cmd) (s s1 : St) :
  isExecuting s = false ->
  run body fuel (cmd_execute (body C)) (set_isExecuting true s) = Normal tt s1 ->
  (no_clear (cmd_execute (body C)) -> undoStack s1 = undoStack s) /\
  match last (undoStack s1) with
  | Some top =>
      forall (mergeable : bool) (s2 : St),
        run body fuel (canMerge (body top) C) s1 = Normal mergeable s2 ->
        (no_clear (canMerge (body top) C) -> undoStack s2 = undoStack s1) /\
        if mergeable then
          forall s3 : St,
            run body fuel (merge (body top) C) s2 = Normal tt s3 ->
            (no_clear (merge (body top) C) -> undoStack s3 = undoStack s2) /\
            execute body (S fuel) C s =
              Normal tt (mkState (undoStack s3) [] (maxStackSize s) false (world s3))
        else
          execute body (S fuel) C s =
            Normal tt (mkState
                         (if (maxStackSize s <? Z.of_nat (length (undoStack s2)) + 1)%Z
                          then drop 1 (undoStack s2 ++ [C])
                          else undoStack s2 ++ [C])
                         [] (maxStackSize s) false (world s2))
  | None =>
      execute body (S fuel) C s =
        Normal tt (mkState (if (maxStackSize s <? 1)%Z then [] else [C]) []
                           (maxStackSize s) false (world s1))
  end.
Proof.
  intros Hfree Hexec. simpl. rewrite Hfree.
  destruct (run_guarded (cmd_execute (body C)) fuel (set_isExecuting true s) eq_refl)
    as (s1' & Hf1 & Hg1 & Hm1 & Hc1).
  unfold execute_body. unfold run in *. rewrite Hexec. simpl.
  rewrite Hexec in Hf1. injection Hf1 as <-. simpl in Hm1, Hc1.
  split; [intros Hnc; by apply Hc1 |].
  destruct (last (undoStack s1)) as [top|] eqn:Etop.
  - intros mergeable s2 Hcan.
    destruct (run_guarded (canMerge (body top) C) fuel s1 Hg1)
      as (s2' & Hf2 & Hg2 & Hm2 & Hc2).
    unfold run in *. rewrite Hcan. simpl.
    rewrite Hcan in Hf2. injection Hf2 as <-.
    split; [intros Hnc; by apply Hc2 |].
    destruct mergeable.
    + intros s3 Hmerge.
      destruct (run_guarded (merge (body top) C) fuel s2 Hg2)
        as (s3' & Hf3 & Hg3 & Hm3 & Hc3).
      unfold run in *. rewrite Hmerge. simpl.
      rewrite Hmerge in Hf3. injection Hf3 as <-.
      split; [intros Hnc; by apply Hc3 |].
      unfold set_isExecuting, set_redoStack; simpl. by rewrite Hm3, Hm2, Hm1.
    + unfold set_isExecuting, set_redoStack, push_limited, set_undoStack; simpl.
      by rewrite limited_push, Hm2, Hm1.
  - apply last_None in Etop.
    unfold set_isExecuting, set_redoStack, push_limited, set_undoStack; simpl.
    rewrite Etop, Hm1. change ([] ++ [C]) with ([C]).
    unfold limited. simpl length.
    change (Z.of_nat 1) with 1%Z. by destruct (maxStackSize s <? 1)%Z.
Qed.

(** When the bodies involved never call [clear], the stacks seen by
    [execute] after [C.execute()] are the stacks it was called with. *)
Lemma guarded_body_keeps_stacks {A : Type} (p : Prog Cmd W Exn A)
    (fuel : nat) (s s' : St) (a : A) :
  isExecuting s = true -> no_clear p ->
  run body fuel p s = Normal a s' ->
  undoStack s' = undoStack s /\ redoStack s' = redoStack s.
Proof.
  intros Hg Hnc Hrun.
  destruct (run_guarded p fuel s Hg) as (s1 & Hf & _ & _ & Hc).
  rewrite Hrun in Hf. injection Hf as <-. by apply Hc.
Qed.

End Facts.

(** C3, as stated, does not hold of every command. A command whose
    [execute()] calls the history's [clear()], which no guard stops,
    empties the undo stack before [execute] looks at its top: on the
    stack [0; 0], whose top would merge, command 1 is pushed on the
    emptied stack and no [merge] runs. A command whose [execute()]
    throws, or one that the top's [merge] rejects by throwing, makes
    [execute] throw: nothing is merged or pushed and the redo stack
    keeps its entries. *)
Lemma execute_clear_counterexample :
  (last (undoStack (mkState [0; 0] [2] 100%Z false 3%Z : State nat Z)) = Some 0 /\
   (forall s : State nat Z,
      run awkward_body 0 (canMerge (awkward_body 0) 1) s = Normal true s) /\
   execute awkward_body 1 1 (mkState [0; 0] [2] 100%Z false 3%Z)
     = Normal tt (mkState [1] [] 100%Z false 3%Z)) /\
  execute sample_body 1 2 sample_state
    = Thrown "boom" (mkState [0; 1] [0] 100%Z false 5%Z) /\
  execute awkward_body 1 2 (mkState [0; 0] [2] 100%Z false 3%Z)
    = Thrown "no merge" (mkState [0; 0] [2] 100%Z false 8%Z).
Proof. repeat split. Qed.

(** On the sample commands: with two entries under a limit of two,
    command 0 does not merge, is pushed and the oldest entry leaves;
    command 1 merges into the command 1 on top and nothing is pushed. *)
Lemma execute_merges_or_pushes_witness :
  (isExecuting (mkState [1; 0] [1] 2%Z false 7%Z : State nat Z) = false /\
   run sample_body 0 (cmd_execute (sample_body 0))
       (set_isExecuting true (mkState [1; 0] [1] 2%Z false 7%Z))
     = Normal tt (mkState [1; 0] [1] 2%Z true 8%Z) /\
   execute sample_body 1 0 (mkState [1; 0] [1] 2%Z false 7%Z)
     = Normal tt (mkState [0; 0] [] 2%Z false 8%Z)) /\
  (isExecuting sample_state = false /\
   run sample_body 0 (cmd_execute (sample_body 1)) (set_isExecuting true sample_state)
     = Normal tt (mkState [0; 1] [0] 100%Z true 10%Z) /\
   execute sample_body 1 1 sample_state = Normal tt (mkState [0; 1] [] 100%Z false 20%Z)).
Proof.
  split.
  - split; [reflexivity |]. split; [reflexivity |].
    exact (proj2 (proj2 (execute_merges_or_pushes sample_body 0 0
             (mkState [1; 0] [1] 2%Z false 7%Z)
             (mkState [1; 0] [1] 2%Z true 8%Z) eq_refl eq_refl)
             false (mkState [1; 0] [1] 2%Z true 8%Z) eq_refl)).
  - split; [reflexivity |]. split; [reflexivity |].
    exact (proj2 (proj2 (proj2 (execute_merges_or_pushes sample_body 0 1 sample_state
             (mkState [0; 1] [0] 100%Z true 10%Z) eq_refl eq_refl)
             true (mkState [0; 1] [0] 100%Z true 10%Z) eq_refl)
             (mkState [0; 1] [0] 100%Z true 20%Z) eq_refl)).
Defined.

(** A command that is not mergeable is pushed, and the oldest entry
    leaves when the limit is exceeded. *)
Example execute_pushes_and_evicts :
  execute sample_body 1 0 (mkState [1; 0] [1] 2%Z false 7%Z)
    = Normal tt (mkState [0; 0] [] 2%Z false 8%Z).
Proof. reflexivity. Qed.

(** A command that throws leaves the stacks as they were, keeps its
    partial effect on the world, and releases the guard. *)
Example execute_throwing_command :
  execute sample_body 1 2 sample_state
    = Thrown "boom" (mkState [0; 1] [0] 100%Z false 5%Z).
Proof. reflexivity. Qed.

(** The history scenario of the specification, on the sample commands:
    after executing, [undo] then [redo] gives back the state after the
    execute, with something to undo and nothing to redo. *)
Example execute_undo_redo :
  let s0 := constructor None 0%Z in
  exists s1 s2 s3,
    execute sample_body 1 0 s0 = Normal tt s1 /\
    undo sample_body 1 s1 = Normal true s2 /\ world s2 = 0%Z /\
    redo sample_body 1 s2 = Normal true s3 /\ s3 = s1 /\
    canUndo s3 = true /\ canRedo s3 = false.
Proof. simpl. repeat eexists. Qed.

End HistoryFacts.
(** * Further results: the command history *)

Module HistoryMoreFacts.
Import History HistoryCalls HistoryFacts.

Section Facts.

Context {Cmd W Exn : Type}.
Variable body : Cmd -> Command Cmd W Exn.

Local Abbreviation St := (State Cmd W).

(** While the guard is held a method body can only leave the two stacks
    as they are or, through [clear], empty them both. *)
Lemma run_guarded_stacks {A : Type} (p : Prog Cmd W Exn A) :
  forall (fuel : nat) (s : St),
    isExecuting s = true ->
    exists s', final (run body fuel p s) = Some s' /\
      isExecuting s' = true /\ maxStackSize s' = maxStackSize s /\
      ((undoStack s' = undoStack s /\ redoStack s' = redoStack s) \/
       (undoStack s' = [] /\ redoStack s' = [])).
Proof.
  unfold run.
  induction p as [a | e | f k IH | k IH | c k IH | k IH | k IH | k IH | k IH | k IH];
    intros fuel s Hg; simpl.
  - eauto 8.
  - eauto 8.
  - destruct (IH fuel (set_world (f (world s)) s) Hg) as (s' & ? & ? & ? & Hc).
    exists s'. eauto.
  - destruct (IH (world s) fuel s Hg) as (s' & ? & ? & ? & Hc). exists s'. eauto.
  - rewrite (execute_guarded body fuel c s Hg). simpl. apply IH, Hg.
  - rewrite (undo_guarded body fuel s Hg). simpl. apply IH, Hg.
  - rewrite (redo_guarded body fuel s Hg). simpl. apply IH, Hg.
  - destruct (IH fuel (clear s) Hg) as (s' & ? & ? & ? & Hc).
    exists s'. repeat split; try done. right.
    destruct Hc as [[-> ->] | [-> ->]]; done.
  - apply IH, Hg.
  - apply IH, Hg.
Qed.

Lemma held_bound_cases (s s' : St) (n : nat) :
  (undoStack s' = undoStack s /\ redoStack s' = redoStack s) \/
  (undoStack s' = [] /\ redoStack s' = []) ->
  held s <= n -> held s' <= n.
Proof. unfold held. intros [[-> ->] | [-> ->]] H; simpl; lia. Qed.

Lemma limited_length (m : Z) (l : list Cmd) (c : Cmd) :
  (Z.of_nat (length l) <= m)%Z ->
  (Z.of_nat (length (limited m (l ++ [c]))) <= m)%Z.
Proof.
  intros H. unfold limited. rewrite length_app. simpl.
  destruct (m <? Z.of_nat (length l + 1))%Z eqn:E.
  - destruct l; simpl in *; [lia |]. rewrite length_app. simpl. lia.
  - apply Z.ltb_ge in E. rewrite length_app. simpl. lia.
Qed.

Lemma final_finally {A : Type} (o : Outcome Cmd W Exn A) (s' : St) :
  final (finally_release o) = Some s' ->
  exists s1, final o = Some s1 /\ s' = set_isExecuting false s1.
Proof. destruct o; simpl; intros [= <-]; eauto. Qed.

Lemma within_capacity_release (s : St) :
  within_capacity s -> within_capacity (set_isExecuting false s).
Proof. exact id. Qed.

Lemma run_cases {A : Type} (p : Prog Cmd W Exn A) (fuel : nat) (s : St) :
  isExecuting s = true ->
  (exists a s',
     run_prog (execute body fuel) (undo body fuel) (redo body fuel) p s
       = Normal a s' /\ kept s s') \/
  (exists e s',
     run_prog (execute body fuel) (undo body fuel) (redo body fuel) p s
       = Thrown e s' /\ kept s s').
Proof.
  intros Hg. destruct (run_guarded_stacks p fuel s Hg) as (s' & Hf & Hk).
  unfold run in Hf.
  destruct (run_prog _ _ _ p s) as [a s1 | e s1 |]; simpl in Hf; [| | discriminate];
    injection Hf as ->; [left | right]; eauto.
Qed.

Lemma kept_capacity (s s' : St) :
  kept s s' -> within_capacity s -> within_capacity s'.
Proof.
  intros (_ & Hm & Hc). unfold within_capacity, held. rewrite Hm.
  destruct Hc as [[-> ->] | [-> ->]]; simpl; lia.
Qed.

Lemma execute_body_capacity (fuel : nat) (c : Cmd) (s : St) :
  isExecuting s = true -> within_capacity s ->
  exists s', final (execute_body body (execute body fuel) (undo body fuel)
                      (redo body fuel) c s) = Some s' /\
    within_capacity s' /\ maxStackSize s' = maxStackSize s.
Proof.
  intros Hg Hcap. unfold execute_body.
  assert (Hpush : forall s2 : St, within_capacity s2 ->
            within_capacity (set_redoStack [] (push_limited c s2))).
  { intros s2 H2. unfold within_capacity, held, push_limited in *. simpl.
    pose proof (limited_length (maxStackSize s2) (undoStack s2) c) as Hl.
    rewrite Nat.add_0_r. apply Hl. lia. }
  assert (Hclr : forall s3 : St, within_capacity s3 -> within_capacity (set_redoStack [] s3)).
  { intros s3 H3. unfold within_capacity, held in *. simpl in *. lia. }
  destruct (run_cases (cmd_execute (body c)) fuel s Hg)
    as [(a & s1 & -> & K1) | (e & s1 & -> & K1)]; simpl.
  2: { exists s1. split; [reflexivity |]. split; [by eapply kept_capacity | apply K1]. }
  pose proof (kept_capacity _ _ K1 Hcap) as C1. destruct K1 as (G1 & M1 & _).
  destruct (last (undoStack s1)) as [top|].
  2: { eexists. split; [reflexivity |]. split; [by apply Hpush | exact M1]. }
  destruct (run_cases (canMerge (body top) c) fuel s1 G1)
    as [(b & s2 & -> & K2) | (e & s2 & -> & K2)]; simpl.
  2: { exists s2. split; [reflexivity |].
       split; [by eapply kept_capacity | destruct K2 as (_ & -> & _); exact M1]. }
  pose proof (kept_capacity _ _ K2 C1) as C2. destruct K2 as (G2 & M2 & _).
  destruct b.
  2: { eexists. split; [reflexivity |]. split; [by apply Hpush | simpl; congruence]. }
  destruct (run_cases (merge (body top) c) fuel s2 G2)
    as [(u & s3 & -> & K3) | (e & s3 & -> & K3)]; simpl.
  - pose proof (kept_capacity _ _ K3 C2) as C3. destruct K3 as (G3 & M3 & _).
    eexists. split; [reflexivity |]. split; [by apply Hclr | simpl; congruence].
  - pose proof (kept_capacity _ _ K3 C2) as C3. destruct K3 as (G3 & M3 & _).
    exists s3. split; [reflexivity |]. split; [exact C3 | congruence].
Qed.

Lemma removelast_length (l : list Cmd) :
  l <> [] -> S (length (removelast l)) = length l.
Proof.
  intros H. destruct (exists_last H) as (l' & c & ->).
  rewrite removelast_last, length_app. simpl. lia.
Qed.

Lemma undo_body_capacity (fuel : nat) (s : St) :
  isExecuting s = true -> within_capacity s ->
  exists s', final (undo_body body (execute body fuel) (undo body fuel)
                      (redo body fuel) s) = Some s' /\
    within_capacity s' /\ maxStackSize s' = maxStackSize s.
Proof.
  intros Hg Hcap. unfold undo_body.
  destruct (last (undoStack s)) as [c|] eqn:El; [| eauto].
  assert (Hne : undoStack s <> []) by (intros E; rewrite E in El; discriminate).
  pose proof (removelast_length _ Hne) as Hlen.
  destruct (run_cases (cmd_undo (body c)) fuel
              (set_undoStack (removelast (undoStack s)) s) Hg)
    as [(a & s1 & -> & K1) | (e & s1 & -> & K1)]; simpl;
    destruct K1 as (G1 & M1 & Hc); simpl in M1, Hc.
  - eexists. split; [reflexivity |]. split; [| exact M1].
    unfold within_capacity, held in *. simpl. rewrite M1, length_app. simpl.
    destruct Hc as [[-> ->] | [-> ->]]; simpl; lia.
  - exists s1. split; [reflexivity |]. split; [| exact M1].
    unfold within_capacity, held in *. rewrite M1.
    destruct Hc as [[-> ->] | [-> ->]]; simpl; lia.
Qed.

Lemma redo_body_capacity (fuel : nat) (s : St) :
  isExecuting s = true -> within_capacity s ->
  exists s', final (redo_body body (execute body fuel) (undo body fuel)
                      (redo body fuel) s) = Some s' /\
    within_capacity s' /\ maxStackSize s' = maxStackSize s.
Proof.
  intros Hg Hcap. unfold redo_body.
  destruct (last (redoStack s)) as [c|] eqn:El; [| eauto].
  assert (Hne : redoStack s <> []) by (intros E; rewrite E in El; discriminate).
  pose proof (removelast_length _ Hne) as Hlen.
  destruct (run_cases (cmd_redo (body c)) fuel
              (set_redoStack (removelast (redoStack s)) s) Hg)
    as [(a & s1 & -> & K1) | (e & s1 & -> & K1)]; simpl;
    destruct K1 as (G1 & M1 & Hc); simpl in M1, Hc.
  - eexists. split; [reflexivity |]. split; [| exact M1].
    unfold within_capacity, held in *. simpl. rewrite M1, length_app. simpl.
    destruct Hc as [[-> ->] | [-> ->]]; simpl; lia.
  - exists s1. split; [reflexivity |]. split; [| exact M1].
    unfold within_capacity, held in *. rewrite M1.
    destruct Hc as [[-> ->] | [-> ->]]; simpl; lia.
Qed.

Lemma release_final {A : Type} (o : Outcome Cmd W Exn A) (s1 : St) :
  final o = Some s1 -> final (finally_release o) = Some (set_isExecuting false s1).
Proof. destruct o; simpl; intros [= <-]; reflexivity. Qed.

Lemma perform_capacity (fuel : nat) (s : St) (call : Call) :
  within_capacity s ->
  exists s', perform body (S fuel) s call = Some s' /\
    within_capacity s' /\ maxStackSize s' = maxStackSize s.
Proof.
  intros Hcap. destruct call as [c | | |]; simpl.
  - destruct (isExecuting s) eqn:Hg; [simpl; eauto |].
    destruct (execute_body_capacity fuel c (set_isExecuting true s) eq_refl Hcap)
      as (s1 & Hf & C1 & M1).
    eexists. split; [apply release_final, Hf |]. split; [exact C1 | exact M1].
  - destruct (length (undoStack s) =? 0)%nat; simpl; [eauto |].
    destruct (isExecuting s) eqn:Hg; [simpl; eauto |].
    destruct (undo_body_capacity fuel (set_isExecuting true s) eq_refl Hcap)
      as (s1 & Hf & C1 & M1).
    eexists. split; [apply release_final, Hf |]. split; [exact C1 | exact M1].
  - destruct (length (redoStack s) =? 0)%nat; simpl; [eauto |].
    destruct (isExecuting s) eqn:Hg; [simpl; eauto |].
    destruct (redo_body_capacity fuel (set_isExecuting true s) eq_refl Hcap)
      as (s1 & Hf & C1 & M1).
    eexists. split; [apply release_final, Hf |]. split; [exact C1 | exact M1].
  - eexists. split; [reflexivity |]. split; [| reflexivity].
    unfold within_capacity, held, clear in *. simpl.
    assert (0 <= Z.of_nat (held s))%Z by lia. unfold held in *. lia.
Qed.

(** X13: a history created with a non-negative size limit never holds
    more commands than the limit, on both stacks together: whatever
    calls to [execute], [undo], [redo] and [clear] are made, whatever
    the commands do (return, throw, call back into the history), every
    call ends and the two stacks together hold at most [maxStackSize]
    commands, which is also a bound on the length of [getHistory()]. *)
Theorem history_stays_within_capacity
    (fuel : nat) (maxSize : Z) (w : W) (calls : list (@Call Cmd)) :
  (0 <= maxSize)%Z ->
  exists s' : St,
    perform_all body (S fuel) (constructor (Some maxSize) w) calls = Some s' /\
    (Z.of_nat (length (undoStack s') + length (redoStack s')) <= maxSize)%Z /\
    (Z.of_nat (length (getHistory body s')) <= maxSize)%Z.
Proof.
  intros Hm.
  assert (Hgen : forall (calls : list (@Call Cmd)) (s : St),
            within_capacity s ->
            exists s', perform_all body (S fuel) s calls = Some s' /\
              within_capacity s' /\ maxStackSize s' = maxStackSize s).
  { clear. intros calls. induction calls as [|call calls IH]; intros s Hcap.
    - exists s. by repeat split.
    - destruct (perform_capacity fuel s call Hcap) as (s1 & Hp & C1 & M1).
      destruct (IH s1 C1) as (s2 & Hp2 & C2 & M2).
      exists s2. cbn [perform_all]. rewrite Hp. simpl.
      split; [exact Hp2 |]. split; [exact C2 | congruence]. }
  destruct (Hgen calls (constructor (Some maxSize) w)) as (s' & Hp & C & M).
  - unfold within_capacity, held. simpl. lia.
  - exists s'. split; [exact Hp |]. unfold within_capacity, held in C.
    rewrite M in C. split; [exact C |].
    unfold getHistory. by rewrite length_app, !length_map.
Qed.

Lemma removelast_snoc (l : list Cmd) (c : Cmd) : removelast (l ++ [c]) = l.
Proof. apply removelast_last. Qed.

Lemma last_snoc_cmd (l : list Cmd) (c : Cmd) : last (l ++ [c]) = Some c.
Proof. apply last_snoc. Qed.

Lemma length_snoc_nonzero (l : list Cmd) (c : Cmd) :
  (length (l ++ [c]) =? 0)%nat = false.
Proof. rewrite length_app. simpl. apply Nat.eqb_neq. lia. Qed.

(** What [undo] does to a state whose undo stack ends in [c], in terms
    of how [c.undo()] ends. *)
Lemma undo_unfold (fuel : nat) (s : St) (l : list Cmd) (c : Cmd) :
  isExecuting s = false -> undoStack s = l ++ [c] ->
  undo body (S fuel) s =
    finally_release
      (bind (run body fuel (cmd_undo (body c))
               (set_undoStack l (set_isExecuting true s)))
         (fun _ s1 => Normal true (set_redoStack (redoStack s1 ++ [c]) s1))).
Proof.
  intros Hg Hu. cbn [undo]. rewrite Hg, Hu, length_snoc_nonzero. cbn [orb].
  unfold undo_body. cbn [undoStack set_isExecuting]. rewrite Hu, last_snoc_cmd.
  rewrite removelast_snoc. reflexivity.
Qed.

Lemma redo_unfold (fuel : nat) (s : St) (l : list Cmd) (c : Cmd) :
  isExecuting s = false -> redoStack s = l ++ [c] ->
  redo body (S fuel) s =
    finally_release
      (bind (run body fuel (cmd_redo (body c))
               (set_redoStack l (set_isExecuting true s)))
         (fun _ s1 => Normal true (set_undoStack (undoStack s1 ++ [c]) s1))).
Proof.
  intros Hg Hr. cbn [redo]. rewrite Hg, Hr, length_snoc_nonzero. cbn [orb].
  unfold redo_body. cbn [redoStack set_isExecuting]. rewrite Hr, last_snoc_cmd.
  rewrite removelast_snoc. reflexivity.
Qed.




(** X15: [canUndo] and [canRedo] tell what [undo] and [redo] will do.
    When [canUndo()] is false, [undo()] returns false and changes
    nothing; when it is true, [undo()] never returns false: it returns
    true or it throws. The same holds of [canRedo()] and [redo()]. *)
Theorem canUndo_canRedo_predict (fuel : nat) (s : St) :
  (canUndo s = false -> undo body fuel s = Normal false s) /\
  (canUndo s = true ->
     (exists s', undo body (S fuel) s = Normal true s') \/
     (exists e s', undo body (S fuel) s = Thrown e s')) /\
  (canRedo s = false -> redo body fuel s = Normal false s) /\
  (canRedo s = true ->
     (exists s', redo body (S fuel) s = Normal true s') \/
     (exists e s', redo body (S fuel) s = Thrown e s')).
Proof.
  unfold canUndo, canRedo. repeat split.
  - intros H. destruct fuel; cbn [undo];
      destruct (length (undoStack s) =? 0)%nat, (isExecuting s); done.
  - intros [Hl Hg]%andb_true_iff. apply negb_true_iff in Hl, Hg.
    destruct (undoStack s) as [|c0 l0] eqn:Hu using rev_ind; [done |]. clear IHl0.
    rewrite (undo_unfold fuel s l0 c0 Hg Hu).
    destruct (run_guarded_cases body (cmd_undo (body c0)) fuel
                (set_undoStack l0 (set_isExecuting true s)) eq_refl)
      as [(a & s' & Hr & _) | (e & s' & Hr & _)]; unfold run; rewrite Hr; simpl; eauto.
  - intros H. destruct fuel; cbn [redo];
      destruct (length (redoStack s) =? 0)%nat, (isExecuting s); done.
  - intros [Hl Hg]%andb_true_iff. apply negb_true_iff in Hl, Hg.
    destruct (redoStack s) as [|c0 l0] eqn:Hu using rev_ind; [done |]. clear IHl0.
    rewrite (redo_unfold fuel s l0 c0 Hg Hu).
    destruct (run_guarded_cases body (cmd_redo (body c0)) fuel
                (set_redoStack l0 (set_isExecuting true s)) eq_refl)
      as [(a & s' & Hr & _) | (e & s' & Hr & _)]; unfold run; rewrite Hr; simpl; eauto.
Qed.

End Facts.

Lemma history_stays_within_capacity_witness :
  (0 <= 2)%Z /\
  exists s' : State nat Z,
    perform_all sample_body 1 (constructor (Some 2%Z) 0%Z)
      [CExecute 0; CExecute 1; CExecute 2; CExecute 0; CUndo; CExecute 1; CRedo; CUndo]
    = Some s' /\
    (Z.of_nat (length (undoStack s') + length (redoStack s')) <= 2)%Z /\
    (Z.of_nat (length (getHistory sample_body s')) <= 2)%Z.
Proof.
  assert (H : (0 <= 2)%Z) by lia.
  split; [exact H |].
  exact (history_stays_within_capacity sample_body 0 2%Z 0%Z
           [CExecute 0; CExecute 1; CExecute 2; CExecute 0; CUndo; CExecute 1;
            CRedo; CUndo] H).
Defined.


(** Both ways for [undo] to end do occur. *)
Example undo_returns_then_redo_restores :
  undo sample_body 1 (mkState [1; 0] [1] 100%Z false 1%Z)
    = Normal true (mkState [1] [1; 0] 100%Z false 0%Z) /\
  redo sample_body 1 (mkState [1] [1; 0] 100%Z false 0%Z)
    = Normal true (mkState [1; 0] [1] 100%Z false 1%Z).
Proof. split; reflexivity. Qed.

Example undo_throws_and_drops :
  undo faulty_body 1 (mkState [3; 4] [5] 100%Z false 7%Z)
    = Thrown "undo failed" (mkState [3] [5] 100%Z false 6%Z).
Proof. reflexivity. Qed.

End HistoryMoreFacts.
(** * Results: the event bus *)

Module EventBusFacts.
Import EventBus.

Section Facts.

Context {E D W Exn F : Type} {E_eq : EqDecision E} {F_eq : EqDecision F}.
Variable body : F -> D -> Prog E D W Exn F unit.

Local Abbreviation B := (Bus E W Exn F).
Local Abbreviation Hdl := (Handler E F).

(** ** The map *)

Lemma get_None (event : E) (m : list (E * nat)) :
  get event m = None <-> event ∉ map fst m.
Proof.
  induction m as [|[e a] m IH]; simpl.
  - split; [intros _; apply not_elem_of_nil | done].
  - destruct (decide (e = event)) as [-> | Hne].
    + split; [done | intros Hout; destruct Hout; apply list_elem_of_here].
    + rewrite IH, not_elem_of_cons. split; [by split | by intros [_ ?]].
Qed.

Lemma get_Some_elem (event : E) (m : list (E * nat)) (a : nat) :
  get event m = Some a -> (event, a) ∈ m.
Proof.
  induction m as [|[e a'] m IH]; simpl; [done |].
  destruct (decide (e = event)) as [-> | Hne].
  - intros [= ->]. apply list_elem_of_here.
  - intros Hg. apply list_elem_of_further. by apply IH.
Qed.

Lemma elem_get (event : E) (m : list (E * nat)) (a : nat) :
  NoDup (map fst m) -> (event, a) ∈ m -> get event m = Some a.
Proof.
  induction m as [|[e a'] m IH]; simpl; intros Hnd Hin; [by apply elem_of_nil in Hin |].
  apply NoDup_cons in Hnd as [Hout Hnd].
  apply elem_of_cons in Hin as [[= -> ->] | Hin].
  - by rewrite decide_True.
  - rewrite decide_False; [by apply IH |].
    intros ->. apply Hout. apply list_elem_of_fmap. by exists (event, a).
Qed.

Lemma get_app_new (event : E) (m : list (E * nat)) (a : nat) :
  get event m = None -> get event (m ++ [(event, a)]) = Some a.
Proof.
  induction m as [|[e a'] m IH]; simpl; intros Hg.
  - by rewrite decide_True.
  - destruct (decide (e = event)); [done | by apply IH].
Qed.

Lemma elem_of_map_delete (event e : E) (a : nat) (m : list (E * nat)) :
  (e, a) ∈ map_delete event m <-> (e, a) ∈ m /\ e <> event.
Proof. unfold map_delete. rewrite list_elem_of_filter. simpl. tauto. Qed.

Lemma map_delete_sublist (event : E) (m : list (E * nat)) :
  sublist (map_delete event m) m.
Proof. apply sublist_filter. Qed.

Lemma map_delete_absent (event : E) (m : list (E * nat)) :
  get event m = None -> map_delete event m = m.
Proof.
  intros Hg%get_None. unfold map_delete.
  induction m as [|[e a] m IH]; [done |].
  simpl in Hg. apply not_elem_of_cons in Hg as [Hne Hout].
  rewrite filter_cons_True by (simpl; congruence). by rewrite IH.
Qed.

Lemma get_map_delete (event : E) (m : list (E * nat)) :
  get event (map_delete event m) = None.
Proof.
  apply get_None. intros Hin. apply list_elem_of_fmap in Hin as ([e a] & He & Hin).
  apply elem_of_map_delete in Hin as [_ Hne]. simpl in He. congruence.
Qed.

(** ** Sets *)

Lemma set_size_add (h : Hdl) (s : list (option Hdl)) : 0 < set_size (set_add h s).
Proof.
  unfold set_add, set_has. destruct (decide (Some h ∈ s)) as [Hin | Hout].
  - rewrite bool_decide_eq_true_2 by done. unfold set_size, set_values.
    assert (Hh : h ∈ omap id s) by (apply list_elem_of_omap; by exists (Some h)).
    destruct (omap id s); [by apply elem_of_nil in Hh | simpl; lia].
  - rewrite bool_decide_eq_false_2 by done. unfold set_size, set_values.
    rewrite omap_app, length_app. simpl. lia.
Qed.

Lemma set_at_alter (bus : B) (f : list (option Hdl) -> list (option Hdl)) (a b : nat) :
  a < length (sets bus) ->
  set_at (with_sets (alter f a (sets bus)) bus) b
  = if decide (a = b) then f (set_at bus b) else set_at bus b.
Proof.
  intros Ha. unfold set_at. simpl. rewrite list_lookup_alter.
  destruct (decide (a = b)) as [<- |]; simpl; repeat case_decide; try done.
  destruct (lookup_lt_is_Some_2 _ _ Ha) as [s Hs]. by rewrite Hs.
Qed.

(** ** The bus stays tidy *)

Lemma tidy_on (event : E) (h : Hdl) (bus : B) : tidy bus -> tidy (on event h bus).
Proof.
  intros (Hsets & Hk & Ha). unfold on.
  destruct (get event (events bus)) as [a|] eqn:Hg.
  - rewrite Hg. apply get_Some_elem in Hg. destruct (Hsets _ _ Hg) as [Hlt Hsz].
    split; [| by split]. intros e a' Hin. cbn [events sets with_sets].
    rewrite length_alter. destruct (Hsets _ _ Hin) as [Hlt' Hsz'].
    split; [done |]. rewrite set_at_alter by done.
    destruct (decide (a = a')); [apply set_size_add | done].
  - cbn [events with_events with_sets]. rewrite (get_app_new _ _ _ Hg).
    set (n := length (sets bus)).
    assert (Hnew : forall b,
              set_at (with_sets (alter (set_add h) n (sets bus ++ [[]]))
                        (with_events (events bus ++ [(event, n)])
                           (with_sets (sets bus ++ [[]]) bus))) b
              = if decide (n = b) then [Some h] else set_at bus b).
    { intros b. unfold set_at. cbn [sets with_sets with_events].
      rewrite list_lookup_alter. destruct (decide (n = b)) as [<- | Hne].
      - rewrite lookup_app_r by (unfold n; lia).
        by replace (n - length (sets bus)) with 0 by (unfold n; lia).
      - destruct (decide (b < n)) as [Hlt | Hge].
        + by rewrite lookup_app_l by done.
        + rewrite !lookup_ge_None_2; [done | unfold n in *; lia |].
          rewrite length_app. simpl. unfold n in *. lia. }
    split; [| split].
    + intros e a' Hin. cbn [events sets with_sets with_events] in Hin |- *.
      rewrite length_alter, length_app. cbn [length].
      rewrite Hnew. apply elem_of_app in Hin as [Hin | Hin].
      * destruct (Hsets _ _ Hin) as [Hlt Hsz]. split; [lia |].
        rewrite decide_False by (unfold n; lia). done.
      * apply list_elem_of_singleton in Hin as [= -> ->]. split; [unfold n; lia |].
        rewrite decide_True by done. cbn. lia.
    + cbn [events with_sets with_events]. rewrite map_app. cbn [map fst].
      apply NoDup_app. split; [done |]. split; [| apply NoDup_singleton].
      intros x Hx ->%list_elem_of_singleton. by apply get_None in Hg.
    + cbn [events with_sets with_events]. rewrite map_app. cbn [map snd].
      apply NoDup_app. split; [done |]. split; [| apply NoDup_singleton].
      intros x Hx ->%list_elem_of_singleton.
      apply list_elem_of_fmap in Hx as ([e a'] & Heq & Hin). simpl in Heq. subst a'.
      destruct (Hsets _ _ Hin) as [Hlt _]. unfold n in Hlt. lia.
Qed.

Lemma tidy_delete (event : E) (bus : B) :
  tidy bus -> tidy (with_events (map_delete event (events bus)) bus).
Proof.
  intros (Hsets & Hk & Ha). split; [| split]; cbn [events with_events sets].
  - intros e a [Hin _]%elem_of_map_delete. exact (Hsets e a Hin).
  - eapply sublist_NoDup; [exact Hk |]. apply (fmap_sublist _), map_delete_sublist.
  - eapply sublist_NoDup; [exact Ha |]. apply (fmap_sublist _), map_delete_sublist.
Qed.

Lemma NoDup_snd_inj (m : list (E * nat)) (e1 e2 : E) (a : nat) :
  NoDup (map snd m) -> (e1, a) ∈ m -> (e2, a) ∈ m -> e1 = e2.
Proof.
  induction m as [|[e a'] m IH]; simpl; intros Hnd H1 H2;
    [by apply elem_of_nil in H1 |].
  apply NoDup_cons in Hnd as [Hout Hnd].
  assert (Hin : forall e0, (e0, a') ∈ m -> False).
  { intros e0 Hin. apply Hout. apply list_elem_of_fmap. by exists (e0, a'). }
  apply elem_of_cons in H1 as [Heq1 | H1];
    apply elem_of_cons in H2 as [Heq2 | H2].
  - congruence.
  - exfalso. apply (Hin e2). congruence.
  - exfalso. apply (Hin e1). congruence.
  - by apply IH.
Qed.

Lemma tidy_off (event : E) (h : option Hdl) (bus : B) :
  tidy bus -> tidy (off event h bus).
Proof.
  intros Ht. unfold off. destruct h as [h|]; [| by apply tidy_delete].
  destruct (get event (events bus)) as [a|] eqn:Hg; [| done].
  apply get_Some_elem in Hg. destruct Ht as (Hsets & Hk & Ha).
  destruct (Hsets _ _ Hg) as [Hlt _].
  destruct (set_size _ =? 0) eqn:Hz.
  - apply Nat.eqb_eq in Hz. split; [| split]; cbn [events with_events with_sets sets].
    + intros e a' [Hin Hne]%elem_of_map_delete. destruct (Hsets _ _ Hin) as [Hlt' Hsz].
      rewrite length_alter. split; [done |].
      fold (with_sets (alter (set_delete h) a (sets bus)) bus).
      change (set_at _ a') with
        (set_at (with_sets (alter (set_delete h) a (sets bus)) bus) a').
      rewrite set_at_alter by done. rewrite decide_False; [done |].
      intros <-. apply Hne. by eapply NoDup_snd_inj.
    + eapply sublist_NoDup; [exact Hk |]. apply (fmap_sublist _), map_delete_sublist.
    + eapply sublist_NoDup; [exact Ha |]. apply (fmap_sublist _), map_delete_sublist.
  - apply Nat.eqb_neq in Hz. split; [| by split].
    intros e a' Hin. cbn [events with_sets sets] in Hin |- *.
    destruct (Hsets _ _ Hin) as [Hlt' Hsz]. rewrite length_alter. split; [done |].
    rewrite set_at_alter by done.
    destruct (decide (a = a')) as [<- |]; [| done].
    rewrite set_at_alter, decide_True in Hz by done. lia.
Qed.

Lemma tidy_once (event : E) (f : F) (bus : B) : tidy bus -> tidy (once event f bus).
Proof. intros Ht. unfold once. by apply tidy_on. Qed.

Lemma tidy_clear (bus : B) : tidy bus -> tidy (clear bus).
Proof.
  intros _. split; [| split]; cbn [events clear with_events];
    [intros e a Hin; by apply elem_of_nil in Hin | apply NoDup_nil_2 ..].
Qed.

Lemma tidy_run (hemit : E -> D -> B -> Outcome E W Exn F unit) {A : Type}
    (p : Prog E D W Exn F A) :
  (forall event data bus, tidy bus -> ends_tidy (hemit event data bus)) ->
  forall bus, tidy bus -> ends_tidy (run_prog hemit p bus).
Proof.
  intros Hemit.
  induction p as [a | e | f k IH | k IH | event h k IH | event h k IH
                  | event h k IH | event data k IH | k IH | event k IH | k IH];
    intros bus Ht; cbn [run_prog]; try done.
  - by apply IH.
  - by apply IH.
  - by apply IH, tidy_on.
  - by apply IH, tidy_once.
  - by apply IH, tidy_off.
  - specialize (Hemit event data bus Ht).
    destruct (hemit event data bus) as [[] bus' | e bus' |]; cbn [bind]; try done.
    by apply IH.
  - by apply IH, tidy_clear.
  - by apply IH.
  - by apply IH.
Qed.

Lemma tidy_guarded (hemit : E -> D -> B -> Outcome E W Exn F unit)
    (h : Hdl) (data : D) (bus bus' : B) :
  (forall event data bus, tidy bus -> ends_tidy (hemit event data bus)) ->
  tidy bus -> guarded body hemit h data bus = Some bus' -> tidy bus'.
Proof.
  intros Hemit Ht. unfold guarded, call. destruct h as [f | k event f].
  - pose proof (tidy_run hemit (body f data) Hemit bus Ht) as Hr.
    destruct (run_prog hemit (body f data) bus) as [[] b | e b |];
      intros [= <-]; done.
  - pose proof (tidy_run hemit (body f data) Hemit bus Ht) as Hr.
    destruct (run_prog hemit (body f data) bus) as [[] b | e b |]; cbn [bind];
      intros [= <-]; [exact (tidy_off event (Some (Wrapper k event f)) b Hr) | done].
Qed.

Lemma tidy_forEach (hemit : E -> D -> B -> Outcome E W Exn F unit)
    (a : nat) (data : D) (steps : nat) :
  (forall event data bus, tidy bus -> ends_tidy (hemit event data bus)) ->
  forall (index : nat) (bus : B),
    tidy bus -> ends_tidy (forEach body hemit steps a data index bus).
Proof.
  intros Hemit. induction steps as [|steps IH]; intros index bus Ht; [done |].
  cbn [forEach]. destruct (set_at bus a !! index) as [[h|]|]; [| by apply IH | done].
  destruct (guarded body hemit h data bus) as [bus'|] eqn:Hg; [| done].
  apply IH. by eapply tidy_guarded.
Qed.

Lemma tidy_emit (fuel : nat) :
  forall (event : E) (data : D) (bus : B),
    tidy bus -> ends_tidy (emit body fuel event data bus).
Proof.
  induction fuel as [|fuel IH]; intros event data bus Ht; [done |].
  cbn [emit]. destruct (get event (events bus)) as [a|]; [| done].
  by apply tidy_forEach.
Qed.

Lemma tidy_perform (fuel : nat) (bus bus' : B) (c : Call E D F) :
  tidy bus -> perform body fuel bus c = Some bus' -> tidy bus'.
Proof.
  intros Ht. destruct c as [event h | event h | event h | event data |];
    cbn [perform].
  - intros [= <-]. by apply tidy_on.
  - intros [= <-]. by apply tidy_once.
  - intros [= <-]. by apply tidy_off.
  - pose proof (tidy_emit fuel event data bus Ht) as He.
    destruct (emit body fuel event data bus) as [[] b | e b |]; intros [= <-]; done.
  - intros [= <-]. by apply tidy_clear.
Qed.

(** ** Handlers that leave the bus alone *)

(** Quiet code ends, touches the world only, and does not depend on
    what [emit] would do. *)
Lemma quiet_run {A : Type} (p : Prog E D W Exn F A)
    (hemit : E -> D -> B -> Outcome E W Exn F unit) :
  quiet p ->
  forall bus : B,
    run_prog hemit p bus = run_prog no_emit p bus /\
    ((exists a w', run_prog hemit p bus = Normal a (with_world w' bus)) \/
     (exists e w', run_prog hemit p bus = Thrown e (with_world w' bus))).
Proof.
  induction p as [a | e | f k IH | k IH | event h k IH | event h k IH
                  | event h k IH | event data k IH | k IH | event k IH | k IH];
    intros Hq bus; cbn [run_prog]; try destruct Hq.
  - split; [done |]. left. exists a, (world bus). by destruct bus.
  - split; [done |]. right. exists e, (world bus). by destruct bus.
  - destruct (IH Hq (with_world (f (world bus)) bus)) as [Heq Hcase].
    split; [exact Heq |].
    destruct Hcase as [(a & w' & ->) | (e & w' & ->)]; [left | right]; eauto.
  - apply (IH (world bus) (Hq (world bus)) bus).
Qed.

Lemma quiet_guarded (hemit : E -> D -> B -> Outcome E W Exn F unit)
    (f : F) (data : D) (bus : B) :
  quiet (body f data) ->
  exists bus',
    guarded body hemit (Fn f) data bus = Some bus' /\
    guarded body no_emit (Fn f) data bus = Some bus' /\
    events bus' = events bus /\ sets bus' = sets bus.
Proof.
  intros Hq. unfold guarded, call.
  destruct (quiet_run (body f data) hemit Hq bus) as [Heq Hcase].
  rewrite <- Heq.
  destruct Hcase as [([] & w' & ->) | (e & w' & ->)]; eauto.
Qed.

Lemma forEach_quiet (hemit : E -> D -> B -> Outcome E W Exn F unit)
    (a : nat) (data : D) (entries : list (option Hdl)) :
  (forall h, Some h ∈ entries -> exists f, h = Fn f /\ quiet (body f data)) ->
  forall (steps index : nat) (bus : B),
    set_at bus a = entries -> length entries - index < steps ->
    exists bus',
      forEach body hemit steps a data index bus = Normal tt bus' /\
      deliver body (set_values (drop index entries)) data bus = Some bus' /\
      events bus' = events bus /\ sets bus' = sets bus.
Proof.
  intros Hq. induction steps as [|steps IH]; intros index bus Hset Hsteps; [lia |].
  cbn [forEach]. rewrite Hset.
  destruct (entries !! index) as [[h|]|] eqn:Hi.
  - rewrite (drop_S _ _ _ Hi). cbn [set_values omap list_omap id deliver].
    destruct (Hq h) as (f & -> & Hqf); [by eapply list_elem_of_lookup_2 |].
    destruct (quiet_guarded hemit f data bus Hqf) as (bus1 & -> & -> & He1 & Hs1).
    cbn [mbind option_bind].
    destruct (IH (S index) bus1) as (bus' & -> & Hd & He & Hs).
    + unfold set_at in *. by rewrite Hs1.
    + apply lookup_lt_Some in Hi. lia.
    + exists bus'. repeat split; [exact Hd | congruence | congruence].
  - rewrite (drop_S _ _ _ Hi). cbn [set_values omap list_omap id].
    destruct (IH (S index) bus Hset) as (bus' & -> & Hd & He & Hs).
    + apply lookup_lt_Some in Hi. lia.
    + by exists bus'.
  - apply lookup_ge_None_1 in Hi. rewrite drop_ge by done.
    exists bus. by repeat split.
Qed.

Lemma forEach_never_throws (hemit : E -> D -> B -> Outcome E W Exn F unit)
    (a : nat) (data : D) (steps : nat) :
  forall (index : nat) (bus : B) (e : Exn) (bus' : B),
    forEach body hemit steps a data index bus <> Thrown e bus'.
Proof.
  induction steps as [|steps IH]; intros index bus e bus'; [done |].
  cbn [forEach]. destruct (set_at bus a !! index) as [[h|]|]; [| apply IH | done].
  destruct (guarded body hemit h data bus); [apply IH | done].
Qed.

(** X28: [emit] isolates the handlers. [emit] never throws, whatever
    the handlers do. When the handlers subscribed to the event are
    client functions that leave the bus alone, [emit] calls every one
    of them, in the order they were subscribed, each with the payload
    and whether or not an earlier one threw; what was thrown is
    logged, and the subscriptions are as before. *)
Theorem emit_isolates_handlers
    (fuel : nat) (event : E) (data : D) (bus : B) (a : nat) :
  get event (events bus) = Some a ->
  (forall h, Some h ∈ set_at bus a -> exists f, h = Fn f /\ quiet (body f data)) ->
  length (set_at bus a) < fuel ->
  (forall fuel' event' data' bus0 e bus',
     emit body fuel' event' data' bus0 <> Thrown e bus') /\
  exists bus',
    emit body (S fuel) event data bus = Normal tt bus' /\
    deliver body (set_values (set_at bus a)) data bus = Some bus' /\
    events bus' = events bus /\ sets bus' = sets bus.
Proof.
  intros Hg Hq Hfuel. split.
  - intros [|fuel'] event' data' bus0 e bus'; cbn [emit]; [done |].
    destruct (get event' (events bus0)); [apply forEach_never_throws | done].
  - cbn [emit]. rewrite Hg.
    destruct (forEach_quiet (emit body fuel) a data (set_at bus a) Hq fuel 0 bus
                eq_refl ltac:(lia)) as (bus' & Hf & Hd & He & Hs).
    exists bus'. by rewrite drop_0 in Hd.
Qed.

(** ** [once] *)

Lemma emit_unfold (fuel : nat) (event : E) (data : D) (bus : B) :
  emit body (S fuel) event data bus
  = match get event (events bus) with
    | Some a => forEach body (emit body fuel) fuel a data 0 bus
    | None => Normal tt bus
    end.
Proof. reflexivity. Qed.

Lemma forEach_unfold (hemit : E -> D -> B -> Outcome E W Exn F unit)
    (steps a : nat) (data : D) (index : nat) (bus : B) :
  forEach body hemit (S steps) a data index bus
  = match set_at bus a !! index with
    | None => Normal tt bus
    | Some None => forEach body hemit steps a data (S index) bus
    | Some (Some h) =>
        match guarded body hemit h data bus with
        | Some bus' => forEach body hemit steps a data (S index) bus'
        | None => Diverged
        end
    end.
Proof. reflexivity. Qed.

Lemma once_unfold (event : E) (f : F) (bus : B) :
  get event (events bus) = None ->
  once event f bus
  = mkBus (events bus ++ [(event, length (sets bus))])
          (sets bus ++ [[Some (Wrapper (wrappers bus) event f)]])
          (S (wrappers bus)) (world bus) (errors bus).
Proof.
  intros Hg. unfold once, on. cbn [events with_wrappers sets]. rewrite Hg.
  cbn [events with_events with_sets]. rewrite (get_app_new _ _ _ Hg).
  unfold with_sets. cbn [sets events wrappers world errors with_events with_wrappers].
  f_equal. apply list_eq. intros i. rewrite list_lookup_alter.
  destruct (decide (length (sets bus) = i)) as [<- | Hne].
  - assert (Hle : length (sets bus) <= length (sets bus)) by lia.
    rewrite (lookup_app_r (sets bus) [[]] _ Hle).
    rewrite (lookup_app_r (sets bus) [[Some (Wrapper (wrappers bus) event f)]] _ Hle).
    by rewrite Nat.sub_diag.
  - destruct (decide (i < length (sets bus))) as [Hlt | Hge].
    + by rewrite !lookup_app_l by done.
    + rewrite !lookup_ge_None_2; [done | |]; rewrite length_app; simpl; lia.
Qed.

(** X29: a handler subscribed with [once] that throws stays
    subscribed. After [once(event, f)] for an event without listeners
    and a function [f] that leaves the bus alone, the event has one
    listener and [emit] calls [f]. When [f] returns, the closure has
    unsubscribed itself: the event has no listener, is not among
    [eventNames()], and a second [emit] does nothing. When [f] throws,
    the closure does not get to unsubscribe: the error is logged, the
    event still has one listener, and a second [emit] calls [f]
    again. *)
Theorem once_handler_that_throws_stays
    (fuel : nat) (event : E) (f : F) (data : D) (bus0 : B) :
  get event (events bus0) = None ->
  quiet (body f data) ->
  listenerCount (Some event) (once event f bus0) = 1 /\
  exists bus2 : B,
    emit body (S (S (S fuel))) event data (once event f bus0) = Normal tt bus2 /\
    guarded body no_emit (Wrapper (wrappers bus0) event f) data
            (once event f bus0) = Some bus2 /\
    ((exists b, run_prog no_emit (body f data) (once event f bus0) = Normal tt b) ->
       listenerCount (Some event) bus2 = 0 /\
       (event ∉ eventNames bus2) /\
       emit body (S (S (S fuel))) event data bus2 = Normal tt bus2) /\
    (forall e b, run_prog no_emit (body f data) (once event f bus0) = Thrown e b ->
       listenerCount (Some event) bus2 = 1 /\
       errors bus2 = errors bus0 ++ [e] /\
       exists bus3 : B,
         emit body (S (S (S fuel))) event data bus2 = Normal tt bus3 /\
         guarded body no_emit (Wrapper (wrappers bus0) event f) data bus2
         = Some bus3).
Proof.
  intros Hg Hq. rewrite (once_unfold event f bus0 Hg).
  set (n := length (sets bus0)). set (wr := Wrapper (wrappers bus0) event f).
  set (bus1 := mkBus _ _ _ _ _).
  assert (Hget1 : get event (events bus1) = Some n) by (by apply get_app_new).
  assert (Hset1 : set_at bus1 n = [Some wr]).
  { unfold set_at, bus1. cbn [sets]. rewrite lookup_app_r by (unfold n; lia).
    by replace (n - length (sets bus0)) with 0 by (unfold n; lia). }
  split; [unfold listenerCount; by rewrite Hget1, Hset1 |].
  (* what the closure does on a bus that still lists it *)
  assert (Hcall : forall (hemit : E -> D -> B -> Outcome E W Exn F unit) (bus : B),
            events bus = events bus1 -> sets bus = sets bus1 ->
            (exists w',
               run_prog no_emit (body f data) bus = Normal tt (with_world w' bus) /\
               guarded body hemit wr data bus
               = Some (off event (Some wr) (with_world w' bus))) \/
            (exists e w',
               run_prog no_emit (body f data) bus = Thrown e (with_world w' bus) /\
               guarded body hemit wr data bus
               = Some (log_error e (with_world w' bus)))).
  { intros hemit bus He Hs. unfold guarded, call, wr.
    destruct (quiet_run (body f data) hemit Hq bus) as [Heq Hcase].
    rewrite <- Heq.
    destruct Hcase as [([] & w' & ->) | (e & w' & ->)]; [left | right]; eauto. }
  (* the bus once the closure has unsubscribed itself *)
  assert (Hoff : forall w' : W,
            off event (Some wr) (with_world w' bus1)
            = mkBus (events bus0) (sets bus0 ++ [[None]]) (S (wrappers bus0)) w'
                    (errors bus0)).
  { intros w'. unfold off. cbn [events with_world]. rewrite Hget1.
    assert (Halter : alter (set_delete wr) n (sets bus1) = sets bus0 ++ [[None]]).
    { unfold bus1. cbn [sets]. apply list_eq. intros i. rewrite list_lookup_alter.
      destruct (decide (n = i)) as [<- | Hne].
      - rewrite !lookup_app_r by (unfold n; lia).
        replace (n - length (sets bus0)) with 0 by (unfold n; lia).
        cbn. unfold set_delete. cbn. by rewrite decide_True.
      - destruct (decide (i < n)) as [Hlt | Hge].
        + by rewrite !lookup_app_l by done.
        + rewrite !lookup_ge_None_2; [done | |]; rewrite length_app; simpl;
            unfold n in *; lia. }
    cbn [sets with_world with_sets]. rewrite Halter.
    unfold set_at. cbn [sets with_world with_sets].
    rewrite lookup_app_r by (unfold n; lia).
    replace (n - length (sets bus0)) with 0 by (unfold n; lia). cbn.
    unfold with_events. cbn [events sets wrappers world errors]. f_equal.
    unfold bus1. cbn [events]. unfold map_delete. rewrite filter_app.
    fold (map_delete event (events bus0)). rewrite (map_delete_absent _ _ Hg).
    rewrite filter_cons_False by (simpl; tauto). by rewrite app_nil_r. }
  destruct (Hcall (emit body (S (S fuel))) bus1 eq_refl eq_refl)
    as [(w' & Hrun & Hgd) | (e & w' & Hrun & Hgd)].
  - (* the function returns *)
    destruct (Hcall no_emit bus1 eq_refl eq_refl)
      as [(w2 & Hrun2 & Hgd2) | (e2 & w2 & Hrun2 & _)]; [| congruence].
    assert (w2 = w') by (rewrite Hrun in Hrun2; by injection Hrun2). subst w2.
    rewrite Hoff in Hgd, Hgd2.
    set (bus2 := mkBus (events bus0) _ _ w' _) in *.
    assert (Hget2 : get event (events bus2) = None) by exact Hg.
    exists bus2. split; [| split; [exact Hgd2 | split]].
    + rewrite emit_unfold, Hget1, forEach_unfold, Hset1. cbn [lookup list_lookup].
      rewrite Hgd, forEach_unfold.
      assert (Hset2 : set_at bus2 n = [None]).
      { unfold set_at, bus2. cbn [sets]. rewrite lookup_app_r by (unfold n; lia).
        by replace (n - length (sets bus0)) with 0 by (unfold n; lia). }
      by rewrite Hset2.
    + intros _. split; [unfold listenerCount; by rewrite Hget2 |].
      split; [by apply get_None |]. by rewrite emit_unfold, Hget2.
    + intros e b Hthrow. rewrite Hrun in Hthrow. discriminate.
  - (* the function throws *)
    destruct (Hcall no_emit bus1 eq_refl eq_refl)
      as [(w2 & Hrun2 & _) | (e2 & w2 & Hrun2 & Hgd2)]; [congruence |].
    assert (e2 = e /\ w2 = w') as [-> ->]
      by (rewrite Hrun in Hrun2; by injection Hrun2).
    set (bus2 := log_error e (with_world w' bus1)) in *.
    assert (Hset2 : set_at bus2 n = [Some wr]) by exact Hset1.
    assert (Hget2 : get event (events bus2) = Some n) by exact Hget1.
    exists bus2. split; [| split; [exact Hgd2 | split]].
    + rewrite emit_unfold, Hget1, forEach_unfold, Hset1. cbn [lookup list_lookup].
      rewrite Hgd, forEach_unfold. fold bus2. by rewrite Hset2.
    + intros [b Hret]. rewrite Hrun in Hret. discriminate.
    + intros e0 b Hthrow. rewrite Hrun in Hthrow. injection Hthrow as <- _.
      split; [unfold listenerCount; by rewrite Hget2, Hset2 |].
      split; [done |].
      destruct (Hcall (emit body (S (S fuel))) bus2 eq_refl eq_refl)
        as [(w3 & Hrun3 & Hgd3) | (e3 & w3 & Hrun3 & Hgd3)];
        destruct (Hcall no_emit bus2 eq_refl eq_refl)
          as [(w4 & Hrun4 & Hgd4) | (e4 & w4 & Hrun4 & Hgd4)]; try congruence.
      * assert (w4 = w3) by (rewrite Hrun3 in Hrun4; by injection Hrun4). subst w4.
        eexists. split; [| exact Hgd4].
        rewrite emit_unfold, Hget2, forEach_unfold, Hset2.
        cbn [lookup list_lookup]. rewrite Hgd3, forEach_unfold.
        assert (Hset3 : set_at (off event (Some wr) (with_world w3 bus2)) n = [None]).
        { unfold off. cbn [events with_world]. rewrite Hget2.
          unfold set_at. cbn [sets with_sets with_world].
          destruct (_ =? 0); cbn [sets with_events with_sets];
            rewrite list_lookup_alter, decide_True by done;
            fold (set_at bus2 n); unfold set_at in Hset2;
            change (sets (log_error e (with_world w' bus1)) !! n)
              with (sets bus2 !! n);
            destruct (sets bus2 !! n) as [s0|] eqn:Es; cbn in Hset2 |- *;
            subst; cbn; unfold set_delete; cbn; by rewrite ?decide_True. }
        by rewrite Hset3.
      * assert (e4 = e3 /\ w4 = w3) as [-> ->]
          by (rewrite Hrun3 in Hrun4; by injection Hrun4).
        eexists. split; [| exact Hgd4].
        rewrite emit_unfold, Hget2, forEach_unfold, Hset2.
        cbn [lookup list_lookup]. rewrite Hgd3, forEach_unfold.
        assert (Hset3 : set_at (log_error e3 (with_world w3 bus2)) n = [Some wr])
          by exact Hset2.
        by rewrite Hset3.
Qed.

Lemma listenerCount_total (bus : B) :
  NoDup (map fst (events bus)) ->
  listenerCount None bus
  = sum_list (map (fun e => listenerCount (Some e) bus) (eventNames bus)).
Proof.
  unfold listenerCount, eventNames. intros Hnd.
  assert (Hgen : forall (m : list (E * nat)) (k : nat),
            (forall e a, (e, a) ∈ m -> get e (events bus) = Some a) ->
            foldl (fun count kv => count + set_size (set_at bus kv.2)) k m
            = k + sum_list (map (fun e => match get e (events bus) with
                                          | Some a => set_size (set_at bus a)
                                          | None => 0
                                          end) (map fst m))).
  { induction m as [|[e a] m IH]; intros k Hm; simpl; [lia |].
    rewrite IH by (intros e' a' Hin; apply Hm; by right).
    rewrite (Hm e a) by apply list_elem_of_here. simpl. lia. }
  rewrite Hgen; [done |]. intros e a Hin. by apply elem_get.
Qed.

(** X30: the bus keeps no empty set. After every sequence of [on],
    [once], [off], [emit] and [clear] calls on a new bus, whatever the
    handlers do (return, throw, subscribe, unsubscribe, emit in turn),
    [eventNames()] lists exactly the events that have a listener, lists
    none twice, and [listenerCount()] is the sum of the counts of the
    listed events. *)
Theorem bus_keeps_no_empty_set
    (fuel : nat) (w : W) (calls : list (Call E D F)) (bus : B) :
  perform_all body fuel (constructor w) calls = Some bus ->
  (forall e, e ∈ eventNames bus <-> 0 < listenerCount (Some e) bus) /\
  NoDup (eventNames bus) /\
  listenerCount None bus
  = sum_list (map (fun e => listenerCount (Some e) bus) (eventNames bus)).
Proof.
  intros Hrun.
  assert (Ht : tidy bus).
  { assert (H0 : tidy (constructor w : B)).
    { split; [| split]; cbn; [intros e a Hin; by apply elem_of_nil in Hin
                             | apply NoDup_nil_2 ..]. }
    revert Hrun H0. generalize (constructor w : B).
    induction calls as [|c calls IH]; intros b Hrun Hb; cbn [perform_all] in Hrun.
    - by injection Hrun as <-.
    - destruct (perform body fuel b c) as [b'|] eqn:Hp; [| discriminate].
      cbn in Hrun. eapply IH; [exact Hrun |]. by eapply tidy_perform. }
  destruct Ht as (Hsets & Hk & Ha). split; [| split; [exact Hk |]].
  - intros e. unfold eventNames, listenerCount. split.
    + intros Hin. apply list_elem_of_fmap in Hin as ([e' a] & -> & Hin).
      cbn [fst]. rewrite (elem_get _ _ _ Hk Hin). by apply (Hsets _ _ Hin).
    + destruct (get e (events bus)) as [a|] eqn:Hg; [| lia].
      intros _. apply get_Some_elem in Hg. apply list_elem_of_fmap. by exists (e, a).
  - by apply listenerCount_total.
Qed.

End Facts.

(** Two listeners of which the second throws, then a third. *)
Lemma emit_isolates_handlers_witness :
  let bus : Bus string Z string nat :=
    on "a" (Fn 0) (on "a" (Fn 1) (on "a" (Fn 0) (constructor 0%Z))) in
  get "a" (events bus) = Some 0 /\
  (forall h, Some h ∈ set_at bus 0 ->
     exists f, h = Fn f /\ quiet (sample_handlers f 5%Z)) /\
  length (set_at bus 0) < 3 /\
  (forall fuel' event' data' bus0 e bus',
     emit sample_handlers fuel' event' data' bus0 <> Thrown e bus') /\
  exists bus',
    emit sample_handlers 4 "a" 5%Z bus = Normal tt bus' /\
    deliver sample_handlers (set_values (set_at bus 0)) 5%Z bus = Some bus' /\
    events bus' = events bus /\ sets bus' = sets bus.
Proof.
  cbv zeta.
  set (bus := on "a" (Fn 0) (on "a" (Fn 1) (on "a" (Fn 0) (constructor 0%Z)))
              : Bus string Z string nat).
  assert (H1 : get "a" (events bus) = Some 0) by reflexivity.
  assert (H2 : forall h, Some h ∈ set_at bus 0 ->
                 exists f, h = Fn f /\ quiet (sample_handlers f 5%Z)).
  { intros h Hin. change (set_at bus 0) with [Some (Fn (E := string) 0); Some (Fn 1)] in Hin.
    apply elem_of_cons in Hin as [[= ->] | Hin]; [by exists 0 |].
    apply list_elem_of_singleton in Hin as [= ->]. by exists 1. }
  assert (H3 : length (set_at bus 0) < 3) by (simpl; lia).
  split; [exact H1 |]. split; [exact H2 |]. split; [exact H3 |].
  exact (emit_isolates_handlers sample_handlers 3 "a" 5%Z bus 0 H1 H2 H3).
Defined.

(** A function that throws, subscribed with [once]. *)
Lemma once_handler_that_throws_stays_witness :
  let bus0 : Bus string Z string nat := constructor 0%Z in
  get "a" (events bus0) = None /\
  quiet (sample_handlers 1 7%Z) /\
  listenerCount (Some "a") (once "a" 1 bus0) = 1 /\
  exists bus2 : Bus string Z string nat,
    emit sample_handlers 3 "a" 7%Z (once "a" 1 bus0) = Normal tt bus2 /\
    guarded sample_handlers no_emit (Wrapper (wrappers bus0) "a" 1) 7%Z
            (once "a" 1 bus0) = Some bus2 /\
    ((exists b, run_prog no_emit (sample_handlers 1 7%Z) (once "a" 1 bus0)
                = Normal tt b) ->
       listenerCount (Some "a") bus2 = 0 /\
       ("a" ∉ eventNames bus2) /\
       emit sample_handlers 3 "a" 7%Z bus2 = Normal tt bus2) /\
    (forall e b, run_prog no_emit (sample_handlers 1 7%Z) (once "a" 1 bus0)
                 = Thrown e b ->
       listenerCount (Some "a") bus2 = 1 /\
       errors bus2 = errors bus0 ++ [e] /\
       exists bus3 : Bus string Z string nat,
         emit sample_handlers 3 "a" 7%Z bus2 = Normal tt bus3 /\
         guarded sample_handlers no_emit (Wrapper (wrappers bus0) "a" 1) 7%Z bus2
         = Some bus3).
Proof.
  cbv zeta.
  assert (H1 : get "a" (events (constructor 0%Z : Bus string Z string nat)) = None)
    by reflexivity.
  assert (H2 : quiet (sample_handlers 1 7%Z)) by exact I.
  split; [exact H1 |]. split; [exact H2 |].
  exact (once_handler_that_throws_stays sample_handlers 0 "a" 1 7%Z
           (constructor 0%Z) H1 H2).
Defined.

(** A session in which a handler subscribes another one while the
    event is being emitted. *)
Lemma bus_keeps_no_empty_set_witness :
  exists bus : Bus string Z string nat,
    perform_all sample_handlers 5 (constructor 0%Z)
      [COn "a" 0; COnce "a" 1; COn "b" 2; CEmit "a" 5%Z; COff "a" (Some 0);
       CEmit "b" 0%Z; CEmit "again" 0%Z; COff "b" None] = Some bus /\
    (forall e, e ∈ eventNames bus <-> 0 < listenerCount (Some e) bus) /\
    NoDup (eventNames bus) /\
    listenerCount None bus
    = sum_list (map (fun e => listenerCount (Some e) bus) (eventNames bus)).
Proof.
  destruct (perform_all sample_handlers 5 (constructor 0%Z)
              [COn "a" 0; COnce "a" 1; COn "b" 2; CEmit "a" 5%Z; COff "a" (Some 0);
               CEmit "b" 0%Z; CEmit "again" 0%Z; COff "b" None]) as [bus|] eqn:Hrun;
    [| exfalso; vm_compute in Hrun; discriminate].
  exists bus. split; [reflexivity |].
  exact (bus_keeps_no_empty_set sample_handlers 5 0%Z _ bus Hrun).
Defined.

End EventBusFacts.
(** * Results: the viewport *)

Module ViewportFacts.
Import JS Helpers Viewport.
Local Open Scope Q_scope.

Lemma Qle_bool_false (a b : Q) : Qle_bool a b = false -> b < a.
Proof.
  intros H. apply Qnot_le_lt. intros Hle.
  apply Qle_bool_iff in Hle. congruence.
Qed.

Lemma Qeq_bool_false (a b : Q) : Qeq_bool a b = false -> ~ a == b.
Proof. intros H Heq. apply Qeq_bool_iff in Heq. congruence. Qed.

(** Turns every boolean comparison of the goal into its proposition. *)
Ltac qcases :=
  repeat match goal with
  | |- context [Qle_bool ?a ?b] =>
      lazymatch a with context [if _ then _ else _] => fail | _ => idtac end;
      let E := fresh "E" in
      destruct (Qle_bool a b) eqn:E;
      [apply Qle_bool_iff in E | apply Qle_bool_false in E]
  | |- context [Qeq_bool ?a ?b] =>
      lazymatch a with context [if _ then _ else _] => fail | _ => idtac end;
      let E := fresh "E" in
      destruct (Qeq_bool a b) eqn:E;
      [apply Qeq_bool_iff in E | apply Qeq_bool_false in E]
  end.

Lemma clamp_bounds (v mn mx : Q) :
  mn <= mx -> mn <= clamp v mn mx /\ clamp v mn mx <= mx.
Proof. intros H. unfold clamp, Math_min, Math_max. qcases; lra. Qed.

Lemma clamp_fixed (v mn mx : Q) :
  mn <= v -> v <= mx -> clamp v mn mx == v.
Proof. intros H1 H2. unfold clamp, Math_min, Math_max. qcases; lra. Qed.

Lemma clamp_nonzero (v mn mx : Q) :
  0 < mn -> 0 < mx -> ~ clamp v mn mx == 0.
Proof. intros H1 H2. unfold clamp, Math_min, Math_max. qcases; lra. Qed.

Lemma cube_unit (u : Q) : 0 <= u -> u <= 1 -> 0 <= u * u * u /\ u * u * u <= 1.
Proof.
  intros H0 H1.
  assert (Hsq0 : 0 <= u * u) by (apply Qmult_le_0_compat; assumption).
  assert (Hsq1 : u * u <= 1).
  { assert (u * u <= 1 * u) by (apply Qmult_le_compat_r; assumption). lra. }
  assert (0 <= u * u * u) by (apply Qmult_le_0_compat; assumption).
  assert (u * u * u <= 1 * u) by (apply Qmult_le_compat_r; assumption).
  lra.
Qed.

Lemma cube_half (t : Q) : 0 <= t -> t < 1#2 -> 0 <= t * t * t /\ t * t * t <= 1#8.
Proof.
  intros H0 H1.
  assert (Hsq0 : 0 <= t * t) by (apply Qmult_le_0_compat; assumption).
  assert (Hsq1 : t * t <= (1#2) * t) by (apply Qmult_le_compat_r; lra).
  assert (0 <= t * t * t) by (apply Qmult_le_0_compat; assumption).
  assert (t * t * t <= ((1#2) * t) * t) by (apply Qmult_le_compat_r; lra).
  assert ((1#2) * t * t <= (1#2) * (1#2) * t) by (apply Qmult_le_compat_r; lra).
  lra.
Qed.

Lemma easeInOutCubic_unit (t : Q) :
  0 <= t -> t <= 1 -> 0 <= easeInOutCubic t /\ easeInOutCubic t <= 1.
Proof.
  intros H0 H1. unfold easeInOutCubic. qcases.
  - destruct (cube_unit (-2 * t + 2)) as [Hc0 Hc1]; [lra | lra |].
    set (c := (-2 * t + 2) * (-2 * t + 2) * (-2 * t + 2)) in *.
    assert (Hdiv : c / 2 == c * (1#2)) by field.
    rewrite Hdiv. lra.
  - destruct (cube_half t H0 E) as [Hc0 Hc1]. lra.
Qed.

Lemma Inv_bounds (v : Viewport) : Inv v -> minScale v <= maxScale v.
Proof. intros [[H1 H2] _]. lra. Qed.

Lemma Inv_in_range (v : Viewport) : Inv v -> in_range v.
Proof. intros [H _]. exact H. Qed.

(** A frame of an animation that aims at the scale it started from
    applies that scale: [s + (s - s) * t] is [s], on doubles as well,
    where [s - s] is zero and so is its product with [t]
    ([DoublesFacts.double_lerp_same]). *)
Lemma frame_Inv (v : Viewport) (e : Q) : Inv v -> Inv (frame v e).
Proof.
  intros [Ht Ha]. unfold frame.
  destruct (animation v) as [a|] eqn:Ea; [| split; [exact Ht | by rewrite Ea]].
  destruct Ha as [[Hs1 Hs2] Hg].
  set (t := easeInOutCubic _).
  assert (Hl : lerp (scale (anim_start a)) (scale (anim_target a)) t
               == scale (anim_start a)).
  { unfold lerp. rewrite Hg. ring. }
  assert (Hok : minScale v <= lerp (scale (anim_start a)) (scale (anim_target a)) t /\
                lerp (scale (anim_start a)) (scale (anim_target a)) t <= maxScale v).
  { rewrite Hl. split; assumption. }
  destruct (Qle_bool 1 _); split; simpl; try exact Hok; try exact I.
  rewrite Ea. unfold scale_ok. tauto.
Qed.

Lemma setTransform_Inv (v : Viewport) (tx ty ts : option Q) (a : Animate) :
  op_ok (OSetTransform tx ty ts a) = true -> Inv v -> Inv (setTransform v tx ty ts a).
Proof.
  simpl. intros Hok HI. pose proof (Inv_bounds v HI) as Hb.
  destruct HI as [Ht Ha]. unfold setTransform.
  destruct a as [|e]; simpl in Hok.
  - split; [| exact Ha]. unfold scale_ok; simpl. destruct ts as [s|]; [| exact Ht].
    apply clamp_bounds, Hb.
  - destruct ts as [s|]; [discriminate |].
    unfold animateTransform. apply frame_Inv.
    split; simpl; [exact Ht |]. split; [exact Ht | reflexivity].
Qed.

Lemma zoom_Inv (v : Viewport) (delta : Q) (c : option Point) :
  Inv v -> exists v', zoom v delta c = Some v' /\ Inv v'.
Proof.
  intros HI. pose proof (Inv_bounds v HI) as Hb.
  destruct HI as [Ht Ha]. unfold zoom.
  set (ns := clamp _ _ _).
  assert (Hns : minScale v <= ns /\ ns <= maxScale v) by (apply clamp_bounds, Hb).
  destruct (Qeq_bool ns (scale (transform v))) eqn:Eq.
  { exists v. split; [reflexivity | split; assumption]. }
  apply Qeq_bool_false in Eq.
  destruct c as [c|].
  - unfold div. destruct (Qeq_bool (scale (transform v)) 0) eqn:Ez.
    + exfalso. apply Qeq_bool_iff in Ez. apply Eq. unfold ns.
      destruct Ht as [Ht1 Ht2]. rewrite clamp_fixed; rewrite Ez in *; lra.
    + simpl. eexists. split; [reflexivity |]. split; [exact Hns | exact Ha].
  - eexists. split; [reflexivity |]. split; [exact Hns | exact Ha].
Qed.

(** A quotient that is not zero by zero is clamped to a number within
    the bounds, the infinite quotients included. *)
Lemma divide_number (a b : Q) :
  zero_by_zero a b = false -> divide a b <> NotANumber.
Proof.
  unfold zero_by_zero, divide. intros H.
  destruct (Qeq_bool b 0); [| discriminate].
  destruct (Qeq_bool a 0); [discriminate |].
  destruct (Qle_bool 0 a); discriminate.
Qed.

Lemma Math_min_quotient_number (a b : Quotient) :
  a <> NotANumber -> b <> NotANumber -> Math_min_quotient a b <> NotANumber.
Proof. destruct a, b; simpl; congruence. Qed.

Lemma clamp_quotient_bounds (value : Quotient) (mn mx : Q) :
  value <> NotANumber -> mn <= mx ->
  exists s, clamp_quotient value mn mx = Some s /\ mn <= s /\ s <= mx.
Proof.
  intros Hv Hb. destruct value as [q | | |]; simpl.
  - eexists. split; [reflexivity |]. by apply clamp_bounds.
  - eexists. split; [reflexivity |]. lra.
  - eexists. split; [reflexivity |]. unfold Math_min. qcases; lra.
  - congruence.
Qed.

Lemma fitBounds_Inv (v : Viewport) (r : ClientRect) (b : Bounds) (p : Q) (a : Animate) :
  op_ok (OFitBounds r b p a) = true -> Inv v ->
  exists v', fitBounds v r b p a = Some v' /\ Inv v'.
Proof.
  simpl. intros Hok HI.
  apply andb_prop in Hok as [Hok Hy]. apply andb_prop in Hok as [Hok Hx].
  apply negb_true_iff in Hx, Hy.
  unfold fitBounds.
  destruct (clamp_quotient_bounds
              (Math_min_quotient (divide (rect_width r - p * 2) (maxX b - minX b))
                                 (divide (rect_height r - p * 2) (maxY b - minY b)))
              (minScale v) (maxScale v)) as (s & -> & _).
  - apply Math_min_quotient_number; by apply divide_number.
  - by apply Inv_bounds.
  - simpl. eexists. split; [reflexivity |].
    apply setTransform_Inv; [| exact HI]. simpl. by rewrite Hok.
Qed.

Lemma step_Inv (v : Viewport) (o : Op) :
  op_ok o = true -> Inv v -> exists v', step v o = Some v' /\ Inv v'.
Proof.
  intros Hok HI. destruct o; simpl step;
    try (eexists; split; [reflexivity |]).
  - by apply setTransform_Inv.
  - by apply zoom_Inv.
  - exact HI.
  - exact HI.
  - unfold drag. destruct (isDragging v); exact HI.
  - exact HI.
  - unfold centerTo. apply setTransform_Inv; [simpl; apply orb_true_r | exact HI].
  - by apply (fitBounds_Inv v rect bounds padding animate).
  - unfold resetZoom. apply setTransform_Inv; [| exact HI]. simpl in *. by rewrite Hok.
  - by apply frame_Inv.
Qed.

Lemma run_Inv (ops : list Op) : forall v : Viewport,
  forallb op_ok ops = true -> Inv v -> exists v', run v ops = Some v' /\ Inv v'.
Proof.
  induction ops as [|o ops IH]; intros v Hok HI; simpl in *.
  - eauto.
  - apply andb_prop in Hok as [Ho Hops].
    destruct (step_Inv v o Ho HI) as (v1 & -> & HI1). simpl.
    by apply IH.
Qed.

(** *** The scale invariant *)

(** C6, as stated, fails in four ways. At construction: the
    constructor stores [initialScale] without clamping it, so an initial
    scale of 10 under the default upper bound 5 is out of range before
    any call is made. In an animated change of scale, on the doubles of
    the program: on the default viewport [setTransform({scale: 0.05},
    true)] aims at the clamped scale 0.1, and its last frame applies
    [lerp(1, 0.1, 1) = 1 + (0.1 - 1) * 1], which rounds to
    0.09999999999999998, below [minScale]. In [fitBounds] when both the
    padded container and the bounds have no width: the quotient is zero
    by zero, and the scale is [NaN], which lies within no bounds. And
    outside the finite numbers: a scale of [NaN] passes through [clamp]
    as it is, and bounds and a padding so large that their arithmetic
    overflows make [fitBounds] divide an infinity by an infinity. *)
Lemma scale_invariant_counterexample :
  (exists (o : Options) (ops : list Op) (v' : Viewport),
     run (constructor o) ops = Some v' /\ ~ in_range v') /\
  (PrimFloat.ltb Doubles.scale_after_animated_zoom_out Doubles.default_minScale = true /\
   Doubles.within Doubles.default_minScale Doubles.default_maxScale
     Doubles.scale_after_animated_zoom_out = false) /\
  (PrimFloat.is_nan Doubles.scale_after_fitting_nothing = true /\
   Doubles.within Doubles.default_minScale Doubles.default_maxScale
     Doubles.scale_after_fitting_nothing = false /\
   fitBounds (constructor no_options) (mkRect 100 600) (mkBounds 5 0 5 400) 50 Instant
     = None) /\
  (Doubles.within Doubles.default_minScale Doubles.default_maxScale
     Doubles.scale_after_setting_nan = false /\
   Doubles.within Doubles.default_minScale Doubles.default_maxScale
     Doubles.scale_after_overflow = false).
Proof.
  split; [| split; [split; reflexivity |
            split; [split; [| split]; reflexivity | split; reflexivity]]].
  exists (mkOptions None None None (Some 10) None), [], 
         (constructor (mkOptions None None None (Some 10) None)).
  split; [reflexivity |].
  intros [_ H]. vm_compute in H. apply H. reflexivity.
Qed.

(** C6 (amended): when the constructor options put the initial scale
    within [[minScale, maxScale]], every sequence of [setTransform],
    [zoom], [pan], drag, [centerTo], [fitBounds] and [resetZoom] calls
    and animation frames in which the calls that set a scale are made
    without animation, and [fitBounds] does not divide zero by zero,
    runs to a viewport whose scale lies within [[minScale, maxScale]].
    The scale is then always the result of [clamp] or a scale reached
    before, so rounding does not matter to it: for the same calls the
    result is proved on doubles as well
    ([DoublesFacts.scale_on_doubles]). *)
Theorem scale_within_bounds (o : Options) (ops : list Op) :
  in_range (constructor o) ->
  forallb op_ok ops = true ->
  exists v', run (constructor o) ops = Some v' /\ in_range v'.
Proof.
  intros H0 Hops.
  destruct (run_Inv ops (constructor o) Hops) as (v' & Hrun & HI).
  - split; [exact H0 | exact I].
  - exists v'. split; [exact Hrun | by apply Inv_in_range].
Qed.

Lemma scale_within_bounds_witness :
  in_range (constructor no_options) /\
  forallb op_ok sample_ops = true /\
  exists v', run (constructor no_options) sample_ops = Some v' /\ in_range v'.
Proof.
  assert (H0 : in_range (constructor no_options))
    by (split; vm_compute; discriminate).
  split; [exact H0 |]. split; [reflexivity |].
  apply (scale_within_bounds no_options sample_ops H0). reflexivity.
Defined.

(** Bounds without width: the quotient for the width is infinite, the
    smaller quotient is the one for the height, and the scale is its
    clamped value, on doubles as here. With neither width nor height
    both quotients are infinite and the scale is [maxScale]. *)
Example fitBounds_without_extent :
  (exists v', fitBounds (constructor no_options) (mkRect 800 600)
                (mkBounds 5 0 5 1000) 50 Instant = Some v' /\
     scale (transform v') == 1#2) /\
  PrimFloat.eqb Doubles.scale_after_fitting_a_line
    (PrimFloat.div PrimFloat.one PrimFloat.two) = true /\
  (exists v', fitBounds (constructor no_options) (mkRect 800 600)
                (mkBounds 5 7 5 7) 50 Instant = Some v' /\
     scale (transform v') == 5).
Proof.
  split; [| split; [reflexivity |]];
    eexists; (split; [reflexivity |]); vm_compute; reflexivity.
Qed.

(** The end-to-end scenario of the specification: fitting the bounds
    (0,0)-(1000,500) with padding 50 into an 800 x 600 surface gives
    scale 0.7 and puts (500,250) at the surface centre (400,300). *)
Example fitBounds_scenario :
  exists v', fitBounds (constructor no_options) (mkRect 800 600)
               (mkBounds 0 0 1000 500) 50 Instant = Some v' /\
    scale (transform v') == 7#10 /\
    point_eq (worldToScreen v' (mkPoint 500 250)) (mkPoint 400 300).
Proof.
  eexists. split; [reflexivity |]. split; [| split]; vm_compute; reflexivity.
Qed.

(** *** Zoom anchoring *)

(** C7, as stated, fails when a negative [minScale] lets the zoom land
    on scale zero: from scale 1 with [minScale = -1] and the default zoom
    speed, [zoom(-10, A)] reaches scale 0, where [screenToWorld] divides
    by zero and no longer yields the point that was under [A]. *)
Lemma zoom_anchor_counterexample :
  exists (v : Viewport) (delta : Q) (A : Point), ~ zoom_anchored v delta A.
Proof.
  exists (constructor (mkOptions (Some (-1)) None None None None)), (-10), (mkPoint 5 5).
  intros H. destruct H as (v' & Hz & Heq); [reflexivity |].
  vm_compute in Hz. injection Hz as <-.
  apply Heq. vm_compute. discriminate.
Qed.

(** C7 (amended): for every viewport with positive scale, every delta
    and every surface point A, [zoom(delta, A)] returns, and if it
    changes the scale to a non-zero value then [screenToWorld(A)] after
    the zoom equals [screenToWorld(A)] before it; the new scale is
    non-zero whenever [minScale] and [maxScale] are positive. *)
Theorem zoom_keeps_anchor (v : Viewport) (delta : Q) (A : Point) :
  0 < scale (transform v) ->
  exists v', zoom v delta (Some A) = Some v' /\
    (~ scale (transform v') == scale (transform v) ->
     ~ scale (transform v') == 0 ->
     opt_point_eq (screenToWorld v' A) (screenToWorld v A)) /\
    (0 < minScale v -> 0 < maxScale v -> ~ scale (transform v') == 0).
Proof.
  intros Hpos. unfold zoom.
  set (ns := clamp _ _ _).
  assert (Hs : ~ scale (transform v) == 0) by lra.
  destruct (Qeq_bool ns (scale (transform v))) eqn:Eq.
  { exists v. split; [reflexivity |]. split; [intros H; exfalso; apply H; reflexivity | intros _ _; exact Hs]. }
  unfold div. destruct (Qeq_bool (scale (transform v)) 0) eqn:Ez;
    [apply Qeq_bool_iff in Ez; tauto |].
  simpl. eexists. split; [reflexivity |]. split.
  - intros _ Hns. simpl in Hns.
    unfold screenToWorld, div; simpl. rewrite Ez.
    destruct (Qeq_bool ns 0) eqn:En; [apply Qeq_bool_iff in En; tauto |].
    simpl. split; simpl; field; tauto.
  - intros Hmn Hmx. simpl. by apply clamp_nonzero.
Qed.

Lemma zoom_keeps_anchor_witness :
  0 < scale (transform (constructor no_options)) /\
  exists v', zoom (constructor no_options) 2 (Some (mkPoint 30 40)) = Some v' /\
    (~ scale (transform v') == scale (transform (constructor no_options)) ->
     ~ scale (transform v') == 0 ->
     opt_point_eq (screenToWorld v' (mkPoint 30 40))
                  (screenToWorld (constructor no_options) (mkPoint 30 40))) /\
    (0 < minScale (constructor no_options) -> 0 < maxScale (constructor no_options) ->
     ~ scale (transform v') == 0).
Proof.
  assert (H : 0 < scale (transform (constructor no_options))) by reflexivity.
  split; [exact H |].
  exact (zoom_keeps_anchor (constructor no_options) 2 (mkPoint 30 40) H).
Defined.

(** *** Falsy options *)

(** C10, as stated, fails in its last part: a negative [minScale] is
    truthy and is kept, so the effective lower bound is not positive. *)
Lemma positive_lower_bound_counterexample :
  exists o : Options,
    minScale (constructor o) == -1 /\ ~ 0 < minScale (constructor o).
Proof.
  exists (mkOptions (Some (-1)) None None None None).
  split; [reflexivity |]. vm_compute. discriminate.
Qed.

(** C10 (amended): in Viewport construction an option given the value 0
    is treated as absent: [minScale] 0 becomes 0.1, [maxScale] 0 becomes
    5, [zoomSpeed] 0 becomes 0.1 and [initialScale] 0 becomes 1. So the
    zoom speed, the initial scale and both scale bounds are never zero,
    and the lower bound is strictly positive unless a negative
    [minScale] was supplied. *)
Theorem zero_option_is_absent
    (mn mx zs i0 : option Q) (pos : option Point) :
  let v := constructor (mkOptions mn mx zs i0 pos) in
  minScale (constructor (mkOptions (Some 0) mx zs i0 pos)) = 1#10 /\
  maxScale (constructor (mkOptions mn (Some 0) zs i0 pos)) = 5 /\
  zoomSpeed (constructor (mkOptions mn mx (Some 0) i0 pos)) = 1#10 /\
  scale (transform (constructor (mkOptions mn mx zs (Some 0) pos))) = 1 /\
  ~ zoomSpeed v == 0 /\ ~ scale (transform v) == 0 /\
  ~ minScale v == 0 /\ ~ maxScale v == 0 /\
  (0 < minScale v \/ exists m, mn = Some m /\ m < 0).
Proof.
  assert (Hnz : forall (o : option Q) (d : Q), ~ d == 0 -> ~ number_or o d == 0).
  { intros [q|] d Hd; simpl; [| exact Hd].
    destruct (Qeq_bool q 0) eqn:E; [exact Hd | by apply Qeq_bool_false]. }
  simpl. repeat split; try reflexivity; try (apply Hnz; discriminate).
  destruct mn as [m|]; simpl; [| left; reflexivity].
  destruct (Qeq_bool m 0) eqn:E; [left; reflexivity |].
  apply Qeq_bool_false in E.
  destruct (Qlt_le_dec m 0) as [Hneg | Hpos]; [right; eauto |].
  left. apply Qle_lt_or_eq in Hpos as [Hlt | Heq]; [exact Hlt |].
  exfalso. apply E. symmetry. exact Heq.
Qed.

End ViewportFacts.
(** * Further results: the viewport *)

Module ViewportMoreFacts.
Import JS Helpers Viewport ViewportQueries ViewportFacts.
Local Open Scope Q_scope.

Lemma div_Some (a b : Q) : ~ b == 0 -> div a b = Some (a / b).
Proof.
  intros H. unfold div. destruct (Qeq_bool b 0) eqn:E; [| reflexivity].
  apply Qeq_bool_iff in E. tauto.
Qed.

Lemma divide_Finite (a b : Q) : ~ b == 0 -> divide a b = Finite (a / b).
Proof.
  intros H. unfold divide. destruct (Qeq_bool b 0) eqn:E; [| reflexivity].
  apply Qeq_bool_iff in E. tauto.
Qed.

(** X1: for a transform of non-zero scale, [screenToWorld] and
    [worldToScreen] are inverse to each other, in both orders. *)
Theorem screen_world_inverse (v : Viewport) (P : Point) :
  ~ scale (transform v) == 0 ->
  opt_point_eq (screenToWorld v (worldToScreen v P)) (Some P) /\
  exists W, screenToWorld v P = Some W /\ point_eq (worldToScreen v W) P.
Proof.
  intros Hs. unfold screenToWorld, worldToScreen. rewrite !div_Some by exact Hs.
  simpl. split.
  - split; simpl; field; exact Hs.
  - eexists. split; [reflexivity |]. split; simpl; field; exact Hs.
Qed.

Lemma screen_world_inverse_witness :
  ~ scale (transform (constructor no_options)) == 0 /\
  opt_point_eq (screenToWorld (constructor no_options)
                  (worldToScreen (constructor no_options) (mkPoint 3 (-4))))
               (Some (mkPoint 3 (-4))) /\
  exists W, screenToWorld (constructor no_options) (mkPoint 3 (-4)) = Some W /\
            point_eq (worldToScreen (constructor no_options) W) (mkPoint 3 (-4)).
Proof.
  assert (H : ~ scale (transform (constructor no_options)) == 0) by discriminate.
  split; [exact H |].
  exact (screen_world_inverse (constructor no_options) (mkPoint 3 (-4)) H).
Defined.

Lemma drag_session_state (points : list Point) : forall (v : Viewport),
  isDragging v = true ->
  isDragging (foldl drag v points) = true /\
  dragStart (foldl drag v points) = dragStart v /\
  dragOffset (foldl drag v points) = dragOffset v /\
  scale (transform (foldl drag v points)) = scale (transform v) /\
  minScale (foldl drag v points) = minScale v /\
  maxScale (foldl drag v points) = maxScale v.
Proof.
  induction points as [|p points IH]; intros v Hd; simpl; [repeat split; done |].
  assert (Hd' : isDragging (drag v p) = true) by (unfold drag; by rewrite Hd).
  destruct (IH (drag v p) Hd') as (H1 & H2 & H3 & H4 & H5 & H6).
  rewrite H1, H2, H3, H4, H5, H6. unfold drag. rewrite Hd. simpl.
  repeat split.
Qed.

(** X2: dragging is a function of where the session started, not of
    the path: after [startDrag(s)] and any sequence of [drag] calls
    ending at p, the translation is the translation at the start plus
    [p - s] and the scale is untouched; without a session, [drag] does
    nothing. *)
Theorem drag_depends_on_start_only
    (v : Viewport) (s p : Point) (points : list Point) :
  let v' := drag_session v s (points ++ [p]) in
  x (transform v') = x (transform v) + (px p - px s) /\
  y (transform v') = y (transform v) + (py p - py s) /\
  scale (transform v') = scale (transform v) /\
  drag (endDrag v') p = endDrag v'.
Proof.
  unfold drag_session. rewrite foldl_app. simpl.
  destruct (drag_session_state points (startDrag v s) eq_refl)
    as (Hd & Hs & Ho & Hsc & _).
  revert Hd Hs Ho Hsc. generalize (foldl drag (startDrag v s) points).
  intros w Hd Hs Ho Hsc. unfold drag at 1 2 3. rewrite Hd. simpl.
  rewrite Hs, Ho, Hsc. simpl. repeat split.
Qed.

(** X3: a zoom that pushes against a bound the scale already sits on
    changes nothing: at [maxScale] when zooming in, at [minScale] when
    zooming out (for a non-negative scale and [minScale <= maxScale]). *)
Theorem zoom_saturates (v : Viewport) (delta : Q) (center : option Point) :
  minScale v <= maxScale v ->
  0 <= scale (transform v) ->
  (scale (transform v) == maxScale v /\ 0 <= delta * zoomSpeed v) \/
  (scale (transform v) == minScale v /\ delta * zoomSpeed v <= 0) ->
  zoom v delta center = Some v.
Proof.
  intros Hb Hs Hcase. unfold zoom.
  set (f := delta * zoomSpeed v) in *.
  assert (E : clamp (scale (transform v) * (1 + f)) (minScale v) (maxScale v)
              == scale (transform v)).
  { unfold clamp, Math_min, Math_max.
    destruct Hcase as [[He Hf] | [He Hf]].
    - assert (scale (transform v) <= scale (transform v) * (1 + f)) by nra.
      qcases; lra.
    - assert (scale (transform v) * (1 + f) <= scale (transform v)) by nra.
      qcases; lra. }
  apply Qeq_bool_iff in E. by rewrite E.
Qed.

Lemma zoom_saturates_witness :
  let v := setTransform (constructor no_options) None None (Some 9) Instant in
  minScale v <= maxScale v /\ 0 <= scale (transform v) /\
  ((scale (transform v) == maxScale v /\ 0 <= 1 * zoomSpeed v) \/
   (scale (transform v) == minScale v /\ 1 * zoomSpeed v <= 0)) /\
  zoom v 1 (Some (mkPoint 10 10)) = Some v.
Proof.
  set (v := setTransform (constructor no_options) None None (Some 9) Instant).
  assert (H1 : minScale v <= maxScale v) by (vm_compute; discriminate).
  assert (H2 : 0 <= scale (transform v)) by (vm_compute; discriminate).
  assert (H3 : (scale (transform v) == maxScale v /\ 0 <= 1 * zoomSpeed v) \/
               (scale (transform v) == minScale v /\ 1 * zoomSpeed v <= 0)).
  { left. split; [reflexivity | vm_compute; discriminate]. }
  split; [exact H1 |]. split; [exact H2 |]. split; [exact H3 |].
  exact (zoom_saturates v 1 (Some (mkPoint 10 10)) H1 H2 H3).
Defined.

(** X4: over exact rational arithmetic, [centerTo(point)] applied at
    once puts the document point at the centre of the surface; it keeps
    the scale. (On doubles [point.x * scale] and the two sums round, and
    the point can miss the centre by a rounding error.) *)
Theorem centerTo_centres (v : Viewport) (rect : ClientRect) (P : Point) :
  let v' := centerTo v rect P Instant in
  point_eq (worldToScreen v' P)
           (mkPoint (rect_width rect / 2) (rect_height rect / 2)) /\
  scale (transform v') = scale (transform v).
Proof.
  simpl. split; [| reflexivity]. split; simpl; ring.
Qed.

(** X5: over exact rational arithmetic, [fitBounds] applied at once,
    for bounds of positive extent that fit the padded surface at
    [minScale]: the centre of the bounds lands on the centre of the
    surface, and the bounds, as drawn, keep the padding from every edge
    of the surface. (On doubles the quotients and products round, and
    both can fail by a rounding error.) *)
Theorem fitBounds_fits
    (v : Viewport) (rect : ClientRect) (b : Bounds) (padding : Q) :
  minScale v <= maxScale v ->
  0 < maxX b - minX b -> 0 < maxY b - minY b ->
  minScale v * (maxX b - minX b) <= rect_width rect - padding * 2 ->
  minScale v * (maxY b - minY b) <= rect_height rect - padding * 2 ->
  exists v', fitBounds v rect b padding Instant = Some v' /\
    point_eq (worldToScreen v' (mkPoint ((minX b + maxX b) / 2) ((minY b + maxY b) / 2)))
             (mkPoint (rect_width rect / 2) (rect_height rect / 2)) /\
    padding <= px (worldToScreen v' (mkPoint (minX b) (minY b))) /\
    padding <= py (worldToScreen v' (mkPoint (minX b) (minY b))) /\
    px (worldToScreen v' (mkPoint (maxX b) (maxY b))) <= rect_width rect - padding /\
    py (worldToScreen v' (mkPoint (maxX b) (maxY b))) <= rect_height rect - padding.
Proof.
  intros Hb Hw Hh Hfw Hfh. unfold fitBounds.
  rewrite !divide_Finite by lra. simpl.
  set (bw := maxX b - minX b) in *. set (bh := maxY b - minY b) in *.
  set (sx := (rect_width rect - padding * 2) / bw).
  set (sy := (rect_height rect - padding * 2) / bh).
  assert (Hsx : sx * bw == rect_width rect - padding * 2)
    by (unfold sx; field; lra).
  assert (Hsy : sy * bh == rect_height rect - padding * 2)
    by (unfold sy; field; lra).
  set (s := clamp (Math_min sx sy) (minScale v) (maxScale v)).
  assert (Hmx : minScale v <= sx) by nra.
  assert (Hmy : minScale v <= sy) by nra.
  assert (Hs : s <= sx /\ s <= sy).
  { unfold s, clamp, Math_min, Math_max. qcases; lra. }
  destruct Hs as [Hs1 Hs2].
  assert (Hsw : s * bw <= rect_width rect - padding * 2) by nra.
  assert (Hsh : s * bh <= rect_height rect - padding * 2) by nra.
  eexists. split; [reflexivity |]. unfold worldToScreen, setTransform; simpl.
  fold s. unfold bw, bh in Hsw, Hsh.
  assert (Hcl : clamp s (minScale v) (maxScale v) == s).
  { destruct (clamp_bounds (Math_min sx sy) _ _ Hb). by apply clamp_fixed. }
  revert Hcl. generalize (clamp s (minScale v) (maxScale v)). intros s' Hcl.
  assert (Hcx : 2 * ((minX b + maxX b) / 2) == minX b + maxX b) by field.
  assert (Hcy : 2 * ((minY b + maxY b) / 2) == minY b + maxY b) by field.
  assert (Hhw : 2 * (rect_width rect / 2) == rect_width rect) by field.
  assert (Hhh : 2 * (rect_height rect / 2) == rect_height rect) by field.
  revert Hcx Hcy Hhw Hhh.
  generalize ((minX b + maxX b) / 2), ((minY b + maxY b) / 2),
             (rect_width rect / 2), (rect_height rect / 2).
  intros cx cy hw hh Hcx Hcy Hhw Hhh.
  unfold point_eq; simpl. repeat split; nra.
Qed.

Lemma fitBounds_fits_witness :
  let v := constructor no_options in
  let rect := mkRect 800 600 in
  let b := mkBounds 0 0 1000 500 in
  minScale v <= maxScale v /\
  0 < maxX b - minX b /\ 0 < maxY b - minY b /\
  minScale v * (maxX b - minX b) <= rect_width rect - 50 * 2 /\
  minScale v * (maxY b - minY b) <= rect_height rect - 50 * 2 /\
  exists v', fitBounds v rect b 50 Instant = Some v' /\
    point_eq (worldToScreen v' (mkPoint ((minX b + maxX b) / 2) ((minY b + maxY b) / 2)))
             (mkPoint (rect_width rect / 2) (rect_height rect / 2)) /\
    50 <= px (worldToScreen v' (mkPoint (minX b) (minY b))) /\
    50 <= py (worldToScreen v' (mkPoint (minX b) (minY b))) /\
    px (worldToScreen v' (mkPoint (maxX b) (maxY b))) <= rect_width rect - 50 /\
    py (worldToScreen v' (mkPoint (maxX b) (maxY b))) <= rect_height rect - 50.
Proof.
  cbv zeta.
  assert (H1 : minScale (constructor no_options) <= maxScale (constructor no_options))
    by (vm_compute; discriminate).
  assert (H2 : 0 < maxX (mkBounds 0 0 1000 500) - minX (mkBounds 0 0 1000 500))
    by reflexivity.
  assert (H3 : 0 < maxY (mkBounds 0 0 1000 500) - minY (mkBounds 0 0 1000 500))
    by reflexivity.
  assert (H4 : minScale (constructor no_options)
               * (maxX (mkBounds 0 0 1000 500) - minX (mkBounds 0 0 1000 500))
               <= rect_width (mkRect 800 600) - 50 * 2) by (vm_compute; discriminate).
  assert (H5 : minScale (constructor no_options)
               * (maxY (mkBounds 0 0 1000 500) - minY (mkBounds 0 0 1000 500))
               <= rect_height (mkRect 800 600) - 50 * 2) by (vm_compute; discriminate).
  split; [exact H1 |]. split; [exact H2 |]. split; [exact H3 |].
  split; [exact H4 |]. split; [exact H5 |].
  exact (fitBounds_fits (constructor no_options) (mkRect 800 600)
           (mkBounds 0 0 1000 500) 50 H1 H2 H3 H4 H5).
Defined.

(** X6: over exact rational arithmetic and for a positive scale,
    [getVisibleBounds] is the region of document space that the surface
    shows: a document point lies within the visible bounds exactly when
    [worldToScreen] puts it on the surface. (On doubles the quotients
    of [getVisibleBounds] and the products of [worldToScreen] round, so
    the two can differ for points on the border.) *)
Theorem visible_bounds_are_what_is_shown
    (v : Viewport) (rect : ClientRect) (P : Point) :
  0 < scale (transform v) ->
  exists b, getVisibleBounds v rect = Some b /\
    (within P b <-> on_surface (worldToScreen v P) rect).
Proof.
  intros Hs. unfold getVisibleBounds. rewrite !div_Some by lra. simpl.
  eexists. split; [reflexivity |].
  unfold within, on_surface, worldToScreen; simpl.
  set (s := scale (transform v)) in *.
  set (tx := x (transform v)). set (ty := y (transform v)).
  assert (E1 : (- tx / s) * s == - tx) by (field; lra).
  assert (E2 : (- ty / s) * s == - ty) by (field; lra).
  assert (E3 : ((rect_width rect - tx) / s) * s == rect_width rect - tx) by (field; lra).
  assert (E4 : ((rect_height rect - ty) / s) * s == rect_height rect - ty) by (field; lra).
  revert E1 E2 E3 E4.
  generalize (- tx / s), (- ty / s), ((rect_width rect - tx) / s),
             ((rect_height rect - ty) / s).
  intros a1 a2 a3 a4 E1 E2 E3 E4.
  split; intros (H1 & H2 & H3 & H4); repeat split; nra.
Qed.

Lemma visible_bounds_are_what_is_shown_witness :
  0 < scale (transform (constructor no_options)) /\
  exists b, getVisibleBounds (constructor no_options) (mkRect 800 600) = Some b /\
    (within (mkPoint 10 20) b
     <-> on_surface (worldToScreen (constructor no_options) (mkPoint 10 20))
                    (mkRect 800 600)).
Proof.
  assert (H : 0 < scale (transform (constructor no_options))) by reflexivity.
  split; [exact H |].
  exact (visible_bounds_are_what_is_shown (constructor no_options) (mkRect 800 600)
           (mkPoint 10 20) H).
Defined.

Lemma easeInOutCubic_one (p : Q) : p == 1 -> easeInOutCubic p == 1.
Proof.
  intros Hp. unfold easeInOutCubic.
  destruct (Qle_bool (1#2) p) eqn:E.
  - rewrite Hp. reflexivity.
  - apply Qle_bool_false in E. lra.
Qed.

Lemma easeInOutCubic_zero (p : Q) : p == 0 -> easeInOutCubic p == 0.
Proof.
  intros Hp. unfold easeInOutCubic.
  destruct (Qle_bool (1#2) p) eqn:E.
  - apply Qle_bool_iff in E. lra.
  - rewrite Hp. reflexivity.
Qed.

Lemma frame_start (v : Viewport) (a : Animation) :
  animation v = Some a ->
  transform_eq (transform (frame v 0)) (anim_start a) /\
  animation (frame v 0) = Some a.
Proof.
  intros Ha. unfold frame. rewrite Ha.
  assert (Hp0 : Math_min (0 / zoomDuration) 1 == 0) by reflexivity.
  assert (Hnot : Qle_bool 1 (Math_min (0 / zoomDuration) 1) = false) by reflexivity.
  rewrite Hnot. split; [| exact Ha].
  unfold transform_eq, lerp; simpl.
  rewrite (easeInOutCubic_zero _ Hp0). repeat split; ring.
Qed.

Lemma frame_done (v : Viewport) (a : Animation) (elapsed : Q) :
  animation v = Some a -> zoomDuration <= elapsed ->
  transform_eq (transform (frame v elapsed)) (anim_target a) /\
  animation (frame v elapsed) = None.
Proof.
  intros Ha He. unfold frame. rewrite Ha.
  assert (Hp1 : Math_min (elapsed / zoomDuration) 1 == 1).
  { unfold Math_min, zoomDuration in *.
    assert (Hd : elapsed / 150 == elapsed * (1#150)) by field.
    qcases; lra. }
  assert (Hdone : Qle_bool 1 (Math_min (elapsed / zoomDuration) 1) = true)
    by (apply Qle_bool_iff; rewrite Hp1; lra).
  rewrite Hdone. split; [| reflexivity].
  unfold transform_eq, lerp; simpl.
  rewrite (easeInOutCubic_one _ Hp1). repeat split; ring.
Qed.

(** X7: over exact rational arithmetic, an animated transition starts
    where the viewport is and ends on its target: the frame that runs
    at once (elapsed time 0) leaves the transform as it is with the
    animation pending, and a frame that runs when [zoomDuration]
    (150 ms) or more has elapsed puts the transform on the target and
    ends the animation, after which frames do nothing. (On doubles the
    last frame applies [start + (target - start) * 1], which can miss
    the target by a rounding error, as
    [Doubles.scale_after_animated_zoom_out] does.) *)
Theorem animation_ends_on_target
    (v : Viewport) (target : ViewportTransform) (elapsed later : Q) :
  zoomDuration <= elapsed ->
  let v0 := animateTransform v target 0 in
  let v1 := frame v0 elapsed in
  transform_eq (transform v0) (transform v) /\
  animation v0 = Some (mkAnimation (transform v) target) /\
  transform_eq (transform v1) target /\
  animation v1 = None /\
  frame v1 later = v1.
Proof.
  intros He. cbv zeta. unfold animateTransform.
  destruct (frame_start (with_animation v (Some (mkAnimation (transform v) target)))
              _ eq_refl) as [Ht0 Ha0].
  destruct (frame_done _ _ elapsed Ha0 He) as [Ht1 Ha1].
  split; [exact Ht0 |]. split; [exact Ha0 |]. split; [exact Ht1 |].
  split; [exact Ha1 |]. unfold frame at 1. by rewrite Ha1.
Qed.

Lemma animation_ends_on_target_witness :
  zoomDuration <= 200 /\
  let v0 := animateTransform (constructor no_options) (mkTransform 40 50 2) 0 in
  let v1 := frame v0 200 in
  transform_eq (transform v0) (transform (constructor no_options)) /\
  animation v0 = Some (mkAnimation (transform (constructor no_options))
                                   (mkTransform 40 50 2)) /\
  transform_eq (transform v1) (mkTransform 40 50 2) /\
  animation v1 = None /\
  frame v1 10 = v1.
Proof.
  assert (H : zoomDuration <= 200) by (vm_compute; discriminate).
  split; [exact H |].
  exact (animation_ends_on_target (constructor no_options) (mkTransform 40 50 2)
           200 10 H).
Defined.

(** X8: over exact rational arithmetic, with the exact cube for
    [Math.pow(b, 3)]: on [[0, 1]] the easing curve stays within
    [[0, 1]], never decreases, and is symmetric about the midpoint:
    [easeInOutCubic(1 - t) = 1 - easeInOutCubic(t)]. (On doubles the
    symmetry can fail by a rounding error.) *)
Theorem easeInOutCubic_shape (t u : Q) :
  0 <= t -> t <= u -> u <= 1 ->
  0 <= easeInOutCubic t /\ easeInOutCubic t <= easeInOutCubic u /\
  easeInOutCubic u <= 1 /\
  easeInOutCubic (1 - t) == 1 - easeInOutCubic t.
Proof.
  intros H0 Htu H1.
  destruct (easeInOutCubic_unit t) as [Ht0 Ht1]; [lra | lra |].
  destruct (easeInOutCubic_unit u) as [Hu0 Hu1]; [lra | lra |].
  split; [exact Ht0 |]. split; [| split; [exact Hu1 |]].
  - unfold easeInOutCubic.
    assert (Hcube : forall a b : Q, 0 <= a -> a <= b -> a * a * a <= b * b * b).
    { intros a b Ha Hab.
      assert (a * a <= b * b) by nra.
      assert (0 <= a * a) by nra. nra. }
    assert (Hdiv : forall c : Q, c / 2 == c * (1#2)) by (intros; field).
    destruct (Qle_bool (1#2) t) eqn:Et; destruct (Qle_bool (1#2) u) eqn:Eu;
      try apply Qle_bool_iff in Et; try apply Qle_bool_iff in Eu;
      try apply Qle_bool_false in Et; try apply Qle_bool_false in Eu.
    + pose proof (Hcube (-2 * u + 2) (-2 * t + 2) ltac:(lra) ltac:(lra)) as Hc.
      rewrite !Hdiv. lra.
    + lra.
    + destruct (cube_half t H0 Et) as [_ Hth].
      destruct (cube_unit (-2 * u + 2)) as [Huc0 Huc1]; [lra | lra |].
      rewrite Hdiv. lra.
    + pose proof (Hcube t u H0 Htu). lra.
  - unfold easeInOutCubic.
    destruct (Qle_bool (1#2) t) eqn:Et; destruct (Qle_bool (1#2) (1 - t)) eqn:Es;
      try apply Qle_bool_iff in Et; try apply Qle_bool_iff in Es;
      try apply Qle_bool_false in Et; try apply Qle_bool_false in Es.
    + assert (Eh : t == 1#2) by lra. rewrite Eh. reflexivity.
    + field.
    + field.
    + lra.
Qed.

Lemma easeInOutCubic_shape_witness :
  0 <= (1#4) /\ (1#4) <= (3#4) /\ (3#4) <= 1 /\
  0 <= easeInOutCubic (1#4) /\ easeInOutCubic (1#4) <= easeInOutCubic (3#4) /\
  easeInOutCubic (3#4) <= 1 /\
  easeInOutCubic (1 - (1#4)) == 1 - easeInOutCubic (1#4).
Proof.
  assert (H0 : 0 <= (1#4)) by (vm_compute; discriminate).
  assert (H1 : (1#4) <= (3#4)) by (vm_compute; discriminate).
  assert (H2 : (3#4) <= 1) by (vm_compute; discriminate).
  split; [exact H0 |]. split; [exact H1 |]. split; [exact H2 |].
  exact (easeInOutCubic_shape (1#4) (3#4) H0 H1 H2).
Defined.


End ViewportMoreFacts.
(** * Further results: the geometry kernel *)

Module GeometryFacts.
Import Helpers Viewport ViewportQueries Geometry ViewportFacts.
Local Open Scope Q_scope.


Lemma Qlt_bool_spec (a b : Q) : Qlt_bool a b = true <-> a < b.
Proof.
  unfold Qlt_bool. rewrite negb_true_iff. split.
  - apply Qle_bool_false.
  - intros H. destruct (Qle_bool b a) eqn:E; [| reflexivity].
    apply Qle_bool_iff in E. lra.
Qed.






End GeometryFacts.
(** * Results on doubles: the scale, and the rounding replayed *)

Module DoublesFacts.
Import PrimFloat FloatOps FloatAxioms SpecFloat Doubles.
Local Open Scope float_scope.

(** *** The order of doubles *)

Lemma SFcompare_antisym (a b : spec_float) :
  SFcompare b a = option_map CompOpp (SFcompare a b).
Proof.
  destruct a as [sa | sa | | sa ma ea], b as [sb | sb | | sb mb eb]; simpl;
    try reflexivity; try (destruct sa; reflexivity); try (destruct sb; reflexivity);
    try (destruct sa, sb; reflexivity).
  assert (Hm : PosDef.Pos.compare_cont Eq mb ma
               = CompOpp (PosDef.Pos.compare_cont Eq ma mb))
    by (symmetry; exact (Pos.compare_cont_antisym ma mb Eq)).
  destruct sa, sb; try reflexivity; f_equal;
    rewrite (Z.compare_antisym ea eb), Hm;
    destruct (ea ?= eb)%Z; simpl; try reflexivity.
Qed.

Lemma SFcompare_refl (a : spec_float) :
  a <> S754_nan -> SFcompare a a = Some Eq.
Proof.
  destruct a as [sa | sa | | sa ma ea]; simpl; intros H; try congruence.
  - by destruct sa.
  - assert (Hm : PosDef.Pos.compare_cont Eq ma ma = Eq)
      by exact (Pos.compare_cont_refl ma Eq).
    rewrite Z.compare_refl, Hm. by destruct sa.
Qed.

Lemma double_is_number (a : float) : is_nan a = false <-> Prim2SF a <> S754_nan.
Proof.
  unfold is_nan. rewrite eqb_spec. unfold SFeqb. split.
  - intros H Hn. rewrite Hn in H. discriminate.
  - intros H. by rewrite SFcompare_refl.
Qed.

(** Among numbers, "not below" is "at least". *)
Lemma double_not_below (a b : float) :
  is_nan a = false -> is_nan b = false -> (a <? b) = false -> (b <=? a) = true.
Proof.
  rewrite !double_is_number, ltb_spec, leb_spec. unfold SFltb, SFleb.
  intros Ha Hb. rewrite (SFcompare_antisym (Prim2SF a) (Prim2SF b)).
  assert (Hsome : exists c, SFcompare (Prim2SF a) (Prim2SF b) = Some c).
  { destruct (Prim2SF a), (Prim2SF b); simpl; try congruence; eauto. }
  destruct Hsome as [c ->]. by destruct c.
Qed.

Lemma double_below_leb (a b : float) : (a <? b) = true -> (a <=? b) = true.
Proof.
  rewrite ltb_spec, leb_spec. unfold SFltb, SFleb.
  by destruct (SFcompare _ _) as [[]|].
Qed.

Lemma double_leb_refl (a : float) : is_nan a = false -> (a <=? a) = true.
Proof.
  rewrite double_is_number, leb_spec. unfold SFleb. intros H.
  by rewrite SFcompare_refl.
Qed.

Lemma double_leb_numbers (a b : float) :
  (a <=? b) = true -> is_nan a = false /\ is_nan b = false.
Proof.
  rewrite !double_is_number, leb_spec. unfold SFleb.
  destruct (Prim2SF a), (Prim2SF b); simpl; try discriminate; split; congruence.
Qed.

(** *** [clamp] on doubles *)

Lemma double_Math_max_above (a b : float) :
  is_nan a = false -> is_nan b = false ->
  is_nan (Math_max a b) = false /\ (b <=? Math_max a b) = true.
Proof.
  intros Ha Hb. unfold Math_max. rewrite Ha, Hb. simpl.
  destruct (a <? b) eqn:E1; [split; [exact Hb | by apply double_leb_refl] |].
  destruct (b <? a) eqn:E2; [split; [exact Ha | by apply double_below_leb] |].
  destruct (get_sign a); (split; [done |]);
    [by apply double_leb_refl | by apply double_not_below].
Qed.

Lemma double_Math_min_cases (a b : float) :
  is_nan a = false -> is_nan b = false ->
  Math_min a b = a \/ Math_min a b = b.
Proof.
  intros Ha Hb. unfold Math_min. rewrite Ha, Hb. simpl.
  destruct (a <? b); [by left |]. destruct (b <? a); [by right |].
  destruct (get_sign a); auto.
Qed.

Lemma double_Math_min_below (a b : float) :
  is_nan a = false -> is_nan b = false -> (Math_min a b <=? b) = true.
Proof.
  intros Ha Hb. unfold Math_min. rewrite Ha, Hb. simpl.
  destruct (a <? b) eqn:E1; [by apply double_below_leb |].
  destruct (b <? a) eqn:E2; [by apply double_leb_refl |].
  destruct (get_sign a); [| by apply double_leb_refl].
  by apply double_not_below.
Qed.

(** On doubles, [clamp] of any number (an infinity included) lies
    within bounds that are in order; [clamp] of [NaN] is [NaN]. So a
    scale that a call takes from [clamp] is within the bounds whatever
    the rounding of the value that was clamped, as long as it is a
    number. *)
Lemma double_clamp_within (value min max : float) :
  (min <=? max) = true ->
  (is_nan value = false -> within min max (clamp value min max) = true) /\
  (is_nan value = true -> is_nan (clamp value min max) = true).
Proof.
  intros Hb. destruct (double_leb_numbers _ _ Hb) as [Hmin Hmax]. split.
  - intros Hv.
    destruct (double_Math_max_above value min Hv Hmin) as [Hn Hlow].
    unfold within, clamp. apply andb_true_intro. split.
    + destruct (double_Math_min_cases (Math_max value min) max Hn Hmax) as [-> | ->];
        [exact Hlow | exact Hb].
    + by apply double_Math_min_below.
  - intros Hv. unfold clamp, Math_max. rewrite Hv. simpl.
    unfold Math_min. reflexivity.
Qed.

Lemma double_within_number (min max s : float) :
  within min max s = true -> is_nan s = false.
Proof.
  unfold within. intros H. apply andb_prop in H as [H _].
  by destruct (double_leb_numbers _ _ H).
Qed.

(** *** Frames that keep the scale *)

(** A finite double is a zero or a finite number of the format. *)
Lemma double_finite (a : float) :
  finite a = true <->
  (exists s, Prim2SF a = S754_zero s) \/ (exists s m e, Prim2SF a = S754_finite s m e).
Proof.
  unfold finite. rewrite !ltb_spec. unfold SFltb.
  change (Prim2SF neg_infinity) with (S754_infinity true).
  change (Prim2SF infinity) with (S754_infinity false).
  split.
  - intros H. apply andb_prop in H as [H1 H2].
    destruct (Prim2SF a) as [s | s | | s m e]; simpl in *; eauto.
    + destruct s; discriminate.
    + discriminate.
  - intros [[s ->] | (s & m & e & ->)]; reflexivity.
Qed.

(** A scale within finite bounds is finite. *)
Lemma double_within_finite (min max s : float) :
  finite min = true -> finite max = true ->
  within min max s = true -> finite s = true.
Proof.
  rewrite !double_finite. unfold within. rewrite !leb_spec. unfold SFleb.
  intros Hmin Hmax H. apply andb_prop in H as [H1 H2].
  destruct (Prim2SF s) as [b | b | | b m e]; eauto.
  - destruct b.
    + destruct Hmin as [[c Hc] | (c & m & e & Hc)]; rewrite Hc in H1;
        simpl in H1; destruct c; discriminate.
    + destruct Hmax as [[c Hc] | (c & m & e & Hc)]; rewrite Hc in H2;
        simpl in H2; destruct c; discriminate.
  - destruct (Prim2SF min); discriminate.
Qed.

(** The same number, up to the sign of zero. *)
Lemma SFcompare_zero (s1 s2 : bool) (c : spec_float) :
  SFcompare c (S754_zero s1) = SFcompare c (S754_zero s2) /\
  SFcompare (S754_zero s1) c = SFcompare (S754_zero s2) c.
Proof. by destruct c. Qed.

(** On doubles [lerp(s, s, t)] is the number [s] for finite [s] and
    [t]: [s - s] is [+0], its product with [t] is a zero, and adding a
    zero to [s] gives [s] (up to the sign of zero when [s] is zero). So
    it lies within the bounds that [s] lies within. *)
Lemma double_lerp_same (min max s t : float) :
  finite s = true -> finite t = true ->
  within min max (lerp s s t) = within min max s.
Proof.
  intros Hs Ht. unfold within, lerp.
  rewrite !leb_spec, add_spec, mul_spec, sub_spec.
  unfold SFleb, SF64add, SF64mul, SF64sub.
  assert (Hsub : SFsub prec emax (Prim2SF s) (Prim2SF s) = S754_zero false).
  { apply double_finite in Hs as [[b ->] | (b & m & e & ->)]; simpl.
    - by destruct b.
    - rewrite Z.sub_diag. reflexivity. }
  rewrite Hsub.
  assert (Hmul : exists b, SFmul prec emax (S754_zero false) (Prim2SF t) = S754_zero b).
  { apply double_finite in Ht as [[b ->] | (b & m & e & ->)]; simpl; eauto. }
  destruct Hmul as [b ->].
  apply double_finite in Hs as [[b' ->] | (b' & m & e & ->)]; simpl SFadd;
    [| reflexivity].
  assert (Hz : exists b2, (if b' then if b then S754_zero b' else S754_zero false
                           else if b then S754_zero false else S754_zero b')
                          = S754_zero b2) by (destruct b', b; eauto).
  destruct Hz as [b2 ->].
  destruct (SFcompare_zero b2 b' (Prim2SF min)) as [-> _].
  by destruct (SFcompare_zero b2 b' (Prim2SF max)) as [_ ->].
Qed.

(** *** The scale on doubles *)

(** On doubles: when the bounds are finite and in order and the scale
    starts within them, the scale lies within the bounds after every
    sequence of calls made without animation, of animated calls that
    are given no scale and of frames, provided every value handed to
    [clamp] is a number (an infinity included) and every frame runs at
    a finite [t]. Rounding does not enter: the scale is a result of
    [clamp] or a scale reached before. *)
Lemma scale_on_doubles (calls : list Call) : forall v : Scales,
  (minScale v <=? maxScale v) = true ->
  finite (minScale v) = true -> finite (maxScale v) = true ->
  within (minScale v) (maxScale v) (scale v) = true ->
  steady v ->
  numbers v calls = true ->
  let v' := foldl perform v calls in
  minScale v' = minScale v /\ maxScale v' = maxScale v /\
  within (minScale v) (maxScale v) (scale v') = true.
Proof.
  induction calls as [|call calls IH]; intros v Hb Hfmin Hfmax Hs Ha Hn;
    cbn [foldl]; [by repeat split |].
  cbn [numbers] in Hn. apply andb_prop in Hn as [Hcall Hrest].
  assert (Hclamp : forall e, is_nan e = false ->
            within (minScale v) (maxScale v) (clamp e (minScale v) (maxScale v)) = true).
  { intros e He. by apply (double_clamp_within e _ _ Hb). }
  assert (Hframe : forall (u : Scales) (t : float) (more : bool),
            minScale u = minScale v -> maxScale u = maxScale v ->
            within (minScale v) (maxScale v) (scale u) = true -> steady u ->
            finite t = true ->
            minScale (frame u t more) = minScale v /\
            maxScale (frame u t more) = maxScale v /\
            within (minScale v) (maxScale v) (scale (frame u t more)) = true /\
            steady (frame u t more)).
  { intros u t more Hmin Hmax Hu Hsteady Ht. unfold frame, steady in *.
    destruct (animation u) as [[start target]|] eqn:Ea;
      [| rewrite Ea; by repeat split].
    destruct Hsteady as [-> Hstart]. rewrite Hmin, Hmax in Hstart.
    cbn [minScale maxScale scale animation].
    split; [exact Hmin |]. split; [exact Hmax |]. split.
    - rewrite double_lerp_same; [exact Hstart | | exact Ht].
      exact (double_within_finite _ _ _ Hfmin Hfmax Hstart).
    - destruct more; [| exact I]. split; [reflexivity |]. by rewrite Hmin, Hmax. }
  assert (Hstep : minScale (perform v call) = minScale v /\
                  maxScale (perform v call) = maxScale v /\
                  within (minScale v) (maxScale v) (scale (perform v call)) = true /\
                  steady (perform v call)).
  { assert (Hkeep : minScale v = minScale v /\ maxScale v = maxScale v /\
                    within (minScale v) (maxScale v) (scale v) = true /\ steady v)
      by (split; [| split; [| split]]; done).
    assert (Hset : forall e, is_nan e = false ->
              minScale (with_scale v (clamp e (minScale v) (maxScale v))) = minScale v /\
              maxScale (with_scale v (clamp e (minScale v) (maxScale v))) = maxScale v /\
              within (minScale v) (maxScale v)
                (scale (with_scale v (clamp e (minScale v) (maxScale v)))) = true /\
              steady (with_scale v (clamp e (minScale v) (maxScale v)))).
    { intros e He. split; [reflexivity |]. split; [reflexivity |].
      split; [by apply Hclamp | exact Ha]. }
    destruct call as [[s|] | delta | w h x0 y0 x1 y1 p | | | | | t more | t more];
      cbn [perform call_ok clamped] in *; try exact Hkeep;
      try apply negb_true_iff in Hcall.
    - by apply Hset.
    - destruct (_ =? _); [exact Hkeep | by apply Hset].
    - unfold fitBounds_scale, setTransform_scale.
      apply Hset. eapply double_within_number. by apply Hclamp.
    - by apply Hset.
    - by apply Hframe.
    - by apply Hframe. }
  destruct Hstep as (Hmin & Hmax & Hs' & Ha').
  destruct (IH (perform v call)) as (H1 & H2 & H3).
  - by rewrite Hmin, Hmax.
  - by rewrite Hmin.
  - by rewrite Hmax.
  - by rewrite Hmin, Hmax.
  - exact Ha'.
  - exact Hrest.
  - cbv zeta. rewrite H1, H2. rewrite Hmin, Hmax in H3. by repeat split.
Qed.

Example scale_on_doubles_sample :
  (minScale default_scales <=? maxScale default_scales) = true /\
  finite (minScale default_scales) = true /\
  finite (maxScale default_scales) = true /\
  within (minScale default_scales) (maxScale default_scales)
    (scale default_scales) = true /\
  steady default_scales /\
  numbers default_scales sample_calls = true /\
  within (minScale default_scales) (maxScale default_scales)
    (scale (foldl perform default_scales sample_calls)) = true.
Proof.
  assert (H1 : (minScale default_scales <=? maxScale default_scales) = true)
    by reflexivity.
  assert (H2 : finite (minScale default_scales) = true) by reflexivity.
  assert (H3 : finite (maxScale default_scales) = true) by reflexivity.
  assert (H4 : within (minScale default_scales) (maxScale default_scales)
                 (scale default_scales) = true) by reflexivity.
  assert (H5 : steady default_scales) by exact I.
  assert (H6 : numbers default_scales sample_calls = true) by reflexivity.
  repeat (split; [assumption |]).
  exact (proj2 (proj2 (scale_on_doubles sample_calls default_scales
                         H1 H2 H3 H4 H5 H6))).
Qed.

(** *** Replays *)

(** The results on the placing of the transform and on bounds that are
    stated over exact rational arithmetic do not survive the rounding
    of doubles as equalities. In a container 1920 wide at scale 0.1,
    [centerTo] of the point with [x = -1272.63] puts it at
    959.9999999999999, not 960. In a container 1024 by 720 with padding
    50, [fitBounds] of the bounds (-269.1, -281.2, 1115.1, 595.2) draws
    [minX] at 49.99999999999994, inside the padding. At scale 3 and
    [x = 10.1] in a container 800 wide, the point with [x = 263.3] is
    within the visible bounds and is drawn at 800.0000000000001, off
    the surface. The last frame of an animation from 0.3 to 0.9 applies
    0.9000000000000001. Expanding [maxX = 0.1] by 0.2 and then by -0.2
    gives 0.10000000000000003, and for the rectangle with [x = -81.2]
    and width 2.8 the centre of the bounds is -79.80000000000001 where
    the centre of the rectangle is -79.8. *)
Example rounding_on_doubles :
  (worldToScreen_x 0.1 (centerTo_x 1920 0.1 (-1272.63)) (-1272.63) <? 1920 / 2) = true /\
  (let s := fitBounds_scale 0.1 5 1024 720 (-269.1) (-281.2) 1115.1 595.2 50 in
   worldToScreen_x s (fitBounds_x 1024 s (-269.1) 1115.1) (-269.1) <? 50) = true /\
  ((263.3 <=? getVisibleBounds_maxX 800 3 10.1) = true /\
   (800 <? worldToScreen_x 3 10.1 263.3) = true) /\
  (0.9 <? last_frame_scale 0.3 0.9) = true /\
  (0.1 <? expandBounds_maxX (expandBounds_maxX 0.1 0.2) (-0.2)) = true /\
  (getBoundsCenter_x (-81.2) 2.8 <? getRectCenter_x (-81.2) 2.8) = true.
Proof. repeat split. Qed.

End DoublesFacts.
